(** * builtin-pickaxe.c: the blame engine, embedded and verified

    The development follows the source file top to bottom:

    - the outcomes of a run and the conventions for C integers;
    - the partition store: blame entries as a sequence, [coalesce],
      [add_blame_entry], [dup_entry], [split_overlap], [split_blame];
    - the patch adapter: [process_u_diff] and [compare_buffer];
    - the engine: [blame_chunk], [pass_blame_to_parent], the mover and the
      copier, [pass_blame] and [assign_blame];
    - the alignment pass: [lineno_width];
    - the command line: [parse_score], the option loop of [cmd_pickaxe] and the
      set-up of the blamed line range;
    - module [Linked]: the store operations once more, on heap cells with
      [prev]/[next] pointers, related to the sequence by a segment predicate.

    Definitions come first, the theorems about them follow in the second part.

    C [int] values are modelled in [Z].  Signed overflow is undefined behaviour
    in C and is outside the model, except in [lineno_width] where the loop
    counter is the quantity under study; [unsigned] values are reduced modulo
    2^32 where the source relies on it. *)

From Stdlib Require Import ZArith List Bool Lia String Ascii.
From stdpp Require Import base tactics option list gmap.
Import ListNotations.

Local Open Scope Z_scope.

(** ** Outcomes *)

(** A call either returns, ends the process ([die], [usage], or a null pointer
    that the source dereferences without a test), or is cut short because the
    model ran out of the fuel that bounds its loops. *)
Inductive outcome (A : Type) : Type :=
| Done (a : A)
| Fatal
| OutOfFuel.

Arguments Done {A} a.
Arguments Fatal {A}.
Arguments OutOfFuel {A}.

#[global] Instance outcome_ret : MRet outcome := fun A a => Done a.

#[global] Instance outcome_bind : MBind outcome := fun A B k m =>
  match m with
  | Done a => k a
  | Fatal => Fatal
  | OutOfFuel => OutOfFuel
  end.

Definition returns {A : Type} (m : outcome A) : Prop :=
  match m with Done _ => True | _ => False end.

Definition terminates {A : Type} (m : outcome A) : Prop :=
  match m with OutOfFuel => False | _ => True end.

(** * Part I: the program *)

(** ** Objects, origins and blame entries *)

(** An object name (20 bytes in the source) as a number; [hashcmp] is [memcmp]
    on the bytes, which orders big-endian numbers. *)
Definition sha1 : Type := N.

Definition hashcmp (a b : sha1) : Z :=
  match N.compare a b with Eq => 0 | Lt => -1 | Gt => 1 end.

Definition strcmp (a b : string) : Z :=
  match String.compare a b with Eq => 0 | Lt => -1 | Gt => 1 end.

(** [struct origin], lines 59-63.  A commit is named by its object name: commit
    objects are interned, so the pointer tests of the source on commits are
    tests on names.  Origins are not interned: [find_origin] makes a new
    object whenever no entry carries the commit and the path, so two objects
    may hold the same commit, blob and path.  [oid] is the address of the
    object, which is what [==] on two [struct origin *] compares (line 773).
    Origins are never written after [find_origin] fills them. *)
Record origin : Type := mk_origin {
  oid : nat;
  commit : sha1;
  blob_sha1 : sha1;
  path : string
}.

#[global] Instance origin_eq_dec : EqDecision origin.
Proof. solve_decision. Defined.

(** [struct blame_entry], lines 65-94, without the two links: the entries of a
    scoreboard are kept as the sequence that [next] threads ([Linked] puts the
    links back).  An entry of the scoreboard always has a suspect; the
    [split[3]] arrays of the source, whose slots are switched off by a null
    suspect, are triples of optional entries. *)
Record blame_entry : Type := mk_entry {
  lno : Z;
  num_lines : Z;
  suspect : origin;
  guilty : bool;
  s_lno : Z;
  score : Z
}.

(** [struct scoreboard], lines 96-114, and with it what the engine sees of
    the heap: [origins_made] lies above the [oid] of every origin that
    [xcalloc] has handed out, so that the next object [find_origin] makes
    gets an address no other object has.  It moves up by one for every call
    of [find_origin] that may have made an object, whether it has or not. *)
Record scoreboard : Type := mk_scoreboard {
  final : sha1;
  sb_path : string;
  final_buf : list ascii;
  ent : list blame_entry;
  sb_num_lines : Z;
  lineno : list Z;
  origins_made : nat
}.

Definition with_ent (sb : scoreboard) (l : list blame_entry) : scoreboard :=
  {| final := final sb; sb_path := sb_path sb; final_buf := final_buf sb;
     ent := l; sb_num_lines := sb_num_lines sb; lineno := lineno sb;
     origins_made := origins_made sb |}.

(** The scoreboard after [n] more calls of [xcalloc] for an origin. *)
Definition allocate (n : nat) (sb : scoreboard) : scoreboard :=
  {| final := final sb; sb_path := sb_path sb; final_buf := final_buf sb;
     ent := ent sb; sb_num_lines := sb_num_lines sb; lineno := lineno sb;
     origins_made := origins_made sb + n |}.

(** [cmp_suspect], lines 116-122. *)
Definition cmp_suspect (a b : origin) : Z :=
  let cmp := hashcmp (commit a) (commit b) in
  if negb (cmp =? 0) then cmp else strcmp (path a) (path b).

(** The test that opens the body of every loop over suspects:
    [e->guilty || cmp_suspect(e->suspect, target)] sends the loop on. *)
Definition passed_over (e : blame_entry) (target : origin) : bool :=
  guilty e || negb (cmp_suspect (suspect e) target =? 0).

(** ** [coalesce], lines 124-141

    [ent] swallows its successor for as long as the two agree, then the loop
    moves to the successor. *)
Definition coalescible (e next : blame_entry) : bool :=
  (cmp_suspect (suspect e) (suspect next) =? 0)
  && Bool.eqb (guilty e) (guilty next)
  && (s_lno e + num_lines e =? s_lno next).

Definition absorb (e next : blame_entry) : blame_entry :=
  {| lno := lno e; num_lines := num_lines e + num_lines next;
     suspect := suspect e; guilty := guilty e; s_lno := s_lno e; score := 0 |}.

Fixpoint coalesce_from (e : blame_entry) (rest : list blame_entry)
  : list blame_entry :=
  match rest with
  | [] => [e]
  | next :: rest' =>
      if coalescible e next then coalesce_from (absorb e next) rest'
      else e :: coalesce_from next rest'
  end.

Definition coalesce (sb : scoreboard) : scoreboard :=
  match ent sb with
  | [] => sb
  | e :: rest => with_ent sb (coalesce_from e rest)
  end.

(** ** The collaborators

    What the file calls and does not define: the object store, the revision
    walker's view of a commit, the tree differ and the text differ. *)

(** [struct diff_filespec] and [struct diff_filepair], as far as they are read. *)
Record diff_filespec : Type := mk_filespec {
  fs_path : string;
  fs_valid : bool            (* DIFF_FILE_VALID *)
}.

Record diff_filepair : Type := mk_filepair {
  status : ascii;
  one : diff_filespec;
  two : diff_filespec
}.

(** The fields of [struct diff_options] that the file sets. *)
Record diff_options : Type := mk_diff_options {
  recursive : bool;
  detect_rename : Z;
  find_copies_harder : bool
}.

Definition DIFF_DETECT_RENAME : Z := 1.
Definition DIFF_DETECT_COPY : Z := 2.

Record collaborators : Type := mk_collaborators {
  (* commit->parents, in order *)
  commit_parents : sha1 -> list sha1;
  (* parse_commit succeeded (the C function returns 0) *)
  parse_commit : sha1 -> bool;
  (* commit->object.flags & UNINTERESTING *)
  uninteresting : sha1 -> bool;
  commit_date : sha1 -> Z;
  (* revs->max_age *)
  max_age : Z;
  (* get_tree_entry found the path and sha1_object_info says it is a blob *)
  tree_blob : sha1 -> string -> option sha1;
  read_sha1_file : sha1 -> option (list ascii);
  (* the lines xdl_diff emits for a preimage, a postimage and a context width *)
  xdl_diff : list ascii -> list ascii -> Z -> list string;
  (* parse_hunk_header: off1, len1, off2, len2, or a failure *)
  parse_hunk_header : string -> option (Z * Z * Z * Z);
  (* the queue after diff_tree_sha1 and diffcore_std, from one tree to another *)
  diff_tree : diff_options -> sha1 -> sha1 -> list diff_filepair
}.

(** ** [find_origin], lines 148-175, and [find_rename], lines 177-209 *)

Definition find_origin (E : collaborators) (sb : scoreboard)
    (c : sha1) (p : string) : option origin :=
  match List.find (fun e => (commit (suspect e) =? c)%N
                            && (strcmp (path (suspect e)) p =? 0)) (ent sb) with
  | Some e => Some (suspect e)
  | None =>
      match tree_blob E c p with
      | Some b =>
          Some {| oid := origins_made sb; commit := c; blob_sha1 := b;
                  path := p |}
      | None => None
      end
  end.

Definition rename_options : diff_options :=
  {| recursive := true; detect_rename := DIFF_DETECT_RENAME;
     find_copies_harder := false |}.

Definition is_rename_of (o : origin) (p : diff_filepair) : bool :=
  (Ascii.eqb (status p) "R" || Ascii.eqb (status p) "C")
  && (strcmp (fs_path (one p)) (path o) =? 0).

Definition find_rename (E : collaborators) (sb : scoreboard)
    (parent : sha1) (o : origin) : option origin :=
  match List.find (is_rename_of o)
                  (diff_tree E rename_options (commit o) parent) with
  | Some p => find_origin E sb parent (fs_path (two p))
  | None => None
  end.

(** ** The patch adapter *)

(** [struct chunk], lines 211-222; a [struct patch] is the list of its chunks. *)
Record chunk : Type := mk_chunk {
  same : Z;
  p_next : Z;
  t_next : Z
}.

(** [struct blame_diff_state], lines 229-234. *)
Record blame_diff_state : Type := mk_diff_state {
  ret : list chunk;
  hunk_post_context : Z;
  hunk_in_pre_context : bool
}.

Definition first_char (line : string) : ascii :=
  match line with String c _ => c | EmptyString => zero end.

Definition second_char (line : string) : ascii :=
  match line with String _ (String c _) => c | _ => zero end.

Definition is_hunk_header (line : string) : bool :=
  (4 <=? Z.of_nat (String.length line))
  && Ascii.eqb (first_char line) "@" && Ascii.eqb (second_char line) "@".

(** [chunks[num - 1]] is written in three places; an empty array has no such
    cell (the source only gets there after a hunk has been stored). *)
Fixpoint on_last_chunk (f : chunk -> chunk) (cs : list chunk) : list chunk :=
  match cs with
  | [] => []
  | [c] => [f c]
  | c :: cs' => c :: on_last_chunk f cs'
  end.

Definition bump_same (c : chunk) : chunk :=
  {| same := same c + 1; p_next := p_next c; t_next := t_next c |}.

Definition pull_back (k : Z) (c : chunk) : chunk :=
  {| same := same c; p_next := p_next c - k; t_next := t_next c - k |}.

(** [process_u_diff], lines 236-280. *)
Definition process_u_diff (E : collaborators) (state : blame_diff_state)
    (line : string) : blame_diff_state :=
  if negb (is_hunk_header line) then
    if hunk_in_pre_context state && Ascii.eqb (first_char line) " " then
      {| ret := on_last_chunk bump_same (ret state);
         hunk_post_context := hunk_post_context state;
         hunk_in_pre_context := hunk_in_pre_context state |}
    else
      {| ret := ret state;
         hunk_post_context :=
           if Ascii.eqb (first_char line) " "
           then hunk_post_context state + 1 else 0;
         hunk_in_pre_context := false |}
  else
    let chunks :=
      if negb (hunk_post_context state =? 0)
      then on_last_chunk (pull_back (hunk_post_context state)) (ret state)
      else ret state in
    match parse_hunk_header E line with
    | None =>
        {| ret := chunks;
           hunk_post_context := hunk_post_context state;
           hunk_in_pre_context := hunk_in_pre_context state |}
    | Some (off1, len1, off2, len2) =>
        (* Line numbers in patch output are one based. *)
        let off1 := off1 - 1 in
        let off2 := off2 - 1 in
        let same := if negb (len2 =? 0) then off2 else off2 + 1 in
        {| ret := chunks ++
                  [ {| same := same;
                       p_next := off1 + (if negb (len1 =? 0) then len1 else 1);
                       t_next := same + len2 |} ];
           hunk_post_context := 0;
           hunk_in_pre_context := true |}
    end.

(** [compare_buffer], lines 282-310: the state starts zeroed, [xdl_diff] feeds
    every line it emits to [process_u_diff], and the last chunk is pulled back
    by the context that trails it. *)
Definition initial_diff_state : blame_diff_state :=
  {| ret := []; hunk_post_context := 0; hunk_in_pre_context := false |}.

Definition finish_patch (state : blame_diff_state) : list chunk :=
  on_last_chunk (pull_back (hunk_post_context state)) (ret state).

Definition consume_lines (E : collaborators) (lines : list string)
    (state : blame_diff_state) : blame_diff_state :=
  fold_left (process_u_diff E) lines state.

Definition compare_buffer (E : collaborators) (file_p file_o : list ascii)
    (context : Z) : list chunk :=
  finish_patch (consume_lines E (xdl_diff E file_p file_o context)
                               initial_diff_state).

(** [get_patch], lines 312-335: no patch when either blob cannot be read. *)
Definition get_patch (E : collaborators) (parent o : origin)
  : option (list chunk) :=
  match read_sha1_file E (blob_sha1 parent), read_sha1_file E (blob_sha1 o) with
  | Some file_p, Some file_o => Some (compare_buffer E file_p file_o 0)
  | _, _ => None
  end.

(** ** The partition store *)

(** [add_blame_entry], lines 343-362: the loop walks past every entry whose
    [lno] is below [e]'s and links [e] in behind the last of them. *)
Fixpoint add_blame_entry (l : list blame_entry) (e : blame_entry)
  : list blame_entry :=
  match l with
  | [] => [e]
  | x :: rest =>
      if lno x <? lno e then x :: add_blame_entry rest e else e :: l
  end.

(** How many entries the loop of [add_blame_entry] walks past. *)
Fixpoint entries_below (l : list blame_entry) (e : blame_entry) : nat :=
  match l with
  | [] => O
  | x :: rest => if lno x <? lno e then S (entries_below rest e) else O
  end.

(** The loops of the engine hold a pointer [e] into the list while
    [split_blame] links new entries in.  The sequence model holds the position
    of [e] instead; an entry linked in at or before that position moves it up
    by one. *)
Definition add_tracking (st : list blame_entry * nat) (e : blame_entry)
  : list blame_entry * nat :=
  let l := fst st in
  let i := snd st in
  (add_blame_entry l e, if (entries_below l e <=? i)%nat then S i else i).

(** [dup_entry], lines 364-373: [dst] takes the fields of [src], keeps its
    links and loses its cached score. *)
Definition dup_entry (src : blame_entry) : blame_entry :=
  {| lno := lno src; num_lines := num_lines src; suspect := suspect src;
     guilty := guilty src; s_lno := s_lno src; score := 0 |}.

(** [nth_line], lines 375-378, as an offset into [final_buf].  Reading
    [lineno] outside its bounds is undefined; the model reads 0. *)
Definition nth_line (sb : scoreboard) (n : Z) : Z :=
  default 0 (lineno sb !! Z.to_nat n).

(** A [split[3]] array: slot 0 is the part before the chunk, slot 1 the part
    blamed on the parent, slot 2 the part after it. *)
Record split3 : Type := mk_split {
  split0 : option blame_entry;
  split1 : option blame_entry;
  split2 : option blame_entry
}.

Definition no_split : split3 :=
  {| split0 := None; split1 := None; split2 := None |}.

(** [split_overlap], lines 380-431.  The array is zeroed first, so every entry
    it builds is not guilty and has no cached score. *)
Definition split_overlap (e : blame_entry) (tlno plno same : Z)
    (parent : origin) : split3 :=
  let pre :=
    if s_lno e <? tlno then
      Some {| lno := lno e; num_lines := tlno - s_lno e;
              suspect := suspect e; guilty := false;
              s_lno := s_lno e; score := 0 |}
    else None in
  let lno1 := if s_lno e <? tlno then lno e + tlno - s_lno e else lno e in
  let s_lno1 := if s_lno e <? tlno then plno else plno + (s_lno e - tlno) in
  let post :=
    if same <? s_lno e + num_lines e then
      Some {| lno := lno e + (same - s_lno e);
              num_lines := s_lno e + num_lines e - same;
              suspect := suspect e; guilty := false;
              s_lno := s_lno e + (same - s_lno e); score := 0 |}
    else None in
  let chunk_end_lno :=
    if same <? s_lno e + num_lines e then lno e + (same - s_lno e)
    else lno e + num_lines e in
  let num1 := chunk_end_lno - lno1 in
  {| split0 := pre;
     split1 :=
       if num1 <? 1 then None
       else Some {| lno := lno1; num_lines := num1; suspect := parent;
                    guilty := false; s_lno := s_lno1; score := 0 |};
     split2 := post |}.

(** The sanity loop of [split_blame], lines 469-489: [lno] runs along the list
    and must meet every entry's [lno]; no [s_lno] may be negative. *)
Definition sanity_step (acc : Z * bool) (x : blame_entry) : Z * bool :=
  (fst acc + num_lines x,
   snd acc || negb (fst acc =? lno x) || (s_lno x <? 0)).

Definition corrupt (l : list blame_entry) : bool :=
  match l with
  | [] => true
  | first :: _ => snd (fold_left sanity_step l (lno first, false))
  end.

(** [split_blame], lines 433-490.  [i] is the position of [e]; [mid] is
    [split[1]], which every caller has tested.  The result is the new list and
    the new position of [e], or [Fatal] for [die("oops")]. *)
Definition split_blame (sb : scoreboard) (pre : option blame_entry)
    (mid : blame_entry) (post : option blame_entry) (i : nat)
  : outcome (scoreboard * nat) :=
  let l := ent sb in
  let st :=
    match pre, post with
    | Some s0, Some s2 =>
        (* we need to split e into two and add another for parent *)
        add_tracking (add_tracking (<[i := dup_entry s0]> l, i) s2) mid
    | None, None =>
        (* parent covers the entire area *)
        (<[i := dup_entry mid]> l, i)
    | Some s0, None =>
        add_tracking (<[i := dup_entry s0]> l, i) mid
    | None, Some s2 =>
        add_tracking (<[i := dup_entry mid]> l, i) s2
    end in
  if corrupt (fst st) then Fatal else Done (with_ent sb (fst st), snd st).

(** [blame_overlap], lines 492-502. *)
Definition blame_overlap (sb : scoreboard) (i : nat) (e : blame_entry)
    (tlno plno same : Z) (parent : origin) : outcome (scoreboard * nat) :=
  let split := split_overlap e tlno plno same parent in
  match split1 split with
  | None => Done (sb, i)
  | Some mid => split_blame sb (split0 split) mid (split2 split) i
  end.

(** [find_last_in_target], lines 504-516. *)
Definition find_last_in_target (sb : scoreboard) (target : origin) : Z :=
  fold_left
    (fun last e =>
       if passed_over e target then last
       else if last <? s_lno e + num_lines e then s_lno e + num_lines e
       else last)
    (ent sb) (-1).

(** ** Loops over the entries

    [for (e = sb->ent; e; e = e->next) body] where [body] may split [*e].
    The body gets the scoreboard, the position of [e] and its fields, and
    returns the scoreboard and the position [e] has then; the loop goes on
    behind it. *)
Fixpoint for_each_entry (fuel : nat)
    (body : scoreboard -> nat -> blame_entry -> outcome (scoreboard * nat))
    (sb : scoreboard) (i : nat) : outcome scoreboard :=
  match ent sb !! i with
  | None => Done sb
  | Some e =>
      match fuel with
      | O => OutOfFuel
      | S fuel' =>
          '(sb', i') ← body sb i e;
          for_each_entry fuel' body sb' (S i')
      end
  end.

(** ** The propagator *)

(** [blame_chunk], lines 518-532. *)
Definition blame_chunk_body (tlno plno same : Z) (target parent : origin)
    (sb : scoreboard) (i : nat) (e : blame_entry)
  : outcome (scoreboard * nat) :=
  if passed_over e target then Done (sb, i)
  else if same <=? s_lno e then Done (sb, i)
  else if tlno <? s_lno e + num_lines e
       then blame_overlap sb i e tlno plno same parent
       else Done (sb, i).

Definition blame_chunk (fuel : nat) (sb : scoreboard) (tlno plno same : Z)
    (target parent : origin) : outcome scoreboard :=
  for_each_entry fuel (blame_chunk_body tlno plno same target parent) sb O.

(** [pass_blame_to_parent], lines 534-559.  The result carries the returned
    flag: [true] when nothing remains for this target.  A missing patch is
    dereferenced by the source without a test. *)
Fixpoint blame_chunks (fuel : nat) (sb : scoreboard) (chunks : list chunk)
    (plno tlno last_in_target : Z) (target parent : origin)
  : outcome scoreboard :=
  match chunks with
  | [] =>
      (* rest (i.e. anything above tlno) are the same as parent *)
      blame_chunk fuel sb tlno plno last_in_target target parent
  | c :: chunks' =>
      sb' ← blame_chunk fuel sb tlno plno (same c) target parent;
      blame_chunks fuel sb' chunks' (p_next c) (t_next c) last_in_target
                   target parent
  end.

Definition pass_blame_to_parent (E : collaborators) (fuel : nat)
    (sb : scoreboard) (target parent : origin) : outcome (scoreboard * bool) :=
  let last_in_target := find_last_in_target sb target in
  if last_in_target <? 0 then Done (sb, true)
  else
    match get_patch E parent target with
    | None => Fatal
    | Some patch =>
        sb' ← blame_chunks fuel sb patch 0 0 last_in_target target parent;
        Done (sb', false)
    end.

(** ** Scores *)

Definition isalnum (c : ascii) : bool :=
  let n := Z.of_N (N_of_ascii c) in
  ((48 <=? n) && (n <=? 57)) || ((65 <=? n) && (n <=? 90))
  || ((97 <=? n) && (n <=? 122)).

Definition UINT_MOD : Z := 2 ^ 32.

(** The bytes from offset [cp] up to offset [ep] of the final buffer. *)
Definition buffer_between (sb : scoreboard) (cp ep : Z) : list ascii :=
  take (Z.to_nat (ep - cp)) (drop (Z.to_nat cp) (final_buf sb)).

(** [ent_score], lines 561-580: the cached score when there is one, else one
    more than the number of alphanumeric bytes of the entry's lines, counted
    in an [unsigned]. *)
Definition ent_score (sb : scoreboard) (e : blame_entry) : Z :=
  if negb (score e =? 0) then score e
  else
    let cp := nth_line sb (lno e) in
    let ep := nth_line sb (lno e + num_lines e) in
    (1 + Z.of_nat (length (filter (fun c => isalnum c = true)
                                  (buffer_between sb cp ep)))) mod UINT_MOD.

(** [ent_score] also stores what it returns in [e->score]. *)
Definition cache_score (sb : scoreboard) (e : blame_entry) : blame_entry :=
  {| lno := lno e; num_lines := num_lines e; suspect := suspect e;
     guilty := guilty e; s_lno := s_lno e; score := ent_score sb e |}.

(** ** The mover and the copier *)

(** [copy_split_if_better], lines 582-593: [this] replaces [best_so_far]
    unless its middle scores strictly less. *)
Definition copy_split_if_better (sb : scoreboard)
    (best_so_far this : split3) : split3 :=
  match split1 this with
  | None => best_so_far
  | Some t =>
      match split1 best_so_far with
      | None => this
      | Some b =>
          if ent_score sb t <? ent_score sb b then
            {| split0 := split0 best_so_far;
               split1 := Some (cache_score sb b);
               split2 := split2 best_so_far |}
          else
            {| split0 := split0 this;
               split1 := Some (cache_score sb t);
               split2 := split2 this |}
      end
  end.

Definition newline : ascii := "010"%char.

(** The postimage of [find_copy_in_blob]: the bytes of [cnt] lines. *)
Fixpoint lines_prefix (buf : list ascii) (cnt : Z) : list ascii :=
  match buf with
  | [] => []
  | ch :: rest =>
      if cnt =? 0 then []
      else ch :: lines_prefix rest (if Ascii.eqb ch newline then cnt - 1 else cnt)
  end.

(** The chunk loop of [find_copy_in_blob], lines 620-637. *)
Fixpoint copy_chunks (sb : scoreboard) (e : blame_entry) (parent : origin)
    (chunks : list chunk) (plno tlno : Z) (split : split3) : split3 :=
  match chunks with
  | [] => split
  | c :: chunks' =>
      (* tlno to chunk->same are the same as ent *)
      if num_lines e <=? tlno then split
      else
        let split' :=
          if tlno <? same c then
            copy_split_if_better sb split
              (split_overlap e (tlno + s_lno e) plno (same c + s_lno e) parent)
          else split in
        copy_chunks sb e parent chunks' (p_next c) (t_next c) split'
  end.

(** [find_copy_in_blob], lines 595-639. *)
Definition find_copy_in_blob (E : collaborators) (sb : scoreboard)
    (e : blame_entry) (parent : origin) (file_p : list ascii) : split3 :=
  let file_o :=
    lines_prefix (drop (Z.to_nat (nth_line sb (lno e))) (final_buf sb))
                 (num_lines e) in
  let patch := compare_buffer E file_p file_o 1 in
  copy_chunks sb e parent patch 0 0 no_split.

(** The two thresholds, file-scope variables of the source. *)
Record thresholds : Type := mk_thresholds {
  blame_move_score : Z;
  blame_copy_score : Z
}.

(** The test both searches end with, lines 667-669 and 739-741. *)
Definition apply_above (limit : Z) (sb : scoreboard) (split : split3)
    (i : nat) : outcome (scoreboard * nat) :=
  match split1 split with
  | None => Done (sb, i)
  | Some mid =>
      if limit <? ent_score sb mid
      then split_blame sb (split0 split) (cache_score sb mid) (split2 split) i
      else Done (sb, i)
  end.

(** [find_move_in_parent], lines 641-673. *)
Definition move_body (G : thresholds) (E : collaborators)
    (target parent : origin) (file_p : list ascii)
    (sb : scoreboard) (i : nat) (e : blame_entry)
  : outcome (scoreboard * nat) :=
  if passed_over e target then Done (sb, i)
  else apply_above (blame_move_score G) sb
                   (find_copy_in_blob E sb e parent file_p) i.

Definition find_move_in_parent (G : thresholds) (E : collaborators)
    (fuel : nat) (sb : scoreboard) (target parent : origin)
  : outcome (scoreboard * bool) :=
  if find_last_in_target sb target <? 0 then Done (sb, true)
  else
    match read_sha1_file E (blob_sha1 parent) with
    | None => Done (sb, false)
    | Some file_p =>
        sb' ← for_each_entry fuel (move_body G E target parent file_p) sb O;
        Done (sb', false)
    end.

Definition PICKAXE_BLAME_MOVE : Z := 1.
Definition PICKAXE_BLAME_COPY : Z := 2.
Definition PICKAXE_BLAME_COPY_HARDER : Z := 4.

Definition has_flag (opt flag : Z) : bool := negb (Z.land opt flag =? 0).

(** The options of the copier's tree diff, lines 689-698. *)
Definition copy_options (opt : Z) (porigin : option origin)
    (target : origin) : diff_options :=
  (* Try "find copies harder" on new path *)
  let harder :=
    has_flag opt PICKAXE_BLAME_COPY_HARDER
    && match porigin with
       | None => true
       | Some po => negb (strcmp (path target) (path po) =? 0)
       end in
  {| recursive := true;
     detect_rename := if harder then DIFF_DETECT_COPY else 0;
     find_copies_harder := harder |}.

(** The loop over the queue, lines 714-738.  [find_origin] may hand back a
    null pointer, which the source dereferences.  Every round may make an
    origin, so the next one runs with one more origin made. *)
Fixpoint copy_candidates (E : collaborators) (sb : scoreboard)
    (e : blame_entry) (parent : sha1) (porigin : option origin)
    (queue : list diff_filepair) (split : split3) : outcome split3 :=
  match queue with
  | [] => Done split
  | p :: queue' =>
      if negb (fs_valid (one p)) then
        (* does not exist in parent *)
        copy_candidates E (allocate 1 sb) e parent porigin queue' split
      else if match porigin with
              | Some po => strcmp (fs_path (one p)) (path po) =? 0
              | None => false
              end then
        (* find_move already dealt with this path *)
        copy_candidates E (allocate 1 sb) e parent porigin queue' split
      else
        match find_origin E sb parent (fs_path (one p)) with
        | None => Fatal
        | Some norigin =>
            match read_sha1_file E (blob_sha1 norigin) with
            | None =>
                copy_candidates E (allocate 1 sb) e parent porigin queue'
                                split
            | Some file_p =>
                copy_candidates E (allocate 1 sb) e parent porigin queue'
                  (copy_split_if_better sb split
                     (find_copy_in_blob E sb e norigin file_p))
            end
        end
  end.

(** [find_copy_in_parent], lines 675-746. *)
Definition copy_body (G : thresholds) (E : collaborators) (target : origin)
    (parent : sha1) (porigin : option origin) (queue : list diff_filepair)
    (sb : scoreboard) (i : nat) (e : blame_entry)
  : outcome (scoreboard * nat) :=
  if passed_over e target then Done (sb, i)
  else
    split ← copy_candidates E sb e parent porigin queue no_split;
    apply_above (blame_copy_score G) sb split i.

(** A round of the loop over the entries that has made up to [n] origins:
    the next round runs with [n] more origins made. *)
Definition then_allocate (n : nat)
    (body : scoreboard -> nat -> blame_entry -> outcome (scoreboard * nat))
    (sb : scoreboard) (i : nat) (e : blame_entry)
  : outcome (scoreboard * nat) :=
  '(sb', i') ← body sb i e; Done (allocate n sb', i').

Definition find_copy_in_parent (G : thresholds) (E : collaborators)
    (fuel : nat) (sb : scoreboard) (target : origin) (parent : sha1)
    (porigin : option origin) (opt : Z) : outcome (scoreboard * bool) :=
  if find_last_in_target sb target <? 0 then Done (sb, true)
  else
    let diff_opts := copy_options opt porigin target in
    let queue := diff_tree E diff_opts parent (commit target) in
    sb' ← for_each_entry fuel
            (then_allocate (length queue)
               (copy_body G E target parent porigin queue))
            sb O;
    Done (sb', false).

(** ** [pass_blame], lines 750-816 *)

Definition MAXPARENT : nat := 16.

(** What the first loop leaves: either the parent whose blob is the target's,
    or the array [parent_origin].  Every round of the loop may make one
    origin ([find_rename] is only asked when [find_origin] has freed its
    own), so the round for the next parent runs on the scoreboard with one
    more origin made: the origins of two parents are two objects, also when
    the two parents are one commit. *)
Inductive resolution : Type :=
| SameBlob (porigin : origin)
| Resolved (parent_origin : list (option origin)).

Definition parent_origin_of (E : collaborators) (sb : scoreboard)
    (o : origin) (p : sha1) : option origin :=
  if negb (parse_commit E p) then None
  else
    match find_origin E sb p (path o) with
    | Some porigin => Some porigin
    | None => find_rename E sb p o
    end.

Fixpoint resolve_parents (E : collaborators) (sb : scoreboard) (o : origin)
    (parents : list sha1) : resolution :=
  match parents with
  | [] => Resolved []
  | p :: parents' =>
      match parent_origin_of E sb o p with
      | Some porigin =>
          if hashcmp (blob_sha1 porigin) (blob_sha1 o) =? 0
          then SameBlob porigin
          else
            match resolve_parents E (allocate 1 sb) o parents' with
            | SameBlob po => SameBlob po
            | Resolved rest => Resolved (Some porigin :: rest)
            end
      | None =>
          match resolve_parents E (allocate 1 sb) o parents' with
          | SameBlob po => SameBlob po
          | Resolved rest => Resolved (None :: rest)
          end
      end
  end.

(** Lines 772-774: every entry whose suspect is the target's object.  The
    test is [e->suspect == origin]: the two are one object, address
    included; an entry that accuses the same commit and path through
    another object is left as it is. *)
Definition hand_over (o porigin : origin) (e : blame_entry) : blame_entry :=
  if decide (suspect e = o) then
    {| lno := lno e; num_lines := num_lines e; suspect := porigin;
       guilty := guilty e; s_lno := s_lno e; score := score e |}
  else e.

(** The three loops over the parents: a step that returns [true] ends
    [pass_blame]. *)
Fixpoint over_parents {A : Type}
    (step : scoreboard -> A -> outcome (scoreboard * bool))
    (sb : scoreboard) (xs : list A) : outcome (scoreboard * bool) :=
  match xs with
  | [] => Done (sb, false)
  | x :: xs' =>
      '(sb', stop) ← step sb x;
      if (stop : bool) then Done (sb', true) else over_parents step sb' xs'
  end.

Definition skip_unresolved
    (step : scoreboard -> origin -> outcome (scoreboard * bool))
    (sb : scoreboard) (porigin : option origin)
  : outcome (scoreboard * bool) :=
  match porigin with
  | None => Done (sb, false)
  | Some po => step sb po
  end.

Definition pass_blame (G : thresholds) (E : collaborators) (fuel : nat)
    (sb : scoreboard) (o : origin) (opt : Z) : outcome scoreboard :=
  let parents := take MAXPARENT (commit_parents E (commit o)) in
  let made := allocate (length parents) sb in
  match resolve_parents E sb o parents with
  | SameBlob porigin =>
      Done (with_ent made (map (hand_over o porigin) (ent sb)))
  | Resolved parent_origin =>
      '(sb1, stop1) ←
        over_parents
          (skip_unresolved (fun sb po => pass_blame_to_parent E fuel sb o po))
          made parent_origin;
      if (stop1 : bool) then Done sb1
      else
        (* Optionally run "miff" to find moves in parents' files here. *)
        '(sb2, stop2) ←
          (if has_flag opt PICKAXE_BLAME_MOVE then
             over_parents
               (skip_unresolved
                  (fun sb po => find_move_in_parent G E fuel sb o po))
               sb1 parent_origin
           else Done (sb1, false));
        if (stop2 : bool) then Done sb2
        else
          (* Optionally run "ciff" to find copies from parents' files here. *)
          '(sb3, _) ←
            (if has_flag opt PICKAXE_BLAME_COPY then
               over_parents
                 (fun sb pp => find_copy_in_parent G E fuel sb o
                                 (fst pp) (snd pp) opt)
                 sb2 (zip parents parent_origin)
             else Done (sb2, false));
          Done sb3
  end.

(** ** [assign_blame], lines 818-845 *)

Definition plead_guilty (s : origin) (e : blame_entry) : blame_entry :=
  if cmp_suspect (suspect e) s =? 0 then
    {| lno := lno e; num_lines := num_lines e; suspect := suspect e;
       guilty := true; s_lno := s_lno e; score := score e |}
  else e.

Definition worth_digging (E : collaborators) (c : sha1) : bool :=
  negb (uninteresting E c)
  && negb (negb (max_age E =? -1) && (commit_date E c <? max_age E)).

Fixpoint assign_blame (G : thresholds) (E : collaborators) (fuel : nat)
    (sb : scoreboard) (opt : Z) : outcome scoreboard :=
  (* find one suspect to break down *)
  match List.find (fun e => negb (guilty e)) (ent sb) with
  | None => Done sb             (* all done *)
  | Some e =>
      match fuel with
      | O => OutOfFuel
      | S fuel' =>
          let s := suspect e in
          sb1 ← (if worth_digging E (commit s)
                 then pass_blame G E fuel' sb s opt else Done sb);
          (* Take responsibility for the remaining entries *)
          let sb2 := with_ent sb1 (map (plead_guilty s) (ent sb1)) in
          assign_blame G E fuel' (coalesce sb2) opt
      end
  end.

(** ** The alignment pass *)

(** [lineno_width], lines 1156-1163

<<
  for (width = 1, i = 10; i <= lines + 1; width++)
          i *= 10;
  return width;
>>
    [i] is an [int]: multiplying it past [INT_MAX] is undefined, which the model
    reports as [None].  Ten rounds are all a 32-bit counter can make. *)

Definition INT_MAX : Z := 2147483647.

Fixpoint lineno_width_loop (rounds : nat) (lines i width : Z) : option Z :=
  if i <=? lines + 1 then
    match rounds with
    | O => None
    | S rounds' =>
        if INT_MAX <? i * 10 then None
        else lineno_width_loop rounds' lines (i * 10) (width + 1)
    end
  else Some width.

Definition lineno_width (lines : Z) : option Z :=
  if INT_MAX <? lines + 1 then None else lineno_width_loop 10 lines 10 1.

(** The number of decimal digits of [n], in the spec's words
    [1 + floor(log10 n)]: the [w] with [10^(w-1) <= n < 10^w]. *)
Definition decimal_digits (n w : Z) : Prop :=
  1 <= w /\ 10 ^ (w - 1) <= n < 10 ^ w.

(** An [unsigned] handed to an [int] parameter: from 2^31 on the callee
    sees a negative number. *)
Definition int_of_unsigned (u : Z) : Z :=
  if INT_MAX <? u then u - UINT_MOD else u.

(** [find_alignment], lines 1165-1201, as far as the three widths go: the
    largest [s_lno + num_lines], the largest [lno + num_lines] and the largest
    score, each handed to [lineno_width]; the score is an [unsigned]. *)
Record widths : Type := mk_widths {
  max_orig_digits : option Z;
  max_digits : option Z;
  max_score_digits : option Z
}.

Definition longest (f : blame_entry -> Z) (l : list blame_entry) : Z :=
  fold_left (fun m e => if m <? f e then f e else m) l 0.

Definition find_alignment (sb : scoreboard) : widths :=
  {| max_orig_digits :=
       lineno_width (longest (fun e => s_lno e + num_lines e) (ent sb));
     max_digits :=
       lineno_width (longest (fun e => lno e + num_lines e) (ent sb));
     max_score_digits :=
       lineno_width (int_of_unsigned (longest (ent_score sb) (ent sb))) |}.

(** ** The command line *)

(** [prepare_lines], lines 1113-1138: the offset of every line start, then
    the size of the buffer; a last line without a newline counts. *)
Fixpoint line_starts (buf : list ascii) (pos : Z) (bol : bool) : list Z :=
  match buf with
  | [] => []
  | c :: rest =>
      (if bol then [pos] else [])
      ++ line_starts rest (pos + 1) (Ascii.eqb c newline)
  end.

Definition prepare_lines (buf : list ascii) : list Z * Z :=
  let starts := line_starts buf 0 true in
  (starts ++ [Z.of_nat (length buf)], Z.of_nat (length starts)).

(** [strtoul] and [strtol] in base 10, as the C standard has them: white
    space, an optional sign, digits; no digits means no conversion and the end
    pointer is the start.  A negated [strtoul] result wraps; out-of-range
    values saturate.  [long] has 64 bits. *)
Definition isspace (c : ascii) : bool :=
  let n := Z.of_N (N_of_ascii c) in
  (n =? 32) || ((9 <=? n) && (n <=? 13)).

Definition digit_of (c : ascii) : option Z :=
  let n := Z.of_N (N_of_ascii c) in
  if (48 <=? n) && (n <=? 57) then Some (n - 48) else None.

Fixpoint skip_spaces (s : string) : string :=
  match s with
  | String c rest => if isspace c then skip_spaces rest else s
  | EmptyString => s
  end.

Fixpoint scan_digits (s : string) (acc : Z) : Z * string :=
  match s with
  | String c rest =>
      match digit_of c with
      | Some d => scan_digits rest (acc * 10 + d)
      | None => (acc, s)
      end
  | EmptyString => (acc, s)
  end.

Definition starts_with_digit (s : string) : bool :=
  match s with
  | String c _ => match digit_of c with Some _ => true | None => false end
  | EmptyString => false
  end.

(** The sign and what follows it. *)
Definition take_sign (s : string) : bool * string :=
  match s with
  | String c rest =>
      if Ascii.eqb c "-" then (true, rest)
      else if Ascii.eqb c "+" then (false, rest)
      else (false, s)
  | EmptyString => (false, s)
  end.

Definition ULONG_MAX : Z := 2 ^ 64 - 1.
Definition LONG_MAX : Z := 2 ^ 63 - 1.
Definition LONG_MIN : Z := - 2 ^ 63.

Definition strtoul (nptr : string) : Z * string :=
  let signed := take_sign (skip_spaces nptr) in
  if starts_with_digit (snd signed) then
    let scanned := scan_digits (snd signed) 0 in
    if ULONG_MAX <? fst scanned then (ULONG_MAX, snd scanned)
    else ((if fst signed then (- fst scanned) mod 2 ^ 64 else fst scanned),
          snd scanned)
  else (0, nptr).

Definition strtol (nptr : string) : Z * string :=
  let signed := take_sign (skip_spaces nptr) in
  if starts_with_digit (snd signed) then
    let scanned := scan_digits (snd signed) 0 in
    let v := if fst signed then - fst scanned else fst scanned in
    (Z.max LONG_MIN (Z.min LONG_MAX v), snd scanned)
  else (0, nptr).

(** [arg + n] on a string that has at least [n] characters. *)
Fixpoint advance (n : nat) (s : string) : string :=
  match n, s with
  | S n', String _ rest => advance n' rest
  | _, _ => s
  end.

(** [parse_score], lines 1209-1216; the [unsigned long] is returned as an
    [unsigned]. *)
Definition parse_score (arg : string) : Z :=
  let parsed := strtoul arg in
  match snd parsed with
  | EmptyString => fst parsed mod UINT_MOD
  | String _ _ => 0
  end.

Definition BLAME_DEFAULT_MOVE_SCORE : Z := 20.
Definition BLAME_DEFAULT_COPY_SCORE : Z := 40.

Definition OUTPUT_ANNOTATE_COMPAT : Z := 1.
Definition OUTPUT_LONG_OBJECT_NAME : Z := 2.
Definition OUTPUT_RAW_TIMESTAMP : Z := 4.
Definition OUTPUT_PORCELAIN : Z := 8.
Definition OUTPUT_SHOW_NAME : Z := 16.
Definition OUTPUT_SHOW_NUMBER : Z := 32.
Definition OUTPUT_SHOW_SCORE : Z := 64.

(** What the option loop of [cmd_pickaxe] writes, lines 1232-1293. *)
Record options : Type := mk_options {
  output_option : Z;
  opt : Z;
  move_score : Z;              (* blame_move_score *)
  copy_score : Z;              (* blame_copy_score *)
  revs_file : option string;
  opt_bottom : Z;
  opt_top : Z;
  unknown : list string        (* argv[1 .. unk) *)
}.

Definition no_options : options :=
  {| output_option := 0; opt := 0; move_score := 0; copy_score := 0;
     revs_file := None; opt_bottom := 0; opt_top := 0; unknown := [] |}.

Definition set_output (st : options) (flag : Z) : options :=
  {| output_option := Z.lor (output_option st) flag; opt := opt st;
     move_score := move_score st; copy_score := copy_score st;
     revs_file := revs_file st; opt_bottom := opt_bottom st;
     opt_top := opt_top st; unknown := unknown st |}.

Definition set_move (st : options) (arg : string) : options :=
  {| output_option := output_option st;
     opt := Z.lor (opt st) PICKAXE_BLAME_MOVE;
     move_score := parse_score (advance 2 arg);
     copy_score := copy_score st;
     revs_file := revs_file st; opt_bottom := opt_bottom st;
     opt_top := opt_top st; unknown := unknown st |}.

Definition set_copy (st : options) (arg : string) : options :=
  let opt1 :=
    if has_flag (opt st) PICKAXE_BLAME_COPY
    then Z.lor (opt st) PICKAXE_BLAME_COPY_HARDER else opt st in
  {| output_option := output_option st;
     opt := Z.lor opt1 (Z.lor PICKAXE_BLAME_COPY PICKAXE_BLAME_MOVE);
     move_score := move_score st;
     copy_score := parse_score (advance 2 arg);
     revs_file := revs_file st; opt_bottom := opt_bottom st;
     opt_top := opt_top st; unknown := unknown st |}.

Definition set_revs_file (st : options) (file : string) : options :=
  {| output_option := output_option st; opt := opt st;
     move_score := move_score st; copy_score := copy_score st;
     revs_file := Some file; opt_bottom := opt_bottom st;
     opt_top := opt_top st; unknown := unknown st |}.

Definition set_range (st : options) (b t : Z) : options :=
  {| output_option := output_option st; opt := opt st;
     move_score := move_score st; copy_score := copy_score st;
     revs_file := revs_file st; opt_bottom := b;
     opt_top := t; unknown := unknown st |}.

Definition add_unknown (st : options) (arg : string) : options :=
  {| output_option := output_option st; opt := opt st;
     move_score := move_score st; copy_score := copy_score st;
     revs_file := revs_file st; opt_bottom := opt_bottom st;
     opt_top := opt_top st; unknown := unknown st ++ [arg] |}.

(** The [-L] branch, lines 1259-1274, on the argument after [-L]. *)
Definition swap_if_reversed (b t : Z) : Z * Z :=
  if negb (b =? 0) && negb (t =? 0) && (t <? b) then (t, b) else (b, t).

Definition parse_range (st : options) (arg : string) : outcome options :=
  if negb (opt_bottom st =? 0) || negb (opt_top st =? 0) then
    Fatal                        (* More than one '-L n,m' option given *)
  else
    let first := strtol arg in
    if Ascii.eqb (first_char (snd first)) "," then
      let second := strtol (advance 1 (snd first)) in
      match snd second with
      | String _ _ => Fatal      (* usage *)
      | EmptyString =>
          let r := swap_if_reversed (fst first) (fst second) in
          Done (set_range st (fst r) (snd r))
      end
    else
      let r := swap_if_reversed (fst first) 0 in
      Done (set_range st (fst r) (snd r)).

Definition has_prefix (p s : string) : bool := String.prefix p s.

(** The option loop.  It returns the options and the arguments it has not
    read. *)
Fixpoint parse_options (args : list string) (st : options)
  : outcome (options * list string) :=
  match args with
  | [] => Done (st, [])
  | arg :: rest =>
      if negb (Ascii.eqb (first_char arg) "-") then Done (st, args)
      else if String.eqb arg "-c" then
        parse_options rest (set_output st OUTPUT_ANNOTATE_COMPAT)
      else if String.eqb arg "-t" then
        parse_options rest (set_output st OUTPUT_RAW_TIMESTAMP)
      else if String.eqb arg "-l" then
        parse_options rest (set_output st OUTPUT_LONG_OBJECT_NAME)
      else
        match String.eqb arg "-S", rest with
        | true, file :: rest' => parse_options rest' (set_revs_file st file)
        | _, _ =>
            if has_prefix "-M" arg then parse_options rest (set_move st arg)
            else if has_prefix "-C" arg then
              parse_options rest (set_copy st arg)
            else
              match String.eqb arg "-L", rest with
              | true, range :: rest' =>
                  st' ← parse_range st range; parse_options rest' st'
              | _, _ =>
                  if String.eqb arg "--score-debug" then
                    parse_options rest (set_output st OUTPUT_SHOW_SCORE)
                  else if String.eqb arg "-f" || String.eqb arg "--show-name"
                  then parse_options rest (set_output st OUTPUT_SHOW_NAME)
                  else if String.eqb arg "-n" || String.eqb arg "--show-number"
                  then parse_options rest (set_output st OUTPUT_SHOW_NUMBER)
                  else if String.eqb arg "-p" || String.eqb arg "--porcelain"
                  then parse_options rest (set_output st OUTPUT_PORCELAIN)
                  else if String.eqb arg "--" then Done (st, rest)
                  else parse_options rest (add_unknown st arg)
              end
        end
  end.

(** Lines 1295-1298: a score left at zero becomes the default. *)
Definition effective_scores (st : options) : thresholds :=
  {| blame_move_score :=
       if move_score st =? 0 then BLAME_DEFAULT_MOVE_SCORE else move_score st;
     blame_copy_score :=
       if copy_score st =? 0 then BLAME_DEFAULT_COPY_SCORE else copy_score st |}.

(** Lines 1433-1439: the range as the engine gets it, for a file of [lno]
    lines; [Fatal] is [die("file %s has only %lu lines")]. *)
Definition blame_range (b t lno : Z) : outcome (Z * Z) :=
  let b := if b <? 1 then 1 else b in
  let t := if t <? 1 then lno else t in
  let b := b - 1 in
  if lno <? t then Fatal else Done (b, t).

(** Lines 1441-1448: the one entry blame starts from ([xcalloc] zeroes it).
    The bounds are [long] and the fields [int]; the model keeps the bounds as
    they are, which is what the source does below 2^31. *)
Definition first_entry (o : origin) (b t : Z) : blame_entry :=
  {| lno := b; num_lines := t - b; suspect := o; guilty := false;
     s_lno := b; score := 0 |}.

(** From the parsed options and the blob of the path to the scoreboard that
    [assign_blame] receives; [o] is the one origin made so far (line 1426). *)
Definition start_blame (st : options) (final_commit : sha1) (p : string)
    (o : origin) (buf : list ascii) : outcome scoreboard :=
  let lines := prepare_lines buf in
  '(b, t) ← blame_range (opt_bottom st) (opt_top st) (snd lines);
  Done {| final := final_commit; sb_path := p; final_buf := buf;
          ent := [first_entry o b t]; sb_num_lines := snd lines;
          lineno := fst lines; origins_made := S (oid o) |}.

(** The thresholds a command line ends with. *)
Definition thresholds_of (args : list string) : outcome thresholds :=
  '(st, _) ← parse_options args no_options; Done (effective_scores st).

(** A "well-formed non-negative decimal number", in the words of the usage of
    [-M] and [-C]: one digit or more and nothing else; and the number it
    writes. *)
Fixpoint all_digits (s : string) : bool :=
  match s with
  | EmptyString => true
  | String c rest => starts_with_digit (String c EmptyString) && all_digits rest
  end.

Definition plain_decimal (s : string) : bool :=
  match s with
  | EmptyString => false
  | String _ _ => all_digits s
  end.

Fixpoint decimal_value_from (acc : Z) (s : string) : Z :=
  match s with
  | EmptyString => acc
  | String c rest => decimal_value_from (acc * 10 + default 0 (digit_of c)) rest
  end.

Definition decimal_value (s : string) : Z := decimal_value_from 0 s.

Definition leads_with_space_or_sign (s : string) : bool :=
  isspace (first_char s) || Ascii.eqb (first_char s) "-"
  || Ascii.eqb (first_char s) "+".

(** What [strtoul] reads up to the end of the string: white space, at most
    one sign, then one digit or more and nothing behind them.  [digits_of]
    is what is left of the suffix behind the white space and the sign. *)
Definition digits_of (s : string) : string :=
  snd (take_sign (skip_spaces s)).

Definition signed_decimal (s : string) : bool := plain_decimal (digits_of s).

(** Lines 1431-1456 of [cmd_pickaxe]: set the range up, assign the blame with
    the thresholds the options leave, coalesce. *)
Definition dig (E : collaborators) (fuel : nat) (st : options)
    (final_commit : sha1) (p : string) (o : origin) (buf : list ascii)
  : outcome scoreboard :=
  sb ← start_blame st final_commit p o buf;
  sb' ← assign_blame (effective_scores st) E fuel sb (opt st);
  Done (coalesce sb').

(** ** The shape of a unified diff

    What [xdl_diff] emits is a sequence of hunks: a header, context lines that
    lead in, the body (from the first changed line to the last), and context
    lines that trail.  A context line opens with a blank and is not a header;
    a changed line is neither: a line that is removed or added, or the
    marker [\ No newline at end of file], which [process_u_diff] treats as
    it treats those. *)
Definition context_line (line : string) : bool :=
  negb (is_hunk_header line) && Ascii.eqb (first_char line) " ".

Definition changed_line (line : string) : bool :=
  negb (is_hunk_header line) && negb (Ascii.eqb (first_char line) " ").

Record hunk : Type := mk_hunk {
  header : string;
  leading : list string;
  body_first : string;
  body_rest : list string;       (* empty, or ending in a changed line *)
  trailing : list string
}.

Definition hunk_lines (h : hunk) : list string :=
  header h :: leading h ++ body_first h :: body_rest h ++ trailing h.

Definition ends_changed (lines : list string) : bool :=
  match last lines with
  | None => true
  | Some line => changed_line line
  end.

Definition well_formed_hunk (E : collaborators) (h : hunk) : Prop :=
  is_hunk_header (header h) = true
  /\ (exists off1 len1 off2 len2,
        parse_hunk_header E (header h) = Some (off1, len1, off2, len2)
        /\ 0 <= len1)
  /\ forallb context_line (leading h) = true
  /\ changed_line (body_first h) = true
  /\ forallb (fun line => negb (is_hunk_header line)) (body_rest h) = true
  /\ ends_changed (body_rest h) = true
  /\ forallb context_line (trailing h) = true.

(** The chunk the spec gives for a hunk: from the header, [same] is the
    postimage offset (one more when the postimage is empty), [p_next] is
    [off1 + max(len1, 1)] and [t_next] is [same + len2], offsets counted from
    0; leading context moves [same] up and trailing context moves [p_next]
    and [t_next] down. *)
Definition header_chunk (off1 len1 off2 len2 : Z) : chunk :=
  let same := if len2 =? 0 then (off2 - 1) + 1 else off2 - 1 in
  {| same := same;
     p_next := (off1 - 1) + Z.max len1 1;
     t_next := same + len2 |}.

Definition chunk_of_hunk (E : collaborators) (h : hunk) : chunk :=
  match parse_hunk_header E (header h) with
  | Some (off1, len1, off2, len2) =>
      let c := header_chunk off1 len1 off2 len2 in
      {| same := same c + Z.of_nat (length (leading h));
         p_next := p_next c - Z.of_nat (length (trailing h));
         t_next := t_next c - Z.of_nat (length (trailing h)) |}
  | None => {| same := 0; p_next := 0; t_next := 0 |}
  end.

(** ** The invariants of the partition sequence

    [linked_up from l to]: the entries start at line [from], each starts
    where the one before it ends, and the last ends at [to]. *)
Fixpoint linked_up (from : Z) (l : list blame_entry) (to : Z) : Prop :=
  match l with
  | [] => from = to
  | e :: rest => lno e = from /\ linked_up (from + num_lines e) rest to
  end.

Definition sound_entry (e : blame_entry) : Prop :=
  1 <= num_lines e /\ 0 <= s_lno e.

Definition partition (b t : Z) (l : list blame_entry) : Prop :=
  l <> [] /\ linked_up b l t /\ Forall sound_entry l.

(** The five invariants one by one, as section 3 of the spec lists them. *)
Definition ordered (l : list blame_entry) : Prop :=
  forall i j e e', (i < j)%nat -> l !! i = Some e -> l !! j = Some e' ->
                   lno e < lno e'.

Definition adjacent (l : list blame_entry) : Prop :=
  forall i e e', l !! i = Some e -> l !! S i = Some e' ->
                 lno e + num_lines e = lno e'.

Definition covers (b t : Z) (l : list blame_entry) : Prop :=
  (exists e, head l = Some e /\ lno e = b)
  /\ (exists e, last l = Some e /\ lno e + num_lines e = t).

Definition spec_invariants (b t : Z) (l : list blame_entry) : Prop :=
  ordered l /\ adjacent l /\ covers b t l
  /\ Forall (fun e => 0 <= s_lno e) l /\ Forall (fun e => 1 <= num_lines e) l.

(** What [split_blame] leaves in the place of [e]. *)
Definition pieces (pre : option blame_entry) (mid : blame_entry)
    (post : option blame_entry) : list blame_entry :=
  match pre, post with
  | Some s0, Some s2 => [dup_entry s0; mid; s2]
  | None, None => [dup_entry mid]
  | Some s0, None => [dup_entry s0; mid]
  | None, Some s2 => [dup_entry mid; s2]
  end.

(** ** The three-way split in the words of the spec

    For an unresolved entry that accuses the target, with the lines
    [[s_lno, s_lno + num_lines)] of the suspect: the region before [tlno]
    stays, the middle [[max(s_lno, tlno), min(s_lno + num_lines, same))] goes
    to the parent at [plno + (max(s_lno, tlno) - tlno)], the region from
    [same] on stays; an empty region yields no entry, and an empty middle
    leaves the entry alone. *)
Definition region (e : blame_entry) (from to : Z) (who : origin) (s : Z)
  : list blame_entry :=
  if from <? to then
    [ {| lno := lno e + (from - s_lno e); num_lines := to - from;
         suspect := who; guilty := false; s_lno := s; score := 0 |} ]
  else [].

Definition three_way (tlno plno same : Z) (target parent : origin)
    (e : blame_entry) : list blame_entry :=
  let lo := Z.max (s_lno e) tlno in
  let hi := Z.min (s_lno e + num_lines e) same in
  if negb (passed_over e target) && (lo <? hi) then
    region e (s_lno e) tlno (suspect e) (s_lno e)
    ++ region e lo hi parent (plno + (lo - tlno))
    ++ region e same (s_lno e + num_lines e) (suspect e) same
  else [e].

(** ** Progress of the driver

    [keeps P m]: the run [m] does not run out of fuel, and what it returns,
    if it returns, satisfies [P].  (A run that ends the process keeps
    anything.) *)
Definition keeps {A : Type} (P : A -> Prop) (m : outcome A) : Prop :=
  match m with
  | Done a => P a
  | Fatal => True
  | OutOfFuel => False
  end.

(** The lines still to be settled, each weighed by the height of its
    suspect's commit above the roots of the history: [k] for an entry that
    accuses [s], one more than the rank of its commit for any other. *)
Definition weight (rank : sha1 -> nat) (k : Z) (s : origin)
    (e : blame_entry) : Z :=
  if guilty e then 0
  else (if cmp_suspect (suspect e) s =? 0 then k
        else Z.of_nat (rank (commit (suspect e))) + 1) * num_lines e.

Definition total_weight (rank : sha1 -> nat) (k : Z) (s : origin)
    (l : list blame_entry) : Z :=
  fold_right (fun e acc => weight rank k s e + acc) 0 l.

Definition work (rank : sha1 -> nat) (l : list blame_entry) : Z :=
  fold_right
    (fun e acc =>
       (if guilty e then 0
        else (Z.of_nat (rank (commit (suspect e))) + 1) * num_lines e) + acc)
    0 l.

(** [x] and [y] differ in their cached score at most. *)
Definition same_but_score (x y : blame_entry) : Prop :=
  lno x = lno y /\ num_lines x = num_lines y /\ suspect x = suspect y
  /\ guilty x = guilty y /\ s_lno x = s_lno y.

(** A split that one of the searches has retained for [e]: none, or what
    [split_overlap] gave for some lines and some origin that satisfies [Q],
    with the score of the middle perhaps cached. *)
Definition proposal (e : blame_entry) (Q : origin -> Prop) (sp : split3)
  : Prop :=
  split1 sp = None
  \/ exists tlno plno same o mid mid',
       Q o
       /\ split1 (split_overlap e tlno plno same o) = Some mid
       /\ split0 sp = split0 (split_overlap e tlno plno same o)
       /\ split2 sp = split2 (split_overlap e tlno plno same o)
       /\ split1 sp = Some mid' /\ same_but_score mid' mid.

(** The splits [find_copy_in_blob] proposes, in the order of the chunks:
    one for every chunk that starts with lines shared with the parent, until
    the entry is used up. *)
Fixpoint proposals (e : blame_entry) (parent : origin) (chunks : list chunk)
    (plno tlno : Z) : list split3 :=
  match chunks with
  | [] => []
  | c :: chunks' =>
      if num_lines e <=? tlno then []
      else
        (if tlno <? same c then
           [split_overlap e (tlno + s_lno e) plno (same c + s_lno e) parent]
         else [])
        ++ proposals e parent chunks' (p_next c) (t_next c)
  end.

(** ** The store with its links

    The partition store once more, as the source has it: every entry is a
    heap cell that carries [prev] and [next], and [sb->ent] points to the
    first.  Reading a cell that is not allocated ends the run; a loop that
    does not end within as many rounds as there are cells runs out of
    fuel. *)
Module Linked.

Record cell : Type := mk_cell {
  prev : option nat;
  next : option nat;
  fields : blame_entry
}.

Record store : Type := mk_store {
  head : option nat;             (* sb->ent *)
  cells : gmap nat cell
}.

Definition read (m : gmap nat cell) (p : nat) : outcome cell :=
  match m !! p with
  | Some c => Done c
  | None => Fatal
  end.

Definition set_prev (v : option nat) (c : cell) : cell :=
  {| prev := v; next := next c; fields := fields c |}.

Definition set_next (v : option nat) (c : cell) : cell :=
  {| prev := prev c; next := v; fields := fields c |}.

Definition set_fields (x : blame_entry) (c : cell) : cell :=
  {| prev := prev c; next := next c; fields := x |}.

(** The search loop of [add_blame_entry], line 347: it returns [prev]. *)
Fixpoint find_prev (fuel : nat) (m : gmap nat cell) (key : Z)
    (ent prv : option nat) : outcome (option nat) :=
  match ent with
  | None => Done prv
  | Some p =>
      c ← read m p;
      if lno (fields c) <? key then
        match fuel with
        | O => OutOfFuel
        | S fuel' => find_prev fuel' m key (next c) (Some p)
        end
      else Done prv
  end.

(** [add_blame_entry], lines 343-362, for a cell [e] that is allocated. *)
Definition add_blame_entry (st : store) (e : nat) : outcome store :=
  c ← read (cells st) e;
  prv ← find_prev (size (cells st)) (cells st) (lno (fields c)) (head st) None;
  (* prev, if not NULL, is the last one that is below e *)
  '(hd, m, nxt) ←
    match prv with
    | Some pp =>
        cp ← read (cells st) pp;
        Done (head st,
              alter (set_next (Some e)) pp
                (<[e := {| prev := prv; next := next cp;
                           fields := fields c |}]> (cells st)),
              next cp)
    | None =>
        Done (Some e,
              <[e := {| prev := prv; next := head st;
                        fields := fields c |}]> (cells st),
              head st)
    end;
  match nxt with
  | Some n => Done {| head := hd; cells := alter (set_prev (Some e)) n m |}
  | None => Done {| head := hd; cells := m |}
  end.

(** [dup_entry], lines 364-373. *)
Definition dup_entry (st : store) (dst : nat) (src : blame_entry) : store :=
  {| head := head st;
     cells := alter (set_fields (dup_entry src)) dst (cells st) |}.

(** [xmalloc] and [memcpy] of a slot of [split] (whose links are zeroed),
    followed by [add_blame_entry]. *)
Definition add_copy (st : store) (x : blame_entry) : outcome store :=
  let p := fresh (dom (cells st)) in
  add_blame_entry
    {| head := head st;
       cells := <[p := {| prev := None; next := None; fields := x |}]>
                  (cells st) |}
    p.

(** The sanity loop, lines 469-489. *)
Fixpoint sanity (fuel : nat) (m : gmap nat cell) (ent : option nat)
    (acc : Z * bool) : outcome bool :=
  match ent with
  | None => Done (snd acc)
  | Some p =>
      c ← read m p;
      match fuel with
      | O => OutOfFuel
      | S fuel' => sanity fuel' m (next c) (sanity_step acc (fields c))
      end
  end.

(** [split_blame], lines 433-490, on the cell [e]. *)
Definition split_blame (st : store) (pre : option blame_entry)
    (mid : blame_entry) (post : option blame_entry) (e : nat)
  : outcome store :=
  st' ←
    match pre, post with
    | Some s0, Some s2 =>
        st1 ← add_copy (dup_entry st e s0) s2; add_copy st1 mid
    | None, None => Done (dup_entry st e mid)
    | Some s0, None => add_copy (dup_entry st e s0) mid
    | None, Some s2 => add_copy (dup_entry st e mid) s2
    end;
  match head st' with
  | None => Fatal
  | Some h =>
      first ← read (cells st') h;
      bad ← sanity (size (cells st')) (cells st') (head st')
                   (lno (fields first), false);
      if (bad : bool) then Fatal else Done st'
  end.

(** [coalesce], lines 124-141. *)
Fixpoint coalesce_loop (fuel : nat) (m : gmap nat cell) (ent : option nat)
  : outcome (gmap nat cell) :=
  match ent with
  | None => Done m
  | Some p =>
      c ← read m p;
      match next c with
      | None => Done m
      | Some n =>
          cn ← read m n;
          match fuel with
          | O => OutOfFuel
          | S fuel' =>
              if coalescible (fields c) (fields cn) then
                let m1 :=
                  <[p := {| prev := prev c; next := next cn;
                            fields := absorb (fields c) (fields cn) |}]> m in
                let m2 :=
                  match next cn with
                  | Some nn => alter (set_prev (Some p)) nn m1
                  | None => m1
                  end in
                (* free(next); next = ent; again *)
                coalesce_loop fuel' (delete n m2) (Some p)
              else coalesce_loop fuel' m (Some n)
          end
      end
  end.

Definition coalesce (st : store) : outcome store :=
  m ← coalesce_loop (size (cells st)) (cells st) (head st);
  Done {| head := head st; cells := m |}.

(** Writes that touch no link and no line number: a new suspect, the guilty
    flag, a cached score (lines 137, 578, 774, 841). *)
Definition relabel (st : store) (p : nat) (who : origin) (g : bool)
    (sc : Z) : store :=
  {| head := head st;
     cells :=
       alter (fun c =>
                set_fields {| lno := lno (fields c);
                              num_lines := num_lines (fields c);
                              suspect := who; guilty := g;
                              s_lno := s_lno (fields c); score := sc |} c)
             p (cells st) |}.

(** Lines 1441-1447: one zeroed cell, and [sb.ent] points to it. *)
Definition first_store (o : origin) (b t : Z) : store :=
  {| head := Some O;
     cells := {[ O := {| prev := None; next := None;
                         fields := first_entry o b t |} ]} |}.

(** The cells from [p] on, with the cell before them: [seg m pv p l pv' p']
    holds when [l] lists, in order, the addresses and the fields of the
    cells that [next] threads from [p], each cell pointing back to the one
    before it ([pv] for the first), up to the address [p'] that the last
    cell ([pv']) points on to. *)
Fixpoint seg (m : gmap nat cell) (pv p : option nat)
    (l : list (nat * blame_entry)) (pv' p' : option nat) : Prop :=
  match l with
  | [] => p = p' /\ pv = pv'
  | (q, e) :: l' =>
      p = Some q
      /\ exists c, m !! q = Some c /\ prev c = pv /\ fields c = e
                   /\ seg m (Some q) (next c) l' pv' p'
  end.

(** A store whose links are consistent: from [sb->ent], whose [prev] is
    null, [next] runs through every cell once and ends in null, and [prev]
    runs back the same way. *)
Definition well_linked (st : store) (l : list (nat * blame_entry)) : Prop :=
  (exists lst, seg (cells st) None (head st) l lst None)
  /\ NoDup (map fst l)
  /\ dom (cells st) = list_to_set (map fst l).

(** The states of the store: the first one, and what the operations make of
    a state.  [split_blame] is run on the split [split_overlap] gives for an
    entry of the list, when that split has a middle. *)
Inductive reachable (o : origin) (b t : Z) : store -> Prop :=
| reach_first : reachable o b t (first_store o b t)
| reach_split (st st' : store) (e : nat) (c : cell) (tlno plno same : Z)
    (parent : origin) (mid mid' : blame_entry) :
    reachable o b t st ->
    cells st !! e = Some c ->
    split1 (split_overlap (fields c) tlno plno same parent) = Some mid ->
    same_but_score mid' mid ->
    split_blame st (split0 (split_overlap (fields c) tlno plno same parent))
                mid' (split2 (split_overlap (fields c) tlno plno same parent)) e
    = Done st' ->
    reachable o b t st'
| reach_coalesce (st st' : store) :
    reachable o b t st -> coalesce st = Done st' -> reachable o b t st'
| reach_relabel (st : store) (p : nat) (who : origin) (g : bool) (sc : Z) :
    reachable o b t st -> reachable o b t (relabel st p who g sc).

End Linked.

(** ** Sample data

    A repository without history, and a diff of two hunks with one line of
    context, to run the definitions on. *)
Definition line (s : string) : string := String.append s (String newline "").

Definition text (lines : list string) : list ascii :=
  list_ascii_of_string (String.concat "" (map line lines)).

Definition same_text (buf : list ascii) (lines : list string) : bool :=
  String.eqb (string_of_list_ascii buf) (string_of_list_ascii (text lines)).

Definition no_history : collaborators :=
  {| commit_parents := fun _ => [];
     parse_commit := fun _ => true;
     uninteresting := fun _ => false;
     commit_date := fun _ => 0;
     max_age := -1;
     tree_blob := fun _ _ => None;
     read_sha1_file := fun _ => None;
     xdl_diff := fun _ _ _ => [];
     parse_hunk_header := fun _ => None;
     diff_tree := fun _ _ _ => [] |}.

(** [a b c d e f g] against [a B c d e f G g'], one line of context. *)
Definition two_hunks : list hunk :=
  [ {| header := line "@@ -1,3 +1,3 @@"; leading := [line " a"];
       body_first := line "-b"; body_rest := [line "+B"];
       trailing := [line " c"] |};
    {| header := line "@@ -6,2 +6,3 @@"; leading := [line " f"];
       body_first := line "-g"; body_rest := [line "+G"; line "+g'"];
       trailing := [] |} ].

Definition two_hunk_differ : collaborators :=
  {| commit_parents := fun _ => [];
     parse_commit := fun _ => true;
     uninteresting := fun _ => false;
     commit_date := fun _ => 0;
     max_age := -1;
     tree_blob := fun _ _ => None;
     read_sha1_file := fun _ => None;
     xdl_diff := fun _ _ _ => concat (map hunk_lines two_hunks);
     parse_hunk_header := fun h =>
       if String.eqb h (line "@@ -1,3 +1,3 @@") then Some (1, 3, 1, 3)
       else if String.eqb h (line "@@ -6,2 +6,3 @@") then Some (6, 2, 6, 3)
       else None;
     diff_tree := fun _ _ _ => [] |}.

(** A history of three commits of one file [f]: commit 1 has the lines
    [A B], commit 2 inserts [X] between them, commit 3 leaves the file as it
    is.  The differ knows the one diff the engine asks for, without context
    and with one line of it. *)
Definition lines_before : list string := ["A"; "B"]%string.

Definition lines_after : list string := ["A"; "X"; "B"]%string.

Definition sample_tip : origin :=
  {| oid := 0; commit := 3%N; blob_sha1 := 20%N; path := "f" |}.

Definition sample_target : origin :=
  {| oid := 1; commit := 2%N; blob_sha1 := 20%N; path := "f" |}.

Definition sample_parent : origin :=
  {| oid := 2; commit := 1%N; blob_sha1 := 10%N; path := "f" |}.

Definition insertion_history : collaborators :=
  {| commit_parents := fun c =>
       if (c =? 3)%N then [2%N] else if (c =? 2)%N then [1%N] else [];
     parse_commit := fun _ => true;
     uninteresting := fun _ => false;
     commit_date := fun _ => 0;
     max_age := -1;
     tree_blob := fun c p =>
       if negb (String.eqb p "f") then None
       else if (c =? 1)%N then Some 10%N
       else if (c =? 2)%N || (c =? 3)%N then Some 20%N
       else None;
     read_sha1_file := fun b =>
       if (b =? 10)%N then Some (text lines_before)
       else if (b =? 20)%N then Some (text lines_after)
       else None;
     xdl_diff := fun pre post ctx =>
       if same_text pre lines_before && same_text post lines_after then
         if ctx =? 0 then [line "@@ -1,0 +2 @@"; line "+X"]
         else [line "@@ -1,2 +1,3 @@"; line " A"; line "+X"; line " B"]
       else [];
     parse_hunk_header := fun h =>
       if String.eqb h (line "@@ -1,0 +2 @@") then Some (1, 0, 2, 1)
       else if String.eqb h (line "@@ -1,2 +1,3 @@") then Some (1, 2, 1, 3)
       else None;
     diff_tree := fun _ _ _ => [] |}.

(** The scoreboard [cmd_pickaxe] builds for the three lines of [f] when the
    blame starts from [o]. *)
Definition insertion_scoreboard (o : origin) : scoreboard :=
  {| final := commit o; sb_path := "f";
     final_buf := text lines_after;
     ent := [first_entry o 0 3];
     sb_num_lines := snd (prepare_lines (text lines_after));
     lineno := fst (prepare_lines (text lines_after));
     origins_made := S (oid o) |}.

(** The split of the one entry of [insertion_scoreboard] around its middle
    line, and the store after the first of the two insertions that
    [split_blame] makes for it. *)
Definition middle_line_split : split3 :=
  split_overlap (first_entry sample_target 0 3) 1 1 2 sample_parent.

Definition middle_line : blame_entry :=
  {| lno := 1; num_lines := 1; suspect := sample_parent; guilty := false;
     s_lno := 1; score := 0 |}.

Definition middle_line_store : Linked.store :=
  match Linked.split_blame (Linked.first_store sample_target 0 3)
          (split0 middle_line_split) middle_line (split2 middle_line_split) O
  with
  | Done st => st
  | _ => Linked.first_store sample_target 0 3
  end.

(** ** The file as lines

    The offsets at which lines of the given lengths start when the first one
    starts at [pos], followed by the offset behind the last of them. *)
Fixpoint offsets (pos : Z) (lens : list Z) : list Z :=
  match lens with
  | [] => [pos]
  | n :: rest => pos :: offsets (pos + n) rest
  end.

Definition no_newline (body : list ascii) : bool :=
  forallb (fun c => negb (Ascii.eqb c newline)) body.

(** The lines of a file: the bodies, each followed by a newline, and the
    last line that no newline ends, if the file has one. *)
Definition file_lines (bodies : list (list ascii)) (tail : list ascii)
  : list (list ascii) :=
  map (fun body => body ++ [newline]) bodies
  ++ match tail with [] => [] | _ :: _ => [tail] end.

(** ** Shapes of the entry list

    No entry of the list could swallow its successor. *)
Fixpoint merged (l : list blame_entry) : Prop :=
  match l with
  | a :: (b :: _) as rest => coalescible a b = false /\ merged rest
  | _ => True
  end.

(** No entry starts before its predecessor does. *)
Fixpoint ascending (l : list blame_entry) : Prop :=
  match l with
  | a :: (b :: _) as rest => lno a <= lno b /\ ascending rest
  | _ => True
  end.

(** The engine options the option loop can leave: none, [-M], [-C], and
    [-C] given twice. *)
Definition engine_option (opt : Z) : bool :=
  (opt =? 0) || (opt =? PICKAXE_BLAME_MOVE)
  || (opt =? Z.lor PICKAXE_BLAME_MOVE PICKAXE_BLAME_COPY)
  || (opt =? Z.lor (Z.lor PICKAXE_BLAME_MOVE PICKAXE_BLAME_COPY)
                   PICKAXE_BLAME_COPY_HARDER).

(** ** The blame, line by line

    What the output loops read off an entry (lines 1023-1035 and 1051-1075):
    for [cnt] from 0 below [num_lines], the line [lno + cnt] of the final
    file, blamed on the suspect's commit and path at its line [s_lno + cnt],
    with the guilty flag of the entry. *)
Record blamed_line : Type := mk_blamed_line {
  final_line : Z;
  line_commit : sha1;
  line_path : string;
  settled : bool;
  source_line : Z
}.

Definition run_of_lines (final source : Z) (c : sha1) (p : string)
    (g : bool) (n : nat) : list blamed_line :=
  map (fun cnt => {| final_line := final + Z.of_nat cnt; line_commit := c;
                     line_path := p; settled := g;
                     source_line := source + Z.of_nat cnt |})
      (seq 0 n).

Definition lines_of_entry (e : blame_entry) : list blamed_line :=
  run_of_lines (lno e) (s_lno e) (commit (suspect e)) (path (suspect e))
               (guilty e) (Z.to_nat (num_lines e)).

Definition lines_of (l : list blame_entry) : list blamed_line :=
  flat_map lines_of_entry l.

(** The windows of [pass_blame_to_parent], lines 546-555: the lines of the
    target from [tlno] up to [same] are the lines of the parent from [plno]
    on; the list ends with the window behind the last chunk, which reaches
    up to [last_in_target]. *)
Record window : Type := mk_window {
  w_tlno : Z;
  w_plno : Z;
  w_same : Z
}.

Fixpoint windows (chunks : list chunk) (plno tlno last_in_target : Z)
  : list window :=
  match chunks with
  | [] => [ {| w_tlno := tlno; w_plno := plno; w_same := last_in_target |} ]
  | c :: chunks' =>
      {| w_tlno := tlno; w_plno := plno; w_same := same c |}
      :: windows chunks' (p_next c) (t_next c) last_in_target
  end.

Definition in_window (s : Z) (w : window) : bool :=
  (w_tlno w <=? s) && (s <? w_same w).

Definition accuses (x : blamed_line) (o : origin) : bool :=
  (line_commit x =? commit o)%N && String.eqb (line_path x) (path o).

(** A line that is not settled and accuses the target goes to the parent
    when a window holds it, at the place the first such window gives it. *)
Definition pass_line (ws : list window) (target parent : origin)
    (x : blamed_line) : blamed_line :=
  if negb (settled x) && accuses x target then
    match List.find (in_window (source_line x)) ws with
    | Some w =>
        {| final_line := final_line x; line_commit := commit parent;
           line_path := path parent; settled := false;
           source_line := w_plno w + (source_line x - w_tlno w) |}
    | None => x
    end
  else x.

(** The lines [b], [b + 1], ... below [t]. *)
Definition line_range (b t : Z) : list Z :=
  map (fun k => b + Z.of_nat k) (seq 0 (Z.to_nat (t - b))).

(** The line with its guilty flag raised. *)
Definition settle (x : blamed_line) : blamed_line :=
  {| final_line := final_line x; line_commit := line_commit x;
     line_path := line_path x; settled := true;
     source_line := source_line x |}.

(** ** The commit header: [get_ac_line] and [get_commit_info], lines 872-980

    The commit buffer and the static buffers are byte strings without a NUL;
    a pointer into one of them is what is left of it from there on. *)
Definition blank : ascii := " "%char.

Fixpoint starts_with (needle haystack : list ascii) : bool :=
  match needle, haystack with
  | [], _ => true
  | _ :: _, [] => false
  | a :: needle', b :: haystack' =>
      Ascii.eqb a b && starts_with needle' haystack'
  end.

(** [strstr]: the haystack from the first place on where the needle occurs. *)
Fixpoint strstr (haystack needle : list ascii) : option (list ascii) :=
  if starts_with needle haystack then Some haystack
  else
    match haystack with
    | [] => None
    | _ :: rest => strstr rest needle
    end.

(** [strchr]: the bytes from the first [c] on. *)
Fixpoint strchr (s : list ascii) (c : ascii) : option (list ascii) :=
  match s with
  | [] => None
  | a :: rest => if Ascii.eqb a c then Some s else strchr rest c
  end.

(** [tmp = person + len; *tmp = 0; while ( *tmp != ' ') tmp--;] on the bytes
    [s] that lie below [tmp]: the bytes before the last blank and the bytes
    behind it.  Without a blank the loop walks out of the buffer, which the
    model answers with [None]. *)
Fixpoint split_at_last_blank (s : list ascii)
  : option (list ascii * list ascii) :=
  match s with
  | [] => None
  | a :: rest =>
      match split_at_last_blank rest with
      | Some (before, behind) => Some (a :: before, behind)
      | None => if Ascii.eqb a blank then Some ([], rest) else None
      end
  end.

Record ac_line : Type := mk_ac_line {
  ac_person : list ascii;      (* the buffer [person], read as a string *)
  ac_mail : list ascii;
  ac_time : Z;
  ac_tz : list ascii
}.

Definition unknown_text : list ascii := list_ascii_of_string "(unknown)".

(** [get_ac_line], lines 888-930.  [person] is what the buffer holds before
    the call.  On [error_out] the source assigns ["(unknown)"] to its own copy
    of the pointer [person], so the buffer keeps what it held. *)
Definition get_ac_line (inbuf what : list ascii) (bufsz : Z)
    (person : list ascii) : option ac_line :=
  let error_out :=
    Some {| ac_person := person; ac_mail := unknown_text; ac_time := 0;
            ac_tz := unknown_text |} in
  match strstr inbuf what with
  | None => error_out
  | Some found =>
      let tmp := drop (length what) found in
      let len :=
        match strchr tmp newline with
        | None => length tmp
        | Some endp => (length tmp - length endp)%nat
        end in
      if bufsz <=? Z.of_nat len then error_out
      else
        '(rest3, tz) ← split_at_last_blank (take len tmp);
        '(rest2, time) ← split_at_last_blank rest3;
        '(name, mail) ← split_at_last_blank rest2;
        Some {| ac_person := name; ac_mail := mail;
                ac_time := fst (strtoul (string_of_list_ascii (blank :: time)));
                ac_tz := tz |}
  end.

(** [struct commit_info], lines 872-886, and the three static buffers of
    [get_commit_info]. *)
Record commit_info : Type := mk_commit_info {
  author : list ascii;
  author_mail : list ascii;
  author_time : Z;
  author_tz : list ascii;
  committer : list ascii;
  committer_mail : list ascii;
  committer_time : Z;
  committer_tz : list ascii;
  summary : list ascii
}.

Record static_buffers : Type := mk_static_buffers {
  author_buf : list ascii;
  committer_buf : list ascii;
  summary_buf : list ascii
}.

Definition BUFFER_SIZE : Z := 1024.

(** The summary, lines 962-979: the line behind the first empty line, when a
    newline ends it and it fits; else the object name in parentheses. *)
Definition summary_of (hex buffer : list ascii) : list ascii :=
  let error_out := list_ascii_of_string "(" ++ hex ++ list_ascii_of_string ")" in
  match strstr buffer [newline; newline] with
  | None => error_out
  | Some found =>
      let tmp := drop 2 found in
      match strchr tmp newline with
      | None => error_out
      | Some endp =>
          let len := (length tmp - length endp)%nat in
          if BUFFER_SIZE <=? Z.of_nat len then error_out else take len tmp
      end
  end.

(** [get_commit_info], lines 932-980, called with [detailed] set, as every
    call of the file is; [hex] is [sha1_to_hex] of the commit and [buffer]
    its text. *)
Definition get_commit_info (hex buffer : list ascii) (bufs : static_buffers)
  : option (commit_info * static_buffers) :=
  a ← get_ac_line buffer (newline :: list_ascii_of_string "author ")
        BUFFER_SIZE (author_buf bufs);
  c ← get_ac_line buffer (newline :: list_ascii_of_string "committer ")
        BUFFER_SIZE (committer_buf bufs);
  Some ({| author := ac_person a; author_mail := ac_mail a;
           author_time := ac_time a; author_tz := ac_tz a;
           committer := ac_person c; committer_mail := ac_mail c;
           committer_time := ac_time c; committer_tz := ac_tz c;
           summary := summary_of hex buffer |},
        {| author_buf := ac_person a; committer_buf := ac_person c;
           summary_buf := summary_of hex buffer |}).

(** ** The porcelain output, lines 990-1036 and 1083-1111

    What one [printf] writes, as the values it formats: the line that opens
    the group of an entry ([hex], the guilty mark, [s_lno + 1], [lno + 1],
    [num_lines]); the ten lines of commit information, the file name among
    them; the file name alone; the line that opens every further line of
    the group; and the tab with the bytes of the line. *)
Inductive printed : Type :=
| Group (hex : sha1) (is_guilty : bool) (source final count : Z)
| Info (ci : commit_info) (filename : string)
| Filename (filename : string)
| Line (hex : sha1) (source final : Z)
| Text (bytes : list ascii).

(** The two object flags the output writes, as the commits that carry them. *)
Record shown_flags : Type := mk_shown_flags {
  metainfo_shown : list sha1;
  more_than_one_path : list sha1
}.

Definition flagged (c : sha1) (commits : list sha1) : bool :=
  existsb (N.eqb c) commits.

(** The copy loop, lines 1029-1034: bytes up to and with the newline, or up
    to the end of the buffer; and the bytes behind them. *)
Fixpoint read_line (cp : list ascii) : list ascii * list ascii :=
  match cp with
  | [] => ([], [])
  | ch :: rest =>
      if Ascii.eqb ch newline then ([ch], rest)
      else
        match rest with
        | [] => ([ch], [])
        | _ :: _ => (ch :: fst (read_line rest), snd (read_line rest))
        end
  end.

(** The loop over the lines of an entry, lines 1023-1035, from [cnt] on with
    [n] lines to go.  At the end of the buffer the copy loop reads the byte
    behind it; the model answers [None]. *)
Fixpoint porcelain_lines (e : blame_entry) (cnt : Z) (n : nat)
    (cp : list ascii) : option (list printed) :=
  match n with
  | O => Some []
  | S n' =>
      match cp with
      | [] => None
      | _ :: _ =>
          rest ← porcelain_lines e (cnt + 1) n' (snd (read_line cp));
          Some ((if cnt =? 0 then []
                 else [Line (commit (suspect e)) (s_lno e + 1 + cnt)
                            (lno e + 1 + cnt)])
                ++ Text (fst (read_line cp)) :: rest)
      end
  end.

(** [emit_porcelain], lines 990-1036.  [hex_of] is [sha1_to_hex] and
    [buffer_of] the text of a commit. *)
Definition emit_porcelain (hex_of buffer_of : sha1 -> list ascii)
    (sb : scoreboard) (e : blame_entry) (fl : shown_flags)
    (bufs : static_buffers)
  : option (list printed * shown_flags * static_buffers) :=
  let c := commit (suspect e) in
  '(meta, fl', bufs') ←
    (if negb (flagged c (metainfo_shown fl)) then
       '(ci, bufs') ← get_commit_info (hex_of c) (buffer_of c) bufs;
       Some ([Info ci (path (suspect e))],
             {| metainfo_shown := c :: metainfo_shown fl;
                more_than_one_path := more_than_one_path fl |},
             bufs')
     else if flagged c (more_than_one_path fl) then
       Some ([Filename (path (suspect e))], fl, bufs)
     else Some ([], fl, bufs));
  lines ← porcelain_lines e 0 (Z.to_nat (num_lines e))
            (drop (Z.to_nat (nth_line sb (lno e))) (final_buf sb));
  Some (Group c (guilty e) (s_lno e + 1) (lno e + 1) (num_lines e)
        :: meta ++ lines,
        fl', bufs').

(** The first loop of [output], lines 1087-1101: a commit is marked when an
    entry of it is followed by an entry of it with another path. *)
Definition other_path_follows (e : blame_entry) (rest : list blame_entry)
  : bool :=
  existsb (fun oth => (commit (suspect oth) =? commit (suspect e))%N
                      && negb (strcmp (path (suspect oth)) (path (suspect e))
                               =? 0))
          rest.

Fixpoint mark_more_than_one_path (l : list blame_entry) (marked : list sha1)
  : list sha1 :=
  match l with
  | [] => marked
  | e :: rest =>
      if flagged (commit (suspect e)) marked
      then mark_more_than_one_path rest marked
      else if other_path_follows e rest
           then mark_more_than_one_path rest (commit (suspect e) :: marked)
           else mark_more_than_one_path rest marked
  end.

(** The second loop of [output], lines 1103-1110, with [OUTPUT_PORCELAIN]
    set: what every call of [emit_porcelain] prints, call by call. *)
Fixpoint emit_entries (hex_of buffer_of : sha1 -> list ascii)
    (sb : scoreboard) (l : list blame_entry) (fl : shown_flags)
    (bufs : static_buffers) : option (list (list printed)) :=
  match l with
  | [] => Some []
  | e :: rest =>
      '(out, fl', bufs') ← emit_porcelain hex_of buffer_of sb e fl bufs;
      outs ← emit_entries hex_of buffer_of sb rest fl' bufs';
      Some (out :: outs)
  end.

Definition output_porcelain (hex_of buffer_of : sha1 -> list ascii)
    (sb : scoreboard) (fl : shown_flags) (bufs : static_buffers)
  : option (list (list printed)) :=
  emit_entries hex_of buffer_of sb (ent sb)
    {| metainfo_shown := metainfo_shown fl;
       more_than_one_path :=
         mark_more_than_one_path (ent sb) (more_than_one_path fl) |}
    bufs.

(** What a group says of the file: the bytes behind the tabs, and the final
    line numbers in its opening lines. *)
Definition text_of (out : list printed) : list ascii :=
  flat_map (fun p => match p with Text bytes => bytes | _ => [] end) out.

Definition numbers_of (out : list printed) : list (Z * Z) :=
  flat_map (fun p => match p with
                     | Group _ _ source final _ => [(source, final)]
                     | Line _ source final => [(source, final)]
                     | _ => []
                     end) out.

Definition has_info (out : list printed) : bool :=
  existsb (fun p => match p with Info _ _ => true | _ => false end) out.

Definition has_bare_filename (out : list printed) : bool :=
  existsb (fun p => match p with Filename _ => true | _ => false end) out.

Definition no_blank (bytes : list ascii) : bool :=
  forallb (fun c => negb (Ascii.eqb c blank)) bytes.

(** The commits that some entry of the list blames under one path and a later
    entry under another. *)
Definition blamed_under_two_paths (l : list blame_entry) (c : sha1) : Prop :=
  exists i j e e',
    (i < j)%nat /\ l !! i = Some e /\ l !! j = Some e'
    /\ commit (suspect e) = c /\ commit (suspect e') = c
    /\ path (suspect e) <> path (suspect e').

(** ** Sample commit texts *)
Definition commit_text (author_name : string) : list ascii :=
  list_ascii_of_string
    (String.concat ""
       [ line "tree 0";
         line (String.append "author "
                 (String.append author_name
                                " <author@example.com> 1161298804 -0700"));
         line "committer C O Mitter <c@example.com> 1161298900 +0000";
         line ""; line "subject"; line ""; line "body" ]).

Definition authorless_commit_text : list ascii :=
  list_ascii_of_string
    (String.append (line "tree 0")
       (line "committer C O Mitter <c@example.com> 1161298900 +0000")).

Definition no_buffers : static_buffers :=
  {| author_buf := []; committer_buf := []; summary_buf := [] |}.

(** The list blame ends with for the sample history, and the texts of its
    commits. *)
Definition blamed_scoreboard : scoreboard :=
  with_ent (insertion_scoreboard sample_tip)
    [ {| lno := 0; num_lines := 1; suspect := sample_parent; guilty := true;
         s_lno := 0; score := 0 |};
      {| lno := 1; num_lines := 1; suspect := sample_target; guilty := true;
         s_lno := 1; score := 0 |};
      {| lno := 2; num_lines := 1; suspect := sample_parent; guilty := true;
         s_lno := 1; score := 0 |} ].

Definition sample_hex (c : sha1) : list ascii :=
  if (c =? 1)%N then list_ascii_of_string "0001"
  else list_ascii_of_string "0002".

Definition sample_buffer (c : sha1) : list ascii :=
  if (c =? 1)%N then commit_text "A U Thor" else commit_text "B Uddy".

(** ** The history a run walks

    [reaches E root c]: [c] is [root], or one of the first [MAXPARENT]
    parents of a commit that is reached from [root] and that [assign_blame]
    digs below (it is neither uninteresting nor older than the age limit). *)
Inductive reaches (E : collaborators) (root : sha1) : sha1 -> Prop :=
| reaches_root : reaches E root root
| reaches_parent (c p : sha1) :
    reaches E root c -> worth_digging E c = true ->
    In p (take MAXPARENT (commit_parents E c)) ->
    reaches E root p.

(** Every entry of [l] accuses a commit that satisfies [A]. *)
Definition blamed_within (A : sha1 -> Prop) (l : list blame_entry) : Prop :=
  Forall (fun e => A (commit (suspect e))) l.

(** ** The names in [find_alignment], lines 1172-1188

    [find_alignment] above gives the three widths; this is the block of the
    loop under [METAINFO_SHOWN], which the entry of a commit enters when no
    entry before it has set the flag: it switches [OUTPUT_SHOW_NAME] on in
    [*option] and measures the path and the author.  [strlen] is read as a
    number that fits an [int]. *)
Record names : Type := mk_names {
  names_option : Z;              (* *option *)
  longest_file : Z;
  longest_author : Z;
  names_shown : list sha1;       (* the commits with METAINFO_SHOWN set *)
  names_bufs : static_buffers
}.

Definition strlen (s : string) : Z := Z.of_nat (String.length s).

Definition measure_names (hex_of buffer_of : sha1 -> list ascii)
    (sb : scoreboard) (st : names) (e : blame_entry) : option names :=
  let c := commit (suspect e) in
  if negb (flagged c (names_shown st)) then
    '(ci, bufs') ← get_commit_info (hex_of c) (buffer_of c) (names_bufs st);
    let num_file := strlen (path (suspect e)) in
    let num_author := Z.of_nat (length (author ci)) in
    Some {| names_option :=
              if negb (strcmp (path (suspect e)) (sb_path sb) =? 0)
              then Z.lor (names_option st) OUTPUT_SHOW_NAME
              else names_option st;
            longest_file :=
              if longest_file st <? num_file then num_file
              else longest_file st;
            longest_author :=
              if longest_author st <? num_author then num_author
              else longest_author st;
            names_shown := c :: names_shown st;
            names_bufs := bufs' |}
  else Some st.

Fixpoint measure_entries (hex_of buffer_of : sha1 -> list ascii)
    (sb : scoreboard) (l : list blame_entry) (st : names) : option names :=
  match l with
  | [] => Some st
  | e :: rest =>
      st' ← measure_names hex_of buffer_of sb st e;
      measure_entries hex_of buffer_of sb rest st'
  end.

(** The two file-scope lengths start at 0, and no commit carries the flag
    when [cmd_pickaxe] calls [find_alignment]. *)
Definition find_alignment_names (hex_of buffer_of : sha1 -> list ascii)
    (sb : scoreboard) (output_option : Z) (bufs : static_buffers)
  : option names :=
  measure_entries hex_of buffer_of sb (ent sb)
    {| names_option := output_option; longest_file := 0; longest_author := 0;
       names_shown := []; names_bufs := bufs |}.

(** The entry at [k] is [e], its commit is not among [seen], and no entry
    before it has its commit. *)
Definition first_seen (seen : list sha1) (l : list blame_entry) (k : nat)
    (e : blame_entry) : Prop :=
  l !! k = Some e /\ flagged (commit (suspect e)) seen = false
  /\ forall j e', (j < k)%nat -> l !! j = Some e' ->
                  commit (suspect e') <> commit (suspect e).

Definition first_of_its_commit (l : list blame_entry) (k : nat)
    (e : blame_entry) : Prop :=
  first_seen [] l k e.

(** Two entries of one commit, the second under a longer path that is not
    the path blame was asked for. *)
Definition copied_scoreboard : scoreboard :=
  with_ent (insertion_scoreboard sample_tip)
    [ {| lno := 0; num_lines := 2; suspect := sample_parent; guilty := true;
         s_lno := 0; score := 0 |};
      {| lno := 2; num_lines := 1;
         suspect := {| oid := 3; commit := 1%N; blob_sha1 := 11%N;
                       path := "lib/g" |};
         guilty := true; s_lno := 7; score := 0 |} ].

(** What the mover and the copier may do to a line: leave it as it is, or
    take an unresolved line of the target to an origin that [to] admits,
    unresolved again and with its final line number. *)
Definition reblamed (target : origin) (to : sha1 -> string -> Prop)
    (x y : blamed_line) : Prop :=
  y = x
  \/ (settled x = false /\ accuses x target = true
      /\ final_line y = final_line x /\ settled y = false
      /\ to (line_commit y) (line_path y)).

(** Thresholds that let every split pass. *)
Definition no_thresholds : thresholds :=
  {| blame_move_score := 0; blame_copy_score := 0 |}.

(** The store of [middle_line_store] after its middle cell has been handed
    back to the target: three cells, one unresolved line of the target each,
    which [coalesce] merges into one. *)
Definition line_at (k : Z) : blame_entry :=
  {| lno := k; num_lines := 1; suspect := sample_target; guilty := false;
     s_lno := k; score := 0 |}.

Definition three_line_store : Linked.store :=
  Linked.relabel middle_line_store 2 sample_target false 0.

(** ** A file whose last line no newline ends

    [a b] against [A b], neither ending in a newline, with one line of
    context: behind the context line [b] the differ writes its marker. *)
Definition no_newline_marker : string := line "\ No newline at end of file".

Definition marker_diff : list string :=
  [ line "@@ -1,2 +1,2 @@"; line "-a"; line "+A"; line " b";
    no_newline_marker ].

Definition marker_differ : collaborators :=
  {| commit_parents := fun _ => [];
     parse_commit := fun _ => true;
     uninteresting := fun _ => false;
     commit_date := fun _ => 0;
     max_age := -1;
     tree_blob := fun _ _ => None;
     read_sha1_file := fun _ => None;
     xdl_diff := fun pre post ctx =>
       if String.eqb (string_of_list_ascii pre) (String.append (line "a") "b")
          && String.eqb (string_of_list_ascii post)
                        (String.append (line "A") "b")
          && (ctx =? 1)
       then marker_diff else [];
     parse_hunk_header := fun h =>
       if String.eqb h (line "@@ -1,2 +1,2 @@") then Some (1, 2, 1, 2)
       else None;
     diff_tree := fun _ _ _ => [] |}.

(** In the words of the claim: the trailing context of a hunk is made of
    its context lines behind the last line it removes or adds, and the chunk
    of the hunk is the chunk of its header pulled back by their number. *)
Definition removed_or_added (l : string) : bool :=
  Ascii.eqb (first_char l) "-" || Ascii.eqb (first_char l) "+".

Fixpoint behind_last_change (lines : list string) : list string :=
  match lines with
  | [] => []
  | l :: rest =>
      if existsb removed_or_added rest then behind_last_change rest
      else if removed_or_added l then rest else lines
  end.

Definition trailing_context_count (lines : list string) : Z :=
  Z.of_nat (length (filter (fun l => context_line l = true)
                           (behind_last_change lines))).

Definition claimed_chunk (off1 len1 off2 len2 : Z) (lines : list string)
  : chunk :=
  pull_back (trailing_context_count lines) (header_chunk off1 len1 off2 len2).

(** ** A parent named twice

    A history of four commits of one file [f] in which commit 3 names its
    parent twice, as a graft line [3 2 2] read through [-S] gives it:
    [read_ancestry] hands the line to the graft table as it is, before
    [assign_blame] has asked for the parents of any commit but the tip, and
    [pass_blame] walks [commit->parents] as it finds it.  Commit 1 has fifteen
    lines, commit 2 leaves the file as it is, commit 3 moves the last seven
    lines to the top, with a new line between the two blocks and one behind
    them, and commit 4, the tip, leaves the file as it is.  The differ knows
    the diffs the engine asks for, without context and with one line of it,
    as [xdl_diff] emits them. *)
Definition common_lines : list string :=
  ["common line 1"; "common line 2"; "common line 3"; "common line 4";
   "common line 5"; "common line 6"; "common line 7"; "common line 8"]%string.

Definition yankee_lines : list string :=
  ["yankee line 1"; "yankee line 2"; "yankee line 3"]%string.

Definition zulu_lines : list string :=
  ["zulu line 1"; "zulu line 2"; "zulu line 3"; "zulu line 4"]%string.

Definition lines_of_parent : list string :=
  common_lines ++ yankee_lines ++ zulu_lines.

Definition lines_of_tip : list string :=
  yankee_lines ++ ["new line"%string] ++ zulu_lines ++ ["more"%string]
  ++ common_lines.

Definition removed (lines : list string) : list string :=
  map (fun l => line (String "-" l)) lines.

Definition added (lines : list string) : list string :=
  map (fun l => line (String "+" l)) lines.

Definition kept (l : string) : string := line (String " " l).

Definition twice_named_history : collaborators :=
  {| commit_parents := fun c =>
       if (c =? 4)%N then [3%N]
       else if (c =? 3)%N then [2%N; 2%N]
       else if (c =? 2)%N then [1%N]
       else [];
     parse_commit := fun _ => true;
     uninteresting := fun _ => false;
     commit_date := fun _ => 0;
     max_age := -1;
     tree_blob := fun c p =>
       if negb (String.eqb p "f") then None
       else if (c =? 1)%N || (c =? 2)%N then Some 20%N
       else if (c =? 3)%N || (c =? 4)%N then Some 30%N
       else None;
     read_sha1_file := fun b =>
       if (b =? 20)%N then Some (text lines_of_parent)
       else if (b =? 30)%N then Some (text lines_of_tip)
       else None;
     xdl_diff := fun pre post ctx =>
       if negb (same_text pre lines_of_parent) then []
       else if same_text post lines_of_tip then
         if ctx =? 0 then
           line "@@ -0,0 +1,9 @@"
           :: added (yankee_lines ++ ["new line"%string] ++ zulu_lines
                     ++ ["more"%string])
           ++ line "@@ -9,7 +17,0 @@"
           :: removed (yankee_lines ++ zulu_lines)
         else []
       else if negb (ctx =? 1) then []
       else if same_text post (take 9 lines_of_tip) then
         line "@@ -1,9 +1 @@"
         :: removed common_lines
         ++ [kept "yankee line 1";
             line "@@ -11,2 +3,3 @@";
             kept "yankee line 3"; line "+new line"; kept "zulu line 1";
             line "@@ -15 +8,2 @@";
             kept "zulu line 4"; line "+more"]
       else if same_text post (take 4 lines_of_tip) then
         line "@@ -1,9 +1 @@"
         :: removed common_lines
         ++ [kept "yankee line 1";
             line "@@ -11,5 +3,2 @@";
             kept "yankee line 3"]
         ++ removed zulu_lines ++ [line "+new line"]
       else if same_text post ["new line"%string] then
         line "@@ -1,15 +1 @@"
         :: removed lines_of_parent ++ [line "+new line"]
       else if same_text post ["more"%string] then
         line "@@ -1,15 +1 @@"
         :: removed lines_of_parent ++ [line "+more"]
       else [];
     parse_hunk_header := fun h =>
       if String.eqb h (line "@@ -0,0 +1,9 @@") then Some (0, 0, 1, 9)
       else if String.eqb h (line "@@ -9,7 +17,0 @@") then Some (9, 7, 17, 0)
       else if String.eqb h (line "@@ -1,9 +1 @@") then Some (1, 9, 1, 1)
       else if String.eqb h (line "@@ -11,2 +3,3 @@") then Some (11, 2, 3, 3)
       else if String.eqb h (line "@@ -15 +8,2 @@") then Some (15, 1, 8, 2)
       else if String.eqb h (line "@@ -11,5 +3,2 @@") then Some (11, 5, 3, 2)
       else if String.eqb h (line "@@ -1,15 +1 @@") then Some (1, 15, 1, 1)
       else None;
     diff_tree := fun _ _ _ => [] |}.

(** The same files in a history that names the parent of commit 3 once. *)
Definition once_named_history : collaborators :=
  {| commit_parents := fun c =>
       if (c =? 3)%N then [2%N] else commit_parents twice_named_history c;
     parse_commit := parse_commit twice_named_history;
     uninteresting := uninteresting twice_named_history;
     commit_date := commit_date twice_named_history;
     max_age := max_age twice_named_history;
     tree_blob := tree_blob twice_named_history;
     read_sha1_file := read_sha1_file twice_named_history;
     xdl_diff := xdl_diff twice_named_history;
     parse_hunk_header := parse_hunk_header twice_named_history;
     diff_tree := diff_tree twice_named_history |}.

(** The origins of the run, in the order in which they are made: the one
    [cmd_pickaxe] makes for the tip, the one for commit 3, the two that the
    first loop of [pass_blame] makes for the parent named twice, and the one
    for commit 1. *)
Definition tip_origin : origin :=
  {| oid := 0; commit := 4%N; blob_sha1 := 30%N; path := "f" |}.

Definition grafted_origin : origin :=
  {| oid := 1; commit := 3%N; blob_sha1 := 30%N; path := "f" |}.

Definition parent_first : origin :=
  {| oid := 2; commit := 2%N; blob_sha1 := 20%N; path := "f" |}.

Definition parent_again : origin :=
  {| oid := 3; commit := 2%N; blob_sha1 := 20%N; path := "f" |}.

Definition root_origin : origin :=
  {| oid := 4; commit := 1%N; blob_sha1 := 20%N; path := "f" |}.

(** The options after [-M]. *)
Definition move_options : options := set_move no_options "-M".

(** Who is accused of which lines: first line, number of lines, suspect,
    guilty. *)
Definition accused (sb : scoreboard) : list (Z * Z * origin * bool) :=
  map (fun e => (lno e, num_lines e, suspect e, guilty e)) (ent sb).

(** The end of a round of [assign_blame], lines 838-843. *)
Definition take_responsibility (s : origin) (sb : scoreboard) : scoreboard :=
  coalesce (with_ent sb (map (plead_guilty s) (ent sb))).

(** The same with the commit for the object, as the output names it. *)
Definition blamed_commits (sb : scoreboard) : list (Z * Z * sha1) :=
  map (fun e => (lno e, num_lines e, commit (suspect e))) (ent sb).

(** The scoreboard of the run on [twice_named_history] when [assign_blame]
    has dealt with the tip and with commit 3: the mover has found the four
    lines [zulu] in the first object made for commit 2 and the three lines
    [yankee] in the second. *)
Definition before_the_short_cut : scoreboard :=
  {| final := 4%N; sb_path := "f"; final_buf := text lines_of_tip;
     ent :=
       [ {| lno := 0; num_lines := 3; suspect := parent_again;
            guilty := false; s_lno := 8; score := 0 |};
         {| lno := 3; num_lines := 1; suspect := grafted_origin;
            guilty := true; s_lno := 3; score := 0 |};
         {| lno := 4; num_lines := 4; suspect := parent_first;
            guilty := false; s_lno := 11; score := 37 |};
         {| lno := 8; num_lines := 1; suspect := grafted_origin;
            guilty := true; s_lno := 8; score := 0 |};
         {| lno := 9; num_lines := 8; suspect := parent_first;
            guilty := false; s_lno := 0; score := 0 |} ];
     sb_num_lines := snd (prepare_lines (text lines_of_tip));
     lineno := fst (prepare_lines (text lines_of_tip));
     origins_made := 4 |}.

(** What the claim asks of the short cut: every entry that accuses the
    commit and the path of [o] accuses [porigin] afterwards. *)
Definition all_handed_over (o porigin : origin)
    (before after : list blame_entry) : Prop :=
  Forall2 (fun e e' => cmp_suspect (suspect e) o = 0 -> suspect e' = porigin)
          before after.

(** ** Origins as objects

    [drawn_from P l]: every suspect of [l] satisfies [P]. *)
Definition drawn_from (P : origin -> Prop) (l : list blame_entry) : Prop :=
  Forall (fun e => P (suspect e)) l.

(** [carried l o]: an entry of [l] has the object [o] as its suspect.
    [one_object_each P]: among the origins that satisfy [P] a commit and a
    path have one object, so that [cmp_suspect] and [==] agree on them.
    [interned l]: that holds of the origins [l] carries.  [fits l o]: what
    [l] carries for the commit and the path of [o] is the object [o]. *)
Definition carried (l : list blame_entry) (o : origin) : Prop :=
  exists e, e ∈ l /\ suspect e = o.

Definition one_object_each (P : origin -> Prop) : Prop :=
  forall a b, P a -> P b -> cmp_suspect a b = 0 -> a = b.

Definition interned (l : list blame_entry) : Prop :=
  one_object_each (carried l).

Definition fits (l : list blame_entry) (o : origin) : Prop :=
  forall x, carried l x -> cmp_suspect x o = 0 -> x = o.

(** No commit names a commit twice among the parents [pass_blame] looks
    at. *)
Definition no_parent_twice (E : collaborators) : Prop :=
  forall c, NoDup (take MAXPARENT (commit_parents E c)).

(** The list of [before_the_short_cut] with the one object [parent_first]
    for commit 2. *)
Definition interned_before_the_short_cut : scoreboard :=
  with_ent before_the_short_cut
    (map (hand_over parent_again parent_first) (ent before_the_short_cut)).

(** * Part II: the theorems *)

(** Equal records, field by field; arithmetic fields go to [lia]. *)
Ltac eq_fields :=
  repeat match goal with
         | |- _ = _ => first [reflexivity | lia | progress f_equal]
         end.

(** ** The alignment pass *)

Lemma lineno_width_loop_digits (rounds : nat) :
  forall lines i width,
    i = 10 ^ width -> 1 <= width -> 10 ^ (width - 1) <= lines + 1 ->
    lines + 1 < 10 ^ 9 -> 9 <= width + Z.of_nat rounds ->
    exists w, lineno_width_loop rounds lines i width = Some w
              /\ decimal_digits (lines + 1) w.
Proof.
  induction rounds as [|rounds IH]; intros lines i width Hi Hw Hlo Hhi Hfuel;
    cbn [lineno_width_loop];
    (destruct (Z.leb_spec i (lines + 1)) as [Hle|Hgt];
     [|exists width; split; [reflexivity|]; unfold decimal_digits; subst i; lia]);
    assert (Hlt : width < 9)
      by (apply (Z.pow_lt_mono_r_iff 10); subst i; lia).
  - lia.
  - assert (Hpow : i * 10 = 10 ^ (width + 1))
      by (subst i; rewrite Z.pow_add_r by lia; lia).
    assert (Hcap : 10 ^ (width + 1) <= 10 ^ 9)
      by (apply Z.pow_le_mono_r; lia).
    change (10 ^ 9) with 1000000000 in Hcap.
    destruct (Z.ltb_spec INT_MAX (i * 10)) as [Hov|Hok];
      [unfold INT_MAX in Hov; lia|].
    apply IH; try lia.
    replace (width + 1 - 1) with width by lia. subst i. lia.
Qed.

(** What [lineno_width] computes: the number of digits of [lines + 1]. *)
Lemma lineno_width_digits (lines : Z) :
  0 <= lines -> lines + 1 < 10 ^ 9 ->
  exists w, lineno_width lines = Some w /\ decimal_digits (lines + 1) w.
Proof.
  intros H0 H9. unfold lineno_width.
  destruct (Z.ltb_spec INT_MAX (lines + 1)) as [Hov|Hok].
  - change (10 ^ 9) with 1000000000 in H9. unfold INT_MAX in Hov. lia.
  - apply lineno_width_loop_digits; try lia; reflexivity.
Qed.

(** C9.  The width [lineno_width] returns for a maximum of 9 is 2, while 9 has
    [1 + floor(log10 9) = 1] decimal digit: the loop compares against
    [lines + 1], so the width is that of the maximum plus one, and the two
    differ whenever the maximum is 9, 99, 999, and so on. *)
Theorem lineno_width_counts_digits_of_successor :
  lineno_width 9 = Some 2 /\ decimal_digits 9 1 /\ ~ decimal_digits 9 2
  /\ lineno_width 99 = Some 3 /\ decimal_digits 99 2.
Proof.
  unfold decimal_digits.
  split; [reflexivity|]. split; [cbn; lia|].
  split; [cbn; lia|]. split; [reflexivity|cbn; lia].
Qed.

(** ** The command line: scores *)

Lemma scan_digits_all_digits (s : string) :
  forall acc, all_digits s = true ->
              scan_digits s acc = (decimal_value_from acc s, EmptyString).
Proof.
  induction s as [|c s IH]; intros acc H; cbn in *; [reflexivity|].
  destruct (digit_of c) as [d|]; cbn in *; [|discriminate].
  apply IH. exact H.
Qed.

Lemma scan_digits_garbage (s : string) :
  forall acc, all_digits s = false -> snd (scan_digits s acc) <> EmptyString.
Proof.
  induction s as [|c s IH]; intros acc H; cbn in *; [discriminate|].
  destruct (digit_of c) as [d|]; cbn in *; [apply IH; exact H|discriminate].
Qed.

Lemma decimal_value_from_lower (s : string) :
  forall acc, 0 <= acc -> acc <= decimal_value_from acc s.
Proof.
  induction s as [|c s IH]; intros acc H; cbn; [lia|].
  assert (0 <= default 0 (digit_of c)).
  { unfold digit_of.
    destruct ((48 <=? Z.of_N (N_of_ascii c)) && (Z.of_N (N_of_ascii c) <=? 57))
      eqn:E; cbn; [|lia].
    apply andb_true_iff in E as [E _]. apply Z.leb_le in E. lia. }
  etransitivity; [|apply IH]; lia.
Qed.

(** A suffix that [strtoul] does not read to its end is sent back as 0. *)
Lemma parse_score_malformed (s : string) :
  signed_decimal s = false -> parse_score s = 0.
Proof.
  unfold signed_decimal, digits_of, parse_score, strtoul. intros Hplain.
  destruct (starts_with_digit (snd (take_sign (skip_spaces s)))) eqn:Hd.
  - assert (Hrest : snd (scan_digits (snd (take_sign (skip_spaces s))) 0)
                    <> EmptyString).
    { apply scan_digits_garbage.
      destruct (snd (take_sign (skip_spaces s))); [discriminate|exact Hplain]. }
    destruct (ULONG_MAX <? _); cbn [fst snd];
      destruct (snd (scan_digits _ 0)); congruence.
  - cbn [fst snd]. destruct s; reflexivity.
Qed.

(** A suffix that [strtoul] reads to its end as zero is sent back as 0. *)
Lemma parse_score_zero (s : string) :
  signed_decimal s = true -> decimal_value (digits_of s) = 0 ->
  parse_score s = 0.
Proof.
  unfold signed_decimal, digits_of, parse_score, strtoul, decimal_value.
  intros Hplain Hzero.
  assert (Hd : starts_with_digit (snd (take_sign (skip_spaces s))) = true).
  { destruct (snd (take_sign (skip_spaces s))) as [|c r]; [discriminate|].
    cbn in Hplain |- *. destruct (digit_of c); [reflexivity|discriminate]. }
  assert (Hall : all_digits (snd (take_sign (skip_spaces s))) = true)
    by (destruct (snd (take_sign (skip_spaces s))); [discriminate|exact Hplain]).
  rewrite Hd, (scan_digits_all_digits _ 0 Hall), Hzero. cbn [fst snd].
  destruct (fst (take_sign (skip_spaces s))); reflexivity.
Qed.

(** A suffix that opens with neither white space nor a sign is its own
    digits. *)
Lemma plain_suffix_is_signed (s : string) :
  leads_with_space_or_sign s = false -> digits_of s = s.
Proof.
  unfold leads_with_space_or_sign, digits_of. destruct s as [|c s];
    [reflexivity|].
  cbn [first_char skip_spaces]. intros H.
  apply orb_false_iff in H as [H Hplus].
  apply orb_false_iff in H as [Hspace Hminus].
  rewrite Hspace. unfold take_sign. rewrite Hminus, Hplus. reflexivity.
Qed.

Lemma parse_options_move (s : string) (rest : list string) (st : options) :
  parse_options (String.append "-M" s :: rest) st
  = parse_options rest (set_move st (String.append "-M" s)).
Proof. destruct s; reflexivity. Qed.

Lemma parse_options_copy (s : string) (rest : list string) (st : options) :
  parse_options (String.append "-C" s :: rest) st
  = parse_options rest (set_copy st (String.append "-C" s)).
Proof. destruct s; reflexivity. Qed.

Lemma effective_scores_nonzero (st : options) :
  blame_move_score (effective_scores st) <> 0
  /\ blame_copy_score (effective_scores st) <> 0.
Proof.
  unfold effective_scores; cbn.
  destruct (Z.eqb_spec (move_score st) 0), (Z.eqb_spec (copy_score st) 0);
    split; try assumption; discriminate.
Qed.

(** C10, as the code has it.  [-M] and [-C] hand what follows the two letters
    to [parse_score].  When that suffix is empty, or is anything but white
    space, at most one sign and then digits up to its end, or is of that
    form and writes zero, the threshold ends as the default (20 for moves,
    40 for copies); and whatever the command line, no threshold ends as
    zero.  These are the suffixes of the claim but for the ones that
    [strtoul] reads to the end although they are no plain decimal: their
    number, when it is not zero modulo 2^32, is the threshold. *)
Theorem score_suffix_falls_back_to_default
    (st : options) (s : string) (rest : list string) :
  s = EmptyString
  \/ signed_decimal s = false
  \/ (signed_decimal s = true /\ decimal_value (digits_of s) = 0) ->
  (parse_options (String.append "-M" s :: rest) st
   = parse_options rest (set_move st (String.append "-M" s))
   /\ blame_move_score (effective_scores (set_move st (String.append "-M" s)))
      = BLAME_DEFAULT_MOVE_SCORE)
  /\ (parse_options (String.append "-C" s :: rest) st
      = parse_options rest (set_copy st (String.append "-C" s))
      /\ blame_copy_score (effective_scores (set_copy st (String.append "-C" s)))
         = BLAME_DEFAULT_COPY_SCORE)
  /\ (forall args G, thresholds_of args = Done G ->
                     blame_move_score G <> 0 /\ blame_copy_score G <> 0)
  /\ (forall s', plain_decimal s' = false ->
                 parse_score s' <> 0 ->
                 signed_decimal s' = true
                 /\ leads_with_space_or_sign s' = true).
Proof.
  intros Hs.
  assert (Hzero : parse_score s = 0).
  { destruct Hs as [->|[Hp|[Hp Hv]]];
      [reflexivity|apply parse_score_malformed|apply parse_score_zero];
      assumption. }
  split; [|split; [|split]].
  - split; [apply parse_options_move|].
    unfold effective_scores, set_move; cbn [blame_move_score move_score].
    replace (advance 2 (String.append "-M" s)) with s by reflexivity.
    rewrite Hzero. reflexivity.
  - split; [apply parse_options_copy|].
    unfold effective_scores, set_copy; cbn [blame_copy_score copy_score].
    replace (advance 2 (String.append "-C" s)) with s by reflexivity.
    rewrite Hzero. reflexivity.
  - intros args G HG. unfold thresholds_of in HG.
    destruct (parse_options args no_options) as [[st' rest']| |];
      cbn in HG; try discriminate.
    injection HG as <-. apply effective_scores_nonzero.
  - intros s' Hplain Hscore.
    destruct (signed_decimal s') eqn:Hsd;
      [|exfalso; apply Hscore, parse_score_malformed, Hsd].
    split; [reflexivity|].
    destruct (leads_with_space_or_sign s') eqn:Hlead; [reflexivity|].
    unfold signed_decimal in Hsd.
    rewrite (plain_suffix_is_signed s' Hlead) in Hsd. congruence.
Qed.

Lemma score_suffix_falls_back_to_default_witness :
  signed_decimal "-x" = false
  /\ blame_move_score
       (effective_scores (set_move no_options (String.append "-M" "-x")))
     = BLAME_DEFAULT_MOVE_SCORE
  /\ map thresholds_of
       [ ["-M-x"]; ["-M+"]; ["-M-5x"]; ["-M x"]; ["-M--5"]; ["-M12abc"];
         ["-M-0"]; ["-M"]; ["-C0"; "-M 0"] ]%string
     = repeat (Done {| blame_move_score := 20; blame_copy_score := 40 |}) 9.
Proof.
  split; [reflexivity|].
  split; [|reflexivity].
  apply (score_suffix_falls_back_to_default no_options "-x" []).
  right; left; reflexivity.
Defined.

(** The claim as it was written fails on a suffix with a minus sign: [-5] is
    not a non-negative decimal number, yet [strtoul] accepts it and the move
    threshold becomes 2^32 - 5 instead of the default. *)
Lemma minus_sign_is_accepted :
  plain_decimal "-5" = false
  /\ thresholds_of ["-M-5"%string; "file"%string]
     = Done {| blame_move_score := 4294967291; blame_copy_score := 40 |}.
Proof. split; reflexivity. Qed.

(** ** The command line: the line range *)

Lemma prepare_lines_count_nonneg (buf : list ascii) :
  0 <= snd (prepare_lines buf).
Proof. unfold prepare_lines; cbn. lia. Qed.

Lemma blame_range_out_of_range (n m count : Z) :
  0 <= count -> n <= m -> count < n \/ count < m ->
  blame_range n m count = Fatal.
Proof.
  intros H0 Hnm Hout. unfold blame_range.
  destruct (Z.ltb_spec m 1); [lia|].
  destruct (Z.ltb_spec count m); [reflexivity|lia].
Qed.

Lemma blame_range_in_range (n m count : Z) :
  1 <= n -> n <= m -> m <= count ->
  blame_range n m count = Done (n - 1, m).
Proof.
  intros H1 Hnm Hin. unfold blame_range.
  destruct (Z.ltb_spec n 1); [lia|].
  destruct (Z.ltb_spec m 1); [lia|].
  destruct (Z.ltb_spec count m); [lia|reflexivity].
Qed.

(** C7.  When the argument of [-L] reads as [n], a comma and [m] with
    [n <= m], the option loop records the pair; a bound beyond the number of
    lines of the file ends the run before any blame is assigned (whatever
    fuel the engine is given, none is used), and for [1 <= n <= m] within
    the file the engine starts from one entry that covers exactly the lines
    [n..m], counted from 1. *)
Theorem line_range_option
    (E : collaborators) (st : options) (arg tail : string) (n m : Z) :
  opt_bottom st = 0 -> opt_top st = 0 ->
  strtol arg = (n, String "," tail) -> strtol tail = (m, EmptyString) ->
  n <= m ->
  exists st',
    parse_range st arg = Done st'
    /\ forall final_commit p o buf,
         ((snd (prepare_lines buf) < n \/ snd (prepare_lines buf) < m) ->
          forall fuel, dig E fuel st' final_commit p o buf = Fatal)
         /\ (1 <= n -> m <= snd (prepare_lines buf) ->
             exists sb,
               start_blame st' final_commit p o buf = Done sb
               /\ ent sb = [ {| lno := n - 1; num_lines := m - n + 1;
                                suspect := o; guilty := false;
                                s_lno := n - 1; score := 0 |} ]).
Proof.
  intros Hb Ht Hn Hm Hnm.
  exists (set_range st n m). split.
  - unfold parse_range. rewrite Hb, Ht, Hn. cbn [snd fst first_char negb orb].
    cbn [Z.eqb negb orb]. cbn [Ascii.eqb Bool.eqb advance]. rewrite Hm.
    cbn [snd fst]. unfold swap_if_reversed.
    destruct (Z.ltb_spec m n); [lia|].
    rewrite !andb_false_r. reflexivity.
  - intros final_commit p o buf. split.
    + intros Hout fuel. unfold dig, start_blame.
      cbn [opt_bottom opt_top set_range].
      rewrite blame_range_out_of_range;
        auto using prepare_lines_count_nonneg.
    + intros H1 Hin. unfold start_blame. cbn [opt_bottom opt_top set_range].
      rewrite blame_range_in_range by assumption.
      eexists. split; [reflexivity|]. cbn [ent]. unfold first_entry.
      repeat f_equal; lia.
Qed.

Lemma line_range_option_witness :
  (strtol "2,3" = (2, ",3"%string) /\ strtol "3" = (3, ""%string))
  /\ exists st',
       parse_range no_options "2,3" = Done st'
       /\ forall final_commit p o buf,
            ((snd (prepare_lines buf) < 2 \/ snd (prepare_lines buf) < 3) ->
             forall fuel, dig no_history fuel st' final_commit p o buf = Fatal)
            /\ (1 <= 2 -> 3 <= snd (prepare_lines buf) ->
                exists sb,
                  start_blame st' final_commit p o buf = Done sb
                  /\ ent sb = [ {| lno := 2 - 1; num_lines := 3 - 2 + 1;
                                   suspect := o; guilty := false;
                                   s_lno := 2 - 1; score := 0 |} ]).
Proof.
  split; [split; reflexivity|].
  apply (line_range_option no_history no_options "2,3" "3" 2 3);
    first [reflexivity | lia].
Defined.

(** ** The patch adapter *)

Lemma on_last_chunk_snoc (f : chunk -> chunk) (cs : list chunk) (c : chunk) :
  on_last_chunk f (cs ++ [c]) = cs ++ [f c].
Proof.
  induction cs as [|x cs IH]; [reflexivity|].
  cbn [app on_last_chunk]. rewrite IH.
  destruct (cs ++ [c]) eqn:E; [destruct cs; discriminate|reflexivity].
Qed.

Lemma pull_back_zero (cs : list chunk) : on_last_chunk (pull_back 0) cs = cs.
Proof.
  induction cs as [|x cs IH]; [reflexivity|].
  cbn [on_last_chunk]. destruct cs as [|y cs].
  - destruct x; unfold pull_back; cbn [same p_next t_next].
    rewrite !Z.sub_0_r. reflexivity.
  - rewrite IH. reflexivity.
Qed.

Lemma consume_lines_app (E : collaborators) (xs ys : list string)
    (st : blame_diff_state) :
  consume_lines E (xs ++ ys) st = consume_lines E ys (consume_lines E xs st).
Proof. unfold consume_lines. apply fold_left_app. Qed.

(** A header that parses: the chunk before it is pulled back by the context
    that trailed it, and one chunk is appended. *)
Lemma process_header (E : collaborators) (st : blame_diff_state)
    (line : string) (off1 len1 off2 len2 : Z) :
  is_hunk_header line = true ->
  parse_hunk_header E line = Some (off1, len1, off2, len2) ->
  0 <= len1 ->
  process_u_diff E st line
  = {| ret := finish_patch st ++ [header_chunk off1 len1 off2 len2];
       hunk_post_context := 0;
       hunk_in_pre_context := true |}.
Proof.
  intros Hh Hp Hlen. unfold process_u_diff, finish_patch, header_chunk.
  rewrite Hh, Hp. cbn [negb].
  assert (Hpull : (if negb (hunk_post_context st =? 0)
                   then on_last_chunk (pull_back (hunk_post_context st)) (ret st)
                   else ret st)
                  = on_last_chunk (pull_back (hunk_post_context st)) (ret st)).
  { destruct (Z.eqb_spec (hunk_post_context st) 0) as [->|_]; cbn [negb];
      [symmetry; apply pull_back_zero|reflexivity]. }
  rewrite Hpull.
  destruct (Z.eqb_spec len2 0), (Z.eqb_spec len1 0); cbn [negb];
    eq_fields.
Qed.

Lemma consume_leading (E : collaborators) (lines : list string) :
  forall cs c k,
    forallb context_line lines = true ->
    consume_lines E lines
      {| ret := cs ++ [c]; hunk_post_context := k; hunk_in_pre_context := true |}
    = {| ret := cs ++ [ {| same := same c + Z.of_nat (length lines);
                           p_next := p_next c; t_next := t_next c |} ];
         hunk_post_context := k; hunk_in_pre_context := true |}.
Proof.
  induction lines as [|line lines IH]; intros cs c k H.
  - cbn. destruct c; cbn. eq_fields.
  - cbn [forallb] in H. apply andb_true_iff in H as [Hc Hrest].
    unfold context_line in Hc. apply andb_true_iff in Hc as [Hnh Hblank].
    unfold consume_lines in *. cbn [fold_left].
    unfold process_u_diff at 2. rewrite Hnh, Hblank.
    cbn [hunk_in_pre_context andb ret hunk_post_context].
    rewrite on_last_chunk_snoc, IH by exact Hrest.
    unfold bump_same; cbn [same p_next t_next length].
    eq_fields.
Qed.

Lemma process_changed (E : collaborators) (st : blame_diff_state)
    (line : string) :
  changed_line line = true ->
  process_u_diff E st line
  = {| ret := ret st; hunk_post_context := 0; hunk_in_pre_context := false |}.
Proof.
  unfold changed_line. intros H. apply andb_true_iff in H as [Hnh Hnb].
  apply negb_true_iff in Hnb. unfold process_u_diff.
  rewrite Hnh, Hnb, andb_false_r. reflexivity.
Qed.

Lemma process_inside (E : collaborators) (cs : list chunk) (k : Z)
    (line : string) :
  is_hunk_header line = false ->
  exists k',
    process_u_diff E {| ret := cs; hunk_post_context := k;
                        hunk_in_pre_context := false |} line
    = {| ret := cs; hunk_post_context := k'; hunk_in_pre_context := false |}.
Proof.
  intros Hnh. unfold process_u_diff. rewrite Hnh. cbn. eauto.
Qed.

Lemma consume_body_rest (E : collaborators) (lines : list string) :
  forall cs,
    forallb (fun line => negb (is_hunk_header line)) lines = true ->
    ends_changed lines = true ->
    consume_lines E lines
      {| ret := cs; hunk_post_context := 0; hunk_in_pre_context := false |}
    = {| ret := cs; hunk_post_context := 0; hunk_in_pre_context := false |}.
Proof.
  intros cs Hall Hend.
  assert (Hany : forall ls k,
             forallb (fun line => negb (is_hunk_header line)) ls = true ->
             exists k',
               consume_lines E ls
                 {| ret := cs; hunk_post_context := k;
                    hunk_in_pre_context := false |}
               = {| ret := cs; hunk_post_context := k';
                    hunk_in_pre_context := false |}).
  { induction ls as [|l ls IH]; intros k H; [cbn; eauto|].
    cbn [forallb] in H. apply andb_true_iff in H as [Hl Hls].
    apply negb_true_iff in Hl.
    destruct (process_inside E cs k l Hl) as [k1 Hk1].
    unfold consume_lines in *. cbn [fold_left]. rewrite Hk1. apply IH, Hls. }
  destruct lines as [|x xs _] using rev_ind; [reflexivity|].
  rewrite forallb_app in Hall. apply andb_true_iff in Hall as [Hxs _].
  unfold ends_changed in Hend. rewrite last_snoc in Hend.
  rewrite consume_lines_app. destruct (Hany xs 0 Hxs) as [k' ->].
  unfold consume_lines; cbn [fold_left]. rewrite process_changed by exact Hend.
  reflexivity.
Qed.

Lemma consume_trailing (E : collaborators) (lines : list string) :
  forall cs k,
    forallb context_line lines = true ->
    consume_lines E lines
      {| ret := cs; hunk_post_context := k; hunk_in_pre_context := false |}
    = {| ret := cs; hunk_post_context := k + Z.of_nat (length lines);
         hunk_in_pre_context := false |}.
Proof.
  induction lines as [|line lines IH]; intros cs k H.
  - cbn. f_equal; lia.
  - cbn [forallb] in H. apply andb_true_iff in H as [Hc Hrest].
    unfold context_line in Hc. apply andb_true_iff in Hc as [Hnh Hblank].
    unfold consume_lines in *. cbn [fold_left].
    unfold process_u_diff at 2. rewrite Hnh, Hblank.
    cbn [hunk_in_pre_context andb ret hunk_post_context].
    rewrite IH by exact Hrest. cbn [length]. f_equal; lia.
Qed.

(** One hunk, from any state. *)
Lemma consume_hunk_state (E : collaborators) (h : hunk)
    (st : blame_diff_state) (off1 len1 off2 len2 : Z) :
  well_formed_hunk E h ->
  parse_hunk_header E (header h) = Some (off1, len1, off2, len2) ->
  consume_lines E (hunk_lines h) st
  = {| ret := finish_patch st
              ++ [ {| same := same (header_chunk off1 len1 off2 len2)
                              + Z.of_nat (length (leading h));
                      p_next := p_next (header_chunk off1 len1 off2 len2);
                      t_next := t_next (header_chunk off1 len1 off2 len2) |} ];
       hunk_post_context := 0 + Z.of_nat (length (trailing h));
       hunk_in_pre_context := false |}.
Proof.
  intros (Hh & (o1 & l1 & o2 & l2 & Hp' & Hlen) & Hlead & Hfirst
          & Hrest & Hend & Htrail) Hp.
  rewrite Hp in Hp'. injection Hp' as <- <- <- <-.
  unfold hunk_lines.
  change (header h :: leading h ++ body_first h :: body_rest h ++ trailing h)
    with ([header h] ++ leading h ++ [body_first h] ++ body_rest h ++ trailing h).
  do 4 rewrite consume_lines_app.
  replace (consume_lines E [header h] st)
    with (process_u_diff E st (header h)) by reflexivity.
  rewrite (process_header E st _ _ _ _ _ Hh Hp Hlen).
  rewrite consume_leading by exact Hlead.
  match goal with
  | |- context [consume_lines E [body_first h] ?s] =>
      replace (consume_lines E [body_first h] s)
        with (process_u_diff E s (body_first h)) by reflexivity
  end.
  rewrite process_changed by exact Hfirst. cbn [ret].
  rewrite consume_body_rest by assumption.
  rewrite consume_trailing by exact Htrail. reflexivity.
Qed.

Lemma consume_hunk (E : collaborators) (h : hunk) (st : blame_diff_state) :
  well_formed_hunk E h ->
  finish_patch (consume_lines E (hunk_lines h) st)
  = finish_patch st ++ [chunk_of_hunk E h].
Proof.
  intros Hwf.
  destruct Hwf as (Hh & (off1 & len1 & off2 & len2 & Hp & Hlen) & Hrest).
  rewrite (consume_hunk_state E h st off1 len1 off2 len2);
    [|split; [exact Hh|split; [eauto 10|exact Hrest]]|exact Hp].
  unfold finish_patch at 1. cbn [ret hunk_post_context].
  rewrite on_last_chunk_snoc. unfold chunk_of_hunk. rewrite Hp.
  unfold pull_back; cbn [same p_next t_next]. eq_fields.
Qed.

Lemma consume_hunks (E : collaborators) (hs : list hunk) :
  forall st,
    Forall (well_formed_hunk E) hs ->
    finish_patch (consume_lines E (concat (map hunk_lines hs)) st)
    = finish_patch st ++ map (chunk_of_hunk E) hs.
Proof.
  induction hs as [|h hs IH]; intros st Hwf.
  - cbn. rewrite app_nil_r. reflexivity.
  - inversion Hwf as [|? ? Hh Hhs]; subst.
    cbn [map concat]. rewrite consume_lines_app, IH by exact Hhs.
    rewrite (consume_hunk E h st Hh), <- app_assoc. reflexivity.
Qed.

(** C4.  The trailing context is not always taken off.  For [a b] against
    [A b], two files whose last line no newline ends, the differ writes the
    header, the two changed lines, the context line [b] and then its marker.
    The marker does not open with a blank, so [process_u_diff] sets
    [hunk_post_context] back to 0 (lines 248-251) and the chunk stays at
    [p_next = 2] and [t_next = 2], where the claim, with one line of
    trailing context, has 1 and 1.  The same diff without the marker gives
    the chunk of the claim. *)
Theorem marker_hides_trailing_context :
  compare_buffer marker_differ
    (list_ascii_of_string (String.append (line "a") "b"))
    (list_ascii_of_string (String.append (line "A") "b")) 1
  = [ {| same := 0; p_next := 2; t_next := 2 |} ]
  /\ trailing_context_count (tl marker_diff) = 1
  /\ claimed_chunk 1 2 1 2 (tl marker_diff)
     = {| same := 0; p_next := 1; t_next := 1 |}
  /\ finish_patch (consume_lines marker_differ (removelast marker_diff)
                                 initial_diff_state)
     = [claimed_chunk 1 2 1 2 (tl marker_diff)].
Proof. repeat split; vm_compute; reflexivity. Qed.

(** X21.  A header that parses appends exactly one chunk, with [same] the
    postimage offset (one more for an empty postimage), [p_next] equal to
    [off1 + max(len1, 1)] and [t_next] equal to [same + len2], offsets
    counted from 0, after the chunk before it has been pulled back by the
    count [hunk_post_context].  Over a whole diff whose hunks are a header,
    context lines, a body that ends in a line that does not open with a
    blank (a removed line, an added line, or the no-newline marker) and a
    run of context lines that ends the hunk, the chunks [compare_buffer]
    returns are, hunk by hunk, the chunk of the header with [same] raised
    by the leading context and [p_next] and [t_next] lowered by that final
    run, before the next hunk and after the last one alike. *)
Theorem patch_adapter_chunks
    (E : collaborators) (file_p file_o : list ascii) (context : Z)
    (hs : list hunk) :
  Forall (well_formed_hunk E) hs ->
  xdl_diff E file_p file_o context = concat (map hunk_lines hs) ->
  compare_buffer E file_p file_o context = map (chunk_of_hunk E) hs
  /\ (forall st line off1 len1 off2 len2,
        is_hunk_header line = true ->
        parse_hunk_header E line = Some (off1, len1, off2, len2) ->
        0 <= len1 ->
        process_u_diff E st line
        = {| ret := on_last_chunk (pull_back (hunk_post_context st)) (ret st)
                    ++ [ {| same := if len2 =? 0 then (off2 - 1) + 1
                                    else off2 - 1;
                            p_next := (off1 - 1) + Z.max len1 1;
                            t_next := (if len2 =? 0 then (off2 - 1) + 1
                                       else off2 - 1) + len2 |} ];
             hunk_post_context := 0;
             hunk_in_pre_context := true |})
  /\ (forall st line lines,
        changed_line line = true -> forallb context_line lines = true ->
        finish_patch (consume_lines E (line :: lines) st)
        = on_last_chunk (pull_back (Z.of_nat (length lines))) (ret st)).
Proof.
  intros Hwf Hdiff. split; [|split].
  - unfold compare_buffer. rewrite Hdiff, consume_hunks by exact Hwf.
    reflexivity.
  - intros st line off1 len1 off2 len2 Hh Hp Hlen.
    rewrite (process_header E st line off1 len1 off2 len2) by assumption.
    reflexivity.
  - intros st line lines Hc Hctx.
    change (line :: lines) with ([line] ++ lines).
    rewrite consume_lines_app.
    replace (consume_lines E [line] st) with (process_u_diff E st line)
      by reflexivity.
    rewrite process_changed, consume_trailing by assumption.
    reflexivity.
Qed.

Lemma patch_adapter_chunks_witness :
  Forall (well_formed_hunk two_hunk_differ) two_hunks
  /\ compare_buffer two_hunk_differ [] [] 1
     = [ {| same := 1; p_next := 2; t_next := 2 |};
         {| same := 6; p_next := 7; t_next := 8 |} ].
Proof.
  assert (Hwf : Forall (well_formed_hunk two_hunk_differ) two_hunks).
  { repeat constructor; cbn; eauto 10; repeat econstructor; lia. }
  split; [exact Hwf|].
  apply (patch_adapter_chunks two_hunk_differ [] [] 1 two_hunks Hwf eq_refl).
Defined.

(** ** The copier's tree diff *)

Lemma string_compare_refl (a : string) : String.compare a a = Eq.
Proof.
  pose proof (String.compare_antisym a a) as H.
  destruct (String.compare a a); [reflexivity|discriminate H..].
Qed.

Lemma strcmp_eq (a b : string) : strcmp a b = 0 <-> a = b.
Proof.
  unfold strcmp. split.
  - intros H. apply String.compare_eq_iff.
    destruct (String.compare a b); [reflexivity|discriminate H..].
  - intros ->. rewrite string_compare_refl. reflexivity.
Qed.

(** C8, as the code has it.  With copy-harder enabled, the tree diff that
    [find_copy_in_parent] runs from a parent to the target asks for copy
    detection over every file of the parent exactly when no origin was
    resolved in that parent or the origin resolved there has another path
    than the target; for a parent that holds the file under the target's own
    path the diff is a plain recursive one. *)
Theorem copy_harder_on_new_path
    (opt : Z) (porigin : option origin) (target : origin) :
  has_flag opt PICKAXE_BLAME_COPY_HARDER = true ->
  (porigin = None \/ (exists po, porigin = Some po /\ path po <> path target) ->
   copy_options opt porigin target
   = {| recursive := true; detect_rename := DIFF_DETECT_COPY;
        find_copies_harder := true |})
  /\ ((exists po, porigin = Some po /\ path po = path target) ->
      copy_options opt porigin target
      = {| recursive := true; detect_rename := 0;
           find_copies_harder := false |})
  /\ (forall G E fuel sb parent,
        0 <= find_last_in_target sb target ->
        find_copy_in_parent G E fuel sb target parent porigin opt
        = (sb' ← for_each_entry fuel
                   (then_allocate
                      (length (diff_tree E (copy_options opt porigin target)
                                         parent (commit target)))
                      (copy_body G E target parent porigin
                         (diff_tree E (copy_options opt porigin target) parent
                                    (commit target))))
                   sb O;
           Done (sb', false))).
Proof.
  intros Hflag. unfold copy_options. rewrite Hflag. split; [|split].
  - intros [->|(po & -> & Hne)]; [reflexivity|].
    destruct (Z.eqb_spec (strcmp (path target) (path po)) 0) as [Heq|_];
      [|reflexivity].
    apply strcmp_eq in Heq. congruence.
  - intros (po & -> & Heq).
    destruct (Z.eqb_spec (strcmp (path target) (path po)) 0) as [_|Hne];
      [reflexivity|].
    exfalso. apply Hne, strcmp_eq. congruence.
  - intros G E fuel sb parent Hlast. unfold find_copy_in_parent, copy_options.
    rewrite Hflag.
    destruct (Z.ltb_spec (find_last_in_target sb target) 0); [lia|reflexivity].
Qed.

Lemma copy_harder_on_new_path_witness :
  has_flag 7 PICKAXE_BLAME_COPY_HARDER = true
  /\ copy_options 7 None
       {| oid := 0; commit := 2%N; blob_sha1 := 20%N; path := "dst.c" |}
     = {| recursive := true; detect_rename := DIFF_DETECT_COPY;
          find_copies_harder := true |}.
Proof.
  split; [reflexivity|].
  apply (copy_harder_on_new_path 7 None
           {| oid := 0; commit := 2%N; blob_sha1 := 20%N; path := "dst.c" |});
    [reflexivity|left; reflexivity].
Defined.

(** The claim as it was written fails for a parent that already has the file
    under the same path: copy-harder is on, yet the diff asks for no copy
    detection at all. *)
Lemma copy_harder_same_path_is_plain :
  has_flag 7 PICKAXE_BLAME_COPY_HARDER = true
  /\ copy_options 7
       (Some {| oid := 1; commit := 1%N; blob_sha1 := 10%N; path := "a.c" |})
       {| oid := 0; commit := 2%N; blob_sha1 := 20%N; path := "a.c" |}
     = {| recursive := true; detect_rename := 0; find_copies_harder := false |}.
Proof. split; reflexivity. Qed.

(** ** The partition store *)

Lemma linked_up_app (l1 l2 : list blame_entry) :
  forall a c,
    linked_up a (l1 ++ l2) c
    <-> exists m, linked_up a l1 m /\ linked_up m l2 c.
Proof.
  induction l1 as [|e l1 IH]; intros a c; cbn.
  - split; [intros H; exists a; auto|intros (m & -> & H); exact H].
  - rewrite IH. split.
    + intros (He & m & H1 & H2). exists m. auto.
    + intros (m & (He & H1) & H2). split; [exact He|]. exists m. auto.
Qed.

Lemma linked_up_unique (l : list blame_entry) :
  forall a c c', linked_up a l c -> linked_up a l c' -> c = c'.
Proof.
  induction l as [|e l IH]; intros a c c'; cbn.
  - congruence.
  - intros [_ H] [_ H']. eapply IH; eassumption.
Qed.

Lemma linked_up_length (l : list blame_entry) :
  forall a c,
    linked_up a l c -> Forall sound_entry l -> a + Z.of_nat (length l) <= c.
Proof.
  induction l as [|e l IH]; intros a c H Hs; cbn in *.
  - lia.
  - destruct H as [He H]. inversion Hs as [|? ? [Hn _] Hs']; subst.
    specialize (IH _ _ H Hs'). lia.
Qed.

Lemma linked_up_bounds (l : list blame_entry) :
  forall a c,
    linked_up a l c -> Forall sound_entry l ->
    Forall (fun e => a <= lno e /\ lno e + num_lines e <= c) l.
Proof.
  induction l as [|e l IH]; intros a c H Hs; cbn in *; [constructor|].
  destruct H as [He H]. inversion Hs as [|? ? [Hn Hsl] Hs']; subst.
  pose proof (linked_up_length _ _ _ H Hs') as Hlen.
  constructor; [lia|].
  eapply Forall_impl; [apply (IH _ _ H Hs')|]. cbn. intros x; lia.
Qed.

Lemma partition_length (b t : Z) (l : list blame_entry) :
  partition b t l -> (length l <= Z.to_nat (t - b))%nat.
Proof.
  intros (_ & H & Hs). pose proof (linked_up_length _ _ _ H Hs). lia.
Qed.

(** [add_blame_entry] puts [y] behind the entries that start below it. *)
Lemma add_blame_entry_at (l1 l2 : list blame_entry) (y : blame_entry) :
  Forall (fun x => lno x < lno y) l1 ->
  match l2 with [] => True | x :: _ => lno y <= lno x end ->
  add_blame_entry (l1 ++ l2) y = l1 ++ y :: l2
  /\ entries_below (l1 ++ l2) y = length l1.
Proof.
  induction l1 as [|x l1 IH]; intros H1 H2; cbn.
  - destruct l2 as [|x l2]; cbn; [auto|].
    destruct (Z.ltb_spec (lno x) (lno y)); [lia|auto].
  - inversion H1 as [|? ? Hx H1']; subst.
    destruct (Z.ltb_spec (lno x) (lno y)); [|lia].
    destruct (IH H1' H2) as [-> ->]. auto.
Qed.

(** The sanity loop accepts exactly the lists that are linked up from their
    first line and carry no negative [s_lno]. *)
Lemma sanity_fold (l : list blame_entry) :
  forall a bad,
    snd (fold_left sanity_step l (a, bad)) = false
    <-> bad = false /\ (exists c, linked_up a l c)
        /\ Forall (fun e => 0 <= s_lno e) l.
Proof.
  induction l as [|e l IH]; intros a bad; cbn [fold_left].
  - cbn. split; [intros ->; repeat split; eauto|intros [-> _]; reflexivity].
  - unfold sanity_step at 2. cbn [fst snd]. rewrite IH. cbn [linked_up].
    rewrite !orb_false_iff, negb_false_iff, Z.eqb_eq, Z.ltb_ge.
    split.
    + intros (((Hb & Ha) & Hs) & (c & Hc) & Hall).
      split; [exact Hb|]. split; [exists c; auto|constructor; assumption].
    + intros (Hb & (c & Ha & Hc) & Hall).
      inversion Hall; subst. repeat split; eauto.
Qed.

Lemma corrupt_false (l : list blame_entry) :
  corrupt l = false
  <-> exists e rest, l = e :: rest /\ (exists c, linked_up (lno e) l c)
                     /\ Forall (fun e => 0 <= s_lno e) l.
Proof.
  unfold corrupt. destruct l as [|e rest].
  - split; [discriminate|intros (? & ? & ? & _); discriminate].
  - rewrite sanity_fold. split.
    + intros (_ & H1 & H2). eauto 10.
    + intros (? & ? & Heq & H1 & H2). injection Heq as <- <-. auto.
Qed.

Lemma insert_middle (l1 l2 : list blame_entry) (e x : blame_entry) :
  <[length l1 := x]> (l1 ++ e :: l2) = l1 ++ x :: l2.
Proof. induction l1 as [|y l1 IH]; cbn; [reflexivity|]. f_equal. exact IH. Qed.

Lemma lookup_middle (l1 l2 : list blame_entry) (e : blame_entry) :
  (l1 ++ e :: l2) !! length l1 = Some e.
Proof. induction l1 as [|y l1 IH]; cbn; [reflexivity|exact IH]. Qed.

Lemma split_at (l : list blame_entry) (i : nat) (e : blame_entry) :
  l !! i = Some e ->
  l = take i l ++ e :: drop (S i) l /\ length (take i l) = i.
Proof.
  intros H. split.
  - symmetry. apply take_drop_middle. exact H.
  - apply length_take_le. apply lookup_lt_Some in H. lia.
Qed.

(** An entry placed behind the prefix [l1 ++ [x]] of a partition, where it
    belongs by its first line. *)
Lemma add_tracking_behind (l1 l2 : list blame_entry) (x y : blame_entry)
    (a : Z) :
  linked_up a l1 (lno x) -> Forall sound_entry l1 ->
  lno x < lno y ->
  match l2 with [] => True | z :: _ => lno y <= lno z end ->
  add_tracking (l1 ++ x :: l2, length l1) y
  = (l1 ++ x :: y :: l2, length l1).
Proof.
  intros Hl Hs Hxy Hl2. unfold add_tracking. cbn [fst snd].
  assert (Hbelow : Forall (fun z => lno z < lno y) (l1 ++ [x])).
  { apply Forall_app. split; [|repeat constructor; exact Hxy].
    pose proof (linked_up_bounds _ _ _ Hl Hs) as Hb.
    rewrite Forall_forall in Hs, Hb. apply Forall_forall. intros z Hz.
    specialize (Hs z Hz). specialize (Hb z Hz). unfold sound_entry in Hs. lia. }
  destruct (add_blame_entry_at (l1 ++ [x]) l2 y Hbelow Hl2) as [Hadd Hpos].
  rewrite <- !app_assoc in Hadd, Hpos. cbn [app] in Hadd, Hpos.
  rewrite Hadd, Hpos, length_app. cbn [length].
  rewrite <- app_assoc. cbn [app].
  destruct (Nat.leb_spec (length l1 + 1) (length l1)); [lia|reflexivity].
Qed.

Lemma head_after (l2 : list blame_entry) (c t y : Z) :
  linked_up c l2 t -> y <= c ->
  match l2 with [] => True | z :: _ => y <= lno z end.
Proof. destruct l2 as [|z l2]; cbn; [auto|]. intros [-> _]. auto. Qed.

(** [split_blame] on an entry of a partition, with parts that are linked up
    over the span of the entry: the parts take the place of the entry, the
    position of the entry stays, and the run ends in [die("oops")] exactly
    when a part has a negative [s_lno]. *)
Lemma split_blame_spec (sb : scoreboard) (pre post : option blame_entry)
    (mid e : blame_entry) (l1 l2 : list blame_entry) (b t : Z) :
  ent sb = l1 ++ e :: l2 -> partition b t (ent sb) ->
  linked_up (lno e) (pieces pre mid post) (lno e + num_lines e) ->
  Forall (fun x => 1 <= num_lines x) (pieces pre mid post) ->
  split_blame sb pre mid post (length l1)
  = if forallb (fun x => 0 <=? s_lno x) (pieces pre mid post)
    then Done (with_ent sb (l1 ++ pieces pre mid post ++ l2), length l1)
    else Fatal.
Proof.
  intros Hent (Hne & Hlink & Hsound) Hp Hn.
  rewrite Hent in Hlink, Hsound.
  apply linked_up_app in Hlink as (m & Hl1 & Hrest).
  cbn [linked_up] in Hrest. destruct Hrest as [Hm Hl2]. subst m.
  apply Forall_app in Hsound as [Hs1 Hs2].
  inversion Hs2 as [|? ? He Hs2']; subst.
  assert (Hst : match pre, post with
                | Some s0, Some s2 =>
                    add_tracking
                      (add_tracking (<[length l1 := dup_entry s0]> (ent sb),
                                     length l1) s2) mid
                | None, None =>
                    (<[length l1 := dup_entry mid]> (ent sb), length l1)
                | Some s0, None =>
                    add_tracking (<[length l1 := dup_entry s0]> (ent sb),
                                  length l1) mid
                | None, Some s2 =>
                    add_tracking (<[length l1 := dup_entry mid]> (ent sb),
                                  length l1) s2
                end
                = (l1 ++ pieces pre mid post ++ l2, length l1)).
  { rewrite Hent. unfold pieces in *.
    destruct pre as [s0|], post as [s2|]; cbn [linked_up app] in *;
      rewrite insert_middle.
    - destruct Hp as (H0 & H1 & H2 & H3).
      inversion Hn as [|? ? N0 Hn']; inversion Hn' as [|? ? N1 Hn''];
        inversion Hn'' as [|? ? N2 _]; subst. cbn [dup_entry lno num_lines] in *.
      rewrite (add_tracking_behind l1 l2 (dup_entry s0) s2 b);
        [|cbn; rewrite H0; exact Hl1|exact Hs1|cbn; lia
         |eapply head_after; [exact Hl2|lia]].
      rewrite (add_tracking_behind l1 (s2 :: l2) (dup_entry s0) mid b);
        [reflexivity|cbn; rewrite H0; exact Hl1|exact Hs1|cbn; lia|lia].
    - destruct Hp as (H0 & H1 & H2).
      inversion Hn as [|? ? N0 Hn']; inversion Hn' as [|? ? N1 _]; subst.
      cbn [dup_entry lno num_lines] in *.
      rewrite (add_tracking_behind l1 l2 (dup_entry s0) mid b);
        [reflexivity|cbn; rewrite H0; exact Hl1|exact Hs1|cbn; lia
        |eapply head_after; [exact Hl2|lia]].
    - destruct Hp as (H0 & H1 & H2).
      inversion Hn as [|? ? N0 Hn']; inversion Hn' as [|? ? N1 _]; subst.
      cbn [dup_entry lno num_lines] in *.
      rewrite (add_tracking_behind l1 l2 (dup_entry mid) s2 b);
        [reflexivity|cbn; rewrite H0; exact Hl1|exact Hs1|cbn; lia
        |eapply head_after; [exact Hl2|lia]].
    - reflexivity. }
  unfold split_blame. cbn zeta. rewrite Hst. cbn [fst snd].
  assert (Hlinked : linked_up b (l1 ++ pieces pre mid post ++ l2) t).
  { apply linked_up_app. exists (lno e). split; [exact Hl1|].
    apply linked_up_app. exists (lno e + num_lines e). auto. }
  destruct (forallb (fun x => 0 <=? s_lno x) (pieces pre mid post)) eqn:Hneg.
  - assert (Hok : corrupt (l1 ++ pieces pre mid post ++ l2) = false).
    { apply corrupt_false.
      destruct (l1 ++ pieces pre mid post ++ l2) as [|z zs] eqn:Hz.
      - exfalso. destruct l1; [|discriminate].
        unfold pieces in Hz. destruct pre, post; discriminate.
      - exists z, zs. split; [reflexivity|]. split.
        + exists t. cbn [linked_up] in Hlinked |- *.
          destruct Hlinked as [Hzb Hzr]. rewrite Hzb. auto.
        + rewrite <- Hz. rewrite !Forall_app. repeat split.
          * eapply Forall_impl; [exact Hs1|]. intros ? [_ ?]; assumption.
          * rewrite forallb_forall in Hneg. apply Forall_forall.
            intros x Hx. apply list_elem_of_In in Hx.
            apply Hneg in Hx. lia.
          * eapply Forall_impl; [exact Hs2'|]. intros ? [_ ?]; assumption. }
    rewrite Hok. reflexivity.
  - destruct (corrupt (l1 ++ pieces pre mid post ++ l2)) eqn:Hc;
      [reflexivity|].
    exfalso. apply corrupt_false in Hc as (z & zs & _ & _ & Hall).
    rewrite !Forall_app in Hall. destruct Hall as (_ & Hall & _).
    assert (forallb (fun x => 0 <=? s_lno x) (pieces pre mid post) = true);
      [|congruence].
    apply forallb_forall. intros x Hx. apply list_elem_of_In in Hx.
    rewrite Forall_forall in Hall. specialize (Hall x Hx). lia.
Qed.

(** The three slots of [split_overlap], read off the definition. *)
Lemma split_overlap_mid (e : blame_entry) (tlno plno same : Z)
    (parent : origin) (mid : blame_entry) :
  split1 (split_overlap e tlno plno same parent) = Some mid <->
  Z.max (s_lno e) tlno < Z.min (s_lno e + num_lines e) same
  /\ mid = {| lno := lno e + (Z.max (s_lno e) tlno - s_lno e);
              num_lines := Z.min (s_lno e + num_lines e) same
                           - Z.max (s_lno e) tlno;
              suspect := parent; guilty := false;
              s_lno := plno + (Z.max (s_lno e) tlno - tlno); score := 0 |}.
Proof.
  unfold split_overlap. cbn [split1].
  destruct (Z.ltb_spec (s_lno e) tlno), (Z.ltb_spec same (s_lno e + num_lines e));
    match goal with |- context [?a <? 1] => destruct (Z.ltb_spec a 1) end;
    (split; [intros Hm; try discriminate Hm; injection Hm as <-
            |intros [Hlt ->]; try lia]);
    try (split; [lia|]); eq_fields.
Qed.

Lemma split_overlap_pre (e : blame_entry) (tlno plno same : Z)
    (parent : origin) :
  split0 (split_overlap e tlno plno same parent)
  = if s_lno e <? tlno then
      Some {| lno := lno e; num_lines := tlno - s_lno e;
              suspect := suspect e; guilty := false;
              s_lno := s_lno e; score := 0 |}
    else None.
Proof. reflexivity. Qed.

Lemma split_overlap_post (e : blame_entry) (tlno plno same : Z)
    (parent : origin) :
  split2 (split_overlap e tlno plno same parent)
  = if same <? s_lno e + num_lines e then
      Some {| lno := lno e + (same - s_lno e);
              num_lines := s_lno e + num_lines e - same;
              suspect := suspect e; guilty := false;
              s_lno := s_lno e + (same - s_lno e); score := 0 |}
    else None.
Proof. reflexivity. Qed.

(** Whatever the chunk, a split that has a middle cuts the span of the entry
    into consecutive parts of at least one line each. *)
Lemma split_overlap_linked (e : blame_entry) (tlno plno same : Z)
    (parent : origin) (mid : blame_entry) :
  split1 (split_overlap e tlno plno same parent) = Some mid ->
  let sp := split_overlap e tlno plno same parent in
  linked_up (lno e) (pieces (split0 sp) mid (split2 sp))
            (lno e + num_lines e)
  /\ Forall (fun x => 1 <= num_lines x) (pieces (split0 sp) mid (split2 sp)).
Proof.
  intros Hmid. apply split_overlap_mid in Hmid as [Hlt ->]. cbn zeta.
  rewrite split_overlap_pre, split_overlap_post. unfold pieces.
  destruct (Z.ltb_spec (s_lno e) tlno), (Z.ltb_spec same (s_lno e + num_lines e));
    cbn [linked_up dup_entry lno num_lines];
    (split; [repeat split; lia|repeat constructor; cbn; lia]).
Qed.

Lemma split_overlap_signs (e : blame_entry) (tlno plno same : Z)
    (parent : origin) (mid : blame_entry) :
  0 <= s_lno e ->
  split1 (split_overlap e tlno plno same parent) = Some mid ->
  let sp := split_overlap e tlno plno same parent in
  forallb (fun x => 0 <=? s_lno x) (pieces (split0 sp) mid (split2 sp))
  = (0 <=? s_lno mid).
Proof.
  intros Hs Hmid. apply split_overlap_mid in Hmid as [Hlt ->]. cbn zeta.
  rewrite split_overlap_pre, split_overlap_post. unfold pieces.
  destruct (Z.ltb_spec (s_lno e) tlno), (Z.ltb_spec same (s_lno e + num_lines e));
    cbn [forallb dup_entry s_lno];
    repeat match goal with
           | |- context [0 <=? ?a] =>
               lazymatch a with
               | plno + _ => fail
               | _ => destruct (Z.leb_spec 0 a); [|lia]
               end
           end;
    cbn [andb]; rewrite ?andb_true_r; reflexivity.
Qed.

(** Replacing an entry of a partition by parts linked up over its span. *)
Lemma partition_replace (b t : Z) (l1 l2 ps : list blame_entry)
    (e : blame_entry) :
  partition b t (l1 ++ e :: l2) ->
  linked_up (lno e) ps (lno e + num_lines e) ->
  Forall sound_entry ps -> ps <> [] ->
  partition b t (l1 ++ ps ++ l2).
Proof.
  intros (_ & Hlink & Hsound) Hps Hs Hne.
  apply linked_up_app in Hlink as (m & Hl1 & [Hm Hl2]). subst m.
  apply Forall_app in Hsound as [Hs1 Hs2]. inversion Hs2; subst.
  split; [|split].
  - destruct l1; [destruct ps; [congruence|discriminate]|discriminate].
  - apply linked_up_app. exists (lno e). split; [exact Hl1|].
    apply linked_up_app. exists (lno e + num_lines e). auto.
  - rewrite !Forall_app. auto.
Qed.

(** ** Loops over the entries *)

Lemma with_ent_ent (sb : scoreboard) : with_ent sb (ent sb) = sb.
Proof. destruct sb; reflexivity. Qed.

Lemma with_ent_twice (sb : scoreboard) (l l' : list blame_entry) :
  with_ent (with_ent sb l) l' = with_ent sb l'.
Proof. reflexivity. Qed.

Lemma allocate_0 (sb : scoreboard) : allocate 0 sb = sb.
Proof. destruct sb. unfold allocate. cbn. f_equal. lia. Qed.

Lemma allocate_allocate (n m : nat) (sb : scoreboard) :
  allocate n (allocate m sb) = allocate (m + n) sb.
Proof. unfold allocate. cbn. f_equal. lia. Qed.

(** A loop whose body keeps a property of the list and the position of the
    entry, over lists whose length the property bounds: with fuel beyond
    the bound the loop ends, and the property holds when it returns. *)
Lemma for_each_entry_keeps (P : list blame_entry -> Prop) (bound : nat)
    (body : scoreboard -> nat -> blame_entry -> outcome (scoreboard * nat)) :
  (forall l, P l -> (length l <= bound)%nat) ->
  (forall sb i e,
     P (ent sb) -> ent sb !! i = Some e ->
     match body sb i e with
     | Done (sb', i') => P (ent sb') /\ i' = i
     | Fatal => True
     | OutOfFuel => False
     end) ->
  forall fuel sb i,
    P (ent sb) -> (bound < fuel + i)%nat ->
    match for_each_entry fuel body sb i with
    | Done sb' => P (ent sb')
    | Fatal => True
    | OutOfFuel => False
    end.
Proof.
  intros Hbound Hbody. induction fuel as [|fuel IH]; intros sb i HP Hfuel;
    cbn [for_each_entry]; destruct (ent sb !! i) as [e|] eqn:He; try exact HP.
  - apply lookup_lt_Some in He. specialize (Hbound _ HP). lia.
  - specialize (Hbody sb i e HP He).
    destruct (body sb i e) as [[sb' i']| |]; cbn; try exact Hbody.
    destruct Hbody as [HP' ->]. apply IH; [exact HP'|lia].
Qed.

(** A loop whose body replaces the entry it is at by a list [f e] whose tail
    the body then leaves alone. *)
Section Flat.

Variables (b t : Z) (f : blame_entry -> list blame_entry).
Variable body : scoreboard -> nat -> blame_entry -> outcome (scoreboard * nat).

Hypothesis body_step :
  forall sb l1 e l2,
    ent sb = l1 ++ e :: l2 -> partition b t (ent sb) ->
    body sb (length l1) e = Done (with_ent sb (l1 ++ f e ++ l2), length l1)
    /\ partition b t (l1 ++ f e ++ l2).

Hypothesis tail_inert :
  forall e, exists x ps, f e = x :: ps /\ Forall (fun p => f p = [p]) ps.

Lemma walk_inert (ps : list blame_entry) :
  forall l1 rest sb fuel,
    Forall (fun p => f p = [p]) ps ->
    ent sb = l1 ++ ps ++ rest -> partition b t (ent sb) ->
    for_each_entry (length ps + fuel) body sb (length l1)
    = for_each_entry fuel body sb (length l1 + length ps).
Proof.
  induction ps as [|p ps IH]; intros l1 rest sb fuel Hin Hent Hpart.
  - cbn. rewrite Nat.add_0_r. reflexivity.
  - inversion Hin as [|? ? Hp Hps]; subst.
    cbn [length Nat.add for_each_entry]. cbn [app] in Hent.
    assert (Hl : ent sb !! length l1 = Some p)
      by (rewrite Hent; apply lookup_middle).
    rewrite Hl.
    destruct (body_step sb l1 p (ps ++ rest) Hent Hpart) as [-> _].
    rewrite Hp. cbn [app]. rewrite <- Hent, with_ent_ent. cbn.
    replace (S (length l1)) with (length (l1 ++ [p]))
      by (rewrite length_app; cbn; lia).
    rewrite (IH (l1 ++ [p]) rest sb fuel Hps);
      [|rewrite <- app_assoc; exact Hent|exact Hpart].
    rewrite length_app. cbn [length]. f_equal. lia.
Qed.

Lemma for_each_entry_flat (rest : list blame_entry) :
  forall l1 sb fuel,
    ent sb = l1 ++ rest -> partition b t (ent sb) ->
    (length (flat_map f rest) <= fuel)%nat ->
    for_each_entry fuel body sb (length l1)
    = Done (with_ent sb (l1 ++ flat_map f rest))
    /\ partition b t (l1 ++ flat_map f rest).
Proof.
  induction rest as [|e rest IH]; intros l1 sb fuel Hent Hpart Hfuel.
  - cbn [flat_map]. rewrite <- Hent, with_ent_ent. split; [|exact Hpart].
    destruct fuel; cbn [for_each_entry];
      rewrite Hent, app_nil_r, lookup_ge_None_2 by lia; reflexivity.
  - cbn [flat_map] in *. rewrite length_app in Hfuel.
    destruct (tail_inert e) as (x & ps & Hfe & Hinert).
    destruct (body_step sb l1 e rest Hent Hpart) as [Hbody Hpart'].
    rewrite Hfe in Hfuel. cbn [length] in Hfuel.
    destruct fuel as [|fuel]; [lia|].
    assert (Hl : ent sb !! length l1 = Some e)
      by (rewrite Hent; apply lookup_middle).
    cbn [for_each_entry]. rewrite Hl, Hbody. cbn.
    set (sb1 := with_ent sb (l1 ++ f e ++ rest)) in *.
    assert (Hent1 : ent sb1 = (l1 ++ [x]) ++ ps ++ rest).
    { unfold sb1. cbn [ent with_ent]. rewrite Hfe, <- !app_assoc.
      reflexivity. }
    replace (S (length l1)) with (length (l1 ++ [x]))
      by (rewrite length_app; cbn; lia).
    replace fuel
      with (length ps + (fuel - length ps))%nat by lia.
    rewrite (walk_inert ps (l1 ++ [x]) rest sb1 _ Hinert Hent1) by exact Hpart'.
    replace (length (l1 ++ [x]) + length ps)%nat with (length (l1 ++ f e))
      by (rewrite Hfe, !length_app; cbn [length]; lia).
    destruct (IH (l1 ++ f e) sb1 (fuel - length ps)%nat) as [Hloop Hp2].
    + unfold sb1. cbn [ent with_ent]. rewrite <- app_assoc. reflexivity.
    + exact Hpart'.
    + lia.
    + rewrite Hloop. unfold sb1. rewrite with_ent_twice, <- !app_assoc.
      split; [reflexivity|]. rewrite <- app_assoc in Hp2. exact Hp2.
Qed.

End Flat.

(** ** The propagator *)

(** The parts [split_blame] links in are the regions of the spec. *)
Lemma pieces_are_regions (e : blame_entry) (tlno plno same : Z)
    (parent : origin) (mid : blame_entry) :
  split1 (split_overlap e tlno plno same parent) = Some mid ->
  let sp := split_overlap e tlno plno same parent in
  let lo := Z.max (s_lno e) tlno in
  let hi := Z.min (s_lno e + num_lines e) same in
  pieces (split0 sp) mid (split2 sp)
  = region e (s_lno e) tlno (suspect e) (s_lno e)
    ++ region e lo hi parent (plno + (lo - tlno))
    ++ region e same (s_lno e + num_lines e) (suspect e) same.
Proof.
  intros Hmid. apply split_overlap_mid in Hmid as [Hlt ->]. cbn zeta.
  rewrite split_overlap_pre, split_overlap_post. unfold pieces, region.
  destruct (Z.ltb_spec (Z.max (s_lno e) tlno)
                       (Z.min (s_lno e + num_lines e) same)); [|lia].
  destruct (Z.ltb_spec (s_lno e) tlno), (Z.ltb_spec same (s_lno e + num_lines e));
    unfold dup_entry;
    cbn [app lno num_lines suspect guilty s_lno score];
    eq_fields.
Qed.

Lemma three_way_untouched (tlno plno same : Z) (target parent : origin)
    (e : blame_entry) :
  passed_over e target = true
  \/ Z.min (s_lno e + num_lines e) same <= Z.max (s_lno e) tlno ->
  three_way tlno plno same target parent e = [e].
Proof.
  unfold three_way. intros [->|H]; [reflexivity|].
  destruct (Z.ltb_spec (Z.max (s_lno e) tlno)
                       (Z.min (s_lno e + num_lines e) same)); [lia|].
  rewrite andb_false_r. reflexivity.
Qed.

Lemma blame_chunk_body_step (b t tlno plno same : Z) (target parent : origin)
    (sb : scoreboard) (l1 l2 : list blame_entry) (e : blame_entry) :
  0 <= plno ->
  ent sb = l1 ++ e :: l2 -> partition b t (ent sb) ->
  blame_chunk_body tlno plno same target parent sb (length l1) e
  = Done (with_ent sb (l1 ++ three_way tlno plno same target parent e ++ l2),
          length l1)
  /\ partition b t (l1 ++ three_way tlno plno same target parent e ++ l2).
Proof.
  intros Hplno Hent Hpart.
  assert (Hsame : forall x, three_way tlno plno same target parent e = [e] ->
                            x = Done (sb, length l1) ->
                            x = Done (with_ent sb
                                        (l1 ++ three_way tlno plno same target
                                                         parent e ++ l2),
                                      length l1)
                            /\ partition b t
                                 (l1 ++ three_way tlno plno same target
                                                  parent e ++ l2)).
  { intros x -> ->. cbn [app]. rewrite <- Hent, with_ent_ent. auto. }
  unfold blame_chunk_body.
  destruct (passed_over e target) eqn:Hpo;
    [apply Hsame; [apply three_way_untouched; auto|reflexivity]|].
  destruct (Z.leb_spec same (s_lno e));
    [apply Hsame; [apply three_way_untouched; right; lia|reflexivity]|].
  destruct (Z.ltb_spec tlno (s_lno e + num_lines e));
    [|apply Hsame; [apply three_way_untouched; right; lia|reflexivity]].
  unfold blame_overlap.
  destruct (split1 (split_overlap e tlno plno same parent)) as [mid|] eqn:Hmid.
  - pose proof (split_overlap_linked _ _ _ _ _ _ Hmid) as [Hlink Hnum].
    assert (He : sound_entry e).
    { destruct Hpart as (_ & _ & Hs). rewrite Hent in Hs.
      apply Forall_app in Hs as [_ Hs]. inversion Hs; assumption. }
    pose proof (split_overlap_signs _ _ _ _ _ _ (proj2 He) Hmid) as Hsign.
    cbn zeta in *.
    rewrite (split_blame_spec sb _ _ mid e l1 l2 b t Hent Hpart Hlink Hnum).
    rewrite Hsign.
    pose proof (pieces_are_regions _ _ _ _ _ _ Hmid) as Hreg. cbn zeta in Hreg.
    pose proof Hmid as Hshape. apply split_overlap_mid in Hshape as [Hlt Hm].
    assert (Htw : three_way tlno plno same target parent e
                  = pieces (split0 (split_overlap e tlno plno same parent)) mid
                           (split2 (split_overlap e tlno plno same parent))).
    { unfold three_way. rewrite Hpo, Hreg.
      destruct (Z.ltb_spec (Z.max (s_lno e) tlno)
                           (Z.min (s_lno e + num_lines e) same)); [|lia].
      reflexivity. }
    rewrite Htw.
    assert (Hpos : 0 <= s_lno mid) by (rewrite Hm; cbn; lia).
    destruct (Z.leb_spec 0 (s_lno mid)); [|lia].
    split; [reflexivity|].
    rewrite Hent in Hpart. eapply partition_replace; [exact Hpart|exact Hlink| |].
    + rewrite Forall_forall in Hnum. apply Forall_forall. intros x Hx.
      split; [apply Hnum; exact Hx|].
      assert (Hall : forallb (fun x => 0 <=? s_lno x)
                       (pieces (split0 (split_overlap e tlno plno same parent))
                               mid
                               (split2 (split_overlap e tlno plno same parent)))
                     = true)
        by exact Hsign.
      rewrite forallb_forall in Hall. apply list_elem_of_In in Hx.
      apply Hall in Hx. lia.
    + unfold pieces. destruct (split0 _), (split2 _); discriminate.
  - apply Hsame; [|reflexivity]. apply three_way_untouched. right.
    destruct (Z.le_gt_cases (Z.min (s_lno e + num_lines e) same)
                            (Z.max (s_lno e) tlno)) as [Hle|Hgt]; [exact Hle|].
    exfalso.
    assert (Hsome : split1 (split_overlap e tlno plno same parent)
                    = Some {| lno := lno e + (Z.max (s_lno e) tlno - s_lno e);
                              num_lines := Z.min (s_lno e + num_lines e) same
                                           - Z.max (s_lno e) tlno;
                              suspect := parent; guilty := false;
                              s_lno := plno + (Z.max (s_lno e) tlno - tlno);
                              score := 0 |})
      by (apply split_overlap_mid; split; [lia|reflexivity]).
    congruence.
Qed.

Lemma three_way_tail_inert (tlno plno same : Z) (target parent : origin)
    (e : blame_entry) :
  cmp_suspect parent target <> 0 ->
  exists x ps,
    three_way tlno plno same target parent e = x :: ps
    /\ Forall (fun p => three_way tlno plno same target parent p = [p]) ps.
Proof.
  intros Hne.
  assert (Hparent : forall n l s sc,
             three_way tlno plno same target parent
               {| lno := l; num_lines := n; suspect := parent; guilty := false;
                  s_lno := s; score := sc |}
             = [ {| lno := l; num_lines := n; suspect := parent;
                    guilty := false; s_lno := s; score := sc |} ]).
  { intros. apply three_way_untouched. left. unfold passed_over. cbn.
    apply negb_true_iff, Z.eqb_neq. exact Hne. }
  assert (Hpost : forall who n l sc, 0 < n ->
             three_way tlno plno same target parent
               {| lno := l; num_lines := n; suspect := who; guilty := false;
                  s_lno := same; score := sc |}
             = [ {| lno := l; num_lines := n; suspect := who;
                    guilty := false; s_lno := same; score := sc |} ]).
  { intros. apply three_way_untouched. right. cbn. lia. }
  unfold three_way at 1.
  destruct (negb (passed_over e target)
            && (Z.max (s_lno e) tlno <? Z.min (s_lno e + num_lines e) same))
    eqn:Hgo; [|exists e, []; auto].
  apply andb_true_iff in Hgo as [_ Hlt]. apply Z.ltb_lt in Hlt.
  unfold region.
  destruct (Z.ltb_spec (Z.max (s_lno e) tlno)
                       (Z.min (s_lno e + num_lines e) same)); [|lia].
  destruct (Z.ltb_spec (s_lno e) tlno), (Z.ltb_spec same (s_lno e + num_lines e));
    cbn [app]; eexists _, _; (split; [reflexivity|]);
    repeat constructor; first [apply Hparent | apply Hpost; lia].
Qed.

Lemma three_way_linked (tlno plno same : Z) (target parent : origin)
    (e : blame_entry) :
  linked_up (lno e) (three_way tlno plno same target parent e)
            (lno e + num_lines e).
Proof.
  unfold three_way.
  destruct (negb (passed_over e target)
            && (Z.max (s_lno e) tlno <? Z.min (s_lno e + num_lines e) same))
    eqn:Hgo; [|cbn; auto].
  apply andb_true_iff in Hgo as [_ Hlt]. apply Z.ltb_lt in Hlt.
  unfold region.
  destruct (Z.ltb_spec (Z.max (s_lno e) tlno)
                       (Z.min (s_lno e + num_lines e) same)); [|lia].
  destruct (Z.ltb_spec (s_lno e) tlno), (Z.ltb_spec same (s_lno e + num_lines e));
    cbn [app linked_up lno num_lines]; repeat split; lia.
Qed.

(** C3.  On a partition, with a parent that is not the target and a parent
    line that is not negative, [blame_chunk] returns, and what it returns is
    the list in which every entry is replaced by its three-way split: for an
    unresolved entry that accuses the target and whose middle
    [[max(s_lno, tlno), min(s_lno + num_lines, same))] is not empty, the
    region before [tlno] and the region from [same] on, both on the suspect
    they had, around the middle on the parent at
    [plno + (max(s_lno, tlno) - tlno)]; any other entry unchanged.  The parts
    are linked up over the span of the entry, so their spans add up to it,
    and an entry whose middle is empty is left as it is. *)
Theorem blame_chunk_three_way
    (sb : scoreboard) (b t tlno plno same : Z) (target parent : origin)
    (fuel : nat) :
  partition b t (ent sb) -> 0 <= plno -> cmp_suspect parent target <> 0 ->
  (Z.to_nat (t - b) <= fuel)%nat ->
  blame_chunk fuel sb tlno plno same target parent
  = Done (with_ent sb
            (flat_map (three_way tlno plno same target parent) (ent sb)))
  /\ partition b t (flat_map (three_way tlno plno same target parent) (ent sb))
  /\ (forall e,
        linked_up (lno e) (three_way tlno plno same target parent e)
                  (lno e + num_lines e)
        /\ (Z.min (s_lno e + num_lines e) same <= Z.max (s_lno e) tlno ->
            three_way tlno plno same target parent e = [e])
        /\ (passed_over e target = false ->
            Z.max (s_lno e) tlno < Z.min (s_lno e + num_lines e) same ->
            In {| lno := lno e + (Z.max (s_lno e) tlno - s_lno e);
                  num_lines := Z.min (s_lno e + num_lines e) same
                               - Z.max (s_lno e) tlno;
                  suspect := parent; guilty := false;
                  s_lno := plno + (Z.max (s_lno e) tlno - tlno);
                  score := 0 |}
               (three_way tlno plno same target parent e))).
Proof.
  intros Hpart Hplno Hne Hfuel.
  assert (Hflat : forall fuel',
             (length (flat_map (three_way tlno plno same target parent)
                               (ent sb)) <= fuel')%nat ->
             for_each_entry fuel'
               (blame_chunk_body tlno plno same target parent) sb
               (length (@nil blame_entry))
             = Done (with_ent sb
                       ([] ++ flat_map (three_way tlno plno same target parent)
                                       (ent sb)))
             /\ partition b t
                  ([] ++ flat_map (three_way tlno plno same target parent)
                                  (ent sb))).
  { intros fuel' Hf.
    apply (for_each_entry_flat b t
             (three_way tlno plno same target parent)
             (blame_chunk_body tlno plno same target parent)); auto.
    - intros. apply blame_chunk_body_step; assumption.
    - intros. apply three_way_tail_inert. exact Hne. }
  destruct (Hflat _ (Nat.le_refl _)) as [_ Hp]. cbn [app] in Hp.
  pose proof (partition_length _ _ _ Hp) as Hlen.
  destruct (Hflat fuel ltac:(lia)) as [Hrun _]. cbn [app length] in Hrun.
  split; [exact Hrun|]. split; [exact Hp|].
  intros e. split; [apply three_way_linked|]. split.
  - intros Hempty. apply three_way_untouched. auto.
  - intros Hpo Hlt. unfold three_way. rewrite Hpo.
    destruct (Z.ltb_spec (Z.max (s_lno e) tlno)
                         (Z.min (s_lno e + num_lines e) same)); [|lia].
    cbn [negb andb]. apply in_or_app. right. apply in_or_app. left.
    unfold region.
    destruct (Z.ltb_spec (Z.max (s_lno e) tlno)
                         (Z.min (s_lno e + num_lines e) same)); [|lia].
    left. reflexivity.
Qed.

(** ** Runs that keep a property *)

Lemma keeps_bind {A B : Type} (Q : A -> Prop) (P : B -> Prop)
    (m : outcome A) (k : A -> outcome B) :
  keeps Q m -> (forall a, Q a -> keeps P (k a)) -> keeps P (m ≫= k).
Proof. destruct m; cbn; auto. Qed.

Lemma keeps_impl {A : Type} (P Q : A -> Prop) (m : outcome A) :
  keeps P m -> (forall a, P a -> Q a) -> keeps Q m.
Proof. destruct m; cbn; auto. Qed.

Lemma then_allocate_keeps (Q : list blame_entry -> Prop) (n : nat)
    (body : scoreboard -> nat -> blame_entry -> outcome (scoreboard * nat))
    (sb : scoreboard) (i : nat) (e : blame_entry) :
  keeps (fun x => Q (ent (fst x)) /\ snd x = i) (body sb i e) ->
  keeps (fun x => Q (ent (fst x)) /\ snd x = i)
        (then_allocate n body sb i e).
Proof.
  unfold then_allocate. destruct (body sb i e) as [[sb' i']| |]; cbn; auto.
Qed.

Lemma then_allocate_done (n : nat)
    (body : scoreboard -> nat -> blame_entry -> outcome (scoreboard * nat))
    (sb sb' : scoreboard) (i i' : nat) (e : blame_entry) :
  then_allocate n body sb i e = Done (sb', i') ->
  exists sb1, body sb i e = Done (sb1, i') /\ ent sb' = ent sb1.
Proof.
  unfold then_allocate. destruct (body sb i e) as [[sb1 i1]| |]; cbn;
    try discriminate.
  intros H. injection H as <- <-. exists sb1. auto.
Qed.

Lemma hashcmp_eq (a b : sha1) : hashcmp a b = 0 <-> a = b.
Proof.
  unfold hashcmp. destruct (N.compare_spec a b); split; intros H';
    first [assumption | reflexivity | discriminate H' | lia].
Qed.

Lemma cmp_suspect_eq (a b : origin) :
  cmp_suspect a b = 0 <-> commit a = commit b /\ path a = path b.
Proof.
  unfold cmp_suspect.
  destruct (Z.eqb_spec (hashcmp (commit a) (commit b)) 0) as [Hc|Hc]; cbn [negb].
  - rewrite strcmp_eq. apply hashcmp_eq in Hc. tauto.
  - split; [intros H; contradiction|intros [H _]; apply hashcmp_eq in H;
                                     contradiction].
Qed.

Lemma cmp_suspect_refl (a : origin) : cmp_suspect a a = 0.
Proof. apply cmp_suspect_eq. auto. Qed.

Lemma same_but_score_refl (x : blame_entry) : same_but_score x x.
Proof. unfold same_but_score. auto. Qed.

Lemma cache_score_same (sb : scoreboard) (x : blame_entry) :
  same_but_score (cache_score sb x) x.
Proof. unfold same_but_score. auto. Qed.

Lemma ent_score_cached (sb : scoreboard) (x : blame_entry) :
  ent_score sb (cache_score sb x) = ent_score sb x.
Proof.
  unfold ent_score at 1. cbn [score cache_score lno num_lines].
  destruct (Z.eqb_spec (ent_score sb x) 0) as [H0|_]; [|reflexivity].
  cbn [negb]. unfold ent_score in *.
  destruct (Z.eqb_spec (score x) 0) as [_|Hs]; cbn [negb] in *; [reflexivity|].
  congruence.
Qed.

(** ** Weights *)

Section Weights.

Variable rank : sha1 -> nat.

Lemma total_weight_app (k : Z) (s : origin) (l1 l2 : list blame_entry) :
  total_weight rank k s (l1 ++ l2)
  = total_weight rank k s l1 + total_weight rank k s l2.
Proof.
  unfold total_weight.
  induction l1 as [|e l1 IH]; cbn [app fold_right]; [reflexivity|].
  rewrite IH. ring.
Qed.

Lemma weight_nonneg (k : Z) (s : origin) (e : blame_entry) :
  0 <= k -> 0 <= num_lines e -> 0 <= weight rank k s e.
Proof.
  intros Hk Hn. unfold weight. destruct (guilty e); [lia|].
  destruct (cmp_suspect (suspect e) s =? 0); nia.
Qed.

Lemma total_weight_nonneg (k : Z) (s : origin) (l : list blame_entry) :
  0 <= k -> Forall sound_entry l -> 0 <= total_weight rank k s l.
Proof.
  intros Hk. unfold total_weight.
  induction 1 as [|e l [Hn _] _ IH]; cbn [fold_right]; [lia|].
  pose proof (weight_nonneg k s e Hk ltac:(lia)). lia.
Qed.

End Weights.

Lemma pieces_respan (pre post : option blame_entry) (mid mid' : blame_entry)
    (a c : Z) :
  same_but_score mid' mid ->
  (linked_up a (pieces pre mid post) c -> linked_up a (pieces pre mid' post) c)
  /\ (Forall (fun x => 1 <= num_lines x) (pieces pre mid post) ->
      Forall (fun x => 1 <= num_lines x) (pieces pre mid' post))
  /\ forallb (fun x => 0 <=? s_lno x) (pieces pre mid' post)
     = forallb (fun x => 0 <=? s_lno x) (pieces pre mid post).
Proof.
  intros (Hl & Hn & _ & _ & Hs). unfold pieces.
  destruct pre as [s0|], post as [s2|];
    cbn [linked_up forallb dup_entry lno num_lines s_lno];
    rewrite ?Hl, ?Hn, ?Hs; (split; [tauto|split; [|reflexivity]]);
    intros HF; repeat (inversion HF as [|? ? ? HF']; subst; clear HF;
                       rename HF' into HF);
    repeat constructor; cbn [dup_entry num_lines] in *; lia.
Qed.

Section Progress.

Variables (G : thresholds) (E : collaborators) (rank : sha1 -> nat).
Variables (b t : Z) (s : origin) (c : Z).

Let r : Z := Z.of_nat (rank (commit s)).

(** The property every step of [pass_blame] keeps: the list is a partition,
    and its weight, with the lines that accuse [s] weighed by the rank of
    [s], has not grown. *)
Let P (l : list blame_entry) : Prop :=
  partition b t l /\ total_weight rank r s l <= c.

Let lower (o : origin) : Prop := (rank (commit o) < rank (commit s))%nat.

Lemma pieces_weight (e : blame_entry) (tlno plno same : Z) (o : origin)
    (mid mid' : blame_entry) :
  passed_over e s = false -> lower o ->
  split1 (split_overlap e tlno plno same o) = Some mid ->
  same_but_score mid' mid ->
  total_weight rank r s
    (pieces (split0 (split_overlap e tlno plno same o)) mid'
            (split2 (split_overlap e tlno plno same o)))
  <= weight rank r s e.
Proof.
  intros Hpo Hlow Hmid (Hl & Hn & Hsu & Hg & Hs).
  apply split_overlap_mid in Hmid as [Hlt Hm].
  unfold passed_over in Hpo. apply orb_false_iff in Hpo as [Hguilty Hacc].
  apply negb_false_iff in Hacc.
  assert (Hmw : weight rank r s mid'
                <= r * (Z.min (s_lno e + num_lines e) same
                        - Z.max (s_lno e) tlno)).
  { unfold weight. rewrite Hg, Hn, Hsu, Hm. cbn [guilty num_lines suspect].
    destruct (cmp_suspect o s =? 0); [lia|].
    unfold lower in Hlow. subst r. nia. }
  rewrite split_overlap_pre, split_overlap_post. unfold pieces, total_weight.
  unfold weight at 2. rewrite Hguilty, Hacc.
  destruct (Z.ltb_spec (s_lno e) tlno), (Z.ltb_spec same (s_lno e + num_lines e));
    cbn [fold_right]; unfold weight at 1;
    cbn [dup_entry guilty suspect num_lines];
    rewrite ?Hacc;
    repeat match goal with
           | |- context [weight rank r s {| lno := ?l; num_lines := ?n;
                                            suspect := suspect e;
                                            guilty := false; s_lno := ?sl;
                                            score := ?sc |}] =>
               change (weight rank r s {| lno := l; num_lines := n;
                                          suspect := suspect e;
                                          guilty := false; s_lno := sl;
                                          score := sc |})
                 with ((if cmp_suspect (suspect e) s =? 0 then r
                        else Z.of_nat (rank (commit (suspect e))) + 1) * n);
               rewrite Hacc
           end;
    try (unfold weight; rewrite Hg, Hsu, Hn, Hm;
         cbn [guilty num_lines suspect];
         destruct (cmp_suspect o s =? 0); unfold lower in Hlow; subst r; nia);
    nia.
Qed.

Lemma split_keeps (sb : scoreboard) (l1 l2 : list blame_entry)
    (e : blame_entry) (tlno plno same : Z) (o : origin)
    (mid mid' : blame_entry) :
  P (ent sb) -> ent sb = l1 ++ e :: l2 ->
  passed_over e s = false -> lower o ->
  split1 (split_overlap e tlno plno same o) = Some mid ->
  same_but_score mid' mid ->
  keeps (fun x => P (ent (fst x)) /\ snd x = length l1)
        (split_blame sb (split0 (split_overlap e tlno plno same o)) mid'
                     (split2 (split_overlap e tlno plno same o)) (length l1)).
Proof.
  intros [Hpart Hw] Hent Hpo Hlow Hmid Hsame.
  destruct (split_overlap_linked _ _ _ _ _ _ Hmid) as [Hlink Hnum].
  cbn zeta in Hlink, Hnum.
  destruct (pieces_respan (split0 (split_overlap e tlno plno same o))
              (split2 (split_overlap e tlno plno same o)) mid mid'
              (lno e) (lno e + num_lines e) Hsame) as (Hlink' & Hnum' & Hsign).
  rewrite (split_blame_spec sb _ _ mid' e l1 l2 b t Hent Hpart
             (Hlink' Hlink) (Hnum' Hnum)).
  destruct (forallb (fun x => 0 <=? s_lno x)
              (pieces (split0 (split_overlap e tlno plno same o)) mid'
                      (split2 (split_overlap e tlno plno same o)))) eqn:Hpos;
    cbn [keeps fst snd ent with_ent]; [|exact I].
  split; [|reflexivity]. split.
  - rewrite Hent in Hpart.
    eapply partition_replace; [exact Hpart|exact (Hlink' Hlink)| |].
    + specialize (Hnum' Hnum). rewrite Forall_forall in Hnum'.
      rewrite forallb_forall in Hpos. apply Forall_forall. intros x Hx.
      split; [apply Hnum'; exact Hx|].
      apply list_elem_of_In in Hx. apply Hpos in Hx. lia.
    + unfold pieces. destruct (split0 _), (split2 _); discriminate.
  - rewrite Hent in Hw. rewrite !total_weight_app in *.
    cbn [total_weight fold_right] in Hw. fold (total_weight rank r s l2) in Hw.
    pose proof (pieces_weight e tlno plno same o mid mid' Hpo Hlow Hmid Hsame).
    lia.
Qed.

Lemma unchanged_keeps (sb : scoreboard) (i : nat) :
  P (ent sb) ->
  keeps (fun x => P (ent (fst x)) /\ snd x = i)
        (Done (sb, i) : outcome (scoreboard * nat)).
Proof. cbn. auto. Qed.

Lemma blame_chunk_body_keeps (tlno plno same : Z) (parent : origin)
    (sb : scoreboard) (i : nat) (e : blame_entry) :
  lower parent -> P (ent sb) -> ent sb !! i = Some e ->
  keeps (fun x => P (ent (fst x)) /\ snd x = i)
        (blame_chunk_body tlno plno same s parent sb i e).
Proof.
  intros Hlow HP He. unfold blame_chunk_body.
  destruct (passed_over e s) eqn:Hpo; [apply unchanged_keeps, HP|].
  destruct (same <=? s_lno e); [apply unchanged_keeps, HP|].
  destruct (tlno <? s_lno e + num_lines e); [|apply unchanged_keeps, HP].
  unfold blame_overlap.
  destruct (split1 (split_overlap e tlno plno same parent)) as [mid|] eqn:Hmid;
    [|apply unchanged_keeps, HP].
  destruct (split_at _ _ _ He) as [Hent Hlen].
  pose proof (split_keeps sb _ _ e tlno plno same parent mid mid HP Hent Hpo
                Hlow Hmid (same_but_score_refl mid)) as H.
  rewrite Hlen in H. exact H.
Qed.

Let T : nat := Z.to_nat (t - b).

Lemma P_bound (l : list blame_entry) : P l -> (length l <= T)%nat.
Proof. intros [Hp _]. apply partition_length, Hp. Qed.

Lemma loop_keeps
    (body : scoreboard -> nat -> blame_entry -> outcome (scoreboard * nat))
    (fuel : nat) (sb : scoreboard) :
  (forall sb i e, P (ent sb) -> ent sb !! i = Some e ->
                  keeps (fun x => P (ent (fst x)) /\ snd x = i) (body sb i e)) ->
  P (ent sb) -> (T < fuel)%nat ->
  keeps (fun sb' => P (ent sb')) (for_each_entry fuel body sb O).
Proof.
  intros Hbody HP Hfuel.
  pose proof (for_each_entry_keeps P T body P_bound) as H.
  unfold keeps. apply H; [|exact HP|lia].
  intros sb0 i e HP0 He. specialize (Hbody sb0 i e HP0 He).
  destruct (body sb0 i e) as [[sb' i']| |]; cbn in *; auto.
Qed.

Lemma blame_chunk_keeps (fuel : nat) (sb : scoreboard) (tlno plno same : Z)
    (parent : origin) :
  lower parent -> P (ent sb) -> (T < fuel)%nat ->
  keeps (fun sb' => P (ent sb'))
        (blame_chunk fuel sb tlno plno same s parent).
Proof.
  intros Hlow HP Hfuel. apply loop_keeps; auto.
  intros. apply blame_chunk_body_keeps; assumption.
Qed.

Lemma blame_chunks_keeps (fuel : nat) (chunks : list chunk) :
  forall sb plno tlno last (parent : origin),
    lower parent -> P (ent sb) -> (T < fuel)%nat ->
    keeps (fun sb' => P (ent sb'))
          (blame_chunks fuel sb chunks plno tlno last s parent).
Proof.
  induction chunks as [|ch chunks IH]; intros sb plno tlno last parent Hlow HP Hf;
    cbn [blame_chunks].
  - apply blame_chunk_keeps; assumption.
  - eapply keeps_bind; [apply blame_chunk_keeps; eassumption|].
    intros sb' HP'. apply IH; assumption.
Qed.

Lemma pass_blame_to_parent_keeps (fuel : nat) (sb : scoreboard)
    (parent : origin) :
  lower parent -> P (ent sb) -> (T < fuel)%nat ->
  keeps (fun x => P (ent (fst x))) (pass_blame_to_parent E fuel sb s parent).
Proof.
  intros Hlow HP Hf. unfold pass_blame_to_parent.
  destruct (find_last_in_target sb s <? 0); [exact HP|].
  destruct (get_patch E parent s) as [patch|]; [|exact I].
  eapply keeps_bind; [apply blame_chunks_keeps; eassumption|].
  intros sb' HP'. exact HP'.
Qed.

Lemma split_overlap_proposal (Q : origin -> Prop) (e : blame_entry)
    (tlno plno same : Z) (o : origin) :
  Q o -> proposal e Q (split_overlap e tlno plno same o).
Proof.
  intros HQ. unfold proposal.
  destruct (split1 (split_overlap e tlno plno same o)) as [mid|] eqn:Hmid;
    [right|left; reflexivity].
  exists tlno, plno, same, o, mid, mid.
  repeat split; auto using same_but_score_refl.
Qed.

Lemma same_but_score_trans (x y z : blame_entry) :
  same_but_score x y -> same_but_score y z -> same_but_score x z.
Proof. unfold same_but_score. intuition congruence. Qed.

Lemma copy_split_if_better_proposal (Q : origin -> Prop) (sb : scoreboard)
    (e : blame_entry) (best this : split3) :
  proposal e Q best -> proposal e Q this ->
  proposal e Q (copy_split_if_better sb best this).
Proof.
  intros Hb Ht. unfold copy_split_if_better.
  destruct (split1 this) as [tm|] eqn:Htm; [|exact Hb].
  destruct (split1 best) as [bm|] eqn:Hbm; [|exact Ht].
  destruct (ent_score sb tm <? ent_score sb bm).
  - destruct Hb as [Hnone|(tl & pl & sm & o & mid & mid' & HQ & H1 & H0 & H2
                           & Hm & Hs)]; [congruence|].
    right. exists tl, pl, sm, o, mid, (cache_score sb bm).
    cbn [split0 split1 split2]. repeat split; auto.
    + rewrite Hbm in Hm. injection Hm as <-. apply Hs.
    + rewrite Hbm in Hm. injection Hm as <-. apply Hs.
    + rewrite Hbm in Hm. injection Hm as <-. apply Hs.
    + rewrite Hbm in Hm. injection Hm as <-. apply Hs.
    + rewrite Hbm in Hm. injection Hm as <-. apply Hs.
  - destruct Ht as [Hnone|(tl & pl & sm & o & mid & mid' & HQ & H1 & H0 & H2
                           & Hm & Hs)]; [congruence|].
    right. exists tl, pl, sm, o, mid, (cache_score sb tm).
    cbn [split0 split1 split2]. repeat split; auto.
    + rewrite Htm in Hm. injection Hm as <-. apply Hs.
    + rewrite Htm in Hm. injection Hm as <-. apply Hs.
    + rewrite Htm in Hm. injection Hm as <-. apply Hs.
    + rewrite Htm in Hm. injection Hm as <-. apply Hs.
    + rewrite Htm in Hm. injection Hm as <-. apply Hs.
Qed.

Lemma copy_chunks_proposal (Q : origin -> Prop) (sb : scoreboard)
    (e : blame_entry) (parent : origin) (chunks : list chunk) :
  Q parent ->
  forall plno tlno split,
    proposal e Q split ->
    proposal e Q (copy_chunks sb e parent chunks plno tlno split).
Proof.
  intros HQ. induction chunks as [|ch chunks IH]; intros plno tlno split Hs;
    cbn [copy_chunks]; [exact Hs|].
  destruct (num_lines e <=? tlno); [exact Hs|].
  apply IH. destruct (tlno <? same ch); [|exact Hs].
  apply copy_split_if_better_proposal;
    [exact Hs|apply split_overlap_proposal, HQ].
Qed.

Lemma find_copy_in_blob_proposal (Q : origin -> Prop) (sb : scoreboard)
    (e : blame_entry) (parent : origin) (file_p : list ascii) :
  Q parent -> proposal e Q (find_copy_in_blob E sb e parent file_p).
Proof.
  intros HQ. unfold find_copy_in_blob.
  apply copy_chunks_proposal; [exact HQ|]. left. reflexivity.
Qed.

Lemma apply_above_keeps (limit : Z) (sb : scoreboard) (sp : split3)
    (i : nat) (e : blame_entry) :
  proposal e lower sp -> P (ent sb) -> ent sb !! i = Some e ->
  passed_over e s = false ->
  keeps (fun x => P (ent (fst x)) /\ snd x = i) (apply_above limit sb sp i).
Proof.
  intros Hprop HP He Hpo. unfold apply_above.
  destruct (split1 sp) as [m|] eqn:Hm; [|apply unchanged_keeps, HP].
  destruct (limit <? ent_score sb m); [|apply unchanged_keeps, HP].
  destruct Hprop as [Hnone|(tl & pl & sm & o & mid & mid' & HQ & H1 & H0 & H2
                            & Hm' & Hs)]; [congruence|].
  rewrite Hm in Hm'. injection Hm' as <-.
  destruct (split_at _ _ _ He) as [Hent Hlen].
  pose proof (split_keeps sb _ _ e tl pl sm o mid (cache_score sb m) HP Hent
                Hpo HQ H1
                (same_but_score_trans _ _ _ (cache_score_same sb m) Hs)) as H.
  rewrite Hlen in H. rewrite H0, H2. exact H.
Qed.

Lemma move_body_keeps (parent : origin) (file_p : list ascii)
    (sb : scoreboard) (i : nat) (e : blame_entry) :
  lower parent -> P (ent sb) -> ent sb !! i = Some e ->
  keeps (fun x => P (ent (fst x)) /\ snd x = i)
        (move_body G E s parent file_p sb i e).
Proof.
  intros Hlow HP He. unfold move_body.
  destruct (passed_over e s) eqn:Hpo; [apply unchanged_keeps, HP|].
  eapply apply_above_keeps; eauto using find_copy_in_blob_proposal.
Qed.

Lemma find_move_in_parent_keeps (fuel : nat) (sb : scoreboard)
    (parent : origin) :
  lower parent -> P (ent sb) -> (T < fuel)%nat ->
  keeps (fun x => P (ent (fst x))) (find_move_in_parent G E fuel sb s parent).
Proof.
  intros Hlow HP Hf. unfold find_move_in_parent.
  destruct (find_last_in_target sb s <? 0); [exact HP|].
  destruct (read_sha1_file E (blob_sha1 parent)) as [file_p|]; [|exact HP].
  eapply keeps_bind.
  - apply loop_keeps; [|exact HP|exact Hf].
    intros. apply move_body_keeps; assumption.
  - intros sb' HP'. exact HP'.
Qed.

Lemma find_origin_commit (sb : scoreboard) (cm : sha1) (p : string)
    (o : origin) :
  find_origin E sb cm p = Some o -> commit o = cm.
Proof.
  unfold find_origin.
  destruct (List.find _ (ent sb)) as [e|] eqn:Hf.
  - intros H. injection H as <-. apply find_some in Hf as [_ Hf].
    apply andb_true_iff in Hf as [Hc _]. apply N.eqb_eq in Hc. exact Hc.
  - destruct (tree_blob E cm p); [|discriminate].
    intros H. injection H as <-. reflexivity.
Qed.

Lemma copy_candidates_keeps (sb : scoreboard) (e : blame_entry)
    (parent : sha1) (porigin : option origin) (queue : list diff_filepair) :
  (rank parent < rank (commit s))%nat ->
  forall split,
    proposal e lower split ->
    keeps (proposal e lower)
          (copy_candidates E sb e parent porigin queue split).
Proof.
  intros Hrank. revert sb.
  induction queue as [|p queue IH]; intros sb split Hs;
    cbn [copy_candidates]; [exact Hs|].
  destruct (negb (fs_valid (one p))); [apply IH, Hs|].
  destruct (match porigin with
            | Some po => strcmp (fs_path (one p)) (path po) =? 0
            | None => false
            end); [apply IH, Hs|].
  destruct (find_origin E sb parent (fs_path (one p))) as [norigin|] eqn:Hno;
    [|exact I].
  destruct (read_sha1_file E (blob_sha1 norigin)); [|apply IH, Hs].
  apply IH. apply copy_split_if_better_proposal; [exact Hs|].
  apply find_copy_in_blob_proposal. unfold lower.
  rewrite (find_origin_commit _ _ _ _ Hno). exact Hrank.
Qed.

Lemma copy_body_keeps (parent : sha1) (porigin : option origin)
    (queue : list diff_filepair) (sb : scoreboard) (i : nat)
    (e : blame_entry) :
  (rank parent < rank (commit s))%nat ->
  P (ent sb) -> ent sb !! i = Some e ->
  keeps (fun x => P (ent (fst x)) /\ snd x = i)
        (copy_body G E s parent porigin queue sb i e).
Proof.
  intros Hrank HP He. unfold copy_body.
  destruct (passed_over e s) eqn:Hpo; [apply unchanged_keeps, HP|].
  eapply keeps_bind.
  - apply copy_candidates_keeps; [exact Hrank|]. left. reflexivity.
  - intros split Hs. eapply apply_above_keeps; eauto.
Qed.

Lemma find_copy_in_parent_keeps (fuel : nat) (sb : scoreboard)
    (parent : sha1) (porigin : option origin) (opt : Z) :
  (rank parent < rank (commit s))%nat ->
  P (ent sb) -> (T < fuel)%nat ->
  keeps (fun x => P (ent (fst x)))
        (find_copy_in_parent G E fuel sb s parent porigin opt).
Proof.
  intros Hrank HP Hf. unfold find_copy_in_parent.
  destruct (find_last_in_target sb s <? 0); [exact HP|].
  cbn zeta. eapply keeps_bind.
  - apply loop_keeps; [|exact HP|exact Hf].
    intros. apply then_allocate_keeps, copy_body_keeps; assumption.
  - intros sb' HP'. exact HP'.
Qed.

(** The history is a DAG: a parent ranks below its child. *)
Hypothesis dag :
  forall x p, In p (commit_parents E x) -> (rank p < rank x)%nat.

Lemma parent_origin_of_commit (sb : scoreboard) (o : origin) (p : sha1)
    (po : origin) :
  parent_origin_of E sb o p = Some po -> commit po = p.
Proof.
  unfold parent_origin_of. destruct (negb (parse_commit E p)); [discriminate|].
  destruct (find_origin E sb p (path o)) as [x|] eqn:Hf.
  - intros H. injection H as <-. eapply find_origin_commit, Hf.
  - unfold find_rename. destruct (List.find _ _); [|discriminate].
    apply find_origin_commit.
Qed.

Let resolved_below (x : option origin) : Prop :=
  match x with Some o => lower o | None => True end.

Lemma resolve_parents_below (sb : scoreboard) (parents : list sha1) :
  Forall (fun p => (rank p < rank (commit s))%nat) parents ->
  match resolve_parents E sb s parents with
  | SameBlob po => lower po
  | Resolved pos =>
      Forall resolved_below pos
      /\ Forall (fun pp => (rank (fst pp) < rank (commit s))%nat)
                (zip parents pos)
  end.
Proof.
  intros Hparents. revert sb.
  induction Hparents as [|p parents Hp _ IH]; intros sb;
    cbn [resolve_parents]; [split; constructor|].
  specialize (IH (allocate 1 sb)).
  destruct (parent_origin_of E sb s p) as [po|] eqn:Hpo.
  - assert (Hlow : lower po).
    { unfold lower. rewrite (parent_origin_of_commit _ _ _ _ Hpo). exact Hp. }
    destruct (hashcmp (blob_sha1 po) (blob_sha1 s) =? 0); [exact Hlow|].
    destruct (resolve_parents E (allocate 1 sb) s parents) as [po'|pos];
      [exact IH|].
    destruct IH as [IH1 IH2]. split; constructor; auto.
  - destruct (resolve_parents E (allocate 1 sb) s parents) as [po'|pos];
      [exact IH|].
    destruct IH as [IH1 IH2]. split; constructor; cbn; auto.
Qed.

Lemma hand_over_keeps (porigin : origin) (l : list blame_entry) :
  lower porigin -> P l -> P (map (hand_over s porigin) l).
Proof.
  intros Hlow [(Hne & Hlink & Hsound) Hw]. split; [split; [|split]|].
  - destruct l; [congruence|discriminate].
  - clear Hne Hsound Hw. revert Hlink. generalize b.
    induction l as [|e l IH]; intros a; cbn [map linked_up]; [auto|].
    intros [He Hl]. split.
    + unfold hand_over. destruct (decide (suspect e = s)); exact He.
    + replace (num_lines (hand_over s porigin e)) with (num_lines e)
        by (unfold hand_over; destruct (decide (suspect e = s)); reflexivity).
      apply IH, Hl.
  - apply Forall_forall. intros x Hx. apply list_elem_of_In in Hx.
    apply in_map_iff in Hx as (e & <- & He).
    rewrite Forall_forall in Hsound. apply list_elem_of_In in He.
    specialize (Hsound e He). unfold hand_over, sound_entry in *.
    destruct (decide (suspect e = s)); exact Hsound.
  - eapply Z.le_trans; [|exact Hw]. clear Hw Hlink Hne.
    unfold total_weight.
    induction Hsound as [|e l [Hn _] _ IH]; cbn [map fold_right]; [lia|].
    assert (weight rank r s (hand_over s porigin e) <= weight rank r s e);
      [|lia].
    unfold hand_over. destruct (decide (suspect e = s)) as [Heq|]; [|lia].
    unfold weight. cbn [guilty suspect num_lines]. destruct (guilty e); [lia|].
    rewrite Heq, cmp_suspect_refl. cbn [Z.eqb].
    destruct (cmp_suspect porigin s =? 0); [lia|].
    unfold lower in Hlow. subst r. nia.
Qed.

Lemma over_parents_keeps {A : Type} (Q : A -> Prop)
    (step : scoreboard -> A -> outcome (scoreboard * bool)) (xs : list A) :
  (forall sb x, Q x -> P (ent sb) ->
                keeps (fun y => P (ent (fst y))) (step sb x)) ->
  Forall Q xs ->
  forall sb, P (ent sb) ->
             keeps (fun y => P (ent (fst y))) (over_parents step sb xs).
Proof.
  intros Hstep. induction 1 as [|x xs Hx _ IH]; intros sb HP;
    cbn [over_parents]; [exact HP|].
  eapply keeps_bind; [apply Hstep; eassumption|].
  intros [sb' stop] HP'. cbn [fst] in HP'.
  destruct stop; [exact HP'|apply IH, HP'].
Qed.

Lemma pass_blame_keeps (fuel : nat) (sb : scoreboard) (opt : Z) :
  P (ent sb) -> (T < fuel)%nat ->
  keeps (fun sb' => P (ent sb')) (pass_blame G E fuel sb s opt).
Proof.
  intros HP Hf. unfold pass_blame.
  assert (Hparents : Forall (fun p => (rank p < rank (commit s))%nat)
                       (take MAXPARENT (commit_parents E (commit s)))).
  { apply Forall_forall. intros p Hp. apply dag.
    apply list_elem_of_In. eapply subseteq_take, Hp. }
  pose proof (resolve_parents_below sb _ Hparents) as Hres.
  destruct (resolve_parents E sb s
              (take MAXPARENT (commit_parents E (commit s)))) as [po|pos].
  - cbn [keeps ent with_ent]. apply hand_over_keeps; assumption.
  - destruct Hres as [Hpos Hzip].
    eapply (keeps_bind (fun y => P (ent (fst y)))).
    { apply (over_parents_keeps resolved_below); [|exact Hpos|exact HP].
      intros sb0 [po|] Hq HP0; cbn [skip_unresolved]; [|exact HP0].
      apply pass_blame_to_parent_keeps; assumption. }
    intros [sb1 stop1] HP1. cbn [fst] in HP1.
    destruct stop1; [exact HP1|].
    eapply (keeps_bind (fun y => P (ent (fst y)))).
    { destruct (has_flag opt PICKAXE_BLAME_MOVE); [|exact HP1].
      apply (over_parents_keeps resolved_below); [|exact Hpos|exact HP1].
      intros sb0 [po|] Hq HP0; cbn [skip_unresolved]; [|exact HP0].
      apply find_move_in_parent_keeps; assumption. }
    intros [sb2 stop2] HP2. cbn [fst] in HP2.
    destruct stop2; [exact HP2|].
    eapply (keeps_bind (fun y => P (ent (fst y)))).
    { destruct (has_flag opt PICKAXE_BLAME_COPY); [|exact HP2].
      apply (over_parents_keeps
               (fun pp => (rank (fst pp) < rank (commit s))%nat));
        [|exact Hzip|exact HP2].
      intros sb0 pp Hq HP0.
      apply find_copy_in_parent_keeps; assumption. }
    intros [sb3 stop3] HP3. exact HP3.
Qed.

End Progress.

(** ** [coalesce] and the guilty plea *)

Lemma coalescible_spec (e next : blame_entry) :
  coalescible e next = true ->
  commit (suspect e) = commit (suspect next)
  /\ guilty e = guilty next /\ s_lno e + num_lines e = s_lno next.
Proof.
  unfold coalescible. intros H.
  apply andb_true_iff in H as [H Hs]. apply andb_true_iff in H as [Hc Hg].
  apply Z.eqb_eq in Hc, Hs. apply cmp_suspect_eq in Hc as [Hc _].
  apply Bool.eqb_prop in Hg. auto.
Qed.

Lemma coalesce_from_linked (rest : list blame_entry) :
  forall e a c,
    linked_up a (e :: rest) c -> linked_up a (coalesce_from e rest) c.
Proof.
  induction rest as [|next rest IH]; intros e a c H; cbn [coalesce_from];
    [exact H|].
  destruct (coalescible e next).
  - apply IH. cbn [linked_up absorb lno num_lines] in *.
    destruct H as (He & Hn & Hr). split; [exact He|].
    rewrite Z.add_assoc. exact Hr.
  - cbn [linked_up] in *. destruct H as [He Hr]. split; [exact He|].
    apply IH. exact Hr.
Qed.

Lemma coalesce_from_sound (rest : list blame_entry) :
  forall e, Forall sound_entry (e :: rest) ->
            Forall sound_entry (coalesce_from e rest).
Proof.
  induction rest as [|next rest IH]; intros e H; cbn [coalesce_from];
    [exact H|].
  inversion H as [|? ? [Hn Hs] H']; subst.
  inversion H' as [|? ? [Hn' Hs'] H'']; subst.
  destruct (coalescible e next).
  - apply IH. constructor; [|exact H''].
    unfold sound_entry, absorb; cbn. lia.
  - constructor; [split; assumption|]. apply IH. exact H'.
Qed.

Lemma coalesce_from_nonempty (rest : list blame_entry) :
  forall e, coalesce_from e rest <> [].
Proof.
  induction rest as [|next rest IH]; intros e; cbn [coalesce_from];
    [discriminate|].
  destruct (coalescible e next); [apply IH|discriminate].
Qed.

Lemma coalesce_partition (b t : Z) (sb : scoreboard) :
  partition b t (ent sb) -> partition b t (ent (coalesce sb)).
Proof.
  unfold coalesce. destruct (ent sb) as [|e rest] eqn:Hl;
    [rewrite Hl; auto|].
  intros (_ & Hlink & Hsound). cbn [ent with_ent].
  split; [apply coalesce_from_nonempty|].
  split; [apply coalesce_from_linked, Hlink|apply coalesce_from_sound, Hsound].
Qed.

Lemma coalesce_from_guilty (rest : list blame_entry) :
  forall e, Forall (fun x => guilty x = true) (e :: rest) ->
            Forall (fun x => guilty x = true) (coalesce_from e rest).
Proof.
  induction rest as [|next rest IH]; intros e H; cbn [coalesce_from];
    [exact H|].
  inversion H as [|? ? Hg H']; subst.
  destruct (coalescible e next).
  - apply IH. inversion H'; subst. constructor; assumption.
  - constructor; [exact Hg|]. apply IH, H'.
Qed.

Section Driver.

Variables (G : thresholds) (E : collaborators) (rank : sha1 -> nat).
Variables (b t : Z) (opt : Z).

Hypothesis dag :
  forall x p, In p (commit_parents E x) -> (rank p < rank x)%nat.

Lemma coalesce_from_work (rest : list blame_entry) :
  forall e, work rank (coalesce_from e rest) = work rank (e :: rest).
Proof.
  induction rest as [|next rest IH]; intros e; cbn [coalesce_from];
    [reflexivity|].
  destruct (coalescible e next) eqn:Hc.
  - rewrite IH. apply coalescible_spec in Hc as (Hcm & Hg & _).
    unfold work. cbn [fold_right absorb guilty suspect num_lines].
    rewrite <- Hg, <- Hcm. destruct (guilty e); ring.
  - unfold work in *. cbn [fold_right]. rewrite IH. reflexivity.
Qed.

Lemma coalesce_work (sb : scoreboard) :
  work rank (ent (coalesce sb)) = work rank (ent sb).
Proof.
  unfold coalesce. destruct (ent sb) as [|e rest] eqn:Hl; [rewrite Hl; auto|].
  cbn [ent with_ent]. apply coalesce_from_work.
Qed.

Lemma plead_guilty_partition (s : origin) (l : list blame_entry) :
  partition b t l -> partition b t (map (plead_guilty s) l).
Proof.
  intros (Hne & Hlink & Hsound). split; [|split].
  - destruct l; [congruence|discriminate].
  - clear Hne Hsound. revert Hlink. generalize b.
    induction l as [|e l IH]; intros a; cbn [map linked_up]; [auto|].
    intros [He Hl]. split.
    + unfold plead_guilty. destruct (cmp_suspect (suspect e) s =? 0); exact He.
    + replace (num_lines (plead_guilty s e)) with (num_lines e)
        by (unfold plead_guilty;
            destruct (cmp_suspect (suspect e) s =? 0); reflexivity).
      apply IH, Hl.
  - apply Forall_forall. intros x Hx. apply list_elem_of_In in Hx.
    apply in_map_iff in Hx as (e & <- & He).
    rewrite Forall_forall in Hsound. apply list_elem_of_In in He.
    specialize (Hsound e He). unfold plead_guilty, sound_entry in *.
    destruct (cmp_suspect (suspect e) s =? 0); exact Hsound.
Qed.

Lemma plead_guilty_work (s : origin) (l : list blame_entry) :
  Forall sound_entry l ->
  work rank (map (plead_guilty s) l)
  <= total_weight rank (Z.of_nat (rank (commit s))) s l.
Proof.
  unfold work, total_weight.
  induction 1 as [|e l [Hn _] _ IH]; cbn [map fold_right]; [lia|].
  assert ((if guilty (plead_guilty s e) then 0
           else (Z.of_nat (rank (commit (suspect (plead_guilty s e)))) + 1)
                * num_lines (plead_guilty s e))
          <= weight rank (Z.of_nat (rank (commit s))) s e); [|lia].
  unfold plead_guilty, weight.
  destruct (cmp_suspect (suspect e) s =? 0); cbn [guilty suspect num_lines].
  - destruct (guilty e); nia.
  - destruct (guilty e); lia.
Qed.

(** Before [pass_blame], an unresolved entry that accuses [s] makes the
    weight at the rank of [s] fall short of the work at hand. *)
Lemma weight_below_work (s : origin) (l : list blame_entry) (e0 : blame_entry) :
  Forall sound_entry l -> In e0 l -> guilty e0 = false -> suspect e0 = s ->
  total_weight rank (Z.of_nat (rank (commit s))) s l + 1 <= work rank l.
Proof.
  intros Hsound Hin Hg Hs.
  assert (Hle : forall l', Forall sound_entry l' ->
                           total_weight rank (Z.of_nat (rank (commit s))) s l'
                           <= work rank l').
  { unfold total_weight, work.
    induction 1 as [|e l' [Hn _] _ IH]; cbn [fold_right]; [lia|].
    assert (weight rank (Z.of_nat (rank (commit s))) s e
            <= (if guilty e then 0
                else (Z.of_nat (rank (commit (suspect e))) + 1) * num_lines e));
      [|lia].
    unfold weight. destruct (guilty e); [lia|].
    destruct (Z.eqb_spec (cmp_suspect (suspect e) s) 0) as [Hc|_]; [|lia].
    apply cmp_suspect_eq in Hc as [-> _]. nia. }
  induction Hsound as [|e l [Hn Hsl] Hrest IH]; [contradiction|].
  unfold total_weight, work in *. cbn [fold_right].
  destruct Hin as [->|Hin].
  - specialize (Hle l Hrest). unfold total_weight, work in Hle.
    unfold weight at 1. rewrite Hg, Hs, cmp_suspect_refl. cbn [Z.eqb]. nia.
  - specialize (IH Hin).
    assert (weight rank (Z.of_nat (rank (commit s))) s e
            <= (if guilty e then 0
                else (Z.of_nat (rank (commit (suspect e))) + 1) * num_lines e));
      [|lia].
    unfold weight. destruct (guilty e); [lia|].
    destruct (Z.eqb_spec (cmp_suspect (suspect e) s) 0) as [Hc|_]; [|lia].
    apply cmp_suspect_eq in Hc as [-> _]. nia.
Qed.

Lemma assign_blame_keeps (n : nat) :
  forall sb fuel,
    partition b t (ent sb) -> work rank (ent sb) <= Z.of_nat n ->
    (n + Z.to_nat (t - b) < fuel)%nat ->
    keeps (fun sb' => Forall (fun e => guilty e = true) (ent sb')
                      /\ partition b t (ent sb'))
          (assign_blame G E fuel sb opt).
Proof.
  induction n as [|n IH]; intros sb fuel Hpart Hwork Hfuel;
    (destruct fuel as [|fuel]; [lia|]); cbn [assign_blame];
    destruct (List.find (fun e => negb (guilty e)) (ent sb)) as [e0|] eqn:Hfind;
    try (cbn [keeps]; split; [|exact Hpart];
         apply Forall_forall; intros x Hx; apply list_elem_of_In in Hx;
         pose proof (find_none _ _ Hfind x Hx) as Hx';
         apply negb_false_iff in Hx'; exact Hx').
  - apply find_some in Hfind as [Hin Hg]. apply negb_true_iff in Hg.
    destruct Hpart as (_ & _ & Hsound).
    pose proof (weight_below_work (suspect e0) _ e0 Hsound Hin Hg eq_refl).
    pose proof (total_weight_nonneg rank (Z.of_nat (rank (commit (suspect e0))))
                  (suspect e0) (ent sb) ltac:(lia) Hsound).
    lia.
  - apply find_some in Hfind as [Hin Hg]. apply negb_true_iff in Hg.
    pose proof Hpart as (_ & _ & Hsound).
    pose proof (weight_below_work (suspect e0) _ e0 Hsound Hin Hg eq_refl)
      as Hbelow.
    set (s := suspect e0) in *.
    set (c := total_weight rank (Z.of_nat (rank (commit s))) s (ent sb)) in *.
    eapply (keeps_bind
              (fun sb1 => partition b t (ent sb1)
                          /\ total_weight rank (Z.of_nat (rank (commit s))) s
                                          (ent sb1) <= c)).
    + destruct (worth_digging E (commit s)).
      * apply (pass_blame_keeps G E rank b t s c dag); [|lia].
        split; [exact Hpart|unfold c; lia].
      * cbn [keeps]. split; [exact Hpart|unfold c; lia].
    + intros sb1 [Hpart1 Hw1].
      apply IH.
      * apply coalesce_partition. cbn [ent with_ent].
        apply plead_guilty_partition, Hpart1.
      * rewrite coalesce_work. cbn [ent with_ent].
        destruct Hpart1 as (_ & _ & Hsound1).
        pose proof (plead_guilty_work s (ent sb1) Hsound1). lia.
      * lia.
Qed.

End Driver.

(** ** The invariants of the spec and [partition] *)

Lemma linked_up_last (l : list blame_entry) :
  forall a c x, linked_up a l c -> last l = Some x ->
                lno x + num_lines x = c.
Proof.
  induction l as [|e l IH]; intros a c x H Hlast; [discriminate|].
  cbn [linked_up] in H. destruct H as [He Hl].
  destruct l as [|e' l'].
  - cbn in Hlast, Hl. injection Hlast as <-. lia.
  - eapply IH; [exact Hl|exact Hlast].
Qed.

Lemma partition_spec_invariants (b t : Z) (l : list blame_entry) :
  partition b t l -> spec_invariants b t l.
Proof.
  intros (Hne & Hlink & Hsound). unfold spec_invariants.
  split; [|split; [|split; [|split]]].
  - intros i j e e' Hij Hi Hj.
    destruct (split_at _ _ _ Hi) as [Hl Hlen].
    rewrite Hl in Hlink, Hsound, Hj.
    apply linked_up_app in Hlink as (m & _ & [Hm Hrest]).
    apply Forall_app in Hsound as [_ Hs]. inversion Hs as [|? ? [Hn _] Hs2]; subst.
    rewrite lookup_app_r in Hj by lia. rewrite Hlen in Hj.
    destruct (j - i)%nat as [|k] eqn:Hk; [lia|]. cbn in Hj.
    pose proof (linked_up_bounds _ _ _ Hrest Hs2) as Hb.
    rewrite Forall_forall in Hb.
    apply list_elem_of_lookup_2 in Hj. specialize (Hb _ Hj). lia.
  - intros i e e' Hi Hj.
    destruct (split_at _ _ _ Hi) as [Hl Hlen].
    rewrite Hl in Hlink, Hj.
    apply linked_up_app in Hlink as (m & _ & [Hm Hrest]).
    rewrite lookup_app_r in Hj by lia. rewrite Hlen in Hj.
    replace (S i - i)%nat with 1%nat in Hj by lia. cbn in Hj.
    destruct (drop (S i) l) as [|x xs]; [discriminate|].
    cbn in Hj. injection Hj as ->. cbn in Hrest. lia.
  - split.
    + destruct l as [|e l]; [congruence|]. exists e. cbn in *. tauto.
    + destruct (last l) as [x|] eqn:Hlast.
      * exists x. split; [reflexivity|]. eapply linked_up_last; eassumption.
      * apply last_None in Hlast. congruence.
  - eapply Forall_impl; [exact Hsound|]. intros ? [_ ?]. assumption.
  - eapply Forall_impl; [exact Hsound|]. intros ? [? _]. assumption.
Qed.

Lemma adjacent_tail (e : blame_entry) (l : list blame_entry) :
  adjacent (e :: l) -> adjacent l.
Proof. intros H i x y Hx Hy. apply (H (S i) x y); assumption. Qed.

Lemma adjacent_linked_up (l : list blame_entry) :
  forall e, adjacent (e :: l) ->
            exists c, linked_up (lno e) (e :: l) c.
Proof.
  induction l as [|e' l IH]; intros e Hadj; cbn [linked_up].
  - eauto.
  - destruct (IH e' (adjacent_tail _ _ Hadj)) as [c Hc].
    exists c. split; [reflexivity|].
    rewrite (Hadj O e e' eq_refl eq_refl). exact Hc.
Qed.

Lemma spec_invariants_partition (b t : Z) (l : list blame_entry) :
  spec_invariants b t l -> partition b t l.
Proof.
  intros (_ & Hadj & [(e & Hhead & He) (x & Hlast & Hx)] & Hs & Hn).
  destruct l as [|e0 l]; [discriminate|]. cbn in Hhead. injection Hhead as ->.
  split; [discriminate|]. split.
  - destruct (adjacent_linked_up l e Hadj) as [c Hc].
    pose proof (linked_up_last _ _ _ _ Hc Hlast) as Hend.
    rewrite He in Hc. replace t with c by lia. exact Hc.
  - rewrite Forall_forall in Hs, Hn. apply Forall_forall. intros y Hy.
    split; [apply Hn|apply Hs]; exact Hy.
Qed.

(** C2.  Over a history in which every parent ranks below its child, and
    for a scoreboard whose partition sequence satisfies the invariants of
    section 3, [assign_blame] terminates: with fuel beyond the work at hand
    (the lines not yet settled, each counted once per rank of its suspect's
    commit) plus the number of lines of the range, the run does not run out
    of fuel.  It either ends the process or returns, and when it returns
    every entry is guilty and the invariants still hold. *)
Theorem assign_blame_settles_every_entry
    (G : thresholds) (E : collaborators) (rank : sha1 -> nat)
    (b t opt : Z) (sb : scoreboard) (fuel : nat) :
  (forall x p, In p (commit_parents E x) -> (rank p < rank x)%nat) ->
  spec_invariants b t (ent sb) ->
  (Z.to_nat (work rank (ent sb)) + Z.to_nat (t - b) < fuel)%nat ->
  terminates (assign_blame G E fuel sb opt)
  /\ forall sb',
       assign_blame G E fuel sb opt = Done sb' ->
       Forall (fun e => guilty e = true) (ent sb')
       /\ spec_invariants b t (ent sb').
Proof.
  intros Hdag Hinv Hfuel.
  pose proof (assign_blame_keeps G E rank b t opt Hdag
                (Z.to_nat (work rank (ent sb))) sb fuel
                (spec_invariants_partition _ _ _ Hinv)) as H.
  assert (Hw : work rank (ent sb) <= Z.of_nat (Z.to_nat (work rank (ent sb))))
    by lia.
  specialize (H Hw Hfuel).
  destruct (assign_blame G E fuel sb opt) as [sb1| |]; cbn in *;
    [|split; [exact I|discriminate]|contradiction].
  split; [exact I|]. intros sb' Heq. injection Heq as <-.
  destruct H as [Hg Hp]. split; [exact Hg|].
  apply partition_spec_invariants, Hp.
Qed.

(** ** The same-blob short cut *)

Lemma find_origin_path (E : collaborators) (sb : scoreboard) (c : sha1)
    (p : string) (o : origin) :
  find_origin E sb c p = Some o -> commit o = c /\ path o = p.
Proof.
  unfold find_origin.
  destruct (List.find _ (ent sb)) as [e|] eqn:Hf.
  - intros H. injection H as <-. apply find_some in Hf as [_ Hf].
    apply andb_true_iff in Hf as [Hc Hp]. apply N.eqb_eq in Hc.
    apply Z.eqb_eq, strcmp_eq in Hp. auto.
  - destruct (tree_blob E c p); [|discriminate].
    intros H. injection H as <-. auto.
Qed.

Lemma resolve_parents_same_blob (E : collaborators) (sb : scoreboard)
    (o porigin : origin) (p : sha1) (before : list sha1) :
  forall after,
    (forall i q, before !! i = Some q ->
                 match parent_origin_of E (allocate i sb) o q with
                 | Some po => blob_sha1 po <> blob_sha1 o
                 | None => True
                 end) ->
    parent_origin_of E (allocate (length before) sb) o p = Some porigin ->
    blob_sha1 porigin = blob_sha1 o ->
    resolve_parents E sb o (before ++ p :: after) = SameBlob porigin.
Proof.
  intros after. revert sb.
  induction before as [|q before IH]; intros sb Hbefore Hp Hblob;
    cbn [app resolve_parents].
  - cbn [length] in Hp. rewrite allocate_0 in Hp. rewrite Hp.
    apply hashcmp_eq in Hblob. rewrite Hblob. reflexivity.
  - rewrite (IH (allocate 1 sb)); [| |
      rewrite allocate_allocate; exact Hp|exact Hblob].
    + pose proof (Hbefore O q eq_refl) as Hq. rewrite allocate_0 in Hq.
      destruct (parent_origin_of E sb o q) as [po|]; [|reflexivity].
      destruct (Z.eqb_spec (hashcmp (blob_sha1 po) (blob_sha1 o)) 0)
        as [H0|_]; [|reflexivity].
      apply hashcmp_eq in H0. contradiction.
    + intros i q' Hi. rewrite allocate_allocate.
      exact (Hbefore (S i) q' Hi).
Qed.

(** X22.  When the first loop of [pass_blame] reaches, among the first 16
    parents, a parent that parses and in which [find_origin] finds the
    target's path with the target's blob, the earlier parents having given
    no origin or an origin with another blob, then [pass_blame] returns at
    once, with any fuel and so without a single round of the propagator,
    the mover or the copier: every entry whose suspect is the object [o]
    itself has that parent's origin as its suspect, and nothing else has
    changed; an entry that accuses the commit and the path of [o] through
    another object keeps its suspect. *)
Theorem same_blob_short_circuit
    (G : thresholds) (E : collaborators) (sb : scoreboard) (o : origin)
    (opt : Z) (before after : list sha1) (p : sha1) (porigin : origin) :
  commit_parents E (commit o) = before ++ p :: after ->
  (length before < MAXPARENT)%nat ->
  (forall i q, before !! i = Some q ->
               match parent_origin_of E (allocate i sb) o q with
               | Some po => blob_sha1 po <> blob_sha1 o
               | None => True
               end) ->
  parse_commit E p = true ->
  find_origin E (allocate (length before) sb) p (path o) = Some porigin ->
  blob_sha1 porigin = blob_sha1 o ->
  (commit porigin = p /\ path porigin = path o)
  /\ forall fuel,
       exists sb',
         pass_blame G E fuel sb o opt = Done sb'
         /\ final_buf sb' = final_buf sb /\ lineno sb' = lineno sb
         /\ Forall2
              (fun e e' =>
                 lno e' = lno e /\ num_lines e' = num_lines e
                 /\ s_lno e' = s_lno e /\ guilty e' = guilty e
                 /\ score e' = score e
                 /\ (suspect e = o -> suspect e' = porigin)
                 /\ (suspect e <> o -> suspect e' = suspect e))
              (ent sb) (ent sb').
Proof.
  intros Hparents Hlen Hbefore Hparse Hfind Hblob.
  split; [eapply find_origin_path, Hfind|].
  intros fuel. unfold pass_blame.
  rewrite Hparents, take_app_ge by lia.
  destruct (MAXPARENT - length before)%nat as [|k] eqn:Hk; [lia|].
  cbn [take]. cbn zeta. eexists.
  rewrite (resolve_parents_same_blob E sb o porigin p before _ Hbefore);
    [|unfold parent_origin_of; rewrite Hparse, Hfind; reflexivity|exact Hblob].
  split; [reflexivity|]. cbn [final_buf lineno ent with_ent allocate].
  split; [reflexivity|]. split; [reflexivity|].
  induction (ent sb) as [|e l IH]; cbn [map]; constructor; [|exact IH].
  unfold hand_over. destruct (decide (suspect e = o)); cbn; tauto.
Qed.

(** C5.  The short cut of [pass_blame] does not reach every entry that
    accuses the target.  In [twice_named_history] commit 3 names commit 2
    twice, and the options are those of [-M].  The tip has the blob of
    commit 3, so the first round hands the whole file to commit 3.  The
    second round makes two origins for commit 2 and the path [f], one for
    each time the commit is named: the propagator and the mover give the
    first the lines [common] and [zulu], the mover gives the second the
    lines [yankee], and the round ends in [before_the_short_cut].  The two
    objects are one suspect for [cmp_suspect].  The third round takes the
    second object as its target; commit 1 has the blob of commit 2, and the
    short cut gives commit 1 the three lines of that object and leaves the
    twelve lines of the first object where they are, against
    [all_handed_over].  The round then declares them guilty, and the run
    ends with the lines [zulu] and [common] blamed on commit 2, which has
    not touched the file.  In [once_named_history], with the same files,
    they are blamed on commit 1. *)
Theorem twice_named_parent_keeps_its_lines :
  (exists sb0 sb1 sb2,
     start_blame move_options 4%N "f" tip_origin (text lines_of_tip) = Done sb0
     /\ pass_blame (effective_scores move_options) twice_named_history 20
          sb0 tip_origin (opt move_options) = Done sb1
     /\ accused (take_responsibility tip_origin sb1)
        = [(0, 17, grafted_origin, false)]
     /\ pass_blame (effective_scores move_options) twice_named_history 20
          (take_responsibility tip_origin sb1) grafted_origin
          (opt move_options) = Done sb2
     /\ take_responsibility grafted_origin sb2 = before_the_short_cut)
  /\ cmp_suspect parent_first parent_again = 0
  /\ resolve_parents twice_named_history before_the_short_cut parent_again
       (take MAXPARENT (commit_parents twice_named_history 2%N))
     = SameBlob root_origin
  /\ (exists sb,
        pass_blame (effective_scores move_options) twice_named_history 20
          before_the_short_cut parent_again (opt move_options) = Done sb
        /\ accused sb
           = [(0, 3, root_origin, false); (3, 1, grafted_origin, true);
              (4, 4, parent_first, false); (8, 1, grafted_origin, true);
              (9, 8, parent_first, false)]
        /\ ~ all_handed_over parent_again root_origin
               (ent before_the_short_cut) (ent sb)
        /\ accused (take_responsibility parent_again sb)
           = [(0, 3, root_origin, false); (3, 1, grafted_origin, true);
              (4, 4, parent_first, true); (8, 1, grafted_origin, true);
              (9, 8, parent_first, true)])
  /\ (exists sb,
        dig twice_named_history 20 move_options 4%N "f" tip_origin
          (text lines_of_tip) = Done sb
        /\ blamed_commits sb
           = [(0, 3, 1%N); (3, 1, 3%N); (4, 4, 2%N); (8, 1, 3%N);
              (9, 8, 2%N)])
  /\ (exists sb,
        dig once_named_history 20 move_options 4%N "f" tip_origin
          (text lines_of_tip) = Done sb
        /\ blamed_commits sb
           = [(0, 4, 3%N); (4, 4, 1%N); (8, 1, 3%N); (9, 8, 1%N)]).
Proof.
  split.
  { do 3 eexists.
    split; [vm_compute; reflexivity|].
    split; [vm_compute; reflexivity|].
    split; [vm_compute; reflexivity|].
    split; vm_compute; reflexivity. }
  split; [vm_compute; reflexivity|].
  split; [vm_compute; reflexivity|].
  split.
  { eexists. split; [vm_compute; reflexivity|].
    split; [vm_compute; reflexivity|].
    split; [|vm_compute; reflexivity].
    intros H. vm_compute in H.
    inversion H as [|? ? ? ? _ H1]; subst; clear H.
    inversion H1 as [|? ? ? ? _ H2]; subst; clear H1.
    inversion H2 as [|? ? ? ? H3 _]; subst; clear H2.
    specialize (H3 eq_refl). discriminate H3. }
  split; eexists; (split; [vm_compute; reflexivity|]); vm_compute; reflexivity.
Qed.

(** ** The thresholds of the mover and the copier *)

Lemma copy_chunks_fold (sb : scoreboard) (e : blame_entry) (parent : origin)
    (chunks : list chunk) :
  forall plno tlno split,
    copy_chunks sb e parent chunks plno tlno split
    = fold_left (copy_split_if_better sb)
                (proposals e parent chunks plno tlno) split.
Proof.
  induction chunks as [|c chunks IH]; intros plno tlno split;
    cbn [copy_chunks proposals]; [reflexivity|].
  destruct (num_lines e <=? tlno); [reflexivity|].
  rewrite fold_left_app, IH. destruct (tlno <? same c); reflexivity.
Qed.

Lemma copy_split_if_better_score (sb : scoreboard) (best this : split3) :
  forall sp m,
    sp = best \/ sp = this -> split1 sp = Some m ->
    exists mid,
      split1 (copy_split_if_better sb best this) = Some mid
      /\ ent_score sb m <= ent_score sb mid.
Proof.
  intros sp m Hsp Hm. unfold copy_split_if_better.
  destruct (split1 this) as [tm|] eqn:Htm.
  - destruct (split1 best) as [bm|] eqn:Hbm.
    + destruct (Z.ltb_spec (ent_score sb tm) (ent_score sb bm));
        cbn [split1]; eexists; (split; [reflexivity|]);
        rewrite ent_score_cached;
        destruct Hsp as [-> | ->]; rewrite ?Hbm, ?Htm in Hm;
        injection Hm as <-; lia.
    + destruct Hsp as [-> | ->]; [congruence|].
      exists tm. split; [exact Htm|]. rewrite Htm in Hm.
      injection Hm as <-. lia.
  - destruct Hsp as [-> | ->]; [|congruence]. exists m. split; [exact Hm|lia].
Qed.

Lemma best_of_fold (sb : scoreboard) (props : list split3) :
  forall init sp m,
    sp = init \/ In sp props -> split1 sp = Some m ->
    exists mid,
      split1 (fold_left (copy_split_if_better sb) props init) = Some mid
      /\ ent_score sb m <= ent_score sb mid.
Proof.
  induction props as [|this props IH]; intros init sp m Hsp Hm;
    cbn [fold_left].
  - destruct Hsp as [->|Hin]; [|destruct Hin].
    exists m. split; [exact Hm|lia].
  - destruct Hsp as [-> | [-> | Hin]].
    + destruct (copy_split_if_better_score sb init this init m
                  (or_introl eq_refl) Hm) as (mid & Hmid & Hle).
      destruct (IH _ _ mid (or_introl eq_refl) Hmid) as (mid' & H' & Hle').
      exists mid'. split; [exact H'|lia].
    + destruct (copy_split_if_better_score sb init sp sp m
                  (or_intror eq_refl) Hm) as (mid & Hmid & Hle).
      destruct (IH _ _ mid (or_introl eq_refl) Hmid) as (mid' & H' & Hle').
      exists mid'. split; [exact H'|lia].
    + apply (IH _ sp m); auto.
Qed.

(** C6.  For an unresolved entry that accuses the target, the mover and the
    copier retain a split whose middle scores at least as much as the middle
    of every split proposed, and apply it only when that score is strictly
    above the threshold: a best middle that scores the threshold or less
    leaves the scoreboard as it was.  Without a score on the command line
    the thresholds are 20 for moves and 40 for copies. *)
Theorem best_split_must_beat_threshold
    (G : thresholds) (E : collaborators) (sb : scoreboard) (i : nat)
    (e : blame_entry) (target parent : origin) (file_p : list ascii)
    (cparent : sha1) (porigin : option origin) (queue : list diff_filepair) :
  passed_over e target = false ->
  (forall sp m,
     In sp (proposals e parent
              (compare_buffer E file_p
                 (lines_prefix
                    (drop (Z.to_nat (nth_line sb (lno e))) (final_buf sb))
                    (num_lines e)) 1) 0 0) ->
     split1 sp = Some m ->
     exists mid,
       split1 (find_copy_in_blob E sb e parent file_p) = Some mid
       /\ ent_score sb m <= ent_score sb mid)
  /\ match split1 (find_copy_in_blob E sb e parent file_p) with
     | None => move_body G E target parent file_p sb i e = Done (sb, i)
     | Some mid =>
         (ent_score sb mid <= blame_move_score G ->
          move_body G E target parent file_p sb i e = Done (sb, i))
         /\ (blame_move_score G < ent_score sb mid ->
             move_body G E target parent file_p sb i e
             = split_blame sb
                 (split0 (find_copy_in_blob E sb e parent file_p))
                 (cache_score sb mid)
                 (split2 (find_copy_in_blob E sb e parent file_p)) i)
     end
  /\ (forall split,
        copy_candidates E sb e cparent porigin queue no_split = Done split ->
        match split1 split with
        | None =>
            copy_body G E target cparent porigin queue sb i e = Done (sb, i)
        | Some mid =>
            (ent_score sb mid <= blame_copy_score G ->
             copy_body G E target cparent porigin queue sb i e = Done (sb, i))
            /\ (blame_copy_score G < ent_score sb mid ->
                copy_body G E target cparent porigin queue sb i e
                = split_blame sb (split0 split) (cache_score sb mid)
                              (split2 split) i)
        end)
  /\ thresholds_of []
     = Done {| blame_move_score := 20; blame_copy_score := 40 |}.
Proof.
  intros Hpo. split; [|split; [|split]].
  - intros sp m Hin Hm. unfold find_copy_in_blob. rewrite copy_chunks_fold.
    apply (best_of_fold sb _ no_split sp m); auto.
  - unfold move_body, apply_above. rewrite Hpo.
    destruct (split1 (find_copy_in_blob E sb e parent file_p)) as [mid|];
      [|reflexivity].
    split; intros H.
    + destruct (Z.ltb_spec (blame_move_score G) (ent_score sb mid));
        [lia|reflexivity].
    + destruct (Z.ltb_spec (blame_move_score G) (ent_score sb mid));
        [reflexivity|lia].
  - intros split Hsplit. unfold copy_body, apply_above. rewrite Hpo, Hsplit.
    cbn [mbind outcome_bind].
    destruct (split1 split) as [mid|]; [|reflexivity].
    split; intros H.
    + destruct (Z.ltb_spec (blame_copy_score G) (ent_score sb mid));
        [lia|reflexivity].
    + destruct (Z.ltb_spec (blame_copy_score G) (ent_score sb mid));
        [reflexivity|lia].
  - reflexivity.
Qed.

(** ** The store with its links *)

Lemma seg_app (m : gmap nat Linked.cell) (l1 : list (nat * blame_entry)) :
  forall pv p l2 pv' p',
    Linked.seg m pv p (l1 ++ l2) pv' p'
    <-> exists a a', Linked.seg m pv p l1 a a' /\ Linked.seg m a a' l2 pv' p'.
Proof.
  induction l1 as [|[q e] l1 IH]; intros pv p l2 pv' p'; cbn [app Linked.seg].
  - split.
    + intros H. exists pv, p. auto.
    + intros (a & a' & [-> ->] & H). exact H.
  - split.
    + intros (Hp & c & Hc & Hpv & Hf & Hrest).
      apply IH in Hrest as (a & a' & H1 & H2).
      exists a, a'. split; [|exact H2]. split; [exact Hp|]. exists c. auto.
    + intros (a & a' & (Hp & c & Hc & Hpv & Hf & H1) & H2).
      split; [exact Hp|]. exists c. repeat split; auto.
      apply IH. exists a, a'. auto.
Qed.

Lemma seg_frame (m m' : gmap nat Linked.cell) (l : list (nat * blame_entry)) :
  forall pv p pv' p',
    (forall q, In q (map fst l) -> m' !! q = m !! q) ->
    Linked.seg m pv p l pv' p' -> Linked.seg m' pv p l pv' p'.
Proof.
  induction l as [|[q e] l IH]; intros pv p pv' p' Hsame; cbn [Linked.seg];
    [auto|].
  intros (Hp & c & Hc & Hpv & Hf & Hrest). split; [exact Hp|].
  exists c. rewrite Hsame by (left; reflexivity).
  repeat split; auto. apply IH; [|exact Hrest].
  intros x Hx. apply Hsame. right. exact Hx.
Qed.

Lemma seg_allocated (m : gmap nat Linked.cell) (l : list (nat * blame_entry)) :
  forall pv p pv' p' q e,
    Linked.seg m pv p l pv' p' -> In (q, e) l ->
    exists c, m !! q = Some c /\ Linked.fields c = e.
Proof.
  induction l as [|[q0 e0] l IH]; intros pv p pv' p' q e; cbn [Linked.seg];
    [intros _ []|].
  intros (Hp & c & Hc & Hpv & Hf & Hrest) [Heq|Hin].
  - injection Heq as <- <-. eauto.
  - eapply IH; eassumption.
Qed.

(** The address the segment is entered by and the one it leaves its last
    cell by. *)
Lemma seg_first (m : gmap nat Linked.cell) (q : nat) (e : blame_entry)
    (l : list (nat * blame_entry)) (pv p pv' p' : option nat) :
  Linked.seg m pv p ((q, e) :: l) pv' p' -> p = Some q.
Proof. cbn. tauto. Qed.

Lemma seg_end (m : gmap nat Linked.cell) (l : list (nat * blame_entry)) :
  forall pv p pv' p' q e,
    Linked.seg m pv p (l ++ [(q, e)]) pv' p' ->
    pv' = Some q
    /\ exists c, m !! q = Some c /\ Linked.next c = p' /\ Linked.fields c = e.
Proof.
  intros pv p pv' p' q e H.
  apply seg_app in H as (a & a' & _ & H). cbn in H.
  destruct H as (_ & c & Hc & _ & Hf & Hn & Hq). eauto.
Qed.

Lemma find_prev_spec (m : gmap nat Linked.cell) (y : blame_entry)
    (l : list (nat * blame_entry)) :
  forall pv p lst fuel,
    Linked.seg m pv p l lst None -> (length l <= fuel)%nat ->
    exists prv p1,
      Linked.find_prev fuel m (lno y) p pv = Done prv
      /\ Linked.seg m pv p (take (entries_below (map snd l) y) l) prv p1
      /\ Linked.seg m prv p1 (drop (entries_below (map snd l) y) l) lst None.
Proof.
  induction l as [|[q e] l IH]; intros pv p lst fuel Hseg Hfuel.
  - cbn in Hseg. destruct Hseg as [-> ->]. exists lst, None.
    cbn. destruct fuel; cbn; auto.
  - cbn [Linked.seg] in Hseg. destruct Hseg as (-> & c & Hc & Hpv & Hf & Hrest).
    cbn [map snd entries_below].
    destruct fuel as [|fuel]; [cbn in Hfuel; lia|].
    cbn [Linked.find_prev]. unfold Linked.read. rewrite Hc.
    cbn [mbind outcome_bind]. rewrite Hf.
    destruct (lno e <? lno y).
    + destruct (IH (Some q) (Linked.next c) lst fuel Hrest) as
        (prv & p1 & Hfind & H1 & H2); [cbn in Hfuel; lia|].
      exists prv, p1. split; [exact Hfind|]. split; [|exact H2].
      cbn [take Linked.seg]. split; [reflexivity|]. exists c. auto.
    + exists pv, (Some q). cbn [take drop Linked.seg].
      repeat split; auto. exists c. auto.
Qed.

Lemma add_blame_entry_take_drop (l : list blame_entry) (y : blame_entry) :
  add_blame_entry l y
  = take (entries_below l y) l ++ y :: drop (entries_below l y) l.
Proof.
  induction l as [|x l IH]; cbn; [reflexivity|].
  destruct (lno x <? lno y); cbn; [rewrite IH|]; reflexivity.
Qed.

Lemma seg_set_prev (m : gmap nat Linked.cell) (n : nat) (e : blame_entry)
    (l : list (nat * blame_entry)) (pv v lst nx : option nat) :
  Linked.seg m pv (Some n) ((n, e) :: l) lst nx ->
  ~ In n (map fst l) ->
  Linked.seg (alter (Linked.set_prev v) n m) v (Some n) ((n, e) :: l) lst nx.
Proof.
  cbn [Linked.seg]. intros (_ & c & Hc & Hpv & Hf & Hrest) Hnot.
  split; [reflexivity|]. exists (Linked.set_prev v c).
  rewrite lookup_alter_eq, Hc. repeat split; auto.
  cbn [Linked.set_prev Linked.next].
  eapply seg_frame; [|exact Hrest].
  intros x Hx. apply lookup_alter_ne. intros ->. contradiction.
Qed.

Lemma seg_set_next (m : gmap nat Linked.cell) (pp : nat) (e : blame_entry)
    (l : list (nat * blame_entry)) (pv p v lst nx : option nat) :
  Linked.seg m pv p (l ++ [(pp, e)]) lst nx ->
  ~ In pp (map fst l) ->
  Linked.seg (alter (Linked.set_next v) pp m) pv p (l ++ [(pp, e)]) lst v.
Proof.
  intros H Hnot. apply seg_app in H as (a & a' & H1 & H2).
  apply seg_app. exists a, a'. split.
  - eapply seg_frame; [|exact H1].
    intros x Hx. apply lookup_alter_ne. intros ->. contradiction.
  - cbn [Linked.seg] in *. destruct H2 as (Ha & c & Hc & Hpv & Hf & Hn & Hl).
    split; [exact Ha|]. exists (Linked.set_next v c).
    rewrite lookup_alter_eq, Hc. repeat split; auto.
Qed.

Lemma NoDup_app_fst (l1 l2 : list (nat * blame_entry)) :
  NoDup (map fst (l1 ++ l2)) ->
  NoDup (map fst l1) /\ NoDup (map fst l2)
  /\ forall x, In x (map fst l1) -> ~ In x (map fst l2).
Proof.
  rewrite map_app. intros H. apply NoDup_app in H as (H1 & H12 & H2).
  repeat split; auto. intros x Hx Hx'.
  apply (H12 x); apply list_elem_of_In; assumption.
Qed.

Lemma seg_cons (m : gmap nat Linked.cell) (q : nat) (c : Linked.cell)
    (e : blame_entry) (l : list (nat * blame_entry))
    (pv nxt lst nx : option nat) :
  m !! q = Some c -> Linked.prev c = pv -> Linked.fields c = e ->
  Linked.next c = nxt -> Linked.seg m (Some q) nxt l lst nx ->
  Linked.seg m pv (Some q) ((q, e) :: l) lst nx.
Proof.
  intros Hc Hp Hf Hn H. cbn [Linked.seg]. split; [reflexivity|].
  exists c. rewrite Hn. auto.
Qed.

(** [add_blame_entry] on a well-linked list and a cell [q] outside it: the
    cell is linked in behind the entries that start below it. *)
Lemma linked_add_blame_entry (m : gmap nat Linked.cell) (hd lst : option nat)
    (l : list (nat * blame_entry)) (q : nat) (cq : Linked.cell) :
  Linked.seg m None hd l lst None ->
  NoDup (map fst l) -> ~ In q (map fst l) -> m !! q = Some cq ->
  (length l <= size m)%nat ->
  exists st' lst',
    Linked.add_blame_entry {| Linked.head := hd; Linked.cells := m |} q
    = Done st'
    /\ Linked.seg (Linked.cells st') None (Linked.head st')
         (take (entries_below (map snd l) (Linked.fields cq)) l
          ++ (q, Linked.fields cq)
             :: drop (entries_below (map snd l) (Linked.fields cq)) l)
         lst' None
    /\ dom (Linked.cells st') = dom m.
Proof.
  intros Hseg Hnd Hq Hcq Hsize.
  destruct (find_prev_spec m (Linked.fields cq) l None hd lst (size m)
              Hseg Hsize) as (prv & p1 & Hfind & H1 & H2).
  set (k := entries_below (map snd l) (Linked.fields cq)) in *.
  assert (Hl : l = take k l ++ drop k l) by (symmetry; apply take_drop).
  rewrite Hl in Hnd, Hq.
  apply NoDup_app_fst in Hnd as (Hnd1 & Hnd2 & Hdisj).
  rewrite map_app, in_app_iff in Hq.
  assert (Hq1 : ~ In q (map fst (take k l))) by tauto.
  assert (Hq2 : ~ In q (map fst (drop k l))) by tauto.
  clear Hq Hl.
  unfold Linked.add_blame_entry, Linked.read.
  cbn [Linked.cells Linked.head]. rewrite Hcq. cbn [mbind outcome_bind].
  rewrite Hfind. cbn [mbind outcome_bind].
  assert (Hdom : forall x, dom (<[q := x]> m) = dom m).
  { intros x. apply dom_insert_lookup_L. eauto. }
  destruct (take k l) as [|[pp ep] l1 IH] using rev_ind; [|clear IH].
  - (* nothing starts below: the cell becomes the head *)
    cbn [Linked.seg] in H1. destruct H1 as [<- <-].
    cbn [mbind outcome_bind app].
    set (m1 := <[q := {| Linked.prev := None; Linked.next := hd;
                         Linked.fields := Linked.fields cq |}]> m).
    assert (Hm1 : m1 !! q = Some {| Linked.prev := None; Linked.next := hd;
                                    Linked.fields := Linked.fields cq |})
      by apply lookup_insert_eq.
    assert (Hframe : Linked.seg m1 None hd (drop k l) lst None).
    { eapply seg_frame; [|exact H2].
      intros x Hx. apply lookup_insert_ne. intros ->. contradiction. }
    destruct (drop k l) as [|[n en] l2] eqn:Hd.
    + cbn [Linked.seg] in H2. destruct H2 as [-> _].
      eexists _, (Some q). split; [reflexivity|].
      cbn [Linked.cells Linked.head Linked.seg]. split; [|apply Hdom].
      split; [reflexivity|]. eexists. rewrite Hm1. repeat split; reflexivity.
    + pose proof (seg_first _ _ _ _ _ _ _ _ H2) as ->.
      eexists _, lst. split; [reflexivity|].
      cbn [Linked.cells Linked.head]. split.
      * eapply seg_cons;
          [rewrite lookup_alter_ne
             by (intros ->; apply Hq2; left; reflexivity);
           exact Hm1
          |reflexivity|reflexivity|reflexivity|].
        cbn [Linked.next]. eapply seg_set_prev; [exact Hframe|].
        inversion Hnd2; subst. rewrite <- list_elem_of_In. assumption.
      * rewrite dom_alter_L. apply Hdom.
  - (* the cell is linked in behind [pp] *)
    destruct (seg_end _ _ _ _ _ _ _ _ H1) as (-> & cp & Hcp & Hnext & Hfp).
    rewrite Hcp. cbn [mbind outcome_bind].
    set (m1 := <[q := {| Linked.prev := Some pp; Linked.next := Linked.next cp;
                         Linked.fields := Linked.fields cq |}]> m).
    assert (Hpq : pp <> q).
    { intros ->. apply Hq1. rewrite map_app, in_app_iff. right. left.
      reflexivity. }
    assert (Hpp1 : ~ In pp (map fst l1)).
    { rewrite map_app in Hnd1. apply NoDup_app in Hnd1 as (_ & Hd & _).
      intros Hin. apply (Hd pp); [apply list_elem_of_In; exact Hin|].
      cbn. left. }
    assert (Hpp2 : ~ In pp (map fst (drop k l))).
    { apply Hdisj. rewrite map_app, in_app_iff. right. left. reflexivity. }
    set (m2 := alter (Linked.set_next (Some q)) pp m1).
    assert (Hm2q : m2 !! q
                   = Some {| Linked.prev := Some pp;
                             Linked.next := Linked.next cp;
                             Linked.fields := Linked.fields cq |}).
    { unfold m2. rewrite lookup_alter_ne by exact Hpq. apply lookup_insert_eq. }
    assert (Hfront : Linked.seg m2 None hd (l1 ++ [(pp, ep)]) (Some pp)
                                (Some q)).
    { eapply seg_set_next; [|exact Hpp1].
      eapply seg_frame; [|exact H1].
      intros x Hx. apply lookup_insert_ne. intros ->. contradiction. }
    assert (Hback : Linked.seg m2 (Some pp) p1 (drop k l) lst None).
    { eapply seg_frame; [|exact H2].
      intros x Hx. unfold m2, m1.
      rewrite lookup_alter_ne by (intros ->; contradiction).
      apply lookup_insert_ne. intros ->. contradiction. }
    rewrite Hnext in *.
    destruct (drop k l) as [|[n en] l2] eqn:Hd.
    + cbn [Linked.seg] in H2. destruct H2 as [-> _].
      eexists _, (Some q). split; [reflexivity|].
      cbn [Linked.cells Linked.head]. split.
      * apply seg_app. exists (Some pp), (Some q). split; [exact Hfront|].
        cbn [Linked.seg]. split; [reflexivity|]. eexists.
        fold m1. fold m2. rewrite Hm2q. repeat split; reflexivity.
      * subst m2 m1. rewrite dom_alter_L. apply Hdom.
    + pose proof (seg_first _ _ _ _ _ _ _ _ H2) as ->.
      eexists _, lst. split; [reflexivity|].
      cbn [Linked.cells Linked.head]. fold m1. fold m2.
      assert (Hnq : n <> q) by (intros ->; apply Hq2; left; reflexivity).
      assert (Hn1 : ~ In n (map fst (l1 ++ [(pp, ep)]))).
      { intros Hin. apply (Hdisj n Hin). left. reflexivity. }
      split.
      * apply seg_app. exists (Some pp), (Some q). split.
        -- eapply seg_frame; [|exact Hfront].
           intros x Hx. apply lookup_alter_ne. intros ->. contradiction.
        -- eapply seg_cons;
             [rewrite lookup_alter_ne by exact Hnq; exact Hm2q
             |reflexivity|reflexivity|reflexivity|].
           cbn [Linked.next]. eapply seg_set_prev; [exact Hback|].
           inversion Hnd2; subst. rewrite <- list_elem_of_In. assumption.
      * subst m2 m1. rewrite !dom_alter_L. apply Hdom.
Qed.

Lemma well_linked_size (st : Linked.store) (l : list (nat * blame_entry)) :
  Linked.well_linked st l -> size (Linked.cells st) = length l.
Proof.
  intros (_ & Hnd & Hdom).
  rewrite <- size_dom, Hdom, size_list_to_set, length_map; [reflexivity|].
  exact Hnd.
Qed.

Lemma well_linked_fresh (st : Linked.store) (l : list (nat * blame_entry)) :
  Linked.well_linked st l ->
  ~ In (fresh (dom (Linked.cells st))) (map fst l).
Proof.
  intros (_ & _ & Hdom) Hin.
  apply (is_fresh (dom (Linked.cells st))).
  rewrite Hdom at 2. apply elem_of_list_to_set, list_elem_of_In. exact Hin.
Qed.

(** [add_copy] on a well-linked store: a new cell is linked in, and the
    sequence of the fields is what [add_blame_entry] makes of it. *)
Lemma linked_add_copy (st : Linked.store) (l : list (nat * blame_entry))
    (x : blame_entry) :
  Linked.well_linked st l ->
  exists st' l',
    Linked.add_copy st x = Done st'
    /\ Linked.well_linked st' l'
    /\ map snd l' = add_blame_entry (map snd l) x.
Proof.
  intros Hwl. pose proof (well_linked_fresh _ _ Hwl) as Hfresh.
  pose proof (well_linked_size _ _ Hwl) as Hsize.
  destruct Hwl as ((lst & Hseg) & Hnd & Hdom).
  set (p := fresh (dom (Linked.cells st))) in *.
  set (c := {| Linked.prev := None; Linked.next := None;
               Linked.fields := x |}).
  set (m := <[p := c]> (Linked.cells st)).
  assert (Hseg' : Linked.seg m None (Linked.head st) l lst None).
  { eapply seg_frame; [|exact Hseg].
    intros q Hq. apply lookup_insert_ne. intros ->. contradiction. }
  assert (Hc : m !! p = Some c) by apply lookup_insert_eq.
  assert (Hnone : Linked.cells st !! p = None).
  { apply not_elem_of_dom. apply is_fresh. }
  assert (Hlen : (length l <= size m)%nat).
  { unfold m. rewrite map_size_insert_None by exact Hnone. lia. }
  destruct (linked_add_blame_entry m (Linked.head st) lst l p c
              Hseg' Hnd Hfresh Hc Hlen) as (st' & lst' & Hadd & Hres & Hd).
  cbn [Linked.fields c] in Hres.
  set (k := entries_below (map snd l) x) in *.
  assert (Hperm : Permutation (take k l ++ (p, x) :: drop k l) ((p, x) :: l)).
  { rewrite <- Permutation_middle, take_drop. reflexivity. }
  exists st', (take k l ++ (p, x) :: drop k l).
  split; [exact Hadd|]. split; [split; [|split]|].
  - exists lst'. exact Hres.
  - rewrite Hperm. cbn [map fst].
    apply NoDup_cons. split; [rewrite list_elem_of_In; exact Hfresh|].
    exact Hnd.
  - rewrite Hd. unfold m. rewrite dom_insert_L, Hdom.
    rewrite (list_to_set_perm_L _ _ (Permutation_map fst Hperm)).
    reflexivity.
  - rewrite add_blame_entry_take_drop, map_app. cbn [map snd].
    fold k. rewrite <- !fmap_take, <- !fmap_drop. reflexivity.
Qed.

(** A write to the fields of one cell of a segment. *)
Lemma seg_alter_fields (m : gmap nat Linked.cell)
    (g : blame_entry -> blame_entry) (e : nat) :
  forall (l : list (nat * blame_entry)) (i : nat) (x : blame_entry)
         (pv p lst nx : option nat),
    Linked.seg m pv p l lst nx -> NoDup (map fst l) ->
    l !! i = Some (e, x) ->
    Linked.seg
      (alter (fun c => Linked.set_fields (g (Linked.fields c)) c) e m)
      pv p (<[i := (e, g x)]> l) lst nx.
Proof.
  induction l as [|[q y] l IH]; intros i x pv p lst nx Hseg Hnd Hi;
    [discriminate|].
  cbn [Linked.seg] in Hseg. destruct Hseg as (-> & c & Hc & Hpv & Hf & Hrest).
  cbn [map fst] in Hnd. apply NoDup_cons in Hnd as [Hq Hnd].
  destruct i as [|i]; cbn in Hi.
  - injection Hi as -> ->. cbn [insert list_insert].
    eapply seg_cons; [rewrite lookup_alter_eq, Hc; reflexivity| | | |].
    + exact Hpv.
    + cbn. rewrite Hf. reflexivity.
    + reflexivity.
    + eapply seg_frame; [|exact Hrest].
      intros q Hin. apply lookup_alter_ne. intros ->.
      apply Hq, list_elem_of_In. exact Hin.
  - assert (Hne : e <> q).
    { intros ->. apply Hq. apply list_elem_of_In.
      apply (in_map fst l (q, x)). apply list_elem_of_In.
      eapply list_elem_of_lookup_2. exact Hi. }
    change (<[S i := (e, g x)]> ((q, y) :: l))
      with ((q, y) :: <[i := (e, g x)]> l).
    eapply seg_cons; [rewrite lookup_alter_ne by exact Hne; exact Hc| | | |];
      try eassumption; [reflexivity|].
    apply IH with (x := x); assumption.
Qed.

Lemma insert_keeps_addresses (l : list (nat * blame_entry)) (i e : nat)
    (x y : blame_entry) :
  l !! i = Some (e, x) -> map fst (<[i := (e, y)]> l) = map fst l.
Proof.
  intros Hi. change (map fst) with (fmap (M := list) (@fst nat blame_entry)).
  rewrite list_fmap_insert. apply list_insert_id.
  rewrite list_lookup_fmap, Hi. reflexivity.
Qed.

Lemma linked_alter_fields (st : Linked.store) (l : list (nat * blame_entry))
    (g : blame_entry -> blame_entry) (i e : nat) (x : blame_entry) :
  Linked.well_linked st l -> l !! i = Some (e, x) ->
  Linked.well_linked
    {| Linked.head := Linked.head st;
       Linked.cells :=
         alter (fun c => Linked.set_fields (g (Linked.fields c)) c) e
               (Linked.cells st) |}
    (<[i := (e, g x)]> l).
Proof.
  intros ((lst & Hseg) & Hnd & Hdom) Hi. split; [|split].
  - exists lst. cbn [Linked.cells Linked.head].
    apply seg_alter_fields with (x := x); assumption.
  - rewrite (insert_keeps_addresses l i e x) by exact Hi. exact Hnd.
  - cbn [Linked.cells]. rewrite dom_alter_L.
    rewrite (insert_keeps_addresses l i e x) by exact Hi. exact Hdom.
Qed.

(** The sanity loop reads what [fold_left sanity_step] reads. *)
Lemma linked_sanity (m : gmap nat Linked.cell) :
  forall (l : list (nat * blame_entry)) (fuel : nat) (pv p lst : option nat)
         (acc : Z * bool),
    Linked.seg m pv p l lst None -> (length l <= fuel)%nat ->
    Linked.sanity fuel m p acc
    = Done (snd (fold_left sanity_step (map snd l) acc)).
Proof.
  induction l as [|[q y] l IH]; intros fuel pv p lst acc Hseg Hfuel;
    cbn [Linked.seg] in Hseg.
  - destruct Hseg as [-> _]. destruct fuel; reflexivity.
  - destruct Hseg as (-> & c & Hc & Hpv & Hf & Hrest).
    destruct fuel as [|fuel]; [cbn in Hfuel; lia|].
    cbn [Linked.sanity]. unfold Linked.read. rewrite Hc.
    cbn [mbind outcome_bind map snd fold_left]. rewrite Hf.
    apply IH with (pv := Some q) (lst := lst); [exact Hrest|].
    cbn in Hfuel. lia.
Qed.

Lemma linked_dup_entry (st : Linked.store) (l : list (nat * blame_entry))
    (i e : nat) (x src : blame_entry) :
  Linked.well_linked st l -> l !! i = Some (e, x) ->
  Linked.well_linked (Linked.dup_entry st e src)
                     (<[i := (e, dup_entry src)]> l).
Proof.
  intros Hwl Hi.
  exact (linked_alter_fields st l (fun _ => dup_entry src) i e x Hwl Hi).
Qed.

Lemma snd_insert (l : list (nat * blame_entry)) (i e : nat)
    (y : blame_entry) :
  map snd (<[i := (e, y)]> l) = <[i := y]> (map snd l).
Proof.
  change (map snd) with (fmap (M := list) (@snd nat blame_entry)).
  rewrite list_fmap_insert. reflexivity.
Qed.

(** The first half of [split_blame]: the writes to [e] and the insertions. *)
Lemma linked_split_stage (st : Linked.store) (l : list (nat * blame_entry))
    (i e : nat) (x : blame_entry) (pre post : option blame_entry)
    (mid : blame_entry) :
  Linked.well_linked st l -> l !! i = Some (e, x) ->
  exists st1 l1,
    match pre, post with
    | Some s0, Some s2 =>
        st1 ← Linked.add_copy (Linked.dup_entry st e s0) s2;
        Linked.add_copy st1 mid
    | None, None => Done (Linked.dup_entry st e mid)
    | Some s0, None => Linked.add_copy (Linked.dup_entry st e s0) mid
    | None, Some s2 => Linked.add_copy (Linked.dup_entry st e mid) s2
    end = Done st1
    /\ Linked.well_linked st1 l1
    /\ map snd l1
       = fst match pre, post with
             | Some s0, Some s2 =>
                 add_tracking
                   (add_tracking (<[i := dup_entry s0]> (map snd l), i) s2) mid
             | None, None => (<[i := dup_entry mid]> (map snd l), i)
             | Some s0, None =>
                 add_tracking (<[i := dup_entry s0]> (map snd l), i) mid
             | None, Some s2 =>
                 add_tracking (<[i := dup_entry mid]> (map snd l), i) s2
             end.
Proof.
  intros Hwl Hi.
  destruct pre as [s0|], post as [s2|].
  - pose proof (linked_dup_entry st l i e x s0 Hwl Hi) as H0.
    destruct (linked_add_copy _ _ s2 H0) as (st1 & l1 & E1 & H1 & M1).
    destruct (linked_add_copy _ _ mid H1) as (st2 & l2 & E2 & H2 & M2).
    exists st2, l2. rewrite E1. cbn [mbind outcome_bind].
    split; [exact E2|]. split; [exact H2|].
    rewrite M2, M1, snd_insert. reflexivity.
  - pose proof (linked_dup_entry st l i e x s0 Hwl Hi) as H0.
    destruct (linked_add_copy _ _ mid H0) as (st1 & l1 & E1 & H1 & M1).
    exists st1, l1. split; [exact E1|]. split; [exact H1|].
    rewrite M1, snd_insert. reflexivity.
  - pose proof (linked_dup_entry st l i e x mid Hwl Hi) as H0.
    destruct (linked_add_copy _ _ s2 H0) as (st1 & l1 & E1 & H1 & M1).
    exists st1, l1. split; [exact E1|]. split; [exact H1|].
    rewrite M1, snd_insert. reflexivity.
  - exists (Linked.dup_entry st e mid), (<[i := (e, dup_entry mid)]> l).
    split; [reflexivity|]. split; [apply linked_dup_entry with x; assumption|].
    apply snd_insert.
Qed.

(** [split_blame] on the linked store does what the sequence model does: when
    it returns, the new store is well linked and lists the entries the model
    computes. *)
Lemma linked_split_blame (st st' : Linked.store)
    (l : list (nat * blame_entry)) (i e : nat) (x : blame_entry)
    (pre post : option blame_entry) (mid : blame_entry) (sb : scoreboard) :
  Linked.well_linked st l -> l !! i = Some (e, x) -> ent sb = map snd l ->
  Linked.split_blame st pre mid post e = Done st' ->
  exists l' j,
    Linked.well_linked st' l'
    /\ split_blame sb pre mid post i = Done (with_ent sb (map snd l'), j).
Proof.
  intros Hwl Hi Hent Hrun.
  destruct (linked_split_stage st l i e x pre post mid Hwl Hi)
    as (st1 & l1 & E1 & H1 & M1).
  unfold Linked.split_blame in Hrun. rewrite E1 in Hrun.
  cbn [mbind outcome_bind] in Hrun.
  pose proof (well_linked_size _ _ H1) as Hsize.
  pose proof H1 as ((lst & Hseg) & _ & _).
  destruct l1 as [|[h y] l1].
  { cbn [Linked.seg] in Hseg. destruct Hseg as [Hh _]. rewrite Hh in Hrun.
    discriminate. }
  pose proof (seg_first _ _ _ _ _ _ _ _ Hseg) as Hh. rewrite Hh in Hrun.
  destruct (seg_allocated _ _ _ _ _ _ h y Hseg) as (c & Hc & Hf);
    [left; reflexivity|].
  unfold Linked.read in Hrun. rewrite Hc in Hrun.
  cbn [mbind outcome_bind] in Hrun.
  rewrite <- Hh in Hrun.
  rewrite (linked_sanity _ _ _ _ _ _ _ Hseg) in Hrun by lia.
  cbn [mbind outcome_bind] in Hrun. rewrite Hf in Hrun.
  exists ((h, y) :: l1). unfold split_blame. cbn zeta. rewrite Hent, <- M1.
  unfold corrupt. cbn [map snd] in *.
  destruct (snd (fold_left sanity_step (y :: map snd l1) (lno y, false)));
    [discriminate|].
  injection Hrun as <-. eexists. split; [exact H1|reflexivity].
Qed.

(** The loop of [coalesce] from the cell [p] on: it ends within as many
    rounds as cells follow [p], the cells it keeps are linked as before, the
    cells it frees are gone, and no other cell is touched. *)
Lemma linked_coalesce_loop :
  forall (rest : list (nat * blame_entry)) (fuel : nat)
         (m : gmap nat Linked.cell) (pv : option nat) (p : nat)
         (e : blame_entry) (lst : option nat),
    Linked.seg m pv (Some p) ((p, e) :: rest) lst None ->
    NoDup (p :: map fst rest) -> (length rest <= fuel)%nat ->
    exists m' l' lst',
      Linked.coalesce_loop fuel m (Some p) = Done m'
      /\ Linked.seg m' pv (Some p) l' lst' None
      /\ map snd l' = coalesce_from e (map snd rest)
      /\ NoDup (map fst l')
      /\ (forall x, In x (map fst l') -> In x (p :: map fst rest))
      /\ (forall x, ~ In x (p :: map fst rest) -> m' !! x = m !! x)
      /\ (forall x, In x (p :: map fst rest) -> ~ In x (map fst l') ->
                    m' !! x = None).
Proof.
  induction rest as [|[n en] rest IH]; intros fuel m pv p e lst Hseg Hnd Hfuel.
  - cbn [Linked.seg] in Hseg.
    destruct Hseg as (_ & c & Hc & Hpv & Hf & Hn & Hl).
    exists m, [(p, e)], lst. split.
    { destruct fuel; cbn [Linked.coalesce_loop]; unfold Linked.read;
        rewrite Hc; cbn [mbind outcome_bind]; rewrite Hn; reflexivity. }
    split; [eapply seg_cons; eauto; cbn; auto|].
    split; [reflexivity|]. split; [exact Hnd|].
    split; [auto|]. split; [auto|]. intros x Hx Hx'. contradiction.
  - pose proof Hseg as Hseg0. cbn [Linked.seg] in Hseg.
    destruct Hseg as (_ & c & Hc & Hpv & Hf & Hcn & cn & Hn & Hpn & Hfn & Hrest).
    destruct fuel as [|fuel]; [cbn in Hfuel; lia|].
    cbn [length] in Hfuel.
    cbn [map fst] in Hnd. apply NoDup_cons in Hnd as [Hp Hnd].
    pose proof Hnd as Hnd'. apply NoDup_cons in Hnd' as [Hnr Hndr].
    rewrite list_elem_of_In in Hp, Hnr.
    assert (Hpn' : p <> n) by (intros ->; apply Hp; left; reflexivity).
    assert (Hpr : ~ In p (map fst rest)) by (intros H; apply Hp; right; exact H).
    cbn [Linked.coalesce_loop]. unfold Linked.read. rewrite Hc.
    cbn [mbind outcome_bind]. rewrite Hcn, Hn. cbn [mbind outcome_bind].
    rewrite Hf, Hfn. cbn [map snd coalesce_from].
    destruct (coalescible e en).
    + set (m1 := <[p := {| Linked.prev := Linked.prev c;
                           Linked.next := Linked.next cn;
                           Linked.fields := absorb e en |}]> m).
      set (m2 := match Linked.next cn with
                 | Some nn => alter (Linked.set_prev (Some p)) nn m1
                 | None => m1
                 end).
      assert (Hm2 : forall x, ~ In x (map fst rest) -> m2 !! x = m1 !! x).
      { intros x Hx. unfold m2. destruct (Linked.next cn) as [nn|] eqn:Hnn;
          [|reflexivity].
        apply lookup_alter_ne. intros ->. apply Hx.
        destruct rest as [|[n' en'] rest'];
          [cbn in Hrest; destruct Hrest; discriminate|].
        pose proof (seg_first _ _ _ _ _ _ _ _ Hrest) as Hq.
        injection Hq as ->. left. reflexivity. }
      assert (H3 : exists lst3,
                 Linked.seg (delete n m2) pv (Some p)
                            ((p, absorb e en) :: rest) lst3 None).
      { assert (Hp3 : delete n m2 !! p
                      = Some {| Linked.prev := Linked.prev c;
                                Linked.next := Linked.next cn;
                                Linked.fields := absorb e en |}).
        { rewrite lookup_delete_ne by congruence.
          rewrite Hm2 by exact Hpr. apply lookup_insert_eq. }
        destruct rest as [|[nn enn] rest'].
        - cbn [Linked.seg] in Hrest. destruct Hrest as [Hnone _].
          exists (Some p). eapply seg_cons; [exact Hp3| | | |]; eauto.
          cbn. auto.
        - pose proof (seg_first _ _ _ _ _ _ _ _ Hrest) as Hnn.
          exists lst. eapply seg_cons; [exact Hp3| | | |]; eauto.
          cbn [Linked.next].
          apply seg_frame with (m := m2).
          { intros x Hx. apply lookup_delete_ne. intros ->. contradiction. }
          unfold m2. rewrite Hnn. rewrite Hnn in Hrest.
          eapply seg_set_prev.
          + eapply seg_frame; [|exact Hrest].
            intros x Hx. apply lookup_insert_ne. intros ->. contradiction.
          + cbn [map fst] in Hndr. apply NoDup_cons in Hndr as [Hd _].
            rewrite <- list_elem_of_In. exact Hd. }
      destruct H3 as [lst3 H3].
      destruct (IH fuel (delete n m2) pv p (absorb e en) lst3 H3)
        as (m' & l' & lst' & Hrun & Hs & Hmap & Hnd3 & Hsub & Hfr & Hgone).
      { apply NoDup_cons. rewrite list_elem_of_In. auto. }
      { lia. }
      exists m', l', lst'. split; [exact Hrun|]. split; [exact Hs|].
      split; [exact Hmap|]. split; [exact Hnd3|].
      assert (Hn3 : ~ In n (p :: map fst rest)).
      { intros [H|H]; [congruence|contradiction]. }
      split; [|split].
      * intros x Hx. destruct (Hsub x Hx) as [H|H]; [left; exact H|].
        right. right. exact H.
      * intros x Hx. rewrite Hfr by (intros [H|H]; apply Hx; cbn; auto).
        rewrite lookup_delete_ne by (intros ->; apply Hx; cbn; auto).
        rewrite Hm2 by (intros H; apply Hx; cbn; auto).
        apply lookup_insert_ne. intros ->. apply Hx. left. reflexivity.
      * intros x Hx Hx'. destruct (Nat.eq_dec x n) as [->|Hne].
        -- rewrite Hfr by exact Hn3. apply lookup_delete_eq.
        -- apply Hgone; [|exact Hx'].
           destruct Hx as [H|[H|H]]; [left; exact H|symmetry in H; contradiction|right; exact H].
    + destruct (IH fuel m (Some p) n en lst) as
        (m' & l' & lst' & Hrun & Hs & Hmap & Hnd3 & Hsub & Hfr & Hgone).
      { eapply seg_cons; eauto. }
      { exact Hnd. }
      { lia. }
      assert (Hp' : ~ In p (map fst l')).
      { intros H. destruct (Hsub p H) as [H'|H']; [congruence|contradiction]. }
      exists m', ((p, e) :: l'), lst'. split; [exact Hrun|].
      split.
      { assert (Hcp : m' !! p = Some c).
        { rewrite Hfr; [exact Hc|].
          intros [H|H]; [symmetry in H|]; contradiction. }
        eapply seg_cons; [exact Hcp|exact Hpv|exact Hf|exact Hcn|exact Hs]. }
      split; [cbn [map snd]; rewrite Hmap; reflexivity|].
      split; [cbn [map fst]; apply NoDup_cons; rewrite list_elem_of_In; auto|].
      split; [|split].
      * intros x [H|H]; [left; exact H|right; apply Hsub; exact H].
      * intros x Hx. apply Hfr. intros H. apply Hx. right. exact H.
      * intros x Hx Hx'. apply Hgone.
        -- destruct Hx as [H|H]; [|exact H].
           exfalso. apply Hx'. left. exact H.
        -- intros H. apply Hx'. right. exact H.
Qed.

(** [coalesce] on a well-linked store. *)
Lemma linked_coalesce (st : Linked.store) (l : list (nat * blame_entry)) :
  Linked.well_linked st l ->
  exists st' l',
    Linked.coalesce st = Done st'
    /\ Linked.well_linked st' l'
    /\ forall sb, ent sb = map snd l -> ent (coalesce sb) = map snd l'.
Proof.
  intros Hwl. pose proof (well_linked_size _ _ Hwl) as Hsize.
  destruct Hwl as ((lst & Hseg) & Hnd & Hdom).
  unfold Linked.coalesce.
  destruct l as [|[p e] rest].
  - cbn [Linked.seg] in Hseg. destruct Hseg as [Hh _]. rewrite Hh.
    exists {| Linked.head := None; Linked.cells := Linked.cells st |}, [].
    split; [destruct (size (Linked.cells st)); reflexivity|].
    split.
    + split; [exists None; cbn; auto|]. split; [exact Hnd|exact Hdom].
    + intros sb Hsb. unfold coalesce. rewrite Hsb. exact Hsb.
  - pose proof (seg_first _ _ _ _ _ _ _ _ Hseg) as Hh. rewrite Hh in *.
    destruct (linked_coalesce_loop rest (size (Linked.cells st))
                (Linked.cells st) None p e lst Hseg Hnd)
      as (m' & l' & lst' & Hrun & Hs & Hmap & Hnd' & Hsub & Hfr & Hgone).
    { cbn [length] in Hsize. lia. }
    rewrite Hrun. cbn [mbind outcome_bind].
    exists {| Linked.head := Some p; Linked.cells := m' |}, l'.
    split; [reflexivity|]. split.
    + split; [exists lst'; exact Hs|]. split; [exact Hnd'|].
      cbn [Linked.cells]. apply set_eq. intros x.
      rewrite elem_of_dom, elem_of_list_to_set, list_elem_of_In. split.
      * intros Hx. destruct (in_dec Nat.eq_dec x (map fst l')) as [|Hno];
          [assumption|exfalso].
        destruct (in_dec Nat.eq_dec x (p :: map fst rest)) as [Hin|Hout].
        -- rewrite (Hgone x Hin Hno) in Hx. destruct Hx. discriminate.
        -- rewrite (Hfr x Hout) in Hx. apply Hout.
           apply elem_of_dom in Hx. rewrite Hdom in Hx.
           apply elem_of_list_to_set, list_elem_of_In in Hx. exact Hx.
      * intros Hx. apply in_map_iff in Hx as ([x' y] & <- & Hin).
        destruct (seg_allocated _ _ _ _ _ _ x' y Hs Hin) as (c & Hc & _).
        cbn [fst]. eauto.
    + intros sb Hsb. unfold coalesce. rewrite Hsb. cbn [map snd ent with_ent].
      symmetry. exact Hmap.
Qed.

Lemma well_linked_lookup (st : Linked.store) (l : list (nat * blame_entry))
    (e : nat) (c : Linked.cell) :
  Linked.well_linked st l -> Linked.cells st !! e = Some c ->
  exists i, l !! i = Some (e, Linked.fields c).
Proof.
  intros ((lst & Hseg) & _ & Hdom) Hc.
  assert (He : In e (map fst l)).
  { assert (Hd : e ∈ dom (Linked.cells st)) by (apply elem_of_dom; eauto).
    rewrite Hdom in Hd.
    apply elem_of_list_to_set, list_elem_of_In in Hd. exact Hd. }
  apply in_map_iff in He as ([e' x] & He & Hin). cbn [fst] in He. subst e'.
  destruct (seg_allocated _ _ _ _ _ _ e x Hseg Hin) as (c' & Hc' & Hf).
  rewrite Hc in Hc'. injection Hc' as <-. subst x.
  apply list_elem_of_In, list_elem_of_lookup_1 in Hin. exact Hin.
Qed.

(** [relabel] on a well-linked store: the links stay, and so do the line
    numbers of every entry. *)
Lemma linked_relabel (st : Linked.store) (l : list (nat * blame_entry))
    (p : nat) (who : origin) (g : bool) (sc : Z) :
  Linked.well_linked st l ->
  exists l',
    Linked.well_linked (Linked.relabel st p who g sc) l'
    /\ Forall2 (fun x y => lno y = lno x /\ num_lines y = num_lines x
                           /\ s_lno y = s_lno x)
               (map snd l) (map snd l').
Proof.
  intros Hwl.
  assert (Hsame : forall l0 : list blame_entry,
             Forall2 (fun x y => lno y = lno x /\ num_lines y = num_lines x
                                 /\ s_lno y = s_lno x) l0 l0).
  { induction l0; constructor; auto. }
  destruct (Linked.cells st !! p) as [c|] eqn:Hc.
  - destruct (well_linked_lookup _ _ _ _ Hwl Hc) as [i Hi].
    exists (<[i := (p, {| lno := lno (Linked.fields c);
                          num_lines := num_lines (Linked.fields c);
                          suspect := who; guilty := g;
                          s_lno := s_lno (Linked.fields c);
                          score := sc |})]> l).
    split.
    + exact (linked_alter_fields st l
               (fun f => {| lno := lno f; num_lines := num_lines f;
                            suspect := who; guilty := g; s_lno := s_lno f;
                            score := sc |}) i p _ Hwl Hi).
    + rewrite snd_insert.
      assert (Hi' : map snd l !! i = Some (Linked.fields c)).
      { change (map snd) with (fmap (M := list) (@snd nat blame_entry)).
        rewrite list_lookup_fmap, Hi. reflexivity. }
      clear Hi. revert Hi'. generalize (map snd l). intros l0. revert i.
      induction l0 as [|x0 l0 IH]; intros [|i] H0; try discriminate.
      * cbn in H0. injection H0 as ->. cbn. constructor; [cbn; auto|apply Hsame].
      * cbn. constructor; [auto|apply IH; exact H0].
  - exists l. split; [|apply Hsame].
    destruct Hwl as ((lst & Hseg) & Hnd & Hdom).
    unfold Linked.relabel. split; [|split].
    + exists lst. cbn [Linked.cells Linked.head].
      eapply seg_frame; [|exact Hseg].
      intros q Hq. apply lookup_alter_ne. intros ->.
      apply in_map_iff in Hq as ([q' y] & <- & Hin).
      destruct (seg_allocated _ _ _ _ _ _ q' y Hseg Hin) as (c & Hc' & _).
      cbn [fst] in Hc. congruence.
    + exact Hnd.
    + cbn [Linked.cells]. rewrite dom_alter_L. exact Hdom.
Qed.

Lemma linked_up_same_lines (l l' : list blame_entry) :
  Forall2 (fun x y => lno y = lno x /\ num_lines y = num_lines x
                      /\ s_lno y = s_lno x) l l' ->
  forall a c, linked_up a l c -> linked_up a l' c.
Proof.
  induction 1 as [|x y l l' (Hl & Hn & _) _ IH]; intros a c; cbn [linked_up];
    [auto|].
  rewrite Hl, Hn. intros [-> H]. split; [reflexivity|]. apply IH. exact H.
Qed.

Lemma partition_same_lines (b t : Z) (l l' : list blame_entry) :
  Forall2 (fun x y => lno y = lno x /\ num_lines y = num_lines x
                      /\ s_lno y = s_lno x) l l' ->
  partition b t l -> partition b t l'.
Proof.
  intros H (Hne & Hlink & Hsound). split; [|split].
  - destruct H; [congruence|discriminate].
  - eapply linked_up_same_lines; eassumption.
  - clear Hne Hlink. induction H as [|x y l l' (Hl & Hn & Hs) _ IH];
      [constructor|].
    inversion Hsound as [|? ? [H1 H2] Hrest]; subst.
    constructor; [unfold sound_entry; rewrite Hn, Hs; auto|apply IH; exact Hrest].
Qed.

Lemma pieces_nonempty (pre post : option blame_entry) (mid : blame_entry) :
  pieces pre mid post <> [].
Proof. destruct pre, post; discriminate. Qed.

(** A split that [split_blame] has applied keeps the partition. *)
Lemma split_blame_partition (b t : Z) (sb sb' : scoreboard) (i j : nat)
    (x mid mid' : blame_entry) (tlno plno same : Z) (parent : origin) :
  partition b t (ent sb) -> ent sb !! i = Some x ->
  split1 (split_overlap x tlno plno same parent) = Some mid ->
  same_but_score mid' mid ->
  split_blame sb (split0 (split_overlap x tlno plno same parent)) mid'
              (split2 (split_overlap x tlno plno same parent)) i
  = Done (sb', j) ->
  partition b t (ent sb').
Proof.
  intros Hpart Hi Hmid Hsame Hrun.
  destruct (split_at _ _ _ Hi) as [Hl Hlen].
  destruct (split_overlap_linked _ _ _ _ _ _ Hmid) as [Hlink Hnum].
  cbn zeta in Hlink, Hnum.
  destruct (pieces_respan (split0 (split_overlap x tlno plno same parent))
              (split2 (split_overlap x tlno plno same parent)) mid mid'
              (lno x) (lno x + num_lines x) Hsame) as (Hl' & Hn' & _).
  rewrite <- Hlen in Hrun at 1.
  rewrite (split_blame_spec sb _ _ mid' x _ _ b t Hl Hpart (Hl' Hlink)
             (Hn' Hnum)) in Hrun.
  destruct (forallb _ _) eqn:Hsigns in Hrun; [|discriminate].
  injection Hrun as <- _. cbn [ent with_ent].
  rewrite Hl in Hpart. eapply partition_replace; [exact Hpart|auto| |].
  - rewrite forallb_forall in Hsigns. pose proof (Hn' Hnum) as Hn2.
    rewrite Forall_forall in Hn2. apply Forall_forall. intros y Hy.
    split.
    + apply Hn2, Hy.
    + apply Z.leb_le, Hsigns, list_elem_of_In, Hy.
  - apply pieces_nonempty.
Qed.

(** ** The invariants in every state of the store *)

Lemma first_store_linked (o : origin) (b t : Z) :
  Linked.well_linked (Linked.first_store o b t) [(O, first_entry o b t)].
Proof.
  split; [|split].
  - exists (Some O). cbn [Linked.seg Linked.first_store Linked.head Linked.cells].
    split; [reflexivity|]. eexists. rewrite lookup_singleton_eq.
    repeat split; reflexivity.
  - cbn. apply NoDup_singleton.
  - cbn [Linked.first_store Linked.cells map fst list_to_set].
    rewrite dom_singleton_L. set_solver.
Qed.

Lemma first_entry_partition (o : origin) (b t : Z) :
  0 <= b -> b < t -> partition b t [first_entry o b t].
Proof.
  intros Hb Ht. split; [discriminate|]. split.
  - cbn. split; [reflexivity|lia].
  - repeat constructor; cbn; lia.
Qed.

Lemma reachable_linked_partition (o : origin) (b t : Z) (st : Linked.store) :
  0 <= b -> b < t -> Linked.reachable o b t st ->
  exists l, Linked.well_linked st l /\ partition b t (map snd l).
Proof.
  intros Hb Ht Hreach.
  induction Hreach as
    [|st st' e c tlno plno same parent mid mid' _ IH Hc Hmid Hsame Hrun
     |st st' _ IH Hrun
     |st p who g sc _ IH].
  - exists [(O, first_entry o b t)].
    split; [apply first_store_linked|apply first_entry_partition; assumption].
  - destruct IH as (l & Hwl & Hpart).
    destruct (well_linked_lookup _ _ _ _ Hwl Hc) as [i Hi].
    set (sb := {| final := 0%N; sb_path := EmptyString; final_buf := [];
                  ent := map snd l; sb_num_lines := 0; lineno := [];
                  origins_made := 0 |}).
    destruct (linked_split_blame st st' l i e (Linked.fields c) _ _ mid' sb
                Hwl Hi eq_refl Hrun) as (l' & j & Hwl' & Hseq).
    exists l'. split; [exact Hwl'|].
    assert (Hi' : ent sb !! i = Some (Linked.fields c)).
    { cbn [ent sb].
      change (map snd) with (fmap (M := list) (@snd nat blame_entry)).
      rewrite list_lookup_fmap, Hi. reflexivity. }
    exact (split_blame_partition b t sb _ i j _ mid mid' tlno plno same parent
             Hpart Hi' Hmid Hsame Hseq).
  - destruct IH as (l & Hwl & Hpart).
    destruct (linked_coalesce st l Hwl) as (st1 & l' & Hrun' & Hwl' & Hseq).
    rewrite Hrun in Hrun'. injection Hrun' as <-.
    exists l'. split; [exact Hwl'|].
    set (sb := {| final := 0%N; sb_path := EmptyString; final_buf := [];
                  ent := map snd l; sb_num_lines := 0; lineno := [];
                  origins_made := 0 |}).
    rewrite <- (Hseq sb eq_refl). apply coalesce_partition. exact Hpart.
  - destruct IH as (l & Hwl & Hpart).
    destruct (linked_relabel st l p who g sc Hwl) as (l' & Hwl' & Hsame).
    exists l'. split; [exact Hwl'|].
    eapply partition_same_lines; eassumption.
Qed.

(** C1.  For a range [0 <= b < t]: in every state the store reaches from the
    one entry of the setup by calls of [split_blame] that return (on the split
    [split_overlap] computes for an entry of the list, when it has a middle),
    by [coalesce] and by writes of a suspect, the guilty flag or a score, the
    cells are consistently linked both ways and listed once each, and the
    entries they list are ordered by [lno], meet without gap or overlap,
    cover [b, t), and have [s_lno >= 0] and [num_lines >= 1]. *)
Theorem reachable_stores_keep_the_invariants
    (o : origin) (b t : Z) (st : Linked.store) :
  0 <= b -> b < t -> Linked.reachable o b t st ->
  exists l, Linked.well_linked st l /\ spec_invariants b t (map snd l).
Proof.
  intros Hb Ht Hreach.
  destruct (reachable_linked_partition o b t st Hb Ht Hreach)
    as (l & Hwl & Hpart).
  exists l. split; [exact Hwl|apply partition_spec_invariants; exact Hpart].
Qed.

Lemma reachable_stores_keep_the_invariants_witness :
  0 <= 0 /\ 0 < 3
  /\ Linked.reachable sample_target 0 3 middle_line_store
  /\ exists l, Linked.well_linked middle_line_store l
               /\ spec_invariants 0 3 (map snd l).
Proof.
  assert (Hreach : Linked.reachable sample_target 0 3 middle_line_store).
  { apply (Linked.reach_split sample_target 0 3
             (Linked.first_store sample_target 0 3) middle_line_store O
             {| Linked.prev := None; Linked.next := None;
                Linked.fields := first_entry sample_target 0 3 |}
             1 1 2 sample_parent middle_line middle_line).
    - apply Linked.reach_first.
    - reflexivity.
    - reflexivity.
    - repeat split; reflexivity.
    - vm_compute. reflexivity. }
  split; [lia|]. split; [lia|]. split; [exact Hreach|].
  apply (reachable_stores_keep_the_invariants sample_target 0 3
           middle_line_store); [lia|lia|exact Hreach].
Defined.

(** The claim as it was written counts the state after every insert.
    [split_blame] splits the entry of lines 0 to 3 around line 1 by shrinking
    it to line 0 and inserting the part after line 1 and then line 1 itself:
    after the first of the two insertions the store is well linked and
    ordered, and nothing in it covers line 1. *)
Lemma first_insert_leaves_a_gap :
  exists st l,
    Linked.add_copy
      (Linked.dup_entry (Linked.first_store sample_target 0 3) O
         {| lno := 0; num_lines := 1; suspect := sample_target;
            guilty := false; s_lno := 0; score := 0 |})
      {| lno := 2; num_lines := 1; suspect := sample_target;
         guilty := false; s_lno := 2; score := 0 |}
    = Done st
    /\ Linked.well_linked st l
    /\ map snd l
       = [ {| lno := 0; num_lines := 1; suspect := sample_target;
              guilty := false; s_lno := 0; score := 0 |};
           {| lno := 2; num_lines := 1; suspect := sample_target;
              guilty := false; s_lno := 2; score := 0 |} ]
    /\ ~ spec_invariants 0 3 (map snd l).
Proof.
  pose proof (linked_dup_entry _ _ O O _
                {| lno := 0; num_lines := 1; suspect := sample_target;
                   guilty := false; s_lno := 0; score := 0 |}
                (first_store_linked sample_target 0 3) eq_refl) as H0.
  destruct (linked_add_copy _ _
              {| lno := 2; num_lines := 1; suspect := sample_target;
                 guilty := false; s_lno := 2; score := 0 |} H0)
    as (st & l & Hrun & Hwl & Hmap).
  exists st, l. split; [exact Hrun|]. split; [exact Hwl|].
  cbn in Hmap. split; [exact Hmap|].
  rewrite Hmap. intros (_ & Hadj & _).
  specialize (Hadj O _ _ eq_refl eq_refl). cbn in Hadj. lia.
Qed.

(** X1.  The setup itself starts from an entry without lines when the file
    is empty and no range is given: [bottom] and [top] are both 0 then, the
    range check does not fire, and the one entry has [num_lines = 0]. *)
Lemma empty_file_entry_has_no_lines (c : sha1) (p : string) (o : origin) :
  exists sb,
    start_blame no_options c p o [] = Done sb
    /\ ent sb = [first_entry o 0 0]
    /\ ~ spec_invariants 0 0 (ent sb).
Proof.
  eexists. split; [reflexivity|]. split; [reflexivity|].
  cbn [ent]. intros (_ & _ & _ & _ & Hn).
  inversion Hn as [|? ? H1 _]; subst. cbn in H1. lia.
Qed.

(** ** The theorems on the sample history *)

Lemma blame_chunk_three_way_witness :
  partition 0 3 (ent (insertion_scoreboard sample_target))
  /\ 0 <= 0
  /\ cmp_suspect sample_parent sample_target <> 0
  /\ (Z.to_nat (3 - 0) <= 3)%nat
  /\ blame_chunk 3 (insertion_scoreboard sample_target) 0 0 1
       sample_target sample_parent
     = Done (with_ent (insertion_scoreboard sample_target)
               [ {| lno := 0; num_lines := 1; suspect := sample_parent;
                    guilty := false; s_lno := 0; score := 0 |};
                 {| lno := 1; num_lines := 2; suspect := sample_target;
                    guilty := false; s_lno := 1; score := 0 |} ]).
Proof.
  assert (H1 : partition 0 3 (ent (insertion_scoreboard sample_target)))
    by (apply first_entry_partition; lia).
  assert (H2 : 0 <= 0) by lia.
  assert (H3 : cmp_suspect sample_parent sample_target <> 0)
    by (vm_compute; discriminate).
  assert (H4 : (Z.to_nat (3 - 0) <= 3)%nat) by (vm_compute; lia).
  repeat (split; [assumption|]).
  exact (proj1 (blame_chunk_three_way (insertion_scoreboard sample_target)
                  0 3 0 0 1 sample_target sample_parent 3 H1 H2 H3 H4)).
Defined.

Lemma assign_blame_settles_every_entry_witness :
  (forall x p, In p (commit_parents insertion_history x) ->
               (N.to_nat p < N.to_nat x)%nat)
  /\ spec_invariants 0 3 (ent (insertion_scoreboard sample_tip))
  /\ (Z.to_nat (work N.to_nat (ent (insertion_scoreboard sample_tip)))
      + Z.to_nat (3 - 0) < 20)%nat
  /\ terminates (assign_blame (effective_scores no_options) insertion_history
                   20 (insertion_scoreboard sample_tip) 0)
  /\ exists sb',
       assign_blame (effective_scores no_options) insertion_history 20
         (insertion_scoreboard sample_tip) 0 = Done sb'
       /\ map (fun e => (lno e, num_lines e, commit (suspect e))) (ent sb')
          = [(0, 1, 1%N); (1, 1, 2%N); (2, 1, 1%N)]
       /\ Forall (fun e => guilty e = true) (ent sb')
       /\ spec_invariants 0 3 (ent sb').
Proof.
  assert (H1 : forall x p, In p (commit_parents insertion_history x) ->
                           (N.to_nat p < N.to_nat x)%nat).
  { intros x p. cbn [commit_parents insertion_history].
    destruct (N.eqb_spec x 3) as [->|_]; [intros [<-|[]]; lia|].
    destruct (N.eqb_spec x 2) as [->|_]; [intros [<-|[]]; lia|intros []]. }
  assert (H2 : spec_invariants 0 3 (ent (insertion_scoreboard sample_tip)))
    by (apply partition_spec_invariants, first_entry_partition; lia).
  assert (H3 : (Z.to_nat (work N.to_nat (ent (insertion_scoreboard sample_tip)))
                + Z.to_nat (3 - 0) < 20)%nat)
    by (apply Nat.ltb_lt; vm_compute; reflexivity).
  repeat (split; [assumption|]).
  destruct (assign_blame_settles_every_entry (effective_scores no_options)
              insertion_history N.to_nat 0 3 0
              (insertion_scoreboard sample_tip) 20 H1 H2 H3) as [Hterm Hdone].
  split; [exact Hterm|].
  eexists. split; [vm_compute; reflexivity|].
  split; [reflexivity|].
  apply Hdone. vm_compute. reflexivity.
Defined.

Lemma same_blob_short_circuit_witness :
  commit_parents insertion_history (commit sample_tip) = [] ++ 2%N :: []
  /\ (length (@nil sha1) < MAXPARENT)%nat
  /\ parse_commit insertion_history 2%N = true
  /\ find_origin insertion_history
       (allocate (length (@nil sha1)) (insertion_scoreboard sample_tip)) 2%N
       (path sample_tip) = Some sample_target
  /\ blob_sha1 sample_target = blob_sha1 sample_tip
  /\ forall fuel,
       exists sb',
         pass_blame (effective_scores no_options) insertion_history fuel
           (insertion_scoreboard sample_tip) sample_tip 0 = Done sb'
         /\ Forall2 (fun e e' => suspect e = sample_tip ->
                                 suspect e' = sample_target)
                    (ent (insertion_scoreboard sample_tip)) (ent sb').
Proof.
  assert (H0 : forall i q, @nil sha1 !! i = Some q ->
                 match parent_origin_of insertion_history
                         (allocate i (insertion_scoreboard sample_tip))
                         sample_tip q with
                 | Some po => blob_sha1 po <> blob_sha1 sample_tip
                 | None => True
                 end)
    by (intros i q H; destruct i; discriminate H).
  assert (H1 : commit_parents insertion_history (commit sample_tip)
               = [] ++ 2%N :: []) by reflexivity.
  assert (H2 : (length (@nil sha1) < MAXPARENT)%nat)
    by (apply Nat.ltb_lt; reflexivity).
  assert (H3 : parse_commit insertion_history 2%N = true) by reflexivity.
  assert (H4 : find_origin insertion_history
                 (allocate (length (@nil sha1))
                           (insertion_scoreboard sample_tip))
                 2%N (path sample_tip) = Some sample_target)
    by (vm_compute; reflexivity).
  assert (H5 : blob_sha1 sample_target = blob_sha1 sample_tip) by reflexivity.
  repeat (split; [assumption|]).
  intros fuel.
  destruct (proj2 (same_blob_short_circuit (effective_scores no_options)
                     insertion_history (insertion_scoreboard sample_tip)
                     sample_tip 0 [] [] 2%N sample_target
                     H1 H2 H0 H3 H4 H5) fuel)
    as (sb' & Hrun & _ & _ & Hall).
  exists sb'. split; [exact Hrun|].
  eapply Forall2_impl; [exact Hall|]. cbn beta. tauto.
Defined.

Lemma best_split_must_beat_threshold_witness :
  passed_over (first_entry sample_target 0 3) sample_target = false
  /\ exists mid,
       split1 (find_copy_in_blob insertion_history
                 (insertion_scoreboard sample_target)
                 (first_entry sample_target 0 3) sample_parent
                 (text lines_before)) = Some mid
       /\ ent_score (insertion_scoreboard sample_target) mid
          <= blame_move_score (effective_scores no_options)
       /\ move_body (effective_scores no_options) insertion_history
            sample_target sample_parent (text lines_before)
            (insertion_scoreboard sample_target) O
            (first_entry sample_target 0 3)
          = Done (insertion_scoreboard sample_target, O).
Proof.
  assert (H1 : passed_over (first_entry sample_target 0 3) sample_target
               = false) by reflexivity.
  split; [exact H1|].
  destruct (best_split_must_beat_threshold
              (effective_scores no_options) insertion_history
              (insertion_scoreboard sample_target) O
              (first_entry sample_target 0 3)
              sample_target sample_parent (text lines_before)
              1%N (Some sample_parent) [] H1) as (_ & Hmove & _).
  assert (Hmid : split1 (find_copy_in_blob insertion_history
                           (insertion_scoreboard sample_target)
                           (first_entry sample_target 0 3) sample_parent
                           (text lines_before))
                 = Some {| lno := 0; num_lines := 1; suspect := sample_parent;
                           guilty := false; s_lno := 0; score := 0 |})
    by (vm_compute; reflexivity).
  rewrite Hmid in Hmove.
  eexists. split; [exact Hmid|].
  assert (Hscore :
            ent_score (insertion_scoreboard sample_target)
              {| lno := 0; num_lines := 1; suspect := sample_parent;
                 guilty := false; s_lno := 0; score := 0 |}
            <= blame_move_score (effective_scores no_options))
    by (vm_compute; discriminate).
  split; [exact Hscore|]. exact (proj1 Hmove Hscore).
Defined.

(** * Part III: the rest of the file *)

(** ** The line table *)

Lemma line_starts_inside (body rest : list ascii) :
  forall pos,
    no_newline body = true ->
    line_starts (body ++ newline :: rest) pos false
    = line_starts rest (pos + Z.of_nat (length body) + 1) true.
Proof.
  induction body as [|c body IH]; intros pos Hb; cbn [app line_starts length].
  - cbn. f_equal. lia.
  - cbn [no_newline forallb] in Hb. apply andb_true_iff in Hb as [Hc Hb].
    apply negb_true_iff in Hc. rewrite Hc. cbn [app].
    rewrite IH by exact Hb. f_equal. lia.
Qed.

Lemma line_starts_line (body rest : list ascii) (pos : Z) :
  no_newline body = true ->
  line_starts ((body ++ [newline]) ++ rest) pos true
  = pos :: line_starts rest (pos + Z.of_nat (length (body ++ [newline]))) true.
Proof.
  intros Hb. rewrite <- app_assoc, length_app. cbn [app length].
  destruct body as [|c body]; cbn [app line_starts length].
  - cbn. f_equal.
  - cbn [no_newline forallb] in Hb. apply andb_true_iff in Hb as [Hc Hb].
    apply negb_true_iff in Hc. rewrite Hc. cbn [app]. f_equal.
    rewrite line_starts_inside by exact Hb. f_equal. lia.
Qed.

Lemma line_starts_cut (tail : list ascii) :
  forall pos, no_newline tail = true -> line_starts tail pos false = [].
Proof.
  induction tail as [|c tail IH]; intros pos Hb; [reflexivity|].
  cbn [no_newline forallb] in Hb. apply andb_true_iff in Hb as [Hc Hb].
  apply negb_true_iff in Hc. cbn [line_starts]. rewrite Hc. cbn [app].
  apply IH. exact Hb.
Qed.

Lemma line_starts_offsets (bodies : list (list ascii)) (tail : list ascii) :
  forall pos,
    forallb no_newline bodies = true -> no_newline tail = true ->
    line_starts (concat (file_lines bodies tail)) pos true
    ++ [pos + Z.of_nat (length (concat (file_lines bodies tail)))]
    = offsets pos (map (fun l => Z.of_nat (length l)) (file_lines bodies tail)).
Proof.
  induction bodies as [|body bodies IH]; intros pos Hbs Ht.
  - unfold file_lines. cbn [map app]. destruct tail as [|c tail].
    + cbn. rewrite Z.add_0_r. reflexivity.
    + cbn [concat map offsets]. rewrite app_nil_r.
      cbn [no_newline forallb] in Ht. apply andb_true_iff in Ht as [Hc Ht].
      apply negb_true_iff in Hc. cbn [line_starts]. rewrite Hc.
      rewrite line_starts_cut by exact Ht. reflexivity.
  - cbn [forallb] in Hbs. apply andb_true_iff in Hbs as [Hb Hbs].
    change (file_lines (body :: bodies) tail)
      with ((body ++ [newline]) :: file_lines bodies tail).
    cbn [concat map offsets].
    rewrite line_starts_line by exact Hb.
    rewrite <- app_comm_cons. f_equal.
    rewrite <- (IH _ Hbs Ht). f_equal. f_equal.
    rewrite (length_app (body ++ [newline])). lia.
Qed.

Lemma offsets_delimit (lines : list (list ascii)) :
  forall pos i l,
    lines !! i = Some l ->
    offsets pos (map (fun l => Z.of_nat (length l)) lines) !! i
    = Some (pos + Z.of_nat (length (concat (take i lines))))
    /\ offsets pos (map (fun l => Z.of_nat (length l)) lines) !! S i
       = Some (pos + Z.of_nat (length (concat (take i lines)))
               + Z.of_nat (length l)).
Proof.
  induction lines as [|x lines IH]; intros pos i l Hi; [discriminate|].
  destruct i as [|i]; cbn in Hi.
  - injection Hi as ->. cbn [map offsets take concat length].
    split; [cbn; f_equal; lia|].
    destruct (map (fun l0 => Z.of_nat (length l0)) lines); cbn; f_equal; lia.
  - cbn [map offsets take concat].
    destruct (IH (pos + Z.of_nat (length x)) i l Hi) as [H1 H2].
    rewrite length_app. split.
    + change ((pos :: offsets (pos + Z.of_nat (length x))
                        (map (fun l0 => Z.of_nat (length l0)) lines)) !! S i)
        with (offsets (pos + Z.of_nat (length x))
                      (map (fun l0 => Z.of_nat (length l0)) lines) !! i).
      rewrite H1. f_equal. lia.
    + change ((pos :: offsets (pos + Z.of_nat (length x))
                        (map (fun l0 => Z.of_nat (length l0)) lines)) !! S (S i))
        with (offsets (pos + Z.of_nat (length x))
                      (map (fun l0 => Z.of_nat (length l0)) lines) !! S i).
      rewrite H2. f_equal. lia.
Qed.

(** X2.  For a buffer made of lines (bodies without a newline, each ended by
    one, and perhaps a last line that none ends), [prepare_lines] counts the
    lines, the cut-off last one included, and writes the table of their
    offsets with the size of the buffer behind them; with that table in the
    scoreboard, [nth_line] of [i] and of [i + 1] delimit exactly line [i]. *)
Theorem prepare_lines_delimits_every_line
    (bodies : list (list ascii)) (tail : list ascii) :
  forallb no_newline bodies = true -> no_newline tail = true ->
  prepare_lines (concat (file_lines bodies tail))
  = (offsets 0 (map (fun l => Z.of_nat (length l)) (file_lines bodies tail)),
     Z.of_nat (length (file_lines bodies tail)))
  /\ forall sb i l,
       final_buf sb = concat (file_lines bodies tail) ->
       lineno sb = fst (prepare_lines (final_buf sb)) ->
       file_lines bodies tail !! i = Some l ->
       buffer_between sb (nth_line sb (Z.of_nat i))
                         (nth_line sb (Z.of_nat i + 1)) = l.
Proof.
  intros Hbs Ht.
  pose proof (line_starts_offsets bodies tail 0 Hbs Ht) as Hoff.
  rewrite Z.add_0_l in Hoff.
  assert (Hprep : prepare_lines (concat (file_lines bodies tail))
                  = (offsets 0 (map (fun l => Z.of_nat (length l))
                                    (file_lines bodies tail)),
                     Z.of_nat (length (file_lines bodies tail)))).
  { unfold prepare_lines. cbn zeta. rewrite Hoff. f_equal. f_equal.
    apply (f_equal (@length Z)) in Hoff. rewrite length_app in Hoff.
    cbn [length] in Hoff.
    assert (Hlen : forall lens pos, length (offsets pos lens) = S (length lens)).
    { induction lens; intros; cbn; [reflexivity|]. rewrite IHlens. reflexivity. }
    rewrite Hlen, length_map in Hoff. lia. }
  split; [exact Hprep|].
  intros sb i l Hbuf Hln Hi. rewrite Hbuf, Hprep in Hln. cbn [fst] in Hln.
  destruct (offsets_delimit _ 0 i l Hi) as [H1 H2].
  unfold buffer_between, nth_line.
  replace (Z.to_nat (Z.of_nat i + 1)) with (S i) by lia.
  rewrite Nat2Z.id, Hln, H1, H2. cbn [default from_option]. unfold id.
  assert (Hcat : concat (file_lines bodies tail)
                 = concat (take i (file_lines bodies tail))
                   ++ l ++ concat (drop (S i) (file_lines bodies tail))).
  { rewrite <- (take_drop_middle _ i l Hi) at 1.
    rewrite concat_app. reflexivity. }
  set (pre := concat (take i (file_lines bodies tail))) in *.
  replace (Z.to_nat (0 + Z.of_nat (length pre) + Z.of_nat (length l)
                     - (0 + Z.of_nat (length pre))))
    with (length l) by lia.
  replace (Z.to_nat (0 + Z.of_nat (length pre))) with (length pre) by lia.
  rewrite Hbuf, Hcat, drop_app_length, take_app_length. reflexivity.
Qed.

Lemma prepare_lines_delimits_every_line_witness :
  forallb no_newline [list_ascii_of_string "ab"; list_ascii_of_string ""] = true
  /\ no_newline (list_ascii_of_string "c") = true
  /\ prepare_lines (list_ascii_of_string
                      (String.append (line "ab") (String.append (line "") "c")))
     = ([0; 3; 4; 5], 3).
Proof.
  split; [reflexivity|]. split; [reflexivity|].
  exact (proj1 (prepare_lines_delimits_every_line
                  [list_ascii_of_string "ab"; list_ascii_of_string ""]
                  (list_ascii_of_string "c") eq_refl eq_refl)).
Defined.

(** ** [coalesce] as a normal form *)

Lemma coalesce_from_head (rest : list blame_entry) :
  forall e, exists h tl,
    coalesce_from e rest = h :: tl
    /\ suspect h = suspect e /\ guilty h = guilty e /\ s_lno h = s_lno e.
Proof.
  induction rest as [|next rest IH]; intros e; cbn [coalesce_from].
  - exists e, []. auto.
  - destruct (coalescible e next).
    + destruct (IH (absorb e next)) as (h & tl & -> & H1 & H2 & H3).
      exists h, tl. auto.
    + exists e, (coalesce_from next rest). auto.
Qed.

Lemma coalescible_key (x h e : blame_entry) :
  suspect h = suspect e -> guilty h = guilty e -> s_lno h = s_lno e ->
  coalescible x h = coalescible x e.
Proof. intros H1 H2 H3. unfold coalescible. rewrite H1, H2, H3. reflexivity. Qed.

Lemma coalesce_from_merged (rest : list blame_entry) :
  forall e, merged (coalesce_from e rest).
Proof.
  induction rest as [|next rest IH]; intros e; cbn [coalesce_from];
    [exact I|].
  destruct (coalescible e next) eqn:Hc; [apply IH|].
  pose proof (IH next) as Hm.
  destruct (coalesce_from_head rest next) as (h & tl & Heq & H1 & H2 & H3).
  rewrite Heq in *. cbn [merged]. split; [|exact Hm].
  rewrite (coalescible_key e h next); assumption.
Qed.

Lemma coalesce_from_fixed (rest : list blame_entry) :
  forall e, merged (e :: rest) -> coalesce_from e rest = e :: rest.
Proof.
  induction rest as [|next rest IH]; intros e Hm; [reflexivity|].
  cbn [merged] in Hm. destruct Hm as [Hc Hm].
  cbn [coalesce_from]. rewrite Hc, IH by exact Hm. reflexivity.
Qed.

(** X3.  [coalesce] leaves a list in which no entry could swallow its
    successor (same commit and path, same guilty flag, source lines that
    meet); running it again changes nothing, and a list that is already in
    that shape is returned as it is, cached scores included. *)
Theorem coalesce_is_a_normal_form (sb : scoreboard) :
  merged (ent (coalesce sb))
  /\ coalesce (coalesce sb) = coalesce sb
  /\ (merged (ent sb) -> coalesce sb = sb).
Proof.
  assert (Hm : merged (ent (coalesce sb))).
  { unfold coalesce. destruct (ent sb) as [|e rest] eqn:Hl;
      [rewrite Hl; exact I|apply coalesce_from_merged]. }
  assert (Hfix : forall sb0, merged (ent sb0) -> coalesce sb0 = sb0).
  { intros sb0 H0. unfold coalesce.
    destruct (ent sb0) as [|e rest] eqn:Hl; [reflexivity|].
    rewrite coalesce_from_fixed by exact H0. rewrite <- Hl.
    apply with_ent_ent. }
  split; [exact Hm|]. split; [apply Hfix, Hm|apply Hfix].
Qed.

(** ** Insertion by line number *)

Lemma add_blame_entry_permutation (l : list blame_entry) (x : blame_entry) :
  Permutation (add_blame_entry l x) (x :: l).
Proof.
  induction l as [|a l IH]; cbn [add_blame_entry]; [reflexivity|].
  destruct (lno a <? lno x); [|reflexivity].
  rewrite IH. apply perm_swap.
Qed.

Lemma add_blame_entry_ascending (l : list blame_entry) (x : blame_entry) :
  ascending l -> ascending (add_blame_entry l x).
Proof.
  induction l as [|a l IH]; intros Hasc; cbn [add_blame_entry]; [exact I|].
  destruct (Z.ltb_spec (lno a) (lno x)) as [Hlt|Hge].
  - assert (Hrest : ascending l) by (destruct l; [exact I|apply Hasc]).
    specialize (IH Hrest).
    destruct l as [|b l]; cbn [add_blame_entry] in *.
    + cbn. split; [lia|exact I].
    + destruct (Z.ltb_spec (lno b) (lno x)).
      * cbn [ascending]. split; [apply Hasc|exact IH].
      * cbn [ascending]. split; [lia|exact IH].
  - cbn [ascending]. split; [lia|exact Hasc].
Qed.

(** X4.  [add_blame_entry] on a consistently linked list: the new cell is
    linked in behind the entries that start on an earlier line, so a list in
    ascending order of [lno] stays in ascending order; the entries are the
    old ones and the new one, each once; the links are consistent again and
    the heap has grown by the one cell. *)
Theorem insertion_keeps_order_and_links
    (st : Linked.store) (l : list (nat * blame_entry)) (x : blame_entry) :
  Linked.well_linked st l -> ascending (map snd l) ->
  exists st' l',
    Linked.add_copy st x = Done st'
    /\ Linked.well_linked st' l'
    /\ map snd l' = add_blame_entry (map snd l) x
    /\ Permutation (map snd l') (x :: map snd l)
    /\ ascending (map snd l')
    /\ size (Linked.cells st') = S (size (Linked.cells st)).
Proof.
  intros Hwl Hasc.
  destruct (linked_add_copy st l x Hwl) as (st' & l' & Hrun & Hwl' & Hmap).
  exists st', l'. split; [exact Hrun|]. split; [exact Hwl'|].
  split; [exact Hmap|]. rewrite Hmap.
  split; [apply add_blame_entry_permutation|].
  split; [apply add_blame_entry_ascending; exact Hasc|].
  rewrite (well_linked_size _ _ Hwl), (well_linked_size _ _ Hwl').
  rewrite <- (length_map snd l'), Hmap, <- (length_map snd l).
  exact (Permutation_length (add_blame_entry_permutation (map snd l) x)).
Qed.

Lemma insertion_keeps_order_and_links_witness :
  Linked.well_linked (Linked.first_store sample_target 0 3)
                     [(O, first_entry sample_target 0 3)]
  /\ ascending (map snd [(O, first_entry sample_target 0 3)])
  /\ exists st' l',
       Linked.add_copy (Linked.first_store sample_target 0 3) middle_line
       = Done st'
       /\ Linked.well_linked st' l'
       /\ map snd l' = [first_entry sample_target 0 3; middle_line].
Proof.
  split; [apply first_store_linked|]. split; [exact I|].
  destruct (insertion_keeps_order_and_links
              (Linked.first_store sample_target 0 3)
              [(O, first_entry sample_target 0 3)] middle_line
              (first_store_linked sample_target 0 3) I)
    as (st' & l' & Hrun & Hwl & Hmap & _).
  exists st', l'. split; [exact Hrun|]. split; [exact Hwl|exact Hmap].
Defined.
(** ** The option loop *)

Lemma engine_option_spec (x : Z) :
  engine_option x = true <-> x = 0 \/ x = 1 \/ x = 3 \/ x = 7.
Proof.
  unfold engine_option.
  change PICKAXE_BLAME_MOVE with 1.
  change (Z.lor 1 PICKAXE_BLAME_COPY) with 3.
  change (Z.lor 3 PICKAXE_BLAME_COPY_HARDER) with 7.
  rewrite !orb_true_iff, !Z.eqb_eq. tauto.
Qed.

Lemma flags_kept_lor (a f : Z) : Z.land (Z.lor a f) a = a.
Proof.
  apply Z.bits_inj'. intros n Hn.
  rewrite Z.land_spec, Z.lor_spec.
  destruct (Z.testbit a n), (Z.testbit f n); reflexivity.
Qed.

Lemma flags_kept_trans (a b c : Z) :
  Z.land b a = a -> Z.land c b = b -> Z.land c a = a.
Proof.
  intros Hab Hbc. rewrite <- Hab at 1. rewrite Z.land_assoc, Hbc. exact Hab.
Qed.

Lemma parse_range_keeps_flags (st st' : options) (arg : string) :
  parse_range st arg = Done st' ->
  opt st' = opt st /\ output_option st' = output_option st.
Proof.
  unfold parse_range.
  destruct (negb (opt_bottom st =? 0) || negb (opt_top st =? 0));
    [discriminate|].
  destruct (Ascii.eqb (first_char (snd (strtol arg))) ",").
  - destruct (snd (strtol (advance 1 (snd (strtol arg)))));
      [|discriminate].
    intros H. injection H as <-. auto.
  - intros H. injection H as <-. auto.
Qed.

Lemma set_copy_engine_option (st : options) (arg : string) :
  engine_option (opt st) = true ->
  engine_option (opt (set_copy st arg)) = true
  /\ opt st <= opt (set_copy st arg).
Proof.
  intros H. apply engine_option_spec in H.
  unfold set_copy. cbn [opt].
  destruct H as [-> | [-> | [-> | ->]]]; split;
    first [reflexivity | vm_compute; discriminate].
Qed.

Lemma set_move_engine_option (st : options) (arg : string) :
  engine_option (opt st) = true ->
  engine_option (opt (set_move st arg)) = true
  /\ opt st <= opt (set_move st arg).
Proof.
  intros H. apply engine_option_spec in H.
  unfold set_move. cbn [opt].
  destruct H as [-> | [-> | [-> | ->]]]; split;
    first [reflexivity | vm_compute; discriminate].
Qed.

Lemma parse_options_accumulates (n : nat) :
  forall args st st' rest,
    (length args <= n)%nat ->
    engine_option (opt st) = true ->
    parse_options args st = Done (st', rest) ->
    engine_option (opt st') = true
    /\ opt st <= opt st'
    /\ Z.land (output_option st') (output_option st) = output_option st.
Proof.
  induction n as [|n IH]; intros args st st' rest Hlen Hopt Hrun.
  { destruct args; [|cbn in Hlen; lia]. cbn in Hrun. injection Hrun as <- _.
    split; [exact Hopt|]. split; [lia|apply Z.land_diag]. }
  destruct args as [|arg args].
  { cbn in Hrun. injection Hrun as <- _.
    split; [exact Hopt|]. split; [lia|apply Z.land_diag]. }
  cbn [length] in Hlen.
  assert (Hout : forall flag,
             parse_options args (set_output st flag) = Done (st', rest) ->
             engine_option (opt st') = true
             /\ opt st <= opt st'
             /\ Z.land (output_option st') (output_option st)
                = output_option st).
  { intros flag H.
    destruct (IH args (set_output st flag) st' rest ltac:(lia) Hopt H)
      as (H1 & H2 & H3).
    split; [exact H1|]. split; [exact H2|].
    eapply flags_kept_trans; [|exact H3]. apply flags_kept_lor. }
  assert (Hsame : forall st1 tail,
             (length tail <= n)%nat ->
             opt st1 = opt st -> output_option st1 = output_option st ->
             parse_options tail st1 = Done (st', rest) ->
             engine_option (opt st') = true
             /\ opt st <= opt st'
             /\ Z.land (output_option st') (output_option st)
                = output_option st).
  { intros st1 tail Hl Ho Hoo H. rewrite <- Ho, <- Hoo.
    apply (IH tail st1 st' rest Hl); [rewrite Ho; exact Hopt|exact H]. }
  cbn [parse_options] in Hrun.
  destruct (negb (Ascii.eqb (first_char arg) "-")).
  { injection Hrun as <- _.
    split; [exact Hopt|]. split; [lia|apply Z.land_diag]. }
  destruct (String.eqb arg "-c"); [exact (Hout _ Hrun)|].
  destruct (String.eqb arg "-t"); [exact (Hout _ Hrun)|].
  destruct (String.eqb arg "-l"); [exact (Hout _ Hrun)|].
  assert (Hlate :
            (if has_prefix "-M" arg then parse_options args (set_move st arg)
             else if has_prefix "-C" arg then
               parse_options args (set_copy st arg)
             else
               match String.eqb arg "-L", args with
               | true, range :: rest' =>
                   st' ← parse_range st range; parse_options rest' st'
               | _, _ =>
                   if String.eqb arg "--score-debug" then
                     parse_options args (set_output st OUTPUT_SHOW_SCORE)
                   else if String.eqb arg "-f" || String.eqb arg "--show-name"
                   then parse_options args (set_output st OUTPUT_SHOW_NAME)
                   else if String.eqb arg "-n" || String.eqb arg "--show-number"
                   then parse_options args (set_output st OUTPUT_SHOW_NUMBER)
                   else if String.eqb arg "-p" || String.eqb arg "--porcelain"
                   then parse_options args (set_output st OUTPUT_PORCELAIN)
                   else if String.eqb arg "--" then Done (st, args)
                   else parse_options args (add_unknown st arg)
               end) = Done (st', rest) ->
            engine_option (opt st') = true
            /\ opt st <= opt st'
            /\ Z.land (output_option st') (output_option st)
               = output_option st).
  { clear Hrun. intros Hrun.
    destruct (has_prefix "-M" arg).
    { destruct (set_move_engine_option st arg Hopt) as [Hm Hle].
      destruct (IH args (set_move st arg) st' rest ltac:(lia) Hm Hrun)
        as (H1 & H2 & H3).
      split; [exact H1|]. split; [lia|exact H3]. }
    destruct (has_prefix "-C" arg).
    { destruct (set_copy_engine_option st arg Hopt) as [Hm Hle].
      destruct (IH args (set_copy st arg) st' rest ltac:(lia) Hm Hrun)
        as (H1 & H2 & H3).
      split; [exact H1|]. split; [lia|exact H3]. }
    assert (Hplain :
              (if String.eqb arg "--score-debug" then
                 parse_options args (set_output st OUTPUT_SHOW_SCORE)
               else if String.eqb arg "-f" || String.eqb arg "--show-name"
               then parse_options args (set_output st OUTPUT_SHOW_NAME)
               else if String.eqb arg "-n" || String.eqb arg "--show-number"
               then parse_options args (set_output st OUTPUT_SHOW_NUMBER)
               else if String.eqb arg "-p" || String.eqb arg "--porcelain"
               then parse_options args (set_output st OUTPUT_PORCELAIN)
               else if String.eqb arg "--" then Done (st, args)
               else parse_options args (add_unknown st arg))
              = Done (st', rest) ->
              engine_option (opt st') = true
              /\ opt st <= opt st'
              /\ Z.land (output_option st') (output_option st)
                 = output_option st).
    { clear Hrun. intros Hrun.
      destruct (String.eqb arg "--score-debug"); [exact (Hout _ Hrun)|].
      destruct (String.eqb arg "-f" || String.eqb arg "--show-name");
        [exact (Hout _ Hrun)|].
      destruct (String.eqb arg "-n" || String.eqb arg "--show-number");
        [exact (Hout _ Hrun)|].
      destruct (String.eqb arg "-p" || String.eqb arg "--porcelain");
        [exact (Hout _ Hrun)|].
      destruct (String.eqb arg "--").
      - injection Hrun as <- _.
        split; [exact Hopt|]. split; [lia|apply Z.land_diag].
      - apply (Hsame (add_unknown st arg) args); auto; lia. }
    destruct (String.eqb arg "-L"); [|exact (Hplain Hrun)].
    destruct args as [|range rest']; [exact (Hplain Hrun)|].
    destruct (parse_range st range) as [st1| |] eqn:Hr; try discriminate.
    cbn [mbind outcome_bind] in Hrun.
    destruct (parse_range_keeps_flags _ _ _ Hr) as [Ho Hoo].
    apply (Hsame st1 rest'); auto. cbn [length] in Hlen. lia. }
  destruct (String.eqb arg "-S"); [|exact (Hlate Hrun)].
  destruct args as [|file rest']; [exact (Hlate Hrun)|].
  apply (Hsame (set_revs_file st file) rest'); auto.
  cbn [length] in Hlen. lia.
Qed.

(** X5.  The option loop only ever adds flags.  The engine option it leaves
    is one of: nothing, [-M], [-M] with [-C], and these with copy-harder
    (which takes [-C] twice); it never clears what an earlier argument has
    set, so [-C] always comes with [-M] and copy-harder with [-C]; and no
    output flag that was set is cleared. *)
Theorem option_loop_only_adds_flags
    (args rest : list string) (st st' : options) :
  engine_option (opt st) = true ->
  parse_options args st = Done (st', rest) ->
  engine_option (opt st') = true
  /\ opt st <= opt st'
  /\ Z.land (output_option st') (output_option st) = output_option st
  /\ (has_flag (opt st') PICKAXE_BLAME_COPY = true ->
      has_flag (opt st') PICKAXE_BLAME_MOVE = true)
  /\ (has_flag (opt st') PICKAXE_BLAME_COPY_HARDER = true ->
      has_flag (opt st') PICKAXE_BLAME_COPY = true).
Proof.
  intros Hopt Hrun.
  destruct (parse_options_accumulates (length args) args st st' rest
              (Nat.le_refl _) Hopt Hrun) as (H1 & H2 & H3).
  split; [exact H1|]. split; [exact H2|]. split; [exact H3|].
  apply engine_option_spec in H1.
  destruct H1 as [-> | [-> | [-> | ->]]]; split; intros H;
    first [reflexivity | discriminate H].
Qed.

Lemma option_loop_only_adds_flags_witness :
  engine_option (opt no_options) = true
  /\ exists st',
       parse_options ["-C"; "-p"; "-C30"; "HEAD"]%string no_options
       = Done (st', ["HEAD"%string])
       /\ opt st' = 7 /\ output_option st' = OUTPUT_PORCELAIN
       /\ copy_score st' = 30
       /\ engine_option (opt st') = true.
Proof.
  split; [reflexivity|].
  eexists. split; [reflexivity|].
  split; [reflexivity|]. split; [reflexivity|]. split; [reflexivity|].
  exact (proj1 (option_loop_only_adds_flags
                  ["-C"; "-p"; "-C30"; "HEAD"]%string ["HEAD"%string]
                  no_options _ eq_refl eq_refl)).
Defined.

(** ** The blame, line by line *)

Lemma run_of_lines_app (final source : Z) (c : sha1) (p : string) (g : bool)
    (n1 n2 : nat) :
  run_of_lines final source c p g (n1 + n2)
  = run_of_lines final source c p g n1
    ++ run_of_lines (final + Z.of_nat n1) (source + Z.of_nat n1) c p g n2.
Proof.
  unfold run_of_lines. rewrite seq_app, map_app. f_equal.
  cbn [Nat.add].
  assert (Hs : seq n1 n2 = map (Nat.add n1) (seq 0 n2)).
  { pose proof (fmap_add_seq n1 0 n2) as H. rewrite Nat.add_0_r in H.
    symmetry. exact H. }
  rewrite Hs, map_map. apply map_ext. intros k.
  f_equal; lia.
Qed.

Lemma accuses_cmp_suspect (final source : Z) (o target : origin) (g : bool) :
  accuses {| final_line := final; line_commit := commit o;
             line_path := path o; settled := g; source_line := source |}
          target
  = (cmp_suspect o target =? 0).
Proof.
  unfold accuses. cbn [line_commit line_path].
  destruct (Z.eqb_spec (cmp_suspect o target) 0) as [H|H].
  - apply cmp_suspect_eq in H as [-> ->].
    rewrite N.eqb_refl, String.eqb_refl. reflexivity.
  - destruct (N.eqb_spec (commit o) (commit target)) as [Hc|Hc];
      [|reflexivity].
    destruct (String.eqb_spec (path o) (path target)) as [Hp|Hp];
      [|reflexivity].
    exfalso. apply H, cmp_suspect_eq. auto.
Qed.

(** A run none of whose lines the window takes. *)
Lemma pass_run_outside (w : window) (target parent : origin) (c : sha1)
    (p : string) (g : bool) (n : nat) :
  forall final source,
    (g = true
     \/ accuses {| final_line := final; line_commit := c; line_path := p;
                   settled := g; source_line := source |} target = false
     \/ source + Z.of_nat n <= w_tlno w \/ w_same w <= source
     \/ w_same w <= w_tlno w \/ n = O) ->
    map (pass_line [w] target parent) (run_of_lines final source c p g n)
    = run_of_lines final source c p g n.
Proof.
  intros final source Hout. unfold run_of_lines. rewrite map_map.
  apply map_ext_in. intros k Hk. apply in_seq in Hk.
  unfold pass_line. cbn [settled source_line].
  destruct Hout as [-> | [Hacc | Hrange]]; [reflexivity| |].
  - unfold accuses in *. cbn [line_commit line_path] in *. rewrite Hacc.
    rewrite andb_false_r. reflexivity.
  - destruct (negb g && _); [|reflexivity].
    cbn [List.find]. unfold in_window.
    destruct (Z.leb_spec (w_tlno w) (source + Z.of_nat k)),
             (Z.ltb_spec (source + Z.of_nat k) (w_same w));
      cbn [andb]; try reflexivity; lia.
Qed.

(** A run all of whose lines the window takes. *)
Lemma pass_run_inside (w : window) (target parent o : origin) (n : nat) :
  forall final source,
    cmp_suspect o target = 0 ->
    w_tlno w <= source -> source + Z.of_nat n <= w_same w ->
    map (pass_line [w] target parent)
        (run_of_lines final source (commit o) (path o) false n)
    = run_of_lines final (w_plno w + (source - w_tlno w))
                   (commit parent) (path parent) false n.
Proof.
  intros final source Hacc Hlo Hhi. unfold run_of_lines. rewrite map_map.
  apply map_ext_in. intros k Hk. apply in_seq in Hk.
  unfold pass_line. cbn [settled source_line negb andb].
  rewrite accuses_cmp_suspect, Hacc. cbn [Z.eqb List.find].
  unfold in_window.
  destruct (Z.leb_spec (w_tlno w) (source + Z.of_nat k)); [|lia].
  destruct (Z.ltb_spec (source + Z.of_nat k) (w_same w)); [|lia].
  cbn [andb final_line]. f_equal. lia.
Qed.

Lemma lines_of_region (e : blame_entry) (from to : Z) (who : origin) (s : Z) :
  lines_of (region e from to who s)
  = run_of_lines (lno e + (from - s_lno e)) s (commit who) (path who) false
                 (Z.to_nat (to - from)).
Proof.
  unfold region. destruct (Z.ltb_spec from to).
  - cbn [lines_of flat_map]. rewrite app_nil_r. reflexivity.
  - replace (Z.to_nat (to - from)) with O by lia. reflexivity.
Qed.

(** The three-way split of an entry, read line by line. *)
Lemma three_way_lines (tlno plno same : Z) (target parent : origin)
    (e : blame_entry) :
  lines_of (three_way tlno plno same target parent e)
  = map (pass_line [ {| w_tlno := tlno; w_plno := plno; w_same := same |} ]
                   target parent)
        (lines_of_entry e).
Proof.
  set (w := {| w_tlno := tlno; w_plno := plno; w_same := same |}).
  unfold three_way.
  destruct (passed_over e target) eqn:Hpo; cbn [negb andb].
  { cbn [lines_of flat_map]. rewrite app_nil_r. unfold lines_of_entry.
    rewrite pass_run_outside; [reflexivity|].
    unfold passed_over in Hpo. apply orb_true_iff in Hpo as [Hg|Hacc];
      [left; exact Hg|right; left].
    rewrite accuses_cmp_suspect. apply negb_true_iff. exact Hacc. }
  unfold passed_over in Hpo. apply orb_false_iff in Hpo as [Hg Hacc].
  apply negb_false_iff, Z.eqb_eq in Hacc.
  destruct (Z.ltb_spec (Z.max (s_lno e) tlno)
                       (Z.min (s_lno e + num_lines e) same)) as [Hlt|Hge].
  2:{ cbn [lines_of flat_map]. rewrite app_nil_r. unfold lines_of_entry.
      destruct (Z.le_gt_cases (num_lines e) 0) as [Hn|Hn].
      { replace (Z.to_nat (num_lines e)) with O by lia. reflexivity. }
      rewrite pass_run_outside; [reflexivity|].
      right. right. unfold w; cbn [w_tlno w_same]; lia. }
  unfold lines_of. rewrite !flat_map_app. fold (lines_of).
  change (flat_map lines_of_entry) with lines_of.
  rewrite !lines_of_region. unfold lines_of_entry. rewrite Hg.
  remember (Z.to_nat (tlno - s_lno e)) as a eqn:Ha.
  remember (Z.to_nat (Z.min (s_lno e + num_lines e) same
                      - Z.max (s_lno e) tlno)) as m eqn:Hm.
  remember (Z.to_nat (s_lno e + num_lines e - same)) as c eqn:Hc.
  replace (Z.to_nat (num_lines e)) with (a + (m + c))%nat by lia.
  rewrite !run_of_lines_app, !map_app.
  rewrite pass_run_outside
    by (right; right; unfold w; cbn [w_tlno w_same]; lia).
  rewrite pass_run_inside
    by (unfold w; cbn [w_tlno w_same]; first [assumption|lia]).
  rewrite pass_run_outside
    by (right; right; unfold w; cbn [w_tlno w_same]; lia).
  unfold w; cbn [w_tlno w_plno].
  f_equal; [f_equal; lia|].
  f_equal.
  - destruct m; [reflexivity|]. f_equal; lia.
  - destruct c; [reflexivity|]. f_equal; lia.
Qed.

Lemma lines_of_app (l1 l2 : list blame_entry) :
  lines_of (l1 ++ l2) = lines_of l1 ++ lines_of l2.
Proof. unfold lines_of. apply flat_map_app. Qed.

Lemma flat_three_way_lines (tlno plno same : Z) (target parent : origin)
    (l : list blame_entry) :
  lines_of (flat_map (three_way tlno plno same target parent) l)
  = map (pass_line [ {| w_tlno := tlno; w_plno := plno; w_same := same |} ]
                   target parent)
        (lines_of l).
Proof.
  induction l as [|e l IH]; [reflexivity|].
  cbn [flat_map]. rewrite lines_of_app, IH, three_way_lines.
  change (lines_of (e :: l)) with (lines_of_entry e ++ lines_of l).
  rewrite map_app. reflexivity.
Qed.

Lemma pass_line_cons (w : window) (ws : list window) (target parent : origin)
    (x : blamed_line) :
  cmp_suspect parent target <> 0 ->
  pass_line ws target parent (pass_line [w] target parent x)
  = pass_line (w :: ws) target parent x.
Proof.
  intros Hne. unfold pass_line at 2 3.
  destruct (negb (settled x) && accuses x target) eqn:Hx.
  - cbn [List.find]. destruct (in_window (source_line x) w).
    + unfold pass_line. cbn [settled negb andb].
      rewrite accuses_cmp_suspect.
      destruct (Z.eqb_spec (cmp_suspect parent target) 0); [contradiction|].
      reflexivity.
    + unfold pass_line. rewrite Hx. reflexivity.
  - unfold pass_line. rewrite Hx. reflexivity.
Qed.

(** [blame_chunk] on a partition, as a map over the entries. *)
Lemma blame_chunk_flat (sb : scoreboard) (b t tlno plno same : Z)
    (target parent : origin) (fuel : nat) :
  partition b t (ent sb) -> 0 <= plno -> cmp_suspect parent target <> 0 ->
  (Z.to_nat (t - b) <= fuel)%nat ->
  blame_chunk fuel sb tlno plno same target parent
  = Done (with_ent sb
            (flat_map (three_way tlno plno same target parent) (ent sb)))
  /\ partition b t (flat_map (three_way tlno plno same target parent) (ent sb)).
Proof.
  intros Hpart Hplno Hne Hfuel.
  assert (Hflat : forall fuel',
             (length (flat_map (three_way tlno plno same target parent)
                               (ent sb)) <= fuel')%nat ->
             for_each_entry fuel'
               (blame_chunk_body tlno plno same target parent) sb
               (length (@nil blame_entry))
             = Done (with_ent sb
                       ([] ++ flat_map (three_way tlno plno same target parent)
                                       (ent sb)))
             /\ partition b t
                  ([] ++ flat_map (three_way tlno plno same target parent)
                                  (ent sb))).
  { intros fuel' Hf.
    apply (for_each_entry_flat b t
             (three_way tlno plno same target parent)
             (blame_chunk_body tlno plno same target parent)); auto.
    - intros. apply blame_chunk_body_step; assumption.
    - intros. apply three_way_tail_inert. exact Hne. }
  destruct (Hflat _ (Nat.le_refl _)) as [_ Hp]. cbn [app] in Hp.
  pose proof (partition_length _ _ _ Hp) as Hlen.
  destruct (Hflat fuel ltac:(lia)) as [Hrun _]. cbn [app length] in Hrun.
  split; [exact Hrun|exact Hp].
Qed.

Lemma blame_chunks_lines (b t last : Z) (target parent : origin)
    (fuel : nat) (chunks : list chunk) :
  cmp_suspect parent target <> 0 -> (Z.to_nat (t - b) <= fuel)%nat ->
  Forall (fun c => 0 <= p_next c) chunks ->
  forall sb plno tlno,
    partition b t (ent sb) -> 0 <= plno ->
    exists sb',
      blame_chunks fuel sb chunks plno tlno last target parent = Done sb'
      /\ partition b t (ent sb')
      /\ lines_of (ent sb')
         = map (pass_line (windows chunks plno tlno last) target parent)
               (lines_of (ent sb)).
Proof.
  intros Hne Hfuel Hchunks.
  induction Hchunks as [|c chunks Hc _ IH]; intros sb plno tlno Hpart Hplno;
    cbn [blame_chunks windows].
  - destruct (blame_chunk_flat sb b t tlno plno last target parent fuel
                Hpart Hplno Hne Hfuel) as [Hrun Hp].
    eexists. split; [exact Hrun|]. cbn [ent with_ent].
    split; [exact Hp|apply flat_three_way_lines].
  - destruct (blame_chunk_flat sb b t tlno plno (same c) target parent fuel
                Hpart Hplno Hne Hfuel) as [Hrun Hp].
    rewrite Hrun. cbn [mbind outcome_bind].
    destruct (IH (with_ent sb (flat_map (three_way tlno plno (same c) target
                                                   parent) (ent sb)))
                 (p_next c) (t_next c) Hp Hc) as (sb' & Hrun' & Hp' & Hl).
    exists sb'. split; [exact Hrun'|]. split; [exact Hp'|].
    rewrite Hl. cbn [ent with_ent]. rewrite flat_three_way_lines, map_map.
    apply map_ext. intros x. apply pass_line_cons. exact Hne.
Qed.

(** X6.  [pass_blame_to_parent], line by line.  On a partition in which some
    unresolved entry accuses the target, with a patch none of whose chunks
    points before the first line of the parent, the call returns; the list
    is a partition again; and the blame of the lines is the blame they had,
    except that every unresolved line of the target that lies in a window
    [tlno, same) of the patch is now blamed, unresolved, on the parent at
    [plno + (line - tlno)].  The lines of the target outside every window,
    the lines of other suspects and the guilty lines are as before. *)
Theorem blame_passes_line_by_line
    (E : collaborators) (fuel : nat) (sb : scoreboard) (b t : Z)
    (target parent : origin) (patch : list chunk) :
  partition b t (ent sb) -> cmp_suspect parent target <> 0 ->
  0 <= find_last_in_target sb target ->
  get_patch E parent target = Some patch ->
  Forall (fun c => 0 <= p_next c) patch ->
  (Z.to_nat (t - b) <= fuel)%nat ->
  exists sb',
    pass_blame_to_parent E fuel sb target parent = Done (sb', false)
    /\ partition b t (ent sb')
    /\ lines_of (ent sb')
       = map (pass_line (windows patch 0 0 (find_last_in_target sb target))
                        target parent)
             (lines_of (ent sb)).
Proof.
  intros Hpart Hne Hlast Hpatch Hchunks Hfuel.
  unfold pass_blame_to_parent.
  destruct (Z.ltb_spec (find_last_in_target sb target) 0); [lia|].
  rewrite Hpatch.
  destruct (blame_chunks_lines b t (find_last_in_target sb target) target
              parent fuel patch Hne Hfuel Hchunks sb 0 0 Hpart
              (Z.le_refl 0)) as (sb' & Hrun & Hp & Hl).
  exists sb'. rewrite Hrun. cbn [mbind outcome_bind]. auto.
Qed.

Lemma blame_passes_line_by_line_witness :
  partition 0 3 (ent (insertion_scoreboard sample_target))
  /\ cmp_suspect sample_parent sample_target <> 0
  /\ 0 <= find_last_in_target (insertion_scoreboard sample_target) sample_target
  /\ get_patch insertion_history sample_parent sample_target
     = Some [ {| same := 1; p_next := 1; t_next := 2 |} ]
  /\ exists sb',
       pass_blame_to_parent insertion_history 3
         (insertion_scoreboard sample_target) sample_target sample_parent
       = Done (sb', false)
       /\ lines_of (ent sb')
          = [ {| final_line := 0; line_commit := 1%N; line_path := "f";
                 settled := false; source_line := 0 |};
              {| final_line := 1; line_commit := 2%N; line_path := "f";
                 settled := false; source_line := 1 |};
              {| final_line := 2; line_commit := 1%N; line_path := "f";
                 settled := false; source_line := 1 |} ].
Proof.
  assert (H1 : partition 0 3 (ent (insertion_scoreboard sample_target)))
    by (apply first_entry_partition; lia).
  assert (H2 : cmp_suspect sample_parent sample_target <> 0)
    by (vm_compute; discriminate).
  assert (H3 : 0 <= find_last_in_target (insertion_scoreboard sample_target)
                      sample_target) by (vm_compute; discriminate).
  assert (H4 : get_patch insertion_history sample_parent sample_target
               = Some [ {| same := 1; p_next := 1; t_next := 2 |} ])
    by (vm_compute; reflexivity).
  repeat (split; [assumption|]).
  destruct (blame_passes_line_by_line insertion_history 3
              (insertion_scoreboard sample_target) 0 3 sample_target
              sample_parent _ H1 H2 H3 H4) as (sb' & Hrun & _ & Hl).
  - repeat constructor; cbn; lia.
  - vm_compute; lia.
  - exists sb'. split; [exact Hrun|]. rewrite Hl. reflexivity.
Defined.

(** ** [coalesce], line by line *)

Lemma coalesce_from_lines (rest : list blame_entry) :
  forall e a c,
    linked_up a (e :: rest) c ->
    Forall (fun x => 0 <= num_lines x) (e :: rest) ->
    lines_of (coalesce_from e rest) = lines_of (e :: rest).
Proof.
  induction rest as [|next rest IH]; intros e a c Hlink Hn;
    cbn [coalesce_from]; [reflexivity|].
  destruct (coalescible e next) eqn:Hc; cycle 1.
  { change (lines_of (e :: coalesce_from next rest))
      with (lines_of_entry e ++ lines_of (coalesce_from next rest)).
    cbn [linked_up] in Hlink. destruct Hlink as [_ Hlink].
    inversion Hn as [|? ? _ Hn']; subst.
    rewrite (IH next _ _ Hlink Hn'). reflexivity. }
  cbn [linked_up] in Hlink. destruct Hlink as (Ha & Hnext & Hlink).
  inversion Hn as [|? ? He Hn']; subst.
  inversion Hn' as [|? ? Hnx Hn'']; subst.
  rewrite (IH (absorb e next) (lno e) c).
  - change (lines_of (absorb e next :: rest))
      with (lines_of_entry (absorb e next) ++ lines_of rest).
    change (lines_of (e :: next :: rest))
      with (lines_of_entry e ++ lines_of_entry next ++ lines_of rest).
    rewrite app_assoc. f_equal.
    unfold coalescible in Hc.
    apply andb_true_iff in Hc as [Hc Hs]. apply andb_true_iff in Hc as [Hc Hg].
    apply Z.eqb_eq in Hc, Hs. apply cmp_suspect_eq in Hc as [Hcm Hpa].
    apply Bool.eqb_prop in Hg.
    unfold lines_of_entry, absorb. cbn [lno num_lines suspect guilty s_lno].
    rewrite Z2Nat.inj_add by assumption. rewrite run_of_lines_app.
    rewrite !Z2Nat.id by assumption.
    rewrite Hnext, <- Hs, Hcm, Hpa, Hg. reflexivity.
  - cbn [linked_up absorb lno num_lines]. split; [reflexivity|].
    replace (lno e + (num_lines e + num_lines next))
      with (lno e + num_lines e + num_lines next) by lia.
    exact Hlink.
  - constructor; [cbn; lia|assumption].
Qed.

(** X7.  On a partition, [coalesce] changes no line's blame: the merged list
    reads, line by line, as the list before it (commit, path, guilty flag
    and source line of every line of the range). *)
Theorem coalesce_keeps_every_line (b t : Z) (sb : scoreboard) :
  partition b t (ent sb) ->
  lines_of (ent (coalesce sb)) = lines_of (ent sb).
Proof.
  intros (_ & Hlink & Hsound). unfold coalesce.
  destruct (ent sb) as [|e rest] eqn:Hl; [rewrite Hl; reflexivity|].
  cbn [ent with_ent]. apply (coalesce_from_lines rest e b t Hlink).
  eapply Forall_impl; [exact Hsound|]. intros x [Hx _]. lia.
Qed.

Lemma coalesce_keeps_every_line_witness :
  partition 0 3
    (ent (with_ent (insertion_scoreboard sample_parent)
            [ {| lno := 0; num_lines := 1; suspect := sample_parent;
                 guilty := true; s_lno := 0; score := 7 |};
              {| lno := 1; num_lines := 2; suspect := sample_parent;
                 guilty := true; s_lno := 1; score := 0 |} ]))
  /\ ent (coalesce
            (with_ent (insertion_scoreboard sample_parent)
               [ {| lno := 0; num_lines := 1; suspect := sample_parent;
                    guilty := true; s_lno := 0; score := 7 |};
                 {| lno := 1; num_lines := 2; suspect := sample_parent;
                    guilty := true; s_lno := 1; score := 0 |} ]))
     = [ {| lno := 0; num_lines := 3; suspect := sample_parent;
            guilty := true; s_lno := 0; score := 0 |} ]
  /\ lines_of
       (ent (coalesce
               (with_ent (insertion_scoreboard sample_parent)
                  [ {| lno := 0; num_lines := 1; suspect := sample_parent;
                       guilty := true; s_lno := 0; score := 7 |};
                    {| lno := 1; num_lines := 2; suspect := sample_parent;
                       guilty := true; s_lno := 1; score := 0 |} ])))
     = lines_of
         [ {| lno := 0; num_lines := 1; suspect := sample_parent;
              guilty := true; s_lno := 0; score := 7 |};
           {| lno := 1; num_lines := 2; suspect := sample_parent;
              guilty := true; s_lno := 1; score := 0 |} ].
Proof.
  assert (H : partition 0 3
                [ {| lno := 0; num_lines := 1; suspect := sample_parent;
                     guilty := true; s_lno := 0; score := 7 |};
                  {| lno := 1; num_lines := 2; suspect := sample_parent;
                     guilty := true; s_lno := 1; score := 0 |} ]).
  { split; [discriminate|]. split; [cbn; lia|].
    repeat constructor; cbn; lia. }
  split; [exact H|]. split; [reflexivity|].
  exact (coalesce_keeps_every_line 0 3
           (with_ent (insertion_scoreboard sample_parent) _) H).
Defined.


(** ** The whole run, line by line *)

Lemma linked_up_le (l : list blame_entry) :
  forall a c,
    linked_up a l c -> Forall (fun x => 0 <= num_lines x) l -> a <= c.
Proof.
  induction l as [|x l IH]; intros a c Hl Hf; cbn in Hl; [lia|].
  destruct Hl as [Hx Hl]. inversion Hf as [|? ? Hn Hf']; subst.
  specialize (IH _ _ Hl Hf'). lia.
Qed.

Lemma linked_up_final_lines (l : list blame_entry) :
  forall a c,
    linked_up a l c -> Forall (fun x => 0 <= num_lines x) l ->
    map final_line (lines_of l) = line_range a c.
Proof.
  induction l as [|e l IH]; intros a c Hlink Hn.
  - cbn in Hlink. subst c. unfold line_range. rewrite Z.sub_diag. reflexivity.
  - cbn [linked_up] in Hlink. destruct Hlink as [He Hlink].
    inversion Hn as [|? ? Hen Hn']; subst.
    change (lines_of (e :: l)) with (lines_of_entry e ++ lines_of l).
    rewrite map_app, (IH _ _ Hlink Hn').
    pose proof (linked_up_le l _ _ Hlink Hn') as Hc.
    unfold line_range, lines_of_entry, run_of_lines.
    replace (Z.to_nat (c - lno e))
      with (Z.to_nat (num_lines e) + Z.to_nat (c - (lno e + num_lines e)))%nat
      by lia.
    rewrite seq_app, map_app, map_map. cbn [final_line Nat.add]. f_equal.
    assert (Hs : seq (Z.to_nat (num_lines e))
                     (Z.to_nat (c - (lno e + num_lines e)))
                 = map (Nat.add (Z.to_nat (num_lines e)))
                       (seq 0 (Z.to_nat (c - (lno e + num_lines e))))).
    { pose proof (fmap_add_seq (Z.to_nat (num_lines e)) 0
                    (Z.to_nat (c - (lno e + num_lines e)))) as H.
      rewrite Nat.add_0_r in H. symmetry. exact H. }
    rewrite Hs, map_map. apply map_ext. intros k. lia.
Qed.

Lemma lines_of_guilty (l : list blame_entry) :
  Forall (fun e => guilty e = true) l ->
  Forall (fun x => settled x = true) (lines_of l).
Proof.
  induction 1 as [|e l He _ IH]; [constructor|].
  change (lines_of (e :: l)) with (lines_of_entry e ++ lines_of l).
  apply Forall_app. split; [|exact IH].
  unfold lines_of_entry, run_of_lines. apply Forall_forall. intros x Hx.
  apply list_elem_of_In, in_map_iff in Hx as (k & <- & _). exact He.
Qed.

(** X8.  The run of the engine as [cmd_pickaxe] sets it up (the range, the
    one entry, [assign_blame], [coalesce]): over a history in which every
    parent ranks below its child, for a range that is not empty and with
    enough fuel, the run does not run out of fuel, and when it returns, the
    list read line by line has every line of the range exactly once, in
    ascending order, each of them guilty, and no entry that could still be
    merged with its successor. *)
Theorem every_line_is_blamed_once
    (E : collaborators) (rank : sha1 -> nat) (st : options)
    (final_commit : sha1) (p : string) (o : origin) (buf : list ascii)
    (b t : Z) (fuel : nat) :
  (forall x q, In q (commit_parents E x) -> (rank q < rank x)%nat) ->
  blame_range (opt_bottom st) (opt_top st) (snd (prepare_lines buf))
  = Done (b, t) ->
  0 <= b -> b < t ->
  (Z.to_nat ((Z.of_nat (rank (commit o)) + 1) * (t - b)) + Z.to_nat (t - b)
   < fuel)%nat ->
  terminates (dig E fuel st final_commit p o buf)
  /\ forall sb',
       dig E fuel st final_commit p o buf = Done sb' ->
       map final_line (lines_of (ent sb')) = line_range b t
       /\ Forall (fun x => settled x = true) (lines_of (ent sb'))
       /\ merged (ent sb').
Proof.
  intros Hdag Hrange Hb Ht Hfuel.
  unfold dig, start_blame. cbn zeta. rewrite Hrange. cbn [mbind outcome_bind].
  set (sb := {| final := final_commit; sb_path := p; final_buf := buf;
                ent := [first_entry o b t];
                sb_num_lines := snd (prepare_lines buf);
                lineno := fst (prepare_lines buf);
                origins_made := S (oid o) |}).
  assert (Hpart : partition b t (ent sb))
    by (apply first_entry_partition; assumption).
  assert (Hwork : work rank (ent sb)
                  <= Z.of_nat (Z.to_nat ((Z.of_nat (rank (commit o)) + 1)
                                         * (t - b)))).
  { unfold work. cbn. rewrite Z2Nat.id by nia. lia. }
  pose proof (assign_blame_keeps (effective_scores st) E rank b t (opt st)
                Hdag _ sb fuel Hpart Hwork Hfuel) as Hkeeps.
  destruct (assign_blame (effective_scores st) E fuel sb (opt st))
    as [sb1| |]; cbn [keeps mbind outcome_bind terminates] in *;
    [|split; [exact I|discriminate]|contradiction].
  split; [exact I|]. intros sb' Hsb'. injection Hsb' as <-.
  destruct Hkeeps as [Hguilty Hp1].
  pose proof (coalesce_partition b t sb1 Hp1) as (Hne & Hlink & Hsound).
  split; [|split].
  - apply linked_up_final_lines; [exact Hlink|].
    eapply Forall_impl; [exact Hsound|]. intros x [Hx _]. lia.
  - apply lines_of_guilty. unfold coalesce.
    destruct (ent sb1) as [|e rest] eqn:Hl; [rewrite Hl; constructor|].
    cbn [ent with_ent]. apply coalesce_from_guilty. exact Hguilty.
  - unfold coalesce. destruct (ent sb1) as [|e rest] eqn:Hl;
      [rewrite Hl; exact I|].
    cbn [ent with_ent]. apply coalesce_from_merged.
Qed.

Lemma every_line_is_blamed_once_witness :
  (forall x q, In q (commit_parents insertion_history x) ->
               (N.to_nat q < N.to_nat x)%nat)
  /\ blame_range (opt_bottom no_options) (opt_top no_options)
       (snd (prepare_lines (text lines_after))) = Done (0, 3)
  /\ 0 <= 0 /\ 0 < 3
  /\ (Z.to_nat ((Z.of_nat (N.to_nat (commit sample_tip)) + 1) * (3 - 0))
      + Z.to_nat (3 - 0) < 20)%nat
  /\ exists sb',
       dig insertion_history 20 no_options 3%N "f" sample_tip
           (text lines_after) = Done sb'
       /\ map final_line (lines_of (ent sb')) = [0; 1; 2]
       /\ map line_commit (lines_of (ent sb')) = [1%N; 2%N; 1%N].
Proof.
  assert (H1 : forall x q, In q (commit_parents insertion_history x) ->
                           (N.to_nat q < N.to_nat x)%nat).
  { intros x q. cbn [commit_parents insertion_history].
    destruct (N.eqb_spec x 3) as [->|_]; [intros [<-|[]]; lia|].
    destruct (N.eqb_spec x 2) as [->|_]; [intros [<-|[]]; lia|intros []]. }
  assert (H2 : blame_range (opt_bottom no_options) (opt_top no_options)
                 (snd (prepare_lines (text lines_after))) = Done (0, 3))
    by (vm_compute; reflexivity).
  assert (H3 : 0 <= 0) by lia.
  assert (H4 : 0 < 3) by lia.
  assert (H5 : (Z.to_nat ((Z.of_nat (N.to_nat (commit sample_tip)) + 1)
                          * (3 - 0)) + Z.to_nat (3 - 0) < 20)%nat)
    by (apply Nat.ltb_lt; vm_compute; reflexivity).
  repeat (split; [assumption|]).
  destruct (every_line_is_blamed_once insertion_history N.to_nat no_options
              3%N "f" sample_tip (text lines_after) 0 3 20 H1 H2 H3 H4 H5)
    as [_ Hdone].
  eexists. split; [vm_compute; reflexivity|].
  split; [|reflexivity].
  refine (proj1 (Hdone _ _)). vm_compute. reflexivity.
Defined.

(** ** Where the blame stops *)

Lemma pass_blame_without_parents (G : thresholds) (E : collaborators)
    (fuel : nat) (sb : scoreboard) (s : origin) (opt : Z) :
  commit_parents E (commit s) = [] ->
  pass_blame G E fuel sb s opt = Done sb.
Proof.
  intros Hp. unfold pass_blame. rewrite Hp. cbn.
  rewrite allocate_0.
  destruct (has_flag opt PICKAXE_BLAME_MOVE); cbn;
    destruct (has_flag opt PICKAXE_BLAME_COPY); reflexivity.
Qed.

Lemma plead_guilty_lines (s : origin) (l : list blame_entry) :
  Forall (fun e => guilty e = false -> cmp_suspect (suspect e) s = 0) l ->
  lines_of (map (plead_guilty s) l) = map settle (lines_of l)
  /\ Forall (fun e => guilty e = true) (map (plead_guilty s) l).
Proof.
  induction 1 as [|e l He _ [IH1 IH2]]; [split; [reflexivity|constructor]|].
  cbn [map].
  change (lines_of (plead_guilty s e :: map (plead_guilty s) l))
    with (lines_of_entry (plead_guilty s e)
          ++ lines_of (map (plead_guilty s) l)).
  change (lines_of (e :: l)) with (lines_of_entry e ++ lines_of l).
  rewrite map_app, IH1.
  assert (Hline : lines_of_entry (plead_guilty s e)
                  = map settle (lines_of_entry e)
                  /\ guilty (plead_guilty s e) = true).
  { unfold plead_guilty, lines_of_entry, run_of_lines. rewrite map_map.
    destruct (guilty e) eqn:Hg.
    - destruct (cmp_suspect (suspect e) s =? 0);
        cbn [lno s_lno suspect guilty num_lines]; rewrite ?Hg;
        split; reflexivity.
    - rewrite (He eq_refl). cbn [Z.eqb lno s_lno suspect guilty num_lines].
      split; reflexivity. }
  destruct Hline as [-> Hg]. split; [reflexivity|].
  constructor; assumption.
Qed.

(** X9.  Where the history ends or is cut off, the blame stops.  When the
    commit of the first unresolved suspect has no parents, or is marked
    uninteresting, or is older than the age limit, and every unresolved entry
    accuses that suspect, one round of [assign_blame] ends the run: the list
    is the old one with every entry guilty, merged by [coalesce]; line by
    line, every line keeps its commit, its path and its source line. *)
Theorem blame_stops_at_the_boundary
    (G : thresholds) (E : collaborators) (sb : scoreboard) (opt b t : Z)
    (e0 : blame_entry) (fuel : nat) :
  partition b t (ent sb) ->
  List.find (fun e => negb (guilty e)) (ent sb) = Some e0 ->
  Forall (fun e => guilty e = false ->
                   cmp_suspect (suspect e) (suspect e0) = 0) (ent sb) ->
  worth_digging E (commit (suspect e0)) = false
  \/ commit_parents E (commit (suspect e0)) = [] ->
  assign_blame G E (S fuel) sb opt
  = Done (coalesce (with_ent sb (map (plead_guilty (suspect e0)) (ent sb))))
  /\ lines_of (ent (coalesce
                      (with_ent sb (map (plead_guilty (suspect e0)) (ent sb)))))
     = map settle (lines_of (ent sb)).
Proof.
  intros Hpart Hfind Hall Hstop.
  destruct (plead_guilty_lines (suspect e0) (ent sb) Hall) as [Hlines Hguilty].
  set (sb2 := with_ent sb (map (plead_guilty (suspect e0)) (ent sb))) in *.
  assert (Hp2 : partition b t (ent sb2))
    by (apply plead_guilty_partition; exact Hpart).
  assert (Hg3 : Forall (fun e => guilty e = true) (ent (coalesce sb2))).
  { unfold coalesce. destruct (ent sb2) as [|e rest] eqn:Hl;
      [rewrite Hl; constructor|].
    cbn [ent with_ent]. apply coalesce_from_guilty.
    unfold sb2 in Hl. cbn [ent with_ent] in Hl. rewrite <- Hl. exact Hguilty. }
  assert (Hdone : forall fuel',
             assign_blame G E fuel' (coalesce sb2) opt = Done (coalesce sb2)).
  { intros fuel'.
    assert (Hnone : List.find (fun e => negb (guilty e)) (ent (coalesce sb2))
                    = None).
    { revert Hg3. generalize (ent (coalesce sb2)).
      induction 1 as [|x l Hx _ IH]; [reflexivity|].
      cbn [List.find]. rewrite Hx. exact IH. }
    destruct fuel'; cbn [assign_blame]; rewrite Hnone; reflexivity. }
  split.
  - cbn [assign_blame]. rewrite Hfind.
    assert (Hpass : (if worth_digging E (commit (suspect e0))
                     then pass_blame G E fuel sb (suspect e0) opt
                     else Done sb) = Done sb).
    { destruct Hstop as [-> | Hroot]; [reflexivity|].
      destruct (worth_digging E (commit (suspect e0))); [|reflexivity].
      apply pass_blame_without_parents. exact Hroot. }
    rewrite Hpass. cbn [mbind outcome_bind]. apply Hdone.
  - rewrite <- Hlines. destruct Hp2 as (_ & Hlink & Hsound).
    unfold coalesce. destruct (ent sb2) as [|e rest] eqn:Hl.
    + rewrite Hl. unfold sb2 in Hl. cbn [ent with_ent] in Hl.
      rewrite Hl. reflexivity.
    + cbn [ent with_ent]. unfold sb2 in Hl. cbn [ent with_ent] in Hl.
      rewrite Hl. apply (coalesce_from_lines rest e b t Hlink).
      eapply Forall_impl; [exact Hsound|]. intros x [Hx _]. lia.
Qed.

Lemma blame_stops_at_the_boundary_witness :
  partition 0 3 (ent (insertion_scoreboard sample_parent))
  /\ List.find (fun e => negb (guilty e)) (ent (insertion_scoreboard sample_parent))
     = Some (first_entry sample_parent 0 3)
  /\ commit_parents insertion_history (commit sample_parent) = []
  /\ assign_blame (effective_scores no_options) insertion_history 1
       (insertion_scoreboard sample_parent) 0
     = Done (with_ent (insertion_scoreboard sample_parent)
               [ {| lno := 0; num_lines := 3; suspect := sample_parent;
                    guilty := true; s_lno := 0; score := 0 |} ]).
Proof.
  assert (H1 : partition 0 3 (ent (insertion_scoreboard sample_parent)))
    by (apply first_entry_partition; lia).
  split; [exact H1|]. split; [reflexivity|]. split; [reflexivity|].
  refine (proj1 (blame_stops_at_the_boundary (effective_scores no_options)
                   insertion_history (insertion_scoreboard sample_parent)
                   0 0 3 (first_entry sample_parent 0 3) O H1 eq_refl _
                   (or_intror eq_refl))).
  repeat constructor.
Defined.

(** ** The heap and the sequence *)

(** X10.  [split_blame] on the heap and [split_blame] on the sequence are the
    same run.  On a consistently linked store, for the cell of an entry of
    the list: the heap version neither reads a cell that is not allocated
    nor walks for ever; it builds a consistently linked store that lists
    the entries the sequence version builds, runs the sanity check on that
    list, and ends the process exactly when the sequence version does. *)
Theorem split_blame_on_the_heap
    (st : Linked.store) (l : list (nat * blame_entry)) (i e : nat)
    (x : blame_entry) (pre post : option blame_entry) (mid : blame_entry)
    (sb : scoreboard) :
  Linked.well_linked st l -> l !! i = Some (e, x) -> ent sb = map snd l ->
  exists st1 l1 j,
    Linked.well_linked st1 l1
    /\ Linked.split_blame st pre mid post e
       = (if corrupt (map snd l1) then Fatal else Done st1)
    /\ split_blame sb pre mid post i
       = (if corrupt (map snd l1) then Fatal
          else Done (with_ent sb (map snd l1), j)).
Proof.
  intros Hwl Hi Hent.
  destruct (linked_split_stage st l i e x pre post mid Hwl Hi)
    as (st1 & l1 & E1 & H1 & M1).
  exists st1, l1. eexists. split; [exact H1|]. split.
  - unfold Linked.split_blame. rewrite E1. cbn [mbind outcome_bind].
    pose proof (well_linked_size _ _ H1) as Hsize.
    pose proof H1 as ((lst & Hseg) & _ & _).
    destruct l1 as [|[h y] l1].
    { cbn [Linked.seg] in Hseg. destruct Hseg as [Hh _]. rewrite Hh.
      reflexivity. }
    pose proof (seg_first _ _ _ _ _ _ _ _ Hseg) as Hh. rewrite Hh.
    destruct (seg_allocated _ _ _ _ _ _ h y Hseg) as (c & Hc & Hf);
      [left; reflexivity|].
    unfold Linked.read. rewrite Hc. cbn [mbind outcome_bind].
    rewrite <- Hh.
    rewrite (linked_sanity _ _ _ _ _ _ _ Hseg) by lia.
    cbn [mbind outcome_bind]. rewrite Hf. unfold corrupt. cbn [map snd].
    destruct (snd (fold_left sanity_step (y :: map snd l1) (lno y, false)));
      reflexivity.
  - unfold split_blame. cbn zeta. rewrite Hent, <- M1. reflexivity.
Qed.

Lemma split_blame_on_the_heap_witness :
  Linked.well_linked (Linked.first_store sample_target 0 3)
                     [(O, first_entry sample_target 0 3)]
  /\ [(O, first_entry sample_target 0 3)] !! O
     = Some (O, first_entry sample_target 0 3)
  /\ ent (insertion_scoreboard sample_target)
     = map snd [(O, first_entry sample_target 0 3)]
  /\ exists st1 l1,
       Linked.well_linked st1 l1
       /\ Linked.split_blame (Linked.first_store sample_target 0 3)
            (split0 middle_line_split) middle_line
            (split2 middle_line_split) O = Done st1
       /\ map (fun y => (lno y, num_lines y)) (map snd l1)
          = [(0, 1); (1, 1); (2, 1)].
Proof.
  split; [apply first_store_linked|]. split; [reflexivity|].
  split; [reflexivity|].
  destruct (split_blame_on_the_heap
              (Linked.first_store sample_target 0 3)
              [(O, first_entry sample_target 0 3)] O O
              (first_entry sample_target 0 3)
              (split0 middle_line_split) (split2 middle_line_split)
              middle_line (insertion_scoreboard sample_target)
              (first_store_linked sample_target 0 3) eq_refl eq_refl)
    as (st1 & l1 & j & Hwl & Hheap & Hseq).
  exists st1, l1. split; [exact Hwl|].
  assert (Hrun : split_blame (insertion_scoreboard sample_target)
                   (split0 middle_line_split) middle_line
                   (split2 middle_line_split) O
                 = Done (with_ent (insertion_scoreboard sample_target)
                           [ {| lno := 0; num_lines := 1;
                                suspect := sample_target; guilty := false;
                                s_lno := 0; score := 0 |};
                             middle_line;
                             {| lno := 2; num_lines := 1;
                                suspect := sample_target; guilty := false;
                                s_lno := 2; score := 0 |} ], O))
    by (vm_compute; reflexivity).
  rewrite Hrun in Hseq.
  destruct (corrupt (map snd l1)); [discriminate Hseq|].
  split; [exact Hheap|].
  injection Hseq as Hl _. rewrite <- Hl. reflexivity.
Defined.

(** X11.  [coalesce] on the heap and [coalesce] on the sequence are the same
    run.  On a consistently linked store the heap version returns, without
    reading a cell it has freed and within as many rounds as there are cells;
    the store it leaves is consistently linked, lists the entries the
    sequence version leaves, and holds one cell for each of them: what was
    merged away is freed, what is left is linked. *)
Theorem coalesce_on_the_heap
    (st : Linked.store) (l : list (nat * blame_entry)) (sb : scoreboard) :
  Linked.well_linked st l -> ent sb = map snd l ->
  exists st' l',
    Linked.coalesce st = Done st'
    /\ Linked.well_linked st' l'
    /\ map snd l' = ent (coalesce sb)
    /\ Linked.head st' = Linked.head st
    /\ size (Linked.cells st') = length (ent (coalesce sb))
    /\ (size (Linked.cells st') <= size (Linked.cells st))%nat.
Proof.
  intros Hwl Hent.
  destruct (linked_coalesce st l Hwl) as (st' & l' & Hrun & Hwl' & Hseq).
  exists st', l'. split; [exact Hrun|]. split; [exact Hwl'|].
  specialize (Hseq sb Hent).
  split; [symmetry; exact Hseq|]. split.
  - unfold Linked.coalesce in Hrun.
    destruct (Linked.coalesce_loop _ _ _); cbn in Hrun; try discriminate.
    injection Hrun as <-. reflexivity.
  - rewrite (well_linked_size _ _ Hwl'), (well_linked_size _ _ Hwl).
    rewrite Hseq, length_map. split; [reflexivity|].
    rewrite <- (length_map snd l'), <- Hseq, <- (length_map snd l), <- Hent.
    unfold coalesce. destruct (ent sb) as [|e rest] eqn:Hl;
      [rewrite Hl; cbn; lia|].
    cbn [ent with_ent length]. clear.
    revert e. induction rest as [|next rest IH]; intros e;
      cbn [coalesce_from length]; [lia|].
    destruct (coalescible e next); [specialize (IH (absorb e next))|
                                    specialize (IH next)];
      cbn [length] in *; lia.
Qed.

Lemma three_line_store_linked :
  Linked.well_linked three_line_store
    [(0%nat, line_at 0); (2%nat, line_at 1); (1%nat, line_at 2)].
Proof.
  split; [|split].
  - exists (Some 1%nat). cbn [Linked.seg].
    split; [reflexivity|]. eexists. split; [vm_compute; reflexivity|].
    split; [reflexivity|]. split; [reflexivity|].
    split; [reflexivity|]. eexists. split; [vm_compute; reflexivity|].
    split; [reflexivity|]. split; [reflexivity|].
    split; [reflexivity|]. eexists. split; [vm_compute; reflexivity|].
    split; [reflexivity|]. split; [reflexivity|].
    split; reflexivity.
  - apply (bool_decide_eq_true_1 _). vm_compute. reflexivity.
  - apply (bool_decide_eq_true_1 _). vm_compute. reflexivity.
Qed.

Lemma coalesce_on_the_heap_witness :
  Linked.well_linked three_line_store
    [(0%nat, line_at 0); (2%nat, line_at 1); (1%nat, line_at 2)]
  /\ size (Linked.cells three_line_store) = 3%nat
  /\ exists st' l',
       Linked.coalesce three_line_store = Done st'
       /\ Linked.well_linked st' l'
       /\ map snd l' = [first_entry sample_target 0 3]
       /\ size (Linked.cells st') = 1%nat.
Proof.
  split; [exact three_line_store_linked|].
  split; [vm_compute; reflexivity|].
  destruct (coalesce_on_the_heap three_line_store
              [(0%nat, line_at 0); (2%nat, line_at 1); (1%nat, line_at 2)]
              (with_ent (insertion_scoreboard sample_target)
                 [line_at 0; line_at 1; line_at 2])
              three_line_store_linked eq_refl)
    as (st' & l' & Hrun & Hwl & Hmap & _ & Hsize & _).
  exists st', l'. split; [exact Hrun|]. split; [exact Hwl|].
  split; [exact Hmap|exact Hsize].
Defined.


(** ** The commit header *)

Lemma split_without_blank (s : list ascii) :
  no_blank s = true -> split_at_last_blank s = None.
Proof.
  induction s as [|a s IH]; intros H; [reflexivity|].
  cbn [no_blank forallb] in H. apply andb_true_iff in H as [Ha Hs].
  apply negb_true_iff in Ha. cbn [split_at_last_blank].
  rewrite (IH Hs), Ha. reflexivity.
Qed.

Lemma split_at_the_last_blank (before behind : list ascii) :
  no_blank behind = true ->
  split_at_last_blank (before ++ blank :: behind) = Some (before, behind).
Proof.
  intros H. induction before as [|a before IH]; cbn [app split_at_last_blank].
  - rewrite (split_without_blank _ H). reflexivity.
  - rewrite IH. reflexivity.
Qed.

Lemma strchr_behind (line rest : list ascii) :
  no_newline line = true ->
  strchr (line ++ rest) newline = strchr rest newline.
Proof.
  induction line as [|a line IH]; intros H; [reflexivity|].
  cbn [no_newline forallb] in H. apply andb_true_iff in H as [Ha Hl].
  apply negb_true_iff in Ha. cbn [app strchr]. rewrite Ha. apply IH, Hl.
Qed.

Lemma digit_is_no_space (c : ascii) (d : Z) :
  digit_of c = Some d ->
  isspace c = false /\ Ascii.eqb c "-" = false /\ Ascii.eqb c "+" = false.
Proof.
  unfold digit_of, isspace. intros H.
  destruct ((48 <=? Z.of_N (N_of_ascii c)) && (Z.of_N (N_of_ascii c) <=? 57))
    eqn:E; [|discriminate].
  apply andb_true_iff in E as [E1 E2]. apply Z.leb_le in E1, E2.
  split; [|split].
  - destruct (Z.eqb_spec (Z.of_N (N_of_ascii c)) 32); [lia|].
    destruct (Z.leb_spec 9 (Z.of_N (N_of_ascii c))),
             (Z.leb_spec (Z.of_N (N_of_ascii c)) 13); cbn; try reflexivity; lia.
  - destruct (Ascii.eqb_spec c "-"); [subst; cbn in *; lia|reflexivity].
  - destruct (Ascii.eqb_spec c "+"); [subst; cbn in *; lia|reflexivity].
Qed.

(** [strtoul] on a blank and a plain decimal number. *)
Lemma strtoul_blank_decimal (d : string) :
  plain_decimal d = true ->
  strtoul (String blank d) = (Z.min ULONG_MAX (decimal_value d), EmptyString).
Proof.
  intros Hd. destruct d as [|c d]; [discriminate|].
  cbn [plain_decimal all_digits] in Hd.
  assert (Hc : exists v, digit_of c = Some v).
  { apply andb_true_iff in Hd as [Hc _]. cbn in Hc.
    destruct (digit_of c); [eauto|discriminate]. }
  destruct Hc as [v Hv].
  destruct (digit_is_no_space c v Hv) as (Hsp & Hminus & Hplus).
  unfold strtoul.
  change (skip_spaces (String blank (String c d)))
    with (skip_spaces (String c d)).
  cbn [skip_spaces]. rewrite Hsp. unfold take_sign. rewrite Hminus, Hplus.
  cbn [fst snd starts_with_digit]. rewrite Hv.
  rewrite (scan_digits_all_digits (String c d) 0 Hd). cbn [fst snd].
  fold (decimal_value (String c d)).
  destruct (Z.ltb_spec ULONG_MAX (decimal_value (String c d))); f_equal; lia.
Qed.

(** X12.  [get_ac_line] reads an identity line back.  When the first place
    the key occurs at is followed by a name (blanks allowed), a blank, a
    mail, a blank, a plain decimal time, a blank and a time zone, with no
    blank inside the last three and the line ending at a newline or at the
    end of the buffer, and the line fits the person buffer, the call returns
    the name, the mail, the time as a number (capped at [ULONG_MAX]) and the
    time zone. *)
Theorem get_ac_line_reads_the_line
    (inbuf what person name mail tz rest : list ascii) (time : string)
    (bufsz : Z) :
  strstr inbuf what
  = Some (what ++ (name ++ blank :: mail ++ blank :: list_ascii_of_string time
                        ++ blank :: tz) ++ rest) ->
  no_newline name = true -> no_newline mail = true -> no_newline tz = true ->
  no_blank mail = true -> no_blank tz = true -> plain_decimal time = true ->
  rest = [] \/ (exists rest', rest = newline :: rest') ->
  Z.of_nat (length (name ++ blank :: mail ++ blank
                         :: list_ascii_of_string time ++ blank :: tz))
  < bufsz ->
  get_ac_line inbuf what bufsz person
  = Some {| ac_person := name; ac_mail := mail;
            ac_time := Z.min ULONG_MAX (decimal_value time); ac_tz := tz |}.
Proof.
  intros Hfound Hn Hm Htz Hbm Hbt Htime Hrest Hfit.
  set (digits := list_ascii_of_string time) in *.
  assert (Hdigits : no_blank digits = true /\ no_newline digits = true).
  { unfold digits. destruct time as [|c d]; [discriminate|].
    cbn [plain_decimal] in Htime. revert Htime.
    generalize (String c d). clear. intros s.
    induction s as [|a s IH]; intros H; [split; reflexivity|].
    cbn [all_digits] in H. apply andb_true_iff in H as [Ha Hs].
    destruct (IH Hs) as [IH1 IH2].
    cbn [list_ascii_of_string no_blank no_newline forallb].
    fold (no_blank (list_ascii_of_string s)).
    fold (no_newline (list_ascii_of_string s)). rewrite IH1, IH2.
    cbn in Ha. destruct (digit_of a) as [v|] eqn:Hv; [|discriminate].
    unfold digit_of in Hv.
    destruct ((48 <=? Z.of_N (N_of_ascii a)) && (Z.of_N (N_of_ascii a) <=? 57))
      eqn:E; [|discriminate].
    apply andb_true_iff in E as [E1 E2]. apply Z.leb_le in E1, E2.
    split.
    - destruct (Ascii.eqb_spec a blank); [subst; cbn in *; lia|reflexivity].
    - destruct (Ascii.eqb_spec a newline); [subst; cbn in *; lia|reflexivity]. }
  destruct Hdigits as [Hbd Hnd].
  set (line := name ++ blank :: mail ++ blank :: digits ++ blank :: tz) in *.
  assert (Hline : no_newline line = true).
  { unfold line, no_newline in *.
    rewrite !forallb_app; cbn [forallb]; rewrite !forallb_app; cbn [forallb].
    rewrite !forallb_app; cbn [forallb].
    rewrite Hn, Hm, Hnd, Htz. reflexivity. }
  unfold get_ac_line. rewrite Hfound, drop_app_length.
  rewrite (strchr_behind line rest Hline).
  assert (Hlen : match strchr rest newline with
                 | Some endp => (length (line ++ rest) - length endp)%nat
                 | None => length (line ++ rest)
                 end = length line).
  { destruct Hrest as [-> | [rest' ->]].
    - cbn [strchr]. rewrite app_nil_r. reflexivity.
    - cbn [strchr]. rewrite Ascii.eqb_refl, length_app. lia. }
  rewrite Hlen.
  destruct (Z.leb_spec bufsz (Z.of_nat (length line))); [lia|].
  rewrite take_app_length.
  unfold line.
  replace (name ++ blank :: mail ++ blank :: digits ++ blank :: tz)
    with ((name ++ blank :: mail ++ blank :: digits) ++ blank :: tz)
    by (rewrite <- !app_assoc; cbn [app]; rewrite <- !app_assoc;
        reflexivity).
  rewrite (split_at_the_last_blank _ tz Hbt). cbn [mbind option_bind].
  replace (name ++ blank :: mail ++ blank :: digits)
    with ((name ++ blank :: mail) ++ blank :: digits)
    by (rewrite <- !app_assoc; reflexivity).
  rewrite (split_at_the_last_blank _ digits Hbd). cbn [mbind option_bind].
  rewrite (split_at_the_last_blank name mail Hbm). cbn [mbind option_bind].
  unfold digits. cbn [string_of_list_ascii].
  rewrite string_of_list_ascii_of_string.
  rewrite (strtoul_blank_decimal time Htime). reflexivity.
Qed.

Lemma get_ac_line_reads_the_line_witness :
  strstr (list_ascii_of_string
            (String.append (line "tree 0")
               (line "author A U Thor <author@example.com> 1161298804 -0700")))
         (newline :: list_ascii_of_string "author ")
  = Some ((newline :: list_ascii_of_string "author ")
          ++ (list_ascii_of_string "A U Thor"
              ++ blank :: list_ascii_of_string "<author@example.com>"
              ++ blank :: list_ascii_of_string "1161298804"
              ++ blank :: list_ascii_of_string "-0700")
          ++ [newline])
  /\ get_ac_line
       (list_ascii_of_string
          (String.append (line "tree 0")
             (line "author A U Thor <author@example.com> 1161298804 -0700")))
       (newline :: list_ascii_of_string "author ") 1024 []
     = Some {| ac_person := list_ascii_of_string "A U Thor";
               ac_mail := list_ascii_of_string "<author@example.com>";
               ac_time := 1161298804;
               ac_tz := list_ascii_of_string "-0700" |}.
Proof.
  split; [reflexivity|].
  apply (get_ac_line_reads_the_line _ _ [] (list_ascii_of_string "A U Thor")
           (list_ascii_of_string "<author@example.com>")
           (list_ascii_of_string "-0700") [newline] "1161298804" 1024);
    try reflexivity.
  right. exists []. reflexivity.
Defined.

Lemma get_ac_line_missing (inbuf what : list ascii) (bufsz : Z)
    (person : list ascii) :
  strstr inbuf what = None ->
  get_ac_line inbuf what bufsz person
  = Some {| ac_person := person; ac_mail := unknown_text; ac_time := 0;
            ac_tz := unknown_text |}.
Proof. intros H. unfold get_ac_line. rewrite H. reflexivity. Qed.

(** X13.  A commit text without an author line: [get_commit_info] reports
    the mail and the time zone as ["(unknown)"] and the time as 0, and for the
    author's name whatever the static buffer held before the call, which it
    leaves as it was: the name of the commit shown last. *)
Theorem missing_author_shows_the_last_name
    (hex buffer : list ascii) (bufs bufs' : static_buffers) (ci : commit_info) :
  strstr buffer (newline :: list_ascii_of_string "author ") = None ->
  get_commit_info hex buffer bufs = Some (ci, bufs') ->
  author ci = author_buf bufs
  /\ author_mail ci = unknown_text /\ author_time ci = 0
  /\ author_tz ci = unknown_text
  /\ author_buf bufs' = author_buf bufs.
Proof.
  intros Hmiss Hrun. unfold get_commit_info in Hrun.
  rewrite (get_ac_line_missing _ _ BUFFER_SIZE (author_buf bufs) Hmiss)
    in Hrun.
  cbn [mbind option_bind] in Hrun.
  destruct (get_ac_line buffer _ BUFFER_SIZE (committer_buf bufs)) as [c|];
    [|discriminate].
  cbn [mbind option_bind] in Hrun. injection Hrun as <- <-.
  cbn. auto.
Qed.

Lemma missing_author_shows_the_last_name_witness :
  strstr authorless_commit_text (newline :: list_ascii_of_string "author ")
  = None
  /\ exists ci bufs',
       get_commit_info (list_ascii_of_string "0123") authorless_commit_text
         {| author_buf := list_ascii_of_string "A U Thor";
            committer_buf := []; summary_buf := [] |}
       = Some (ci, bufs')
       /\ author ci = list_ascii_of_string "A U Thor"
       /\ committer ci = list_ascii_of_string "C O Mitter"
       /\ summary ci = list_ascii_of_string "(0123)".
Proof.
  split; [reflexivity|].
  eexists _, _. split; [reflexivity|].
  split; [|split; reflexivity].
  exact (proj1 (missing_author_shows_the_last_name
                  (list_ascii_of_string "0123") authorless_commit_text
                  {| author_buf := list_ascii_of_string "A U Thor";
                     committer_buf := []; summary_buf := [] |}
                  _ _ eq_refl eq_refl)).
Defined.

(** ** The porcelain output *)

Lemma other_path_follows_spec (e : blame_entry) (rest : list blame_entry) :
  other_path_follows e rest = true
  <-> exists e', In e' rest /\ commit (suspect e') = commit (suspect e)
                 /\ path (suspect e') <> path (suspect e).
Proof.
  unfold other_path_follows. rewrite existsb_exists. split.
  - intros (e' & Hin & H). apply andb_true_iff in H as [Hc Hp].
    apply N.eqb_eq in Hc. apply negb_true_iff, Z.eqb_neq in Hp.
    exists e'. split; [exact Hin|]. split; [exact Hc|].
    intros Heq. apply Hp, strcmp_eq. exact Heq.
  - intros (e' & Hin & Hc & Hp). exists e'. split; [exact Hin|].
    rewrite Hc, N.eqb_refl. cbn [andb]. apply negb_true_iff, Z.eqb_neq.
    intros H. apply Hp, strcmp_eq. exact H.
Qed.

Lemma two_paths_cons (e : blame_entry) (rest : list blame_entry) (c : sha1) :
  blamed_under_two_paths (e :: rest) c
  <-> (commit (suspect e) = c
       /\ exists e', In e' rest /\ commit (suspect e') = c
                     /\ path (suspect e) <> path (suspect e'))
      \/ blamed_under_two_paths rest c.
Proof.
  unfold blamed_under_two_paths. split.
  - intros (i & j & x & y & Hij & Hi & Hj & Hx & Hy & Hp).
    destruct j as [|j]; [lia|]. cbn in Hj. destruct i as [|i].
    + cbn in Hi. injection Hi as <-. left. split; [exact Hx|].
      exists y. split; [|auto].
      apply list_elem_of_In. eapply list_elem_of_lookup_2. exact Hj.
    + cbn in Hi. right. exists i, j, x, y. repeat split; auto. lia.
  - intros [(Hx & y & Hin & Hy & Hp)|(i & j & x & y & Hij & Hi & Hj & H)].
    + apply list_elem_of_In, list_elem_of_lookup_1 in Hin as [j Hj].
      exists O, (S j), e, y. repeat split; auto. lia.
    + exists (S i), (S j), x, y. repeat split; try tauto. lia.
Qed.

Lemma flagged_cons (c c0 : sha1) (l : list sha1) :
  flagged c (c0 :: l) = (c =? c0)%N || flagged c l.
Proof. reflexivity. Qed.

Lemma mark_more_than_one_path_spec (l : list blame_entry) :
  forall marked c,
    flagged c (mark_more_than_one_path l marked) = true
    <-> flagged c marked = true \/ blamed_under_two_paths l c.
Proof.
  induction l as [|e rest IH]; intros marked c; cbn [mark_more_than_one_path].
  - split; [auto|]. intros [H|(i & j & x & y & _ & Hi & _)]; [exact H|].
    discriminate.
  - rewrite two_paths_cons.
    destruct (flagged (commit (suspect e)) marked) eqn:Hfl.
    + rewrite IH. split; [tauto|].
      intros [H|[[<- _]|H]]; auto.
    + destruct (other_path_follows e rest) eqn:Hfo.
      * rewrite IH, flagged_cons, orb_true_iff, N.eqb_eq.
        apply other_path_follows_spec in Hfo as (y & Hin & Hy & Hp).
        split.
        -- intros [[->|H]|H]; auto.
           right. left. split; [reflexivity|]. exists y. auto.
        -- intros [H|[[<- _]|H]]; auto.
      * rewrite IH. split; [tauto|].
        intros [H|[[Hc (y & Hin & Hy & Hp)]|H]]; auto.
        exfalso.
        assert (other_path_follows e rest = true).
        { apply other_path_follows_spec. exists y. rewrite Hc, Hy. auto. }
        congruence.
Qed.

Lemma porcelain_lines_plain (e : blame_entry) (n : nat) :
  forall cnt cp items,
    porcelain_lines e cnt n cp = Some items ->
    has_info items = false /\ has_bare_filename items = false.
Proof.
  induction n as [|n IH]; intros cnt cp items H; cbn [porcelain_lines] in H.
  - injection H as <-. auto.
  - destruct cp as [|ch cp]; [discriminate|].
    destruct (porcelain_lines e (cnt + 1) n (snd (read_line (ch :: cp))))
      as [rest|] eqn:Hrest; [|discriminate].
    cbn [mbind option_bind] in H. injection H as <-.
    destruct (IH _ _ _ Hrest) as [H1 H2].
    unfold has_info, has_bare_filename in *.
    destruct (cnt =? 0); cbn [app existsb orb]; auto.
Qed.

Lemma emit_porcelain_meta (hex_of buffer_of : sha1 -> list ascii)
    (sb : scoreboard) (e : blame_entry) (fl fl' : shown_flags)
    (bufs bufs' : static_buffers) (out : list printed) :
  emit_porcelain hex_of buffer_of sb e fl bufs = Some (out, fl', bufs') ->
  has_info out = negb (flagged (commit (suspect e)) (metainfo_shown fl))
  /\ has_bare_filename out
     = flagged (commit (suspect e)) (metainfo_shown fl)
       && flagged (commit (suspect e)) (more_than_one_path fl)
  /\ more_than_one_path fl' = more_than_one_path fl
  /\ (forall c, flagged c (metainfo_shown fl')
                = (c =? commit (suspect e))%N || flagged c (metainfo_shown fl)).
Proof.
  unfold emit_porcelain. intros H.
  destruct (flagged (commit (suspect e)) (metainfo_shown fl)) eqn:Hshown;
    cbn [negb] in H.
  - assert (Hc : forall c, flagged c (metainfo_shown fl)
                           = (c =? commit (suspect e))%N
                             || flagged c (metainfo_shown fl)).
    { intros c. destruct (N.eqb_spec c (commit (suspect e))) as [->|];
        [rewrite Hshown|]; reflexivity. }
    destruct (flagged (commit (suspect e)) (more_than_one_path fl));
      cbn [mbind option_bind] in H;
      destruct (porcelain_lines e 0 _ _) as [lines|] eqn:Hl;
      cbn [mbind option_bind] in H; try discriminate;
      injection H as <- <- <-;
      destruct (porcelain_lines_plain _ _ _ _ _ Hl) as [H1 H2];
      unfold has_info, has_bare_filename in *; cbn [app existsb orb];
      rewrite ?H1, ?H2; auto.
  - destruct (get_commit_info _ _ bufs) as [[ci b1]|]; [|discriminate].
    cbn [mbind option_bind] in H.
    destruct (porcelain_lines e 0 _ _) as [lines|] eqn:Hl;
      cbn [mbind option_bind] in H; [|discriminate].
    injection H as <- <- <-.
    destruct (porcelain_lines_plain _ _ _ _ _ Hl) as [H1 H2].
    unfold has_info, has_bare_filename in *. cbn [app existsb orb].
    rewrite ?H1, ?H2. cbn [metainfo_shown more_than_one_path]. auto.
Qed.

Lemma emit_entries_meta (hex_of buffer_of : sha1 -> list ascii)
    (sb : scoreboard) (l : list blame_entry) :
  forall fl bufs outs,
    emit_entries hex_of buffer_of sb l fl bufs = Some outs ->
    length outs = length l
    /\ forall k e out,
         l !! k = Some e -> outs !! k = Some out ->
         has_info out
         = negb (flagged (commit (suspect e)) (metainfo_shown fl))
           && negb (existsb (fun x => (commit (suspect x)
                                       =? commit (suspect e))%N)
                            (take k l))
         /\ has_bare_filename out
            = negb (has_info out)
              && flagged (commit (suspect e)) (more_than_one_path fl).
Proof.
  induction l as [|e0 rest IH]; intros fl bufs outs H; cbn [emit_entries] in H.
  - injection H as <-. split; [reflexivity|]. intros k e out Hk. discriminate.
  - destruct (emit_porcelain hex_of buffer_of sb e0 fl bufs)
      as [[[out0 fl1] bufs1]|] eqn:He; [|discriminate].
    cbn [mbind option_bind] in H.
    destruct (emit_entries hex_of buffer_of sb rest fl1 bufs1)
      as [outs1|] eqn:Hr; [|discriminate].
    cbn [mbind option_bind] in H. injection H as <-.
    destruct (IH _ _ _ Hr) as [Hlen Hall].
    destruct (emit_porcelain_meta _ _ _ _ _ _ _ _ _ He)
      as (Hi0 & Hf0 & Hmore & Hshown).
    split; [cbn; rewrite Hlen; reflexivity|].
    intros [|k] e out Hk Hout; cbn in Hk, Hout.
    + injection Hk as <-. injection Hout as <-. cbn [take existsb].
      rewrite Hi0, Hf0, andb_true_r.
      destruct (flagged (commit (suspect e0)) (metainfo_shown fl));
        split; reflexivity.
    + destruct (Hall k e out Hk Hout) as [H1 H2].
      rewrite H2, H1, Hmore, Hshown. cbn [take existsb].
      rewrite (N.eqb_sym (commit (suspect e0)) (commit (suspect e))).
      split; [|reflexivity].
      destruct ((commit (suspect e) =? commit (suspect e0))%N),
               (flagged (commit (suspect e)) (metainfo_shown fl));
        reflexivity.
Qed.

(** X14.  The porcelain output shows the information of a commit once.  With
    no flag set before, the group of an entry carries the ten lines of
    commit information exactly when no earlier entry has the same commit;
    and it carries the file name on a line of its own exactly when an
    earlier entry has the same commit and that commit is blamed, somewhere
    in the list, under two different paths. *)
Theorem commit_information_is_shown_once
    (hex_of buffer_of : sha1 -> list ascii) (sb : scoreboard)
    (bufs : static_buffers) (outs : list (list printed)) :
  output_porcelain hex_of buffer_of sb
    {| metainfo_shown := []; more_than_one_path := [] |} bufs = Some outs ->
  length outs = length (ent sb)
  /\ forall k e out,
       ent sb !! k = Some e -> outs !! k = Some out ->
       (has_info out = true
        <-> forall j e', (j < k)%nat -> ent sb !! j = Some e' ->
                         commit (suspect e') <> commit (suspect e))
       /\ (has_bare_filename out = true
           <-> (exists j e', (j < k)%nat /\ ent sb !! j = Some e'
                             /\ commit (suspect e') = commit (suspect e))
               /\ blamed_under_two_paths (ent sb) (commit (suspect e))).
Proof.
  unfold output_porcelain. cbn [metainfo_shown more_than_one_path].
  intros H. destruct (emit_entries_meta _ _ _ _ _ _ _ H) as [Hlen Hall].
  split; [exact Hlen|]. intros k e out Hk Hout.
  destruct (Hall k e out Hk Hout) as [Hinfo Hname].
  cbn [metainfo_shown more_than_one_path flagged existsb negb andb] in *.
  assert (Hearlier :
            existsb (fun x => (commit (suspect x) =? commit (suspect e))%N)
                    (take k (ent sb)) = true
            <-> exists j e', (j < k)%nat /\ ent sb !! j = Some e'
                             /\ commit (suspect e') = commit (suspect e)).
  { rewrite existsb_exists. split.
    - intros (x & Hin & Hx). apply N.eqb_eq in Hx.
      apply list_elem_of_In, list_elem_of_lookup_1 in Hin as [j Hj].
      apply lookup_take_Some in Hj as [Hj Hlt]. eauto.
    - intros (j & x & Hlt & Hj & Hx). exists x. split.
      + apply list_elem_of_In. eapply list_elem_of_lookup_2.
        apply lookup_take_Some. eauto.
      + apply N.eqb_eq. exact Hx. }
  assert (Hmark : existsb (N.eqb (commit (suspect e)))
                    (mark_more_than_one_path (ent sb) []) = true
                  <-> blamed_under_two_paths (ent sb) (commit (suspect e))).
  { pose proof (mark_more_than_one_path_spec (ent sb) [] (commit (suspect e)))
      as Hm. unfold flagged in Hm. cbn [existsb] in Hm. rewrite Hm.
    split; [intros [H0|H0]; [discriminate|exact H0]|auto]. }
  split.
  - rewrite Hinfo, negb_true_iff. split.
    + intros Hnone j e' Hj He' Heq.
      assert (Hsome : existsb
                        (fun x => (commit (suspect x) =? commit (suspect e))%N)
                        (take k (ent sb)) = true)
        by (apply Hearlier; eauto).
      congruence.
    + intros Hno. apply not_true_iff_false. intros Hyes.
      apply Hearlier in Hyes as (j & e' & Hj & He' & Heq).
      exact (Hno j e' Hj He' Heq).
  - rewrite Hname, Hinfo, negb_involutive, andb_true_iff, Hearlier, Hmark.
    reflexivity.
Qed.

Lemma commit_information_is_shown_once_witness :
  exists outs,
    output_porcelain sample_hex sample_buffer blamed_scoreboard
      {| metainfo_shown := []; more_than_one_path := [] |} no_buffers
    = Some outs
    /\ map has_info outs = [true; true; false]
    /\ map has_bare_filename outs = [false; false; false]
    /\ length outs = length (ent blamed_scoreboard).
Proof.
  eexists. split; [vm_compute; reflexivity|].
  split; [reflexivity|]. split; [reflexivity|].
  refine (proj1 (commit_information_is_shown_once sample_hex sample_buffer
                   blamed_scoreboard no_buffers _ _)).
  vm_compute. reflexivity.
Defined.

(** ** The porcelain output and the file *)

Lemma read_line_complete (body rest : list ascii) :
  no_newline body = true ->
  read_line ((body ++ [newline]) ++ rest) = (body ++ [newline], rest).
Proof.
  intros H. rewrite <- app_assoc. cbn [app].
  induction body as [|c body IH]; cbn [app read_line].
  - rewrite Ascii.eqb_refl. reflexivity.
  - cbn [no_newline forallb] in H. apply andb_true_iff in H as [Hc Hb].
    apply negb_true_iff in Hc. rewrite Hc.
    specialize (IH Hb).
    destruct (body ++ newline :: rest) as [|x xs] eqn:Hx.
    + destruct body; discriminate.
    + rewrite IH. reflexivity.
Qed.

Lemma read_line_cut (tail : list ascii) :
  no_newline tail = true -> tail <> [] -> read_line tail = (tail, []).
Proof.
  induction tail as [|c tail IH]; intros H Hne; [congruence|].
  cbn [no_newline forallb] in H. apply andb_true_iff in H as [Hc Hb].
  apply negb_true_iff in Hc. cbn [read_line]. rewrite Hc.
  destruct tail as [|x xs]; [reflexivity|].
  rewrite IH by (auto; discriminate). reflexivity.
Qed.

Lemma offsets_lookup (lines : list (list ascii)) :
  forall pos i,
    (i <= length lines)%nat ->
    offsets pos (map (fun l => Z.of_nat (length l)) lines) !! i
    = Some (pos + Z.of_nat (length (concat (take i lines)))).
Proof.
  induction lines as [|x lines IH]; intros pos i Hi.
  - cbn in Hi. replace i with O by lia. cbn. f_equal. lia.
  - destruct i as [|i]; [cbn; f_equal; lia|].
    cbn [length] in Hi. cbn [map offsets take concat].
    change ((pos :: offsets (pos + Z.of_nat (length x))
                      (map (fun l0 => Z.of_nat (length l0)) lines)) !! S i)
      with (offsets (pos + Z.of_nat (length x))
                    (map (fun l0 => Z.of_nat (length l0)) lines) !! i).
    rewrite IH by lia. rewrite length_app. f_equal. lia.
Qed.

Lemma prepare_lines_table (bodies : list (list ascii)) (tail : list ascii) :
  forallb no_newline bodies = true -> no_newline tail = true ->
  fst (prepare_lines (concat (file_lines bodies tail)))
  = offsets 0 (map (fun l => Z.of_nat (length l)) (file_lines bodies tail)).
Proof.
  intros Hbs Ht.
  pose proof (line_starts_offsets bodies tail 0 Hbs Ht) as Hoff.
  rewrite Z.add_0_l in Hoff. unfold prepare_lines. cbn [fst]. exact Hoff.
Qed.

Section Porcelain.

Variables (hex_of buffer_of : sha1 -> list ascii).
Variables (bodies : list (list ascii)) (tail : list ascii) (sb : scoreboard).

Hypothesis bodies_ok : forallb no_newline bodies = true.
Hypothesis tail_ok : no_newline tail = true.
Hypothesis buffer_ok : final_buf sb = concat (file_lines bodies tail).
Hypothesis table_ok : lineno sb = fst (prepare_lines (final_buf sb)).
Hypothesis headers_ok :
  forall c bufs, get_commit_info (hex_of c) (buffer_of c) bufs <> None.

Let lines : list (list ascii) := file_lines bodies tail.

Lemma file_line_read (i : nat) (l : list ascii) :
  lines !! i = Some l ->
  l <> []
  /\ read_line (concat (drop i lines)) = (l, concat (drop (S i) lines)).
Proof.
  intros Hi. rewrite (drop_S _ _ _ Hi). cbn [concat].
  unfold lines, file_lines in Hi. apply lookup_app_Some in Hi as [Hi|[Hlen Hi]].
  - change (map (fun body => body ++ [newline]) bodies)
      with ((fun body => body ++ [newline]) <$> bodies) in Hi.
    apply list_lookup_fmap_Some in Hi as (body & -> & Hb).
    split; [destruct body; discriminate|].
    apply read_line_complete.
    rewrite forallb_forall in bodies_ok. apply bodies_ok.
    apply list_elem_of_In. eapply list_elem_of_lookup_2. exact Hb.
  - destruct tail as [|c tl] eqn:Ht; [discriminate|].
    destruct (i - length (map (fun body => body ++ [newline]) bodies))%nat
      as [|k] eqn:Hk; [|discriminate].
    cbn in Hi. injection Hi as <-. split; [discriminate|].
    rewrite drop_ge.
    + cbn [concat]. rewrite app_nil_r. apply read_line_cut;
        [exact tail_ok|discriminate].
    + unfold lines, file_lines. rewrite length_app. cbn [length]. lia.
Qed.

Lemma start_of_line (i : nat) :
  (i <= length lines)%nat ->
  drop (Z.to_nat (nth_line sb (Z.of_nat i))) (final_buf sb)
  = concat (drop i lines).
Proof.
  intros Hi. unfold nth_line.
  rewrite table_ok, buffer_ok, prepare_lines_table, Nat2Z.id by assumption.
  fold lines. rewrite (offsets_lookup lines 0 i Hi).
  cbn [default from_option]. unfold id.
  replace (Z.to_nat (0 + Z.of_nat (length (concat (take i lines)))))
    with (length (concat (take i lines))) by lia.
  rewrite <- (take_drop i lines) at 2. rewrite concat_app.
  apply drop_app_length.
Qed.

Lemma porcelain_lines_read (e : blame_entry) (n : nat) :
  forall i cnt,
    (i + n <= length lines)%nat -> 0 < cnt ->
    exists items,
      porcelain_lines e cnt n (concat (drop i lines)) = Some items
      /\ text_of items = concat (take n (drop i lines))
      /\ numbers_of items
         = map (fun k => (s_lno e + 1 + (cnt + Z.of_nat k),
                          lno e + 1 + (cnt + Z.of_nat k)))
               (seq 0 n).
Proof.
  induction n as [|n IH]; intros i cnt Hin Hcnt; cbn [porcelain_lines].
  - exists []. auto.
  - destruct (lookup_lt_is_Some_2 lines i ltac:(lia)) as [l Hl].
    destruct (file_line_read i l Hl) as [Hne Hread].
    destruct (concat (drop i lines)) as [|ch cp] eqn:Hcp.
    { rewrite (drop_S _ _ _ Hl) in Hcp. cbn [concat] in Hcp.
      destruct l; [congruence|discriminate]. }
    rewrite Hread. cbn [fst snd].
    destruct (IH (S i) (cnt + 1) ltac:(lia) ltac:(lia))
      as (rest & Hrest & Htext & Hnum).
    rewrite Hrest. cbn [mbind option_bind].
    destruct (Z.eqb_spec cnt 0); [lia|].
    eexists. split; [reflexivity|]. split.
    + unfold text_of in *. cbn [app flat_map]. rewrite Htext.
      rewrite (drop_S _ _ _ Hl). reflexivity.
    + unfold numbers_of in *. cbn [app flat_map seq map]. rewrite Hnum.
      f_equal; [f_equal; lia|].
      rewrite <- seq_shift, map_map. apply map_ext. intros k.
      f_equal; lia.
Qed.

Lemma porcelain_group_read (e : blame_entry) (fl : shown_flags)
    (bufs : static_buffers) :
  0 <= lno e -> 1 <= num_lines e ->
  lno e + num_lines e <= Z.of_nat (length lines) ->
  exists out fl' bufs',
    emit_porcelain hex_of buffer_of sb e fl bufs = Some (out, fl', bufs')
    /\ text_of out
       = concat (take (Z.to_nat (num_lines e)) (drop (Z.to_nat (lno e)) lines))
    /\ numbers_of out
       = map (fun x => (source_line x + 1, final_line x + 1))
             (lines_of_entry e).
Proof.
  intros Hlo Hn Hhi.
  assert (Hmeta : exists meta fl' bufs',
             (if negb (flagged (commit (suspect e)) (metainfo_shown fl)) then
                '(ci, bufs') ← get_commit_info (hex_of (commit (suspect e)))
                                 (buffer_of (commit (suspect e))) bufs;
                Some ([Info ci (path (suspect e))],
                      {| metainfo_shown :=
                           commit (suspect e) :: metainfo_shown fl;
                         more_than_one_path := more_than_one_path fl |},
                      bufs')
              else if flagged (commit (suspect e)) (more_than_one_path fl)
                   then Some ([Filename (path (suspect e))], fl, bufs)
                   else Some ([], fl, bufs))
             = Some (meta, fl', bufs')
             /\ text_of meta = [] /\ numbers_of meta = []).
  { destruct (negb (flagged (commit (suspect e)) (metainfo_shown fl))).
    - pose proof (headers_ok (commit (suspect e)) bufs) as Hok.
      destruct (get_commit_info _ _ bufs) as [[ci b1]|]; [|congruence].
      cbn [mbind option_bind]. eexists _, _, _. split; [reflexivity|].
      split; reflexivity.
    - destruct (flagged (commit (suspect e)) (more_than_one_path fl));
        eexists _, _, _; (split; [reflexivity|]); split; reflexivity. }
  destruct Hmeta as (meta & fl' & bufs' & Hm & Hmt & Hmn).
  unfold emit_porcelain. cbn zeta. rewrite Hm. cbn [mbind option_bind].
  assert (Hstart : drop (Z.to_nat (nth_line sb (lno e))) (final_buf sb)
                   = concat (drop (Z.to_nat (lno e)) lines)).
  { rewrite <- start_of_line by lia. rewrite Z2Nat.id by lia. reflexivity. }
  rewrite Hstart.
  destruct (Z.to_nat (num_lines e)) as [|n] eqn:Hnat; [lia|].
  cbn [porcelain_lines].
  destruct (lookup_lt_is_Some_2 lines (Z.to_nat (lno e)) ltac:(lia))
    as [l Hl].
  destruct (file_line_read _ l Hl) as [Hne Hread].
  destruct (concat (drop (Z.to_nat (lno e)) lines)) as [|ch cp] eqn:Hcp.
  { rewrite (drop_S _ _ _ Hl) in Hcp. cbn [concat] in Hcp.
    destruct l; [congruence|discriminate]. }
  rewrite Hread. cbn [fst snd].
  destruct (porcelain_lines_read e n (S (Z.to_nat (lno e))) (0 + 1)
              ltac:(lia) ltac:(lia)) as (rest & Hrest & Htext & Hnum).
  rewrite Hrest. cbn [mbind option_bind Z.eqb app].
  eexists _, _, _. split; [reflexivity|]. split.
  - unfold text_of in *. cbn [flat_map app]. rewrite flat_map_app, Hmt.
    cbn [flat_map app]. rewrite Htext, (drop_S _ _ _ Hl). reflexivity.
  - unfold numbers_of in *. cbn [flat_map app]. rewrite flat_map_app, Hmn.
    cbn [flat_map app]. rewrite Hnum.
    unfold lines_of_entry, run_of_lines. rewrite Hnat, map_map.
    cbn [seq map source_line final_line]. f_equal; [f_equal; lia|].
    rewrite <- seq_shift, map_map. apply map_ext. intros k.
    cbn [source_line final_line]. f_equal; lia.
Qed.

Lemma emit_entries_read (l : list blame_entry) :
  forall a c fl bufs,
    linked_up a l c -> Forall sound_entry l ->
    0 <= a -> c <= Z.of_nat (length lines) ->
    exists outs,
      emit_entries hex_of buffer_of sb l fl bufs = Some outs
      /\ concat (map text_of outs)
         = concat (take (Z.to_nat (c - a)) (drop (Z.to_nat a) lines))
      /\ concat (map numbers_of outs)
         = map (fun x => (source_line x + 1, final_line x + 1)) (lines_of l).
Proof.
  induction l as [|e l IH]; intros a c fl bufs Hlink Hsound Ha Hc;
    cbn [emit_entries].
  - cbn in Hlink. subst c. exists []. rewrite Z.sub_diag. auto.
  - cbn [linked_up] in Hlink. destruct Hlink as [He Hlink].
    inversion Hsound as [|? ? [Hn Hs] Hsound']; subst.
    assert (Hle : lno e + num_lines e <= c).
    { apply (linked_up_le l _ _ Hlink).
      eapply Forall_impl; [exact Hsound'|]. intros x [Hx _]. lia. }
    destruct (porcelain_group_read e fl bufs Ha Hn ltac:(lia))
      as (out & fl' & bufs' & Hout & Htext & Hnum).
    rewrite Hout. cbn [mbind option_bind].
    destruct (IH (lno e + num_lines e) c fl' bufs' Hlink Hsound'
                 ltac:(lia) Hc) as (outs & Houts & Htexts & Hnums).
    rewrite Houts. cbn [mbind option_bind].
    eexists. split; [reflexivity|]. cbn [map concat]. split.
    + rewrite Htext, Htexts, <- concat_app. f_equal.
      replace (Z.to_nat (c - lno e))
        with (Z.to_nat (num_lines e)
              + Z.to_nat (c - (lno e + num_lines e)))%nat by lia.
      rewrite <- take_take_drop, drop_drop. rewrite Z2Nat.inj_add by lia. reflexivity.
    + rewrite Hnum, Hnums.
      change (lines_of (e :: l)) with (lines_of_entry e ++ lines_of l).
      rewrite map_app. reflexivity.
Qed.

End Porcelain.

(** X15.  The porcelain output and the file.  For a file made of lines, the
    line table of [prepare_lines], a partition of the lines from [b] up to
    [t] within the file, and commit texts that [get_commit_info] can read,
    [output] returns, one group for each entry; the bytes behind the tabs,
    put together, are the lines [b] up to [t] of the file, byte for byte;
    and the numbers that open the lines are, in order, one more than the
    source line and the final line of every line of the list. *)
Theorem porcelain_prints_the_file
    (hex_of buffer_of : sha1 -> list ascii)
    (bodies : list (list ascii)) (tail : list ascii) (sb : scoreboard)
    (b t : Z) (fl : shown_flags) (bufs : static_buffers) :
  forallb no_newline bodies = true -> no_newline tail = true ->
  final_buf sb = concat (file_lines bodies tail) ->
  lineno sb = fst (prepare_lines (final_buf sb)) ->
  (forall c bufs0, get_commit_info (hex_of c) (buffer_of c) bufs0 <> None) ->
  partition b t (ent sb) -> 0 <= b ->
  t <= Z.of_nat (length (file_lines bodies tail)) ->
  exists outs,
    output_porcelain hex_of buffer_of sb fl bufs = Some outs
    /\ length outs = length (ent sb)
    /\ concat (map text_of outs)
       = concat (take (Z.to_nat (t - b))
                      (drop (Z.to_nat b) (file_lines bodies tail)))
    /\ concat (map numbers_of outs)
       = map (fun x => (source_line x + 1, final_line x + 1))
             (lines_of (ent sb)).
Proof.
  intros Hbs Ht Hbuf Htable Hok (_ & Hlink & Hsound) Hb Hrange.
  unfold output_porcelain.
  destruct (emit_entries_read hex_of buffer_of bodies tail sb Hbs Ht Hbuf
              Htable Hok (ent sb) b t
              {| metainfo_shown := metainfo_shown fl;
                 more_than_one_path :=
                   mark_more_than_one_path (ent sb) (more_than_one_path fl) |}
              bufs Hlink Hsound Hb Hrange) as (outs & Hrun & Htext & Hnum).
  exists outs. split; [exact Hrun|].
  split; [exact (proj1 (emit_entries_meta _ _ _ _ _ _ _ Hrun))|]. auto.
Qed.

Lemma porcelain_prints_the_file_witness :
  exists outs,
    output_porcelain sample_hex sample_buffer blamed_scoreboard
      {| metainfo_shown := []; more_than_one_path := [] |} no_buffers
    = Some outs
    /\ length outs = 3%nat
    /\ concat (map text_of outs) = text lines_after
    /\ concat (map numbers_of outs) = [(1, 1); (2, 2); (2, 3)].
Proof.
  refine (porcelain_prints_the_file sample_hex sample_buffer
            (map list_ascii_of_string lines_after) [] blamed_scoreboard 0 3
            {| metainfo_shown := []; more_than_one_path := [] |} no_buffers
            _ _ _ _ _ _ _ _).
  - vm_compute. reflexivity.
  - vm_compute. reflexivity.
  - vm_compute. reflexivity.
  - vm_compute. reflexivity.
  - intros c bufs0. unfold sample_hex, sample_buffer.
    destruct (c =? 1)%N; vm_compute; discriminate.
  - vm_compute. repeat split; try lia; try discriminate;
      repeat constructor; try lia; try discriminate.
  - lia.
  - vm_compute. discriminate.
Defined.

(** ** The commits a run can blame *)

Lemma for_each_entry_invariant (I : list blame_entry -> Prop)
    (body : scoreboard -> nat -> blame_entry -> outcome (scoreboard * nat)) :
  (forall sb i e sb' i',
     I (ent sb) -> ent sb !! i = Some e ->
     body sb i e = Done (sb', i') -> I (ent sb')) ->
  forall fuel sb i sb',
    I (ent sb) ->
    for_each_entry fuel body sb i = Done sb' ->
    I (ent sb').
Proof.
  intros Hbody. induction fuel as [|fuel IH]; intros sb i sb' Hl;
    cbn [for_each_entry]; destruct (ent sb !! i) as [e|] eqn:He;
    try discriminate; try (intros H; injection H as <-; exact Hl).
  destruct (body sb i e) as [[sb1 i1]| |] eqn:Hb; cbn; try discriminate.
  apply IH. eapply Hbody; eauto.
Qed.

Lemma over_parents_invariant {X : Type} (I : list blame_entry -> Prop)
    (Q : X -> Prop)
    (step : scoreboard -> X -> outcome (scoreboard * bool)) (xs : list X) :
  (forall sb x sb' stop,
     Q x -> I (ent sb) -> step sb x = Done (sb', stop) -> I (ent sb')) ->
  Forall Q xs ->
  forall sb sb' stop,
    I (ent sb) ->
    over_parents step sb xs = Done (sb', stop) ->
    I (ent sb').
Proof.
  intros Hstep HQ. induction HQ as [|x xs Hx _ IH]; intros sb sb' stop Hl;
    cbn [over_parents]; [intros H; injection H as <- _; exact Hl|].
  destruct (step sb x) as [[sb1 stop1]| |] eqn:Hs; cbn; try discriminate.
  pose proof (Hstep _ _ _ _ Hx Hl Hs) as Hl1.
  destruct stop1; [intros H; injection H as <- _; exact Hl1|].
  apply IH, Hl1.
Qed.

Section Drawn.

Variables (G : thresholds) (E : collaborators) (P : origin -> Prop).

Lemma add_blame_entry_drawn (l : list blame_entry) (x : blame_entry) :
  drawn_from P l -> P (suspect x) ->
  drawn_from P (add_blame_entry l x).
Proof.
  intros Hl Hx. induction Hl as [|a l Ha Hl IH]; cbn [add_blame_entry].
  - constructor; [exact Hx|constructor].
  - destruct (lno a <? lno x).
    + constructor; [exact Ha|exact IH].
    + constructor; [exact Hx|]. constructor; assumption.
Qed.

Lemma split_blame_drawn (sb sb' : scoreboard) (pre post : option blame_entry)
    (mid : blame_entry) (i j : nat) :
  drawn_from P (ent sb) ->
  (forall x, pre = Some x -> P (suspect x)) ->
  P (suspect mid) ->
  (forall x, post = Some x -> P (suspect x)) ->
  split_blame sb pre mid post i = Done (sb', j) ->
  drawn_from P (ent sb').
Proof.
  intros Hl Hpre Hmid Hpost. unfold split_blame. cbn zeta.
  destruct (corrupt _); [discriminate|].
  intros H. injection H as <- _. cbn [ent with_ent].
  destruct pre as [s0|], post as [s2|]; cbn [add_tracking fst];
    repeat apply add_blame_entry_drawn; auto;
    apply Forall_insert; auto; cbn [dup_entry suspect]; auto.
Qed.

Lemma split_overlap_suspects (e : blame_entry) (tlno plno same : Z)
    (o : origin) :
  (forall x, split0 (split_overlap e tlno plno same o) = Some x ->
             suspect x = suspect e)
  /\ (forall x, split1 (split_overlap e tlno plno same o) = Some x ->
                suspect x = o)
  /\ (forall x, split2 (split_overlap e tlno plno same o) = Some x ->
                suspect x = suspect e).
Proof.
  unfold split_overlap. cbn [split0 split1 split2].
  repeat split; intros x;
    repeat match goal with
           | |- context [if ?c then _ else _] => destruct c
           end;
    intros H; try discriminate; injection H as <-; reflexivity.
Qed.

Lemma proposal_drawn (e mid : blame_entry) (sp : split3) :
  proposal e P sp -> P (suspect e) ->
  split1 sp = Some mid ->
  (forall x, split0 sp = Some x -> P (suspect x))
  /\ P (suspect mid)
  /\ (forall x, split2 sp = Some x -> P (suspect x)).
Proof.
  intros [Hnone|(tl & pl & sm & o & m & m' & HQ & H1 & H0 & H2 & Hm & Hs)]
         He Hmid; [congruence|].
  destruct (split_overlap_suspects e tl pl sm o) as (S0 & S1 & S2).
  rewrite Hm in Hmid. injection Hmid as <-.
  destruct Hs as (_ & _ & Hsus & _).
  repeat split.
  - intros x Hx. rewrite H0 in Hx. rewrite (S0 _ Hx). exact He.
  - rewrite Hsus, (S1 _ H1). exact HQ.
  - intros x Hx. rewrite H2 in Hx. rewrite (S2 _ Hx). exact He.
Qed.

Lemma apply_above_drawn (limit : Z) (sb sb' : scoreboard) (sp : split3)
    (i j : nat) (e : blame_entry) :
  drawn_from P (ent sb) -> P (suspect e) ->
  proposal e P sp ->
  apply_above limit sb sp i = Done (sb', j) ->
  drawn_from P (ent sb').
Proof.
  intros Hl He Hp. unfold apply_above.
  destruct (split1 sp) as [mid|] eqn:Hmid.
  - destruct (proposal_drawn e mid sp Hp He Hmid) as (H0 & H1 & H2).
    destruct (limit <? ent_score sb mid).
    + apply split_blame_drawn; auto.
    + intros H. injection H as <- _. exact Hl.
  - intros H. injection H as <- _. exact Hl.
Qed.

Lemma entry_drawn (l : list blame_entry) (i : nat) (e : blame_entry) :
  drawn_from P l -> l !! i = Some e -> P (suspect e).
Proof.
  intros Hl He. unfold drawn_from in Hl. rewrite Forall_forall in Hl.
  apply Hl. eapply list_elem_of_lookup_2, He.
Qed.

Lemma blame_chunk_drawn (fuel : nat) (sb sb' : scoreboard)
    (tlno plno same : Z) (target parent : origin) :
  P parent -> drawn_from P (ent sb) ->
  blame_chunk fuel sb tlno plno same target parent = Done sb' ->
  drawn_from P (ent sb').
Proof.
  intros Hp Hl. unfold blame_chunk.
  apply (for_each_entry_invariant (drawn_from P)); [|exact Hl].
  intros sb0 i e sb1 i1 Hl0 He. unfold blame_chunk_body.
  destruct (passed_over e target); [intros H; injection H as <- _; exact Hl0|].
  destruct (same <=? s_lno e); [intros H; injection H as <- _; exact Hl0|].
  destruct (tlno <? s_lno e + num_lines e);
    [|intros H; injection H as <- _; exact Hl0].
  unfold blame_overlap. cbn zeta.
  destruct (split1 (split_overlap e tlno plno same parent)) as [mid|] eqn:Hmid;
    [|intros H; injection H as <- _; exact Hl0].
  pose proof (entry_drawn _ _ _ Hl0 He) as HA.
  destruct (split_overlap_suspects e tlno plno same parent) as (S0 & S1 & S2).
  apply split_blame_drawn; auto.
  - intros x Hx. rewrite (S0 _ Hx). exact HA.
  - rewrite (S1 _ Hmid). exact Hp.
  - intros x Hx. rewrite (S2 _ Hx). exact HA.
Qed.

Lemma blame_chunks_drawn (fuel : nat) (target parent : origin)
    (last : Z) (chunks : list chunk) :
  P parent ->
  forall sb sb' plno tlno,
    drawn_from P (ent sb) ->
    blame_chunks fuel sb chunks plno tlno last target parent = Done sb' ->
    drawn_from P (ent sb').
Proof.
  intros Hp. induction chunks as [|c chunks IH]; intros sb sb' plno tlno Hl;
    cbn [blame_chunks].
  - apply blame_chunk_drawn; assumption.
  - destruct (blame_chunk fuel sb tlno plno (same c) target parent)
      as [sb1| |] eqn:H1; cbn; try discriminate.
    apply IH. eapply blame_chunk_drawn; eauto.
Qed.

Lemma pass_blame_to_parent_drawn (fuel : nat) (sb sb' : scoreboard)
    (target parent : origin) (stop : bool) :
  P parent -> drawn_from P (ent sb) ->
  pass_blame_to_parent E fuel sb target parent = Done (sb', stop) ->
  drawn_from P (ent sb').
Proof.
  intros Hp Hl. unfold pass_blame_to_parent. cbn zeta.
  destruct (find_last_in_target sb target <? 0);
    [intros H; injection H as <- _; exact Hl|].
  destruct (get_patch E parent target) as [patch|]; [|discriminate].
  destruct (blame_chunks fuel sb patch 0 0 _ target parent) as [sb1| |] eqn:H1;
    cbn; try discriminate.
  intros H. injection H as <- _. eapply blame_chunks_drawn; eauto.
Qed.

Lemma find_move_in_parent_drawn (fuel : nat) (sb sb' : scoreboard)
    (target parent : origin) (stop : bool) :
  P parent -> drawn_from P (ent sb) ->
  find_move_in_parent G E fuel sb target parent = Done (sb', stop) ->
  drawn_from P (ent sb').
Proof.
  intros Hp Hl. unfold find_move_in_parent.
  destruct (find_last_in_target sb target <? 0);
    [intros H; injection H as <- _; exact Hl|].
  destruct (read_sha1_file E (blob_sha1 parent)) as [file_p|];
    [|intros H; injection H as <- _; exact Hl].
  destruct (for_each_entry fuel _ sb O) as [sb1| |] eqn:H1; cbn;
    try discriminate.
  intros H. injection H as <- _. revert H1.
  apply (for_each_entry_invariant (drawn_from P)); [|exact Hl].
  intros sb0 i e sb2 i2 Hl0 He. unfold move_body.
  destruct (passed_over e target); [intros H; injection H as <- _; exact Hl0|].
  apply (apply_above_drawn _ _ _ _ _ _ e); auto.
  - eapply entry_drawn; eauto.
  - apply find_copy_in_blob_proposal. exact Hp.
Qed.

Lemma coalesce_from_drawn (rest : list blame_entry) :
  forall e, drawn_from P (e :: rest) ->
            drawn_from P (coalesce_from e rest).
Proof.
  induction rest as [|next rest IH]; intros e H; cbn [coalesce_from];
    [exact H|].
  inversion H as [|? ? He H']; subst.
  destruct (coalescible e next).
  - apply IH. inversion H'; subst. constructor; assumption.
  - constructor; [exact He|]. apply IH, H'.
Qed.

Lemma coalesce_drawn (sb : scoreboard) :
  drawn_from P (ent sb) -> drawn_from P (ent (coalesce sb)).
Proof.
  unfold coalesce. destruct (ent sb) as [|e rest] eqn:Hl; intros H;
    [rewrite Hl; exact H|].
  cbn [ent with_ent]. apply coalesce_from_drawn, H.
Qed.

Lemma plead_guilty_drawn (s : origin) (l : list blame_entry) :
  drawn_from P l -> drawn_from P (map (plead_guilty s) l).
Proof.
  intros H. induction H as [|x l Hx _ IH]; cbn [map]; constructor; auto.
  unfold plead_guilty. destruct (_ =? 0); exact Hx.
Qed.

End Drawn.

Section Within.

Variables (G : thresholds) (E : collaborators) (A : sha1 -> Prop).

Let within (o : origin) : Prop := A (commit o).

Lemma copy_candidates_within (sb : scoreboard) (e : blame_entry)
    (parent : sha1) (porigin : option origin) (queue : list diff_filepair) :
  A parent ->
  forall split split',
    proposal e within split ->
    copy_candidates E sb e parent porigin queue split = Done split' ->
    proposal e within split'.
Proof.
  intros Hp. revert sb.
  induction queue as [|p queue IH]; intros sb split split' Hs;
    cbn [copy_candidates]; [intros H; injection H as <-; exact Hs|].
  destruct (negb (fs_valid (one p))); [apply IH, Hs|].
  destruct (match porigin with
            | Some po => strcmp (fs_path (one p)) (path po) =? 0
            | None => false
            end); [apply IH, Hs|].
  destruct (find_origin E sb parent (fs_path (one p))) as [norigin|] eqn:Hf;
    [|discriminate].
  destruct (read_sha1_file E (blob_sha1 norigin)) as [file_p|];
    [|apply IH, Hs].
  apply IH. apply copy_split_if_better_proposal; [exact Hs|].
  apply find_copy_in_blob_proposal. unfold within.
  rewrite (find_origin_commit E _ _ _ _ Hf). exact Hp.
Qed.

Lemma find_copy_in_parent_within (fuel : nat) (sb sb' : scoreboard)
    (target : origin) (parent : sha1) (porigin : option origin) (opt : Z)
    (stop : bool) :
  A parent -> blamed_within A (ent sb) ->
  find_copy_in_parent G E fuel sb target parent porigin opt
  = Done (sb', stop) ->
  blamed_within A (ent sb').
Proof.
  intros Hp Hl. unfold find_copy_in_parent.
  destruct (find_last_in_target sb target <? 0);
    [intros H; injection H as <- _; exact Hl|].
  cbn zeta.
  destruct (for_each_entry fuel _ sb O) as [sb1| |] eqn:H1; cbn;
    try discriminate.
  intros H. injection H as <- _. revert H1.
  apply (for_each_entry_invariant (blamed_within A)); [|exact Hl].
  intros sb0 i e sb2 i2 Hl0 He Hrun.
  apply then_allocate_done in Hrun as (sb3 & Hrun & ->). revert Hrun.
  unfold copy_body.
  destruct (passed_over e target); [intros H; injection H as <- _; exact Hl0|].
  destruct (copy_candidates E sb0 e parent porigin _ no_split)
    as [split| |] eqn:Hc; cbn; try discriminate.
  apply (apply_above_drawn within _ _ _ _ _ _ e); auto.
  - eapply (entry_drawn within); eauto.
  - eapply copy_candidates_within; [exact Hp| |exact Hc]. left. reflexivity.
Qed.

Lemma resolve_parents_within (sb : scoreboard) (o : origin)
    (parents : list sha1) :
  Forall A parents ->
  match resolve_parents E sb o parents with
  | SameBlob po => within po
  | Resolved pos =>
      Forall (fun x => match x with Some po => within po | None => True end)
             pos
      /\ Forall (fun pp => A (fst pp)) (zip parents pos)
  end.
Proof.
  intros Hparents. revert sb.
  induction Hparents as [|p parents Hp _ IH]; intros sb;
    cbn [resolve_parents]; [split; constructor|].
  specialize (IH (allocate 1 sb)).
  destruct (parent_origin_of E sb o p) as [po|] eqn:Hpo.
  - assert (Hin : within po).
    { unfold within. rewrite (parent_origin_of_commit E _ _ _ _ Hpo).
      exact Hp. }
    destruct (hashcmp (blob_sha1 po) (blob_sha1 o) =? 0); [exact Hin|].
    destruct (resolve_parents E (allocate 1 sb) o parents) as [po'|pos];
      [exact IH|].
    destruct IH as [IH1 IH2]. split; constructor; auto.
  - destruct (resolve_parents E (allocate 1 sb) o parents) as [po'|pos];
      [exact IH|].
    destruct IH as [IH1 IH2]. split; constructor; cbn; auto.
Qed.

Lemma pass_blame_within (fuel : nat) (sb sb' : scoreboard) (o : origin)
    (opt : Z) :
  Forall A (take MAXPARENT (commit_parents E (commit o))) ->
  blamed_within A (ent sb) ->
  pass_blame G E fuel sb o opt = Done sb' ->
  blamed_within A (ent sb').
Proof.
  intros Hparents Hl. unfold pass_blame. cbn zeta.
  pose proof (resolve_parents_within sb o _ Hparents) as Hres.
  destruct (resolve_parents E sb o
              (take MAXPARENT (commit_parents E (commit o)))) as [po|pos].
  - intros H. injection H as <-. cbn [ent with_ent].
    unfold blamed_within in *. rewrite Forall_forall in Hl.
    apply Forall_forall. intros x Hx.
    apply list_elem_of_fmap in Hx as (y & -> & Hy). unfold hand_over.
    destruct (decide (suspect y = o)); cbn [suspect]; [exact Hres|].
    apply Hl, Hy.
  - destruct Hres as [Hpos Hzip].
    destruct (over_parents _ _ pos) as [[sb1 stop1]| |] eqn:H1; cbn;
      try discriminate.
    assert (Hl1 : blamed_within A (ent sb1)).
    { refine (over_parents_invariant (blamed_within A) _ _ _ _ Hpos
                (allocate _ sb) _ _ Hl H1).
      intros sb0 [po|] sb2 stop Hq Hl0; cbn [skip_unresolved];
        [|intros H; injection H as <- _; exact Hl0].
      apply (pass_blame_to_parent_drawn E within _ _ _ o po stop);
        assumption. }
    destruct stop1; [intros H; injection H as <-; exact Hl1|].
    destruct (if has_flag opt PICKAXE_BLAME_MOVE then _ else _)
      as [[sb2 stop2]| |] eqn:H2; cbn; try discriminate.
    assert (Hl2 : blamed_within A (ent sb2)).
    { destruct (has_flag opt PICKAXE_BLAME_MOVE);
        [|injection H2 as <- _; exact Hl1].
      refine (over_parents_invariant (blamed_within A) _ _ _ _ Hpos
                _ _ _ Hl1 H2).
      intros sb0 [po|] sb3 stop Hq Hl0; cbn [skip_unresolved];
        [|intros H; injection H as <- _; exact Hl0].
      apply (find_move_in_parent_drawn G E within _ _ _ o po stop);
        assumption. }
    destruct stop2; [intros H; injection H as <-; exact Hl2|].
    destruct (if has_flag opt PICKAXE_BLAME_COPY then _ else _)
      as [[sb3 stop3]| |] eqn:H3; cbn; try discriminate.
    intros H. injection H as <-.
    destruct (has_flag opt PICKAXE_BLAME_COPY);
      [|injection H3 as <- _; exact Hl2].
    refine (over_parents_invariant (blamed_within A) _ _ _ _ Hzip
              _ _ _ Hl2 H3).
    intros sb0 pp sb4 stop Hq Hl0.
    apply find_copy_in_parent_within; assumption.
Qed.

Lemma coalesce_within (sb : scoreboard) :
  blamed_within A (ent sb) -> blamed_within A (ent (coalesce sb)).
Proof. apply (coalesce_drawn within). Qed.

Lemma plead_guilty_within (s : origin) (l : list blame_entry) :
  blamed_within A l -> blamed_within A (map (plead_guilty s) l).
Proof. apply (plead_guilty_drawn within). Qed.

End Within.

Lemma assign_blame_within (G : thresholds) (E : collaborators) (root : sha1)
    (opt : Z) (fuel : nat) :
  forall sb sb',
    blamed_within (reaches E root) (ent sb) ->
    assign_blame G E fuel sb opt = Done sb' ->
    blamed_within (reaches E root) (ent sb').
Proof.
  induction fuel as [|fuel IH]; intros sb sb' Hl; cbn [assign_blame];
    destruct (List.find (fun e => negb (guilty e)) (ent sb)) as [e0|] eqn:Hf;
    try discriminate; try (intros H; injection H as <-; exact Hl).
  assert (He0 : reaches E root (commit (suspect e0))).
  { apply find_some in Hf as [Hin _]. unfold blamed_within in Hl.
    rewrite Forall_forall in Hl. apply Hl, list_elem_of_In, Hin. }
  destruct (if worth_digging E (commit (suspect e0)) then _ else _)
    as [sb1| |] eqn:H1; cbn; try discriminate.
  apply IH. apply coalesce_within. cbn [ent with_ent].
  apply plead_guilty_within.
  destruct (worth_digging E (commit (suspect e0))) eqn:Hw;
    [|injection H1 as <-; exact Hl].
  revert H1. apply pass_blame_within; [|exact Hl].
  apply Forall_forall. intros p Hp.
  eapply reaches_parent; [exact He0|exact Hw|]. apply list_elem_of_In, Hp.
Qed.

(** X16.  Blame stays within the history.  Whatever the options, the list a
    run of the engine returns (the range, the one entry, [assign_blame] with
    the mover and the copier as the options ask, [coalesce]) accuses only
    commits reached from the commit blame starts at: that commit, and from
    a commit that is neither uninteresting nor older than the age limit,
    its first sixteen parents. *)
Theorem blame_stays_within_the_history
    (E : collaborators) (fuel : nat) (st : options) (final_commit : sha1)
    (p : string) (o : origin) (buf : list ascii) (sb' : scoreboard) :
  dig E fuel st final_commit p o buf = Done sb' ->
  blamed_within (reaches E (commit o)) (ent sb').
Proof.
  unfold dig, start_blame. cbn zeta.
  destruct (blame_range _ _ _) as [[b t]| |]; cbn; try discriminate.
  destruct (assign_blame _ E fuel _ (opt st)) as [sb1| |] eqn:H1; cbn;
    try discriminate.
  intros H. injection H as <-. apply coalesce_within.
  revert H1. apply assign_blame_within. cbn [ent].
  constructor; [|constructor]. cbn [first_entry suspect]. apply reaches_root.
Qed.

Lemma blame_stays_within_the_history_witness :
  exists sb',
    dig insertion_history 20 no_options 3%N "f" sample_tip (text lines_after)
    = Done sb'
    /\ map (fun e => commit (suspect e)) (ent sb') = [1%N; 2%N; 1%N]
    /\ blamed_within (reaches insertion_history (commit sample_tip)) (ent sb').
Proof.
  eexists. split; [vm_compute; reflexivity|]. split; [reflexivity|].
  apply (blame_stays_within_the_history insertion_history 20 no_options 3%N
           "f" sample_tip (text lines_after)).
  vm_compute. reflexivity.
Defined.

(** ** The columns of the plain output *)

Lemma first_seen_cons (seen seen' : list sha1) (e0 : blame_entry)
    (rest : list blame_entry) (k : nat) (e : blame_entry) :
  (forall c, flagged c seen'
             = (c =? commit (suspect e0))%N || flagged c seen) ->
  first_seen seen (e0 :: rest) k e
  <-> (k = O /\ e = e0 /\ flagged (commit (suspect e0)) seen = false)
      \/ (exists k', k = S k' /\ first_seen seen' rest k' e).
Proof.
  intros Hseen. unfold first_seen. split.
  - intros (Hk & Hfl & Hno). destruct k as [|k'].
    + left. cbn in Hk. injection Hk as <-. auto.
    + right. exists k'. split; [reflexivity|]. cbn in Hk.
      split; [exact Hk|]. split.
      * rewrite Hseen, Hfl, orb_false_r. apply N.eqb_neq. intros Heq.
        apply (Hno O e0); [lia|reflexivity|congruence].
      * intros j e' Hj He'. apply (Hno (S j) e'); [lia|exact He'].
  - intros [(-> & -> & Hfl)|(k' & -> & Hk & Hfl & Hno)].
    + split; [reflexivity|]. split; [exact Hfl|]. intros j e' Hj. lia.
    + rewrite Hseen in Hfl. apply orb_false_iff in Hfl as [Hne Hfl].
      apply N.eqb_neq in Hne.
      split; [exact Hk|]. split; [exact Hfl|].
      intros [|j] e' Hj He'; cbn in He'.
      * injection He' as <-. congruence.
      * apply (Hno j e'); [lia|exact He'].
Qed.

Lemma show_name_set (x : Z) :
  has_flag (Z.lor x OUTPUT_SHOW_NAME) OUTPUT_SHOW_NAME = true.
Proof.
  unfold has_flag. apply negb_true_iff, Z.eqb_neq. intros H.
  apply (f_equal (fun z => Z.testbit z 4)) in H.
  rewrite Z.land_spec, Z.lor_spec, orb_true_r in H. discriminate.
Qed.

Lemma measure_names_spec (hex_of buffer_of : sha1 -> list ascii)
    (sb : scoreboard) (st st' : names) (e : blame_entry) :
  measure_names hex_of buffer_of sb st e = Some st' ->
  (forall c, flagged c (names_shown st')
             = (c =? commit (suspect e))%N || flagged c (names_shown st))
  /\ names_option st'
     = (if negb (flagged (commit (suspect e)) (names_shown st))
           && negb (strcmp (path (suspect e)) (sb_path sb) =? 0)
        then Z.lor (names_option st) OUTPUT_SHOW_NAME else names_option st)
  /\ longest_file st'
     = (if negb (flagged (commit (suspect e)) (names_shown st))
        then Z.max (longest_file st) (strlen (path (suspect e)))
        else longest_file st).
Proof.
  unfold measure_names. cbn zeta.
  destruct (flagged (commit (suspect e)) (names_shown st)) eqn:Hfl;
    cbn [negb andb].
  - intros H. injection H as <-. split; [|auto].
    intros c. destruct (N.eqb_spec c (commit (suspect e))) as [->|];
      [rewrite Hfl|]; reflexivity.
  - destruct (get_commit_info _ _ _) as [[ci b1]|]; [|discriminate].
    cbn [mbind option_bind]. intros H. injection H as <-.
    cbn [names_shown names_option longest_file]. split; [reflexivity|].
    split; [reflexivity|].
    destruct (Z.ltb_spec (longest_file st) (strlen (path (suspect e)))); lia.
Qed.

Lemma measure_entries_spec (hex_of buffer_of : sha1 -> list ascii)
    (sb : scoreboard) (l : list blame_entry) :
  forall st st',
    measure_entries hex_of buffer_of sb l st = Some st' ->
    (names_option st' = names_option st
     \/ names_option st' = Z.lor (names_option st) OUTPUT_SHOW_NAME)
    /\ (has_flag (names_option st') OUTPUT_SHOW_NAME = true
        <-> has_flag (names_option st) OUTPUT_SHOW_NAME = true
            \/ exists k e, first_seen (names_shown st) l k e
                           /\ strcmp (path (suspect e)) (sb_path sb) <> 0)
    /\ longest_file st <= longest_file st'
    /\ (forall k e, first_seen (names_shown st) l k e ->
                    strlen (path (suspect e)) <= longest_file st')
    /\ (longest_file st' = longest_file st
        \/ exists k e, first_seen (names_shown st) l k e
                       /\ longest_file st' = strlen (path (suspect e))).
Proof.
  induction l as [|e0 rest IH]; intros st st' H; cbn [measure_entries] in H.
  - injection H as <-. split; [auto|]. split.
    + split; [auto|]. intros [H|(k & e & (Hk & _) & _)]; [exact H|].
      discriminate.
    + split; [lia|]. split; [|auto]. intros k e (Hk & _). discriminate.
  - destruct (measure_names hex_of buffer_of sb st e0) as [st1|] eqn:H1;
      [|discriminate].
    cbn [mbind option_bind] in H.
    destruct (measure_names_spec _ _ _ _ _ _ H1) as (Hseen & Hopt & Hfile).
    destruct (IH _ _ H) as (Hval & Hflag & Hle & Hall & Hmax).
    assert (Hcons := fun k e => first_seen_cons (names_shown st)
                                  (names_shown st1) e0 rest k e Hseen).
    destruct (flagged (commit (suspect e0)) (names_shown st)) eqn:Hfl;
      cbn [negb andb] in Hopt, Hfile.
    + (* an entry of a commit that has been measured *)
      rewrite Hopt in Hval, Hflag. rewrite Hfile in Hle, Hmax.
      split; [exact Hval|]. split; [|split; [exact Hle|split]].
      * rewrite Hflag. split.
        -- intros [Hf|(k & e & Hk & Hp)]; [auto|]. right.
           exists (S k), e. split; [|exact Hp]. apply Hcons. eauto.
        -- intros [Hf|(k & e & Hk & Hp)]; [auto|]. right.
           apply Hcons in Hk as [(_ & _ & Hno)|(k' & -> & Hk)];
             [congruence|eauto].
      * intros k e Hk.
        apply Hcons in Hk as [(_ & _ & Hno)|(k' & -> & Hk)];
          [congruence|eauto].
      * destruct Hmax as [Hmax|(k & e & Hk & Hmax)]; [auto|]. right.
        exists (S k), e. split; [|exact Hmax]. apply Hcons. eauto.
    + (* the first entry of its commit *)
      assert (Hfirst : first_seen (names_shown st) (e0 :: rest) O e0)
        by (apply Hcons; auto).
      split; [|split; [|split; [lia|split]]].
      * rewrite Hopt in Hval.
        destruct (negb (strcmp (path (suspect e0)) (sb_path sb) =? 0));
          [|exact Hval].
        right. destruct Hval as [->| ->]; [reflexivity|].
        rewrite <- Z.lor_assoc, Z.lor_diag. reflexivity.
      * rewrite Hflag, Hopt.
        destruct (Z.eqb_spec (strcmp (path (suspect e0)) (sb_path sb)) 0)
          as [Hsame|Hother]; cbn [negb].
        -- split.
           ++ intros [Hf|(k & e & Hk & Hp)]; [auto|]. right.
              exists (S k), e. split; [|exact Hp]. apply Hcons. eauto.
           ++ intros [Hf|(k & e & Hk & Hp)]; [auto|].
              apply Hcons in Hk as [(_ & -> & _)|(k' & -> & Hk)];
                [contradiction|eauto].
        -- rewrite show_name_set. split; [|auto]. intros _. right.
           exists O, e0. auto.
      * intros k e Hk.
        apply Hcons in Hk as [(_ & -> & _)|(k' & -> & Hk)];
          [lia|eauto].
      * destruct Hmax as [Hmax|(k & e & Hk & Hmax)].
        -- rewrite Hmax, Hfile.
           destruct (Z.max_spec (longest_file st)
                       (strlen (path (suspect e0)))) as [[_ ->]|[_ ->]];
             [right; exists O, e0; auto|auto].
        -- right. exists (S k), e. split; [|exact Hmax]. apply Hcons. eauto.
Qed.

(** X17.  [find_alignment] looks at the path of an entry only when the entry
    is the first of its commit.  Of [*option] it changes no flag but
    [OUTPUT_SHOW_NAME], and that one is on afterwards exactly when it was on
    before or the first entry of some commit has a path other than the path
    blame was asked for; [longest_file] is the length of the longest path
    among the first entries of the commits, 0 when there is none.  A later
    entry of a commit under another, longer path is not measured. *)
Theorem alignment_measures_first_entries
    (hex_of buffer_of : sha1 -> list ascii) (sb : scoreboard) (opt : Z)
    (bufs : static_buffers) (st : names) :
  find_alignment_names hex_of buffer_of sb opt bufs = Some st ->
  (names_option st = opt
   \/ names_option st = Z.lor opt OUTPUT_SHOW_NAME)
  /\ (has_flag (names_option st) OUTPUT_SHOW_NAME = true
      <-> has_flag opt OUTPUT_SHOW_NAME = true
          \/ exists k e, first_of_its_commit (ent sb) k e
                         /\ strcmp (path (suspect e)) (sb_path sb) <> 0)
  /\ (forall k e, first_of_its_commit (ent sb) k e ->
                  strlen (path (suspect e)) <= longest_file st)
  /\ (longest_file st = 0
      \/ exists k e, first_of_its_commit (ent sb) k e
                     /\ longest_file st = strlen (path (suspect e))).
Proof.
  unfold find_alignment_names, first_of_its_commit. intros H.
  destruct (measure_entries_spec _ _ _ _ _ _ H)
    as (Hval & Hflag & _ & Hall & Hmax).
  cbn [names_option longest_file names_shown] in *. auto.
Qed.

Lemma alignment_measures_first_entries_witness :
  exists st,
    find_alignment_names sample_hex sample_buffer copied_scoreboard 0
      no_buffers = Some st
    /\ names_option st = 0 /\ longest_file st = 1
    /\ map (fun e => strlen (path (suspect e))) (ent copied_scoreboard)
       = [1; 5]
    /\ (has_flag (names_option st) OUTPUT_SHOW_NAME = true
        <-> has_flag 0 OUTPUT_SHOW_NAME = true
            \/ exists k e, first_of_its_commit (ent copied_scoreboard) k e
                           /\ strcmp (path (suspect e))
                                     (sb_path copied_scoreboard) <> 0).
Proof.
  eexists. split; [vm_compute; reflexivity|].
  split; [reflexivity|]. split; [reflexivity|]. split; [reflexivity|].
  refine (proj1 (proj2 (alignment_measures_first_entries sample_hex
                          sample_buffer copied_scoreboard 0 no_buffers _ _))).
  vm_compute. reflexivity.
Defined.

Lemma longest_from_spec (f : blame_entry -> Z) (l : list blame_entry) :
  forall m,
    m <= fold_left (fun m e => if m <? f e then f e else m) l m
    /\ Forall (fun e => f e
                        <= fold_left (fun m e => if m <? f e then f e else m)
                                     l m) l.
Proof.
  induction l as [|e l IH]; intros m; cbn [fold_left];
    [split; [lia|constructor]|].
  destruct (IH (if m <? f e then f e else m)) as [Hm Hall].
  destruct (Z.ltb_spec m (f e)); (split; [lia|]); constructor;
    solve [lia | exact Hall].
Qed.

Lemma longest_from_bound (f : blame_entry -> Z) (bound : Z)
    (l : list blame_entry) :
  Forall (fun e => f e <= bound) l ->
  forall m, m <= bound ->
            fold_left (fun m e => if m <? f e then f e else m) l m <= bound.
Proof.
  induction 1 as [|e l He _ IH]; intros m Hm; cbn [fold_left]; [exact Hm|].
  apply IH. destruct (m <? f e); assumption.
Qed.

Lemma longest_width (f : blame_entry -> Z) (l : list blame_entry) :
  Forall (fun e => f e + 1 < 10 ^ 9) l ->
  exists w, lineno_width (longest f l) = Some w
            /\ Forall (fun e => f e + 1 < 10 ^ w) l.
Proof.
  intros Hb. unfold longest.
  destruct (longest_from_spec f l 0) as [H0 Hall].
  assert (Hcap : fold_left (fun m e => if m <? f e then f e else m) l 0
                 <= 10 ^ 9 - 2).
  { apply longest_from_bound; [|cbn; lia].
    eapply Forall_impl; [exact Hb|]. cbn beta. intros e He. lia. }
  destruct (lineno_width_digits _ H0 ltac:(lia)) as (w & Hw & _ & _ & Hlt).
  exists w. split; [exact Hw|].
  eapply Forall_impl; [exact Hall|]. cbn beta. intros e He. lia.
Qed.

(** X18.  The number columns are wide enough.  For entries with at least one
    line each, that start at a line and a source line that are not negative,
    and end below a thousand million, [find_alignment] finds the two
    widths, and every number [emit_other] prints in these columns (one more
    than the final line, one more than the source line, for every line of
    the list) is a positive number with no more digits than its column is
    wide. *)
Theorem number_columns_are_wide_enough (sb : scoreboard) :
  Forall sound_entry (ent sb) ->
  Forall (fun e => 0 <= lno e /\ lno e + num_lines e + 1 < 10 ^ 9
                   /\ s_lno e + num_lines e + 1 < 10 ^ 9) (ent sb) ->
  exists w w',
    max_digits (find_alignment sb) = Some w
    /\ max_orig_digits (find_alignment sb) = Some w'
    /\ Forall (fun x => 1 <= final_line x + 1 < 10 ^ w
                        /\ 1 <= source_line x + 1 < 10 ^ w')
              (lines_of (ent sb)).
Proof.
  intros Hsound Hb. unfold find_alignment.
  cbn [max_digits max_orig_digits].
  destruct (longest_width (fun e => lno e + num_lines e) (ent sb))
    as (w & Hw & Hall).
  { eapply Forall_impl; [exact Hb|]. cbn beta. intros e He. lia. }
  destruct (longest_width (fun e => s_lno e + num_lines e) (ent sb))
    as (w' & Hw' & Hall').
  { eapply Forall_impl; [exact Hb|]. cbn beta. intros e He. lia. }
  exists w, w'. split; [exact Hw|]. split; [exact Hw'|].
  unfold lines_of. apply Forall_forall. intros x Hx.
  apply list_elem_of_In, in_flat_map in Hx as (e & He & Hx).
  apply list_elem_of_In in He.
  unfold blamed_within in *. rewrite Forall_forall in Hsound, Hb, Hall, Hall'.
  specialize (Hsound e He). specialize (Hb e He).
  specialize (Hall e He). specialize (Hall' e He). cbn beta in Hall, Hall'.
  destruct Hsound as [Hn Hs].
  unfold lines_of_entry, run_of_lines in Hx.
  apply in_map_iff in Hx as (cnt & <- & Hcnt). apply in_seq in Hcnt.
  cbn [final_line source_line]. lia.
Qed.

Lemma number_columns_are_wide_enough_witness :
  max_digits (find_alignment blamed_scoreboard) = Some 1
  /\ exists w w',
       max_digits (find_alignment blamed_scoreboard) = Some w
       /\ max_orig_digits (find_alignment blamed_scoreboard) = Some w'
       /\ Forall (fun x => 1 <= final_line x + 1 < 10 ^ w
                           /\ 1 <= source_line x + 1 < 10 ^ w')
                 (lines_of (ent blamed_scoreboard)).
Proof.
  split; [reflexivity|].
  apply (number_columns_are_wide_enough blamed_scoreboard).
  - repeat constructor; cbn; lia.
  - repeat constructor; cbn; lia.
Defined.
(** ** The summary of a commit *)

(** X19.  The summary [get_commit_info] reports is the line behind the first
    empty line of the commit text, without its newline, when a newline ends
    it and it is shorter than the buffer of 1024 bytes; when the text ends
    with that line, or the line does not fit, it is the object name in
    parentheses.  The static buffer holds what is reported. *)
Theorem summary_is_the_line_behind_the_headers
    (hex buffer subject rest : list ascii) (bufs bufs' : static_buffers)
    (ci : commit_info) :
  strstr buffer [newline; newline]
  = Some (newline :: newline :: subject ++ rest) ->
  no_newline subject = true ->
  rest = [] \/ (exists rest', rest = newline :: rest') ->
  get_commit_info hex buffer bufs = Some (ci, bufs') ->
  (rest <> [] -> Z.of_nat (length subject) < BUFFER_SIZE ->
   summary ci = subject)
  /\ (rest = [] \/ BUFFER_SIZE <= Z.of_nat (length subject) ->
      summary ci
      = list_ascii_of_string "(" ++ hex ++ list_ascii_of_string ")")
  /\ summary_buf bufs' = summary ci.
Proof.
  intros Hfound Hline Hrest. unfold get_commit_info.
  destruct (get_ac_line buffer _ BUFFER_SIZE (author_buf bufs)) as [a|];
    [|discriminate].
  destruct (get_ac_line buffer _ BUFFER_SIZE (committer_buf bufs)) as [c|];
    [|discriminate].
  cbn [mbind option_bind]. intros H. injection H as <- <-.
  cbn [summary summary_buf]. split; [|split; [|reflexivity]];
    unfold summary_of; rewrite Hfound;
    change (drop 2 (newline :: newline :: subject ++ rest))
      with (subject ++ rest);
    rewrite (strchr_behind subject rest Hline).
  - intros Hne Hfit. destruct Hrest as [->|[rest' ->]]; [congruence|].
    cbn [strchr]. rewrite Ascii.eqb_refl.
    replace (length (subject ++ newline :: rest') - length (newline :: rest'))%nat
      with (length subject) by (rewrite length_app; lia).
    destruct (Z.leb_spec BUFFER_SIZE (Z.of_nat (length subject))); [lia|].
    apply take_app_length.
  - intros Hcase. destruct Hrest as [->|[rest' ->]]; [reflexivity|].
    destruct Hcase as [Hnil|Hlong]; [discriminate|].
    cbn [strchr]. rewrite Ascii.eqb_refl.
    replace (length (subject ++ newline :: rest') - length (newline :: rest'))%nat
      with (length subject) by (rewrite length_app; lia).
    destruct (Z.leb_spec BUFFER_SIZE (Z.of_nat (length subject))); [|lia].
    reflexivity.
Qed.

Lemma summary_is_the_line_behind_the_headers_witness :
  exists ci bufs',
    get_commit_info (sample_hex 1%N) (commit_text "A U Thor") no_buffers
    = Some (ci, bufs')
    /\ summary ci = list_ascii_of_string "subject"
    /\ summary_buf bufs' = summary ci.
Proof.
  eexists _, _. split; [vm_compute; reflexivity|].
  split; [reflexivity|].
  refine (proj2 (proj2 (summary_is_the_line_behind_the_headers
                          (sample_hex 1%N) (commit_text "A U Thor")
                          (list_ascii_of_string "subject")
                          (newline :: newline
                             :: list_ascii_of_string (line "body"))
                          no_buffers _ _ _ _ _ _))).
  - vm_compute. reflexivity.
  - vm_compute. reflexivity.
  - right. eexists. reflexivity.
  - vm_compute. reflexivity.
Defined.

(** ** The mover and the copier, line by line *)

Lemma for_each_entry_done (P : list blame_entry -> Prop)
    (body : scoreboard -> nat -> blame_entry -> outcome (scoreboard * nat)) :
  (forall sb i e sb' i',
     P (ent sb) -> ent sb !! i = Some e ->
     body sb i e = Done (sb', i') -> P (ent sb')) ->
  forall fuel sb i sb',
    P (ent sb) -> for_each_entry fuel body sb i = Done sb' -> P (ent sb').
Proof.
  intros Hbody. induction fuel as [|fuel IH]; intros sb i sb' Hl;
    cbn [for_each_entry]; destruct (ent sb !! i) as [e|] eqn:He;
    try discriminate; try (intros H; injection H as <-; exact Hl).
  destruct (body sb i e) as [[sb1 i1]| |] eqn:Hb; cbn; try discriminate.
  apply IH. eapply Hbody; eauto.
Qed.

Lemma lines_of_entry_same (x y : blame_entry) :
  same_but_score x y -> lines_of_entry x = lines_of_entry y.
Proof.
  intros (Hl & Hn & Hs & Hg & Hsl). unfold lines_of_entry.
  rewrite Hl, Hn, Hs, Hg, Hsl. reflexivity.
Qed.

Lemma pieces_lines_same (pre post : option blame_entry)
    (mid mid' : blame_entry) :
  same_but_score mid' mid ->
  lines_of (pieces pre mid' post) = lines_of (pieces pre mid post).
Proof.
  intros Hs. pose proof (lines_of_entry_same _ _ Hs) as Hm.
  unfold pieces. destruct pre as [s0|], post as [s2|];
    cbn [lines_of flat_map];
    change (lines_of_entry (dup_entry mid')) with (lines_of_entry mid');
    change (lines_of_entry (dup_entry mid)) with (lines_of_entry mid);
    rewrite Hm; reflexivity.
Qed.

Lemma pieces_lines (e : blame_entry) (tlno plno same : Z) (o : origin)
    (mid : blame_entry) :
  guilty e = false ->
  split1 (split_overlap e tlno plno same o) = Some mid ->
  lines_of (pieces (split0 (split_overlap e tlno plno same o)) mid
                   (split2 (split_overlap e tlno plno same o)))
  = map (pass_line [ {| w_tlno := tlno; w_plno := plno; w_same := same |} ]
                   (suspect e) o)
        (lines_of_entry e).
Proof.
  intros Hg Hmid. rewrite <- three_way_lines.
  pose proof (pieces_are_regions e tlno plno same o mid Hmid) as Hreg.
  cbn zeta in Hreg. rewrite Hreg. unfold three_way, passed_over.
  rewrite Hg, cmp_suspect_refl. cbn [Z.eqb negb orb andb].
  apply split_overlap_mid in Hmid as [Hlt _].
  destruct (Z.ltb_spec (Z.max (s_lno e) tlno)
                       (Z.min (s_lno e + num_lines e) same)); [reflexivity|lia].
Qed.

Lemma Forall2_map_diag {X : Type} (R : X -> X -> Prop) (f : X -> X)
    (l : list X) :
  Forall (fun x => R x (f x)) l -> Forall2 R l (map f l).
Proof. induction 1; cbn [map]; constructor; assumption. Qed.

Lemma Forall2_same {X : Type} (R : X -> X -> Prop) (l : list X) :
  (forall x, R x x) -> Forall2 R l l.
Proof. intros H. induction l; constructor; auto. Qed.

Lemma Forall2_chain {X : Type} (R : X -> X -> Prop) :
  (forall x y z, R x y -> R y z -> R x z) ->
  forall l1 l2 l3, Forall2 R l1 l2 -> Forall2 R l2 l3 -> Forall2 R l1 l3.
Proof.
  intros Htrans l1 l2 l3 H12. revert l3.
  induction H12 as [|x y l1 l2 Hxy _ IH]; intros l3 H23;
    inversion H23; subst; constructor; eauto.
Qed.

Section Moves.

Variables (G : thresholds) (E : collaborators) (b t : Z) (target : origin).
Variable to : sha1 -> string -> Prop.

Let admitted (o : origin) : Prop := to (commit o) (path o).

Lemma reblamed_refl (x : blamed_line) : reblamed target to x x.
Proof. left. reflexivity. Qed.

Lemma reblamed_trans (x y z : blamed_line) :
  reblamed target to x y -> reblamed target to y z -> reblamed target to x z.
Proof.
  intros [->|(Hs & Ha & Hf & Hs' & Hto)]; [auto|].
  intros [->|(_ & _ & Hf2 & Hs2 & Hto2)].
  - right. auto.
  - right. repeat split; auto. congruence.
Qed.

Lemma entry_reblamed (e : blame_entry) (w : window) (o : origin) :
  passed_over e target = false -> admitted o ->
  Forall2 (reblamed target to) (lines_of_entry e)
          (map (pass_line [w] (suspect e) o) (lines_of_entry e)).
Proof.
  intros Hpo Ho. unfold passed_over in Hpo.
  apply orb_false_iff in Hpo as [Hg Hacc]. apply negb_false_iff in Hacc.
  apply Forall2_map_diag, Forall_forall. intros x Hx.
  unfold lines_of_entry, run_of_lines in Hx.
  apply list_elem_of_In, in_map_iff in Hx as (cnt & <- & _).
  unfold pass_line. cbn [settled source_line].
  rewrite Hg, accuses_cmp_suspect, cmp_suspect_refl. cbn [negb andb Z.eqb].
  cbn [List.find]. destruct (in_window _ w); [|left; reflexivity].
  right. cbn [settled final_line line_commit line_path].
  rewrite accuses_cmp_suspect. auto.
Qed.

Lemma apply_above_moves (limit : Z) (sb sb' : scoreboard) (sp : split3)
    (i i' : nat) (e : blame_entry) :
  partition b t (ent sb) -> ent sb !! i = Some e ->
  passed_over e target = false -> proposal e admitted sp ->
  apply_above limit sb sp i = Done (sb', i') ->
  partition b t (ent sb')
  /\ Forall2 (reblamed target to) (lines_of (ent sb)) (lines_of (ent sb')).
Proof.
  intros Hpart He Hpo Hprop. unfold apply_above.
  assert (Hsame : forall r : scoreboard * nat,
             Done (sb, i) = Done r ->
             partition b t (ent (fst r))
             /\ Forall2 (reblamed target to) (lines_of (ent sb))
                        (lines_of (ent (fst r)))).
  { intros r H. injection H as <-. split; [exact Hpart|].
    apply Forall2_same, reblamed_refl. }
  destruct (split1 sp) as [m|] eqn:Hm; [|intros H; exact (Hsame _ H)].
  destruct (limit <? ent_score sb m); [|intros H; exact (Hsame _ H)].
  destruct Hprop as [Hnone|(tl & pl & sm & o & mid & mid' & HQ & H1 & H0 & H2
                            & Hm' & Hs)]; [congruence|].
  rewrite Hm in Hm'. injection Hm' as <-.
  destruct (split_at _ _ _ He) as [Hent Hlen].
  remember (take i (ent sb)) as l1 eqn:Hl1.
  remember (drop (S i) (ent sb)) as l2 eqn:Hl2.
  destruct (split_overlap_linked _ _ _ _ _ _ H1) as [Hlink Hnum].
  cbn zeta in Hlink, Hnum.
  assert (Hsc : same_but_score (cache_score sb m) mid)
    by (destruct Hs as (? & ? & ? & ? & ?); repeat split; assumption).
  destruct (pieces_respan (split0 (split_overlap e tl pl sm o))
              (split2 (split_overlap e tl pl sm o)) mid (cache_score sb m)
              (lno e) (lno e + num_lines e) Hsc) as (Hlink' & Hnum' & Hsign).
  rewrite H0, H2.
  pose proof (split_blame_spec sb _ _ (cache_score sb m) e l1 l2 b t Hent
                Hpart (Hlink' Hlink) (Hnum' Hnum)) as Hspec.
  rewrite Hlen in Hspec. rewrite Hspec.
  destruct (forallb (fun x => 0 <=? s_lno x) _) eqn:Hpos; [|discriminate].
  match goal with
  | |- Done (with_ent sb ?l, _) = _ -> _ => set (new := l)
  end.
  intros H. injection H as <- _.
  change (ent (with_ent sb new)) with new. subst new. split.
  - rewrite Hent in Hpart.
    eapply partition_replace; [exact Hpart|exact (Hlink' Hlink)| |].
    + specialize (Hnum' Hnum). rewrite Forall_forall in Hnum'.
      rewrite forallb_forall in Hpos. apply Forall_forall. intros x Hx.
      split; [apply Hnum'; exact Hx|].
      apply list_elem_of_In in Hx. apply Hpos in Hx. lia.
    + apply pieces_nonempty.
  - rewrite Hent. rewrite !lines_of_app.
    change (lines_of (e :: l2)) with (lines_of_entry e ++ lines_of l2).
    apply Forall2_app; [apply Forall2_same, reblamed_refl|].
    apply Forall2_app; [|apply Forall2_same, reblamed_refl].
    rewrite (pieces_lines_same _ _ _ _ Hsc).
    rewrite (pieces_lines e tl pl sm o mid); [|
      unfold passed_over in Hpo; apply orb_false_iff in Hpo; tauto|exact H1].
    apply entry_reblamed; assumption.
Qed.

Lemma loop_moves
    (body : scoreboard -> nat -> blame_entry -> outcome (scoreboard * nat)) :
  (forall sb i e sb' i',
     partition b t (ent sb) -> ent sb !! i = Some e ->
     body sb i e = Done (sb', i') ->
     partition b t (ent sb')
     /\ Forall2 (reblamed target to) (lines_of (ent sb))
                (lines_of (ent sb'))) ->
  forall fuel sb sb',
    partition b t (ent sb) ->
    for_each_entry fuel body sb O = Done sb' ->
    partition b t (ent sb')
    /\ Forall2 (reblamed target to) (lines_of (ent sb)) (lines_of (ent sb')).
Proof.
  intros Hbody fuel sb sb' Hpart.
  apply (for_each_entry_done
           (fun l => partition b t l
                     /\ Forall2 (reblamed target to) (lines_of (ent sb))
                                (lines_of l))).
  - intros sb0 i e sb1 i1 [Hp0 Hl0] He Hb.
    destruct (Hbody _ _ _ _ _ Hp0 He Hb) as [Hp1 Hl1].
    split; [exact Hp1|].
    eapply Forall2_chain; [exact reblamed_trans|exact Hl0|exact Hl1].
  - split; [exact Hpart|]. apply Forall2_same, reblamed_refl.
Qed.

Lemma find_move_in_parent_moves (fuel : nat) (sb sb' : scoreboard)
    (parent : origin) (stop : bool) :
  admitted parent -> partition b t (ent sb) ->
  find_move_in_parent G E fuel sb target parent = Done (sb', stop) ->
  partition b t (ent sb')
  /\ Forall2 (reblamed target to) (lines_of (ent sb)) (lines_of (ent sb')).
Proof.
  intros Hp Hpart. unfold find_move_in_parent.
  assert (Hsame : partition b t (ent sb)
                  /\ Forall2 (reblamed target to) (lines_of (ent sb))
                             (lines_of (ent sb)))
    by (split; [exact Hpart|apply Forall2_same, reblamed_refl]).
  destruct (find_last_in_target sb target <? 0);
    [intros H; injection H as <- _; exact Hsame|].
  destruct (read_sha1_file E (blob_sha1 parent)) as [file_p|];
    [|intros H; injection H as <- _; exact Hsame].
  destruct (for_each_entry fuel _ sb O) as [sb1| |] eqn:H1; cbn;
    try discriminate.
  intros H. injection H as <- _. revert H1.
  apply loop_moves; [|exact Hpart].
  intros sb0 i e sb2 i2 Hp0 He. unfold move_body.
  destruct (passed_over e target) eqn:Hpo.
  - intros H. injection H as <- _. split; [exact Hp0|].
    apply Forall2_same, reblamed_refl.
  - apply (apply_above_moves _ _ _ _ _ _ e); auto.
    apply find_copy_in_blob_proposal. exact Hp.
Qed.

Lemma find_copy_in_parent_moves (fuel : nat) (sb sb' : scoreboard)
    (parent : sha1) (porigin : option origin) (opt : Z) (stop : bool) :
  (forall o, commit o = parent -> admitted o) ->
  partition b t (ent sb) ->
  find_copy_in_parent G E fuel sb target parent porigin opt
  = Done (sb', stop) ->
  partition b t (ent sb')
  /\ Forall2 (reblamed target to) (lines_of (ent sb)) (lines_of (ent sb')).
Proof.
  intros Hp Hpart. unfold find_copy_in_parent.
  destruct (find_last_in_target sb target <? 0).
  { intros H; injection H as <- _. split; [exact Hpart|].
    apply Forall2_same, reblamed_refl. }
  cbn zeta.
  destruct (for_each_entry fuel _ sb O) as [sb1| |] eqn:H1; cbn;
    try discriminate.
  intros H. injection H as <- _. revert H1.
  apply loop_moves; [|exact Hpart].
  intros sb0 i e sb2 i2 Hp0 He Hrun.
  apply then_allocate_done in Hrun as (sb3 & Hrun & ->). revert Hrun.
  unfold copy_body.
  destruct (passed_over e target) eqn:Hpo.
  { intros H. injection H as <- _. split; [exact Hp0|].
    apply Forall2_same, reblamed_refl. }
  destruct (copy_candidates E sb0 e parent porigin _ no_split)
    as [split| |] eqn:Hc; cbn; try discriminate.
  apply (apply_above_moves _ _ _ _ _ _ e); auto.
  pose proof (copy_candidates_within E (fun c => c = parent) sb0 e parent
                porigin _ eq_refl no_split split
                (or_introl eq_refl) Hc) as Hprop.
  destruct Hprop as [Hnone|(tl & pl & sm & o & mid & mid' & HQ & Hrest)];
    [left; exact Hnone|].
  right. exists tl, pl, sm, o, mid, mid'. split; [apply Hp, HQ|exact Hrest].
Qed.

End Moves.

(** X20.  The mover and the copier, line by line.  On a partition, a call of
    [find_move_in_parent] or of [find_copy_in_parent] that returns leaves a
    partition of the same lines, and, read line by line, it has left every
    line as it was, or it has taken an unresolved line of the target to the
    parent: the mover to the parent's origin it was handed, the copier to
    some path of the parent commit.  Such a line is unresolved again and
    keeps its final line number; guilty lines and the lines of other
    suspects are not touched. *)
Theorem mover_and_copier_line_by_line
    (G : thresholds) (E : collaborators) (fuel : nat) (sb : scoreboard)
    (b t : Z) (target : origin) :
  partition b t (ent sb) ->
  (forall parent sb' stop,
     find_move_in_parent G E fuel sb target parent = Done (sb', stop) ->
     partition b t (ent sb')
     /\ Forall2 (reblamed target
                   (fun c p => c = commit parent /\ p = path parent))
                (lines_of (ent sb)) (lines_of (ent sb')))
  /\ (forall parent porigin opt sb' stop,
        find_copy_in_parent G E fuel sb target parent porigin opt
        = Done (sb', stop) ->
        partition b t (ent sb')
        /\ Forall2 (reblamed target (fun c _ => c = parent))
                   (lines_of (ent sb)) (lines_of (ent sb'))).
Proof.
  intros Hpart. split.
  - intros parent sb' stop.
    apply find_move_in_parent_moves; [split; reflexivity|exact Hpart].
  - intros parent porigin opt sb' stop.
    apply find_copy_in_parent_moves; [auto|exact Hpart].
Qed.

Lemma mover_and_copier_line_by_line_witness :
  partition 0 3 (ent (insertion_scoreboard sample_target))
  /\ exists sb',
       find_move_in_parent no_thresholds insertion_history 10
         (insertion_scoreboard sample_target) sample_target sample_parent
       = Done (sb', false)
       /\ map line_commit (lines_of (ent sb')) = [1%N; 2%N; 2%N]
       /\ Forall2 (reblamed sample_target
                     (fun c p => c = commit sample_parent
                                 /\ p = path sample_parent))
                  (lines_of (ent (insertion_scoreboard sample_target)))
                  (lines_of (ent sb')).
Proof.
  assert (Hpart : partition 0 3 (ent (insertion_scoreboard sample_target))).
  { cbn. repeat split; try discriminate; try lia.
    repeat constructor; cbn; lia. }
  split; [exact Hpart|].
  eexists. split; [vm_compute; reflexivity|]. split; [reflexivity|].
  refine (proj2 (proj1 (mover_and_copier_line_by_line no_thresholds
                          insertion_history 10
                          (insertion_scoreboard sample_target) 0 3
                          sample_target Hpart)
                   sample_parent _ false _)).
  vm_compute. reflexivity.
Defined.

(** ** Origins as objects

    [find_origin] hands back the object an entry carries when there is one
    for the commit and the path, so the origins of a scoreboard stay
    interned as long as no round of the first loop of [pass_blame] makes a
    second object for a commit it has made one for: as long as no commit
    names a parent twice. *)

Lemma cmp_suspect_sym (a b : origin) :
  cmp_suspect a b = 0 -> cmp_suspect b a = 0.
Proof.
  intros H. apply cmp_suspect_eq in H as [Hc Hp]. apply cmp_suspect_eq. auto.
Qed.

Lemma drawn_from_carried (l : list blame_entry) : drawn_from (carried l) l.
Proof. apply Forall_forall. intros e He. exists e. auto. Qed.

Lemma drawn_from_impl (P Q : origin -> Prop) (l : list blame_entry) :
  (forall x, P x -> Q x) -> drawn_from P l -> drawn_from Q l.
Proof. intros H Hl. eapply Forall_impl; [exact Hl|]. intros e. apply H. Qed.

Lemma drawn_interned (P : origin -> Prop) (l : list blame_entry) :
  one_object_each P -> drawn_from P l -> interned l.
Proof.
  intros HP Hl a b (ea & Ha & <-) (eb & Hb & <-).
  unfold drawn_from in Hl. rewrite Forall_forall in Hl. apply HP; auto.
Qed.

(** The origins of [l] together with others that fit [l] and are one object
    each. *)
Lemma one_object_each_with (l : list blame_entry) (S : origin -> Prop) :
  interned l -> (forall x, S x -> fits l x) -> one_object_each S ->
  one_object_each (fun x => carried l x \/ S x).
Proof.
  intros Hl Hfits HS a b [Ha|Ha] [Hb|Hb] Hcmp.
  - apply Hl; assumption.
  - apply (Hfits b Hb a Ha Hcmp).
  - symmetry. apply (Hfits a Ha b Hb). apply cmp_suspect_sym, Hcmp.
  - apply HS; assumption.
Qed.

Lemma one_object_each_eq (o : origin) : one_object_each (eq o).
Proof. intros a b <- <- _. reflexivity. Qed.

Section Objects.

Variables (G : thresholds) (E : collaborators).

Lemma find_origin_fits (sb : scoreboard) (c : sha1) (p : string)
    (o : origin) :
  interned (ent sb) -> find_origin E sb c p = Some o -> fits (ent sb) o.
Proof.
  intros Hl. unfold find_origin.
  destruct (List.find _ (ent sb)) as [e0|] eqn:Hf.
  - intros H. injection H as <-. apply find_some in Hf as [Hin _].
    intros x Hx Hcmp. apply Hl; [exact Hx| |exact Hcmp].
    exists e0. split; [apply list_elem_of_In, Hin|reflexivity].
  - destruct (tree_blob E c p) as [b|]; [|discriminate].
    intros H. injection H as <-. intros x (e & He & <-) Hcmp.
    apply cmp_suspect_eq in Hcmp as [Hc Hp]. cbn [commit path] in Hc, Hp.
    apply list_elem_of_In in He.
    pose proof (find_none _ _ Hf e He) as Hno. cbn beta in Hno.
    rewrite Hc, Hp, N.eqb_refl in Hno.
    assert (H0 : strcmp p p = 0) by (apply strcmp_eq; reflexivity).
    rewrite H0 in Hno. discriminate Hno.
Qed.

Lemma parent_origin_of_fits (sb : scoreboard) (k : nat) (o : origin)
    (q : sha1) (po : origin) :
  interned (ent sb) -> parent_origin_of E (allocate k sb) o q = Some po ->
  fits (ent sb) po.
Proof.
  intros Hl. unfold parent_origin_of.
  destruct (negb (parse_commit E q)); [discriminate|].
  destruct (find_origin E (allocate k sb) q (path o)) as [x|] eqn:Hf.
  - intros H. injection H as <-.
    apply (find_origin_fits (allocate k sb) q (path o)); assumption.
  - unfold find_rename. destruct (List.find _ _) as [pair|]; [|discriminate].
    apply (find_origin_fits (allocate k sb)). exact Hl.
Qed.

(** What the first loop leaves: the origin of the short cut fits the list,
    and so does every origin of the array, which has the commit of its
    parent. *)
Lemma resolve_parents_objects (o : origin) (parents : list sha1) :
  forall sb k,
    interned (ent sb) ->
    match resolve_parents E (allocate k sb) o parents with
    | SameBlob po => fits (ent sb) po
    | Resolved pos =>
        Forall2 (fun q x => match x with
                            | Some po => commit po = q /\ fits (ent sb) po
                            | None => True
                            end) parents pos
    end.
Proof.
  induction parents as [|p parents IH]; intros sb k Hl;
    cbn [resolve_parents]; [constructor|].
  specialize (IH sb (k + 1)%nat Hl). rewrite <- allocate_allocate in IH.
  destruct (parent_origin_of E (allocate k sb) o p) as [po|] eqn:Hpo.
  - pose proof (parent_origin_of_fits sb k o p po Hl Hpo) as Hfit.
    destruct (hashcmp (blob_sha1 po) (blob_sha1 o) =? 0); [exact Hfit|].
    destruct (resolve_parents E (allocate 1 (allocate k sb)) o parents)
      as [po'|pos]; [exact IH|].
    constructor; [|exact IH]. split; [|exact Hfit].
    eapply parent_origin_of_commit, Hpo.
  - destruct (resolve_parents E (allocate 1 (allocate k sb)) o parents)
      as [po'|pos]; [exact IH|].
    constructor; [exact I|exact IH].
Qed.

Lemma resolved_one_object_each (l : list blame_entry) (parents : list sha1)
    (pos : list (option origin)) :
  interned l -> NoDup parents ->
  Forall2 (fun q x => match x with
                      | Some po => commit po = q /\ fits l po
                      | None => True
                      end) parents pos ->
  one_object_each (fun x => carried l x \/ Some x ∈ pos).
Proof.
  intros Hl Hnd Hall. apply one_object_each_with; [exact Hl| |].
  - intros x Hx. apply list_elem_of_lookup_1 in Hx as [i Hi].
    destruct (Forall2_lookup_r _ _ _ _ _ Hall Hi) as (q & _ & _ & Hfit).
    exact Hfit.
  - intros a b Ha Hb Hcmp.
    apply list_elem_of_lookup_1 in Ha as [i Hi].
    apply list_elem_of_lookup_1 in Hb as [j Hj].
    destruct (Forall2_lookup_r _ _ _ _ _ Hall Hi) as (qa & Hqa & Hca & _).
    destruct (Forall2_lookup_r _ _ _ _ _ Hall Hj) as (qb & Hqb & Hcb & _).
    apply cmp_suspect_eq in Hcmp as [Hc _].
    assert (Hij : i = j).
    { apply (NoDup_lookup _ _ _ qa Hnd Hqa). rewrite Hqb. congruence. }
    subst j. congruence.
Qed.

Lemma hand_over_interned (l : list blame_entry) (o po : origin) :
  interned l -> fits l po -> interned (map (hand_over o po) l).
Proof.
  intros Hl Hfit.
  apply (drawn_interned (fun x => carried l x \/ po = x)).
  - apply one_object_each_with; [exact Hl| |apply one_object_each_eq].
    intros x <-. exact Hfit.
  - apply Forall_forall. intros e' He'.
    apply list_elem_of_fmap in He' as (e & -> & He). unfold hand_over.
    destruct (decide (suspect e = o)); cbn [suspect]; [right; reflexivity|].
    left. exists e. auto.
Qed.

Lemma take_responsibility_interned (s : origin) (sb : scoreboard) :
  interned (ent sb) -> interned (ent (take_responsibility s sb)).
Proof.
  intros Hl. apply (drawn_interned (carried (ent sb))); [exact Hl|].
  unfold take_responsibility.
  apply (coalesce_drawn (carried (ent sb))). cbn [ent with_ent].
  apply plead_guilty_drawn, drawn_from_carried.
Qed.

Lemma copy_candidates_fit (sb : scoreboard) (e : blame_entry)
    (parent : sha1) (porigin : option origin) (queue : list diff_filepair) :
  interned (ent sb) ->
  forall k split split',
    proposal e (fits (ent sb)) split ->
    copy_candidates E (allocate k sb) e parent porigin queue split
    = Done split' ->
    proposal e (fits (ent sb)) split'.
Proof.
  intros Hl.
  induction queue as [|p queue IH]; intros k split split' Hs;
    cbn [copy_candidates]; [intros H; injection H as <-; exact Hs|].
  rewrite allocate_allocate.
  destruct (negb (fs_valid (one p))); [apply IH, Hs|].
  destruct (match porigin with
            | Some po => strcmp (fs_path (one p)) (path po) =? 0
            | None => false
            end); [apply IH, Hs|].
  destruct (find_origin E (allocate k sb) parent (fs_path (one p)))
    as [norigin|] eqn:Hf; [|discriminate].
  destruct (read_sha1_file E (blob_sha1 norigin)) as [file_p|];
    [|apply IH, Hs].
  apply IH. apply copy_split_if_better_proposal; [exact Hs|].
  apply find_copy_in_blob_proposal.
  apply (find_origin_fits (allocate k sb) parent (fs_path (one p))); assumption.
Qed.

Lemma apply_above_interned (limit : Z) (sb sb' : scoreboard) (sp : split3)
    (i j : nat) (e : blame_entry) :
  interned (ent sb) -> ent sb !! i = Some e ->
  proposal e (fits (ent sb)) sp ->
  apply_above limit sb sp i = Done (sb', j) ->
  interned (ent sb').
Proof.
  intros Hl He [Hnone|(tl & pl & sm & o & mid & mid' & Hfit & H1 & H0 & H2
                       & Hm & Hs)].
  - unfold apply_above. rewrite Hnone. intros H. injection H as <- _.
    exact Hl.
  - intros Hrun.
    apply (drawn_interned (fun x => carried (ent sb) x \/ o = x)).
    + apply one_object_each_with; [exact Hl| |apply one_object_each_eq].
      intros x <-. exact Hfit.
    + refine (apply_above_drawn _ limit sb sb' sp i j e _ _ _ Hrun).
      * eapply drawn_from_impl; [|apply drawn_from_carried].
        intros x Hx. left. exact Hx.
      * left. exists e. split; [eapply list_elem_of_lookup_2, He|reflexivity].
      * right. exists tl, pl, sm, o, mid, mid'.
        repeat split; auto; apply Hs.
Qed.

Lemma find_copy_in_parent_interned (fuel : nat) (sb sb' : scoreboard)
    (target : origin) (parent : sha1) (porigin : option origin) (opt : Z)
    (stop : bool) :
  interned (ent sb) ->
  find_copy_in_parent G E fuel sb target parent porigin opt
  = Done (sb', stop) ->
  interned (ent sb').
Proof.
  intros Hl. unfold find_copy_in_parent.
  destruct (find_last_in_target sb target <? 0);
    [intros H; injection H as <- _; exact Hl|].
  cbn zeta.
  destruct (for_each_entry fuel _ sb O) as [sb1| |] eqn:H1; cbn;
    try discriminate.
  intros H. injection H as <- _. revert H1.
  apply (for_each_entry_invariant interned); [|exact Hl].
  intros sb0 i e sb2 i2 Hl0 He Hrun.
  apply then_allocate_done in Hrun as (sb3 & Hrun & ->). revert Hrun.
  unfold copy_body.
  destruct (passed_over e target); [intros H; injection H as <- _; exact Hl0|].
  destruct (copy_candidates E sb0 e parent porigin _ no_split)
    as [split| |] eqn:Hc; cbn; try discriminate.
  apply (apply_above_interned _ _ _ _ _ _ e); auto.
  rewrite <- (allocate_0 sb0) in Hc.
  eapply copy_candidates_fit; [exact Hl0| |exact Hc]. left. reflexivity.
Qed.

Lemma pass_blame_interned (fuel : nat) (sb sb' : scoreboard) (o : origin)
    (opt : Z) :
  NoDup (take MAXPARENT (commit_parents E (commit o))) ->
  interned (ent sb) ->
  pass_blame G E fuel sb o opt = Done sb' ->
  interned (ent sb').
Proof.
  intros Hnd Hl. unfold pass_blame. cbn zeta.
  pose proof (resolve_parents_objects o
                (take MAXPARENT (commit_parents E (commit o))) sb 0 Hl)
    as Hres.
  rewrite allocate_0 in Hres.
  destruct (resolve_parents E sb o
              (take MAXPARENT (commit_parents E (commit o)))) as [po|pos].
  - intros H. injection H as <-. cbn [ent with_ent].
    apply hand_over_interned; assumption.
  - pose proof (resolved_one_object_each _ _ _ Hl Hnd Hres) as Hone.
    set (P := fun x => carried (ent sb) x \/ Some x ∈ pos) in Hone.
    assert (Hd : drawn_from P (ent sb)).
    { eapply drawn_from_impl; [|apply drawn_from_carried].
      intros x Hx. left. exact Hx. }
    assert (Hpos : Forall (fun x => match x with
                                    | Some po => P po
                                    | None => True
                                    end) pos).
    { apply Forall_forall. intros [po|] Hin; [right; exact Hin|exact I]. }
    destruct (over_parents _ _ pos) as [[sb1 stop1]| |] eqn:H1; cbn;
      try discriminate.
    assert (Hd1 : drawn_from P (ent sb1)).
    { refine (over_parents_invariant (drawn_from P) _ _ _ _ Hpos
                (allocate _ sb) _ _ Hd H1).
      intros sb0 [po|] sb2 stop Hq Hl0; cbn [skip_unresolved];
        [|intros H; injection H as <- _; exact Hl0].
      apply (pass_blame_to_parent_drawn E P _ _ _ o po stop); assumption. }
    destruct stop1;
      [intros H; injection H as <-; apply (drawn_interned P); assumption|].
    destruct (if has_flag opt PICKAXE_BLAME_MOVE then _ else _)
      as [[sb2 stop2]| |] eqn:H2; cbn; try discriminate.
    assert (Hd2 : drawn_from P (ent sb2)).
    { destruct (has_flag opt PICKAXE_BLAME_MOVE);
        [|injection H2 as <- _; exact Hd1].
      refine (over_parents_invariant (drawn_from P) _ _ _ _ Hpos
                _ _ _ Hd1 H2).
      intros sb0 [po|] sb3 stop Hq Hl0; cbn [skip_unresolved];
        [|intros H; injection H as <- _; exact Hl0].
      apply (find_move_in_parent_drawn G E P _ _ _ o po stop); assumption. }
    assert (Hl2 : interned (ent sb2)) by (apply (drawn_interned P); assumption).
    destruct stop2; [intros H; injection H as <-; exact Hl2|].
    destruct (if has_flag opt PICKAXE_BLAME_COPY then _ else _)
      as [[sb3 stop3]| |] eqn:H3; cbn; try discriminate.
    intros H. injection H as <-.
    destruct (has_flag opt PICKAXE_BLAME_COPY);
      [|injection H3 as <- _; exact Hl2].
    refine (over_parents_invariant interned (fun _ => True) _ _ _ _
              _ _ _ Hl2 H3).
    + intros sb0 pp sb4 stop _ Hl0.
      apply find_copy_in_parent_interned. exact Hl0.
    + apply Forall_forall. intros; exact I.
Qed.

Lemma assign_blame_interned (opt : Z) (fuel : nat) :
  no_parent_twice E ->
  forall sb sb',
    interned (ent sb) ->
    assign_blame G E fuel sb opt = Done sb' ->
    interned (ent sb').
Proof.
  intros Hnd.
  induction fuel as [|fuel IH]; intros sb sb' Hl; cbn [assign_blame];
    destruct (List.find (fun e => negb (guilty e)) (ent sb)) as [e0|] eqn:Hf;
    try discriminate; try (intros H; injection H as <-; exact Hl).
  destruct (if worth_digging E (commit (suspect e0)) then _ else _)
    as [sb1| |] eqn:H1; cbn; try discriminate.
  apply IH.
  apply (take_responsibility_interned (suspect e0) sb1).
  destruct (worth_digging E (commit (suspect e0)));
    [|injection H1 as <-; exact Hl].
  revert H1. apply pass_blame_interned; [apply Hnd|exact Hl].
Qed.

End Objects.

(** X23.  On a scoreboard whose origins are interned the short cut does
    what is asked of it: when the target is an object the list carries and
    the first loop of [pass_blame] reaches a parent in which [find_origin]
    finds the target's path with the target's blob, [pass_blame] returns at
    once, every entry that accuses the commit and the path of the target
    accuses that parent's origin, every other entry is as it was, and the
    origins are interned still. *)
Theorem short_cut_hands_over_every_accuser
    (G : thresholds) (E : collaborators) (sb : scoreboard) (o : origin)
    (opt : Z) (before after : list sha1) (p : sha1) (porigin : origin) :
  interned (ent sb) -> carried (ent sb) o ->
  commit_parents E (commit o) = before ++ p :: after ->
  (length before < MAXPARENT)%nat ->
  (forall i q, before !! i = Some q ->
               match parent_origin_of E (allocate i sb) o q with
               | Some po => blob_sha1 po <> blob_sha1 o
               | None => True
               end) ->
  parse_commit E p = true ->
  find_origin E (allocate (length before) sb) p (path o) = Some porigin ->
  blob_sha1 porigin = blob_sha1 o ->
  forall fuel,
    exists sb',
      pass_blame G E fuel sb o opt = Done sb'
      /\ all_handed_over o porigin (ent sb) (ent sb')
      /\ Forall2 (fun e e' => cmp_suspect (suspect e) o <> 0 -> e' = e)
                 (ent sb) (ent sb')
      /\ interned (ent sb').
Proof.
  intros Hl Ho Hparents Hlen Hbefore Hparse Hfind Hblob fuel.
  unfold pass_blame.
  rewrite Hparents, take_app_ge by lia.
  destruct (MAXPARENT - length before)%nat as [|k] eqn:Hk; [lia|].
  cbn [take]. cbn zeta. eexists.
  rewrite (resolve_parents_same_blob E sb o porigin p before _ Hbefore);
    [|unfold parent_origin_of; rewrite Hparse, Hfind; reflexivity|exact Hblob].
  split; [reflexivity|]. cbn [ent with_ent allocate].
  split; [|split].
  - unfold all_handed_over. apply Forall2_fmap_r, Forall_Forall2_diag.
    apply Forall_forall. intros e He Hcmp.
    assert (Hs : suspect e = o).
    { apply Hl; [exists e; auto|exact Ho|exact Hcmp]. }
    unfold hand_over. destruct (decide (suspect e = o)); [reflexivity|].
    contradiction.
  - apply Forall2_fmap_r, Forall_Forall2_diag.
    apply Forall_forall. intros e He Hcmp. unfold hand_over.
    destruct (decide (suspect e = o)) as [Heq|]; [|reflexivity].
    exfalso. apply Hcmp. rewrite Heq. apply cmp_suspect_refl.
  - apply hand_over_interned; [exact Hl|].
    apply (find_origin_fits E (allocate (length before) sb) p (path o));
      assumption.
Qed.

Lemma short_cut_hands_over_every_accuser_witness :
  interned (ent interned_before_the_short_cut)
  /\ carried (ent interned_before_the_short_cut) parent_first
  /\ exists sb',
       pass_blame (effective_scores move_options) once_named_history 0
         interned_before_the_short_cut parent_first (opt move_options)
       = Done sb'
       /\ all_handed_over parent_first root_origin
            (ent interned_before_the_short_cut) (ent sb')
       /\ map (fun e => (lno e, commit (suspect e))) (ent sb')
          = [(0, 1%N); (3, 3%N); (4, 1%N); (8, 3%N); (9, 1%N)].
Proof.
  assert (Hl : interned (ent interned_before_the_short_cut)).
  { apply (drawn_interned
             (fun x => x = parent_first \/ x = grafted_origin)).
    - intros a b [-> | ->] [-> | ->] H; try reflexivity;
        vm_compute in H; discriminate H.
    - unfold drawn_from. cbn.
      repeat (constructor;
              [first [left; reflexivity | right; reflexivity]|]).
      constructor. }
  assert (Ho : carried (ent interned_before_the_short_cut) parent_first).
  { eexists. split; [apply list_elem_of_here|reflexivity]. }
  split; [exact Hl|]. split; [exact Ho|].
  assert (H0 : forall i q, @nil sha1 !! i = Some q ->
                 match parent_origin_of once_named_history
                         (allocate i interned_before_the_short_cut)
                         parent_first q with
                 | Some po => blob_sha1 po <> blob_sha1 parent_first
                 | None => True
                 end)
    by (intros i q H; destruct i; discriminate H).
  destruct (short_cut_hands_over_every_accuser
              (effective_scores move_options) once_named_history
              interned_before_the_short_cut parent_first (opt move_options)
              [] [] 1%N root_origin Hl Ho eq_refl
              ltac:(apply Nat.ltb_lt; reflexivity) H0 eq_refl
              ltac:(vm_compute; reflexivity) eq_refl 0%nat)
    as (sb' & Hrun & Hall & _ & _).
  exists sb'. split; [exact Hrun|]. split; [exact Hall|].
  vm_compute in Hrun. injection Hrun as <-. vm_compute. reflexivity.
Defined.

(** X24.  The origins stay interned when no commit names a parent twice.
    The scoreboard blame starts from has one object; a call of
    [pass_blame], whatever the options and the target, and the end of the
    round of [assign_blame] leave interned what they find interned; and so
    does a whole run of [assign_blame]: every call of [pass_blame] in it
    finds the entries that accuse its target accusing it through one
    object. *)
Theorem origins_stay_interned (G : thresholds) (E : collaborators) :
  no_parent_twice E ->
  (forall st c p o buf sb,
     start_blame st c p o buf = Done sb -> interned (ent sb))
  /\ (forall fuel sb o opt sb',
        interned (ent sb) -> pass_blame G E fuel sb o opt = Done sb' ->
        interned (ent sb') /\ interned (ent (take_responsibility o sb')))
  /\ (forall fuel sb opt sb',
        interned (ent sb) -> assign_blame G E fuel sb opt = Done sb' ->
        interned (ent sb')).
Proof.
  intros Hnd. split; [|split].
  - intros st c p o buf sb. unfold start_blame. cbn zeta.
    destruct (blame_range _ _ _) as [[b t]| |]; cbn; try discriminate.
    intros H. injection H as <-. cbn [ent].
    intros x y (ex & Hx & <-) (ey & Hy & <-) _.
    apply list_elem_of_singleton in Hx, Hy. subst. reflexivity.
  - intros fuel sb o opt sb' Hl Hrun.
    assert (Hl' : interned (ent sb')).
    { revert Hrun. apply pass_blame_interned; [apply Hnd|exact Hl]. }
    split; [exact Hl'|]. apply take_responsibility_interned, Hl'.
  - intros fuel sb opt sb'. apply assign_blame_interned, Hnd.
Qed.

Lemma origins_stay_interned_witness :
  no_parent_twice once_named_history
  /\ exists sb sb',
       start_blame move_options 4%N "f" tip_origin (text lines_of_tip)
       = Done sb
       /\ assign_blame (effective_scores move_options) once_named_history 20
            sb (opt move_options) = Done sb'
       /\ interned (ent sb) /\ interned (ent sb')
       /\ blamed_commits sb'
          = [(0, 4, 3%N); (4, 4, 1%N); (8, 1, 3%N); (9, 8, 1%N)].
Proof.
  assert (Hnd : no_parent_twice once_named_history).
  { intros c. unfold once_named_history, twice_named_history.
    cbn [commit_parents].
    destruct (c =? 3)%N; [repeat constructor; set_solver|].
    destruct (c =? 4)%N; [repeat constructor; set_solver|].
    destruct (c =? 2)%N; repeat constructor; set_solver. }
  split; [exact Hnd|].
  destruct (origins_stay_interned (effective_scores move_options)
              once_named_history Hnd) as (Hstart & _ & Hrun).
  destruct (start_blame move_options 4%N "f" tip_origin (text lines_of_tip))
    as [sb| |] eqn:H0; try (vm_compute in H0; discriminate H0).
  destruct (assign_blame (effective_scores move_options) once_named_history
              20 sb (opt move_options)) as [sb'| |] eqn:H1;
    try (vm_compute in H0; injection H0 as <-; vm_compute in H1;
         discriminate H1).
  exists sb, sb'. split; [reflexivity|]. split; [exact H1|].
  pose proof (Hstart _ _ _ _ _ _ H0) as Hl.
  split; [exact Hl|]. split; [exact (Hrun _ _ _ _ Hl H1)|].
  vm_compute in H0. injection H0 as <-. vm_compute in H1.
  injection H1 as <-. vm_compute. reflexivity.
Defined.

(** ** The end of the last chunk

    [find_copy_in_blob] reads [p_next] and [t_next] of a chunk only to reach
    the chunk behind it. *)
Lemma copy_chunks_last (sb : scoreboard) (e : blame_entry) (parent : origin)
    (f : chunk -> chunk) (chunks : list chunk) :
  (forall c, same (f c) = same c) ->
  forall plno tlno split,
    copy_chunks sb e parent (on_last_chunk f chunks) plno tlno split
    = copy_chunks sb e parent chunks plno tlno split.
Proof.
  intros Hf. induction chunks as [|c chunks IH]; intros plno tlno split;
    [reflexivity|].
  destruct chunks as [|c' chunks].
  - cbn [on_last_chunk copy_chunks]. rewrite Hf.
    destruct (num_lines e <=? tlno); reflexivity.
  - change (on_last_chunk f (c :: c' :: chunks))
      with (c :: on_last_chunk f (c' :: chunks)).
    cbn [copy_chunks]. destruct (num_lines e <=? tlno); [reflexivity|].
    apply IH.
Qed.

(** X25.  The marker [\ No newline at end of file] at the end of a diff
    costs the last chunk the context that trails it, and nothing else: the
    chunks are those of the diff without the marker before the last one is
    pulled back, and the loop of [find_copy_in_blob], the one caller of
    [compare_buffer] that asks for context, finds the same split from
    either list, whatever the entry and the parent. *)
Theorem marker_leaves_the_search_as_it_is
    (E : collaborators) (sb : scoreboard) (e : blame_entry)
    (parent : origin) (lines : list string) (plno tlno : Z) (split : split3) :
  finish_patch (consume_lines E (lines ++ [no_newline_marker])
                              initial_diff_state)
  = ret (consume_lines E lines initial_diff_state)
  /\ finish_patch (consume_lines E lines initial_diff_state)
     = on_last_chunk
         (pull_back (hunk_post_context
                       (consume_lines E lines initial_diff_state)))
         (ret (consume_lines E lines initial_diff_state))
  /\ copy_chunks sb e parent
       (finish_patch (consume_lines E (lines ++ [no_newline_marker])
                                    initial_diff_state))
       plno tlno split
     = copy_chunks sb e parent
         (finish_patch (consume_lines E lines initial_diff_state))
         plno tlno split.
Proof.
  assert (Hmarker : forall st,
            finish_patch (process_u_diff E st no_newline_marker) = ret st).
  { intros st. unfold process_u_diff, finish_patch.
    change (is_hunk_header no_newline_marker) with false.
    change (Ascii.eqb (first_char no_newline_marker) " ") with false.
    rewrite andb_false_r. cbn [negb ret hunk_post_context].
    apply pull_back_zero. }
  assert (Hall : finish_patch (consume_lines E (lines ++ [no_newline_marker])
                                             initial_diff_state)
                 = ret (consume_lines E lines initial_diff_state)).
  { rewrite consume_lines_app. apply Hmarker. }
  split; [exact Hall|]. split; [reflexivity|].
  rewrite Hall. unfold finish_patch.
  symmetry. apply copy_chunks_last. reflexivity.
Qed.
